(** * 3DPenCraft: mesh decimation, path search and curve sampling

    A shallow embedding of the algorithmic core of 3DPenCraft
    (GeometryModifier.js, PreProcessorProcess.js, SearchProcess.js,
    CurveIntrapolationProcess.js)
    together with the properties stated about it.

    Numbers.  JavaScript numbers are idealised as rationals ([Q]); the
    only irrational primitive the program uses, [Math.sqrt], is a
    parameter of the development (class [Sqrt]).  Array indices and
    degree counters, which the program only ever increments from zero,
    are natural numbers.

    Objects.  [Vertex] and [Triangle] objects live in two heaps indexed
    by object identity; every JavaScript reference is an identity, so
    aliasing is modelled exactly. *)

From Stdlib Require Import QArith Qminmax Qround Qabs Lqa.
From stdpp Require Import gmap strings list pretty sorting.

Set Default Proof Using "Type".
Set Warnings "-clear-no-such-hyp".

(** * Part I: the model *)

(** ** Numbers *)

(** [a < b] on JavaScript numbers. *)
Definition Qltb (x y : Q) : bool := negb (Qle_bool y x).

(** [Math.max] and [Math.min] on two numbers. *)
Definition Math_max (x y : Q) : Q := if Qltb x y then y else x.
Definition Math_min (x y : Q) : Q := if Qltb y x then y else x.

(** [Math.sqrt] is a parameter. *)
Class Sqrt := Math_sqrt : Q -> Q.

(** ** Arrays *)

(** [l.indexOf(x)]; [None] stands for [-1]. *)
Fixpoint indexOf `{EqDecision A} (l : list A) (x : A) : option nat :=
  match l with
  | [] => None
  | y :: l' => if decide (y = x) then Some 0%nat else S <$> indexOf l' x
  end.

(** [l.splice(i, 1)] for [0 <= i]: nothing happens when [i] is past the end. *)
Definition splice1 {A} (l : list A) (i : nat) : list A := delete i l.

(** [l.splice(i, 0, x)] for [0 <= i]. *)
Definition spliceIn {A} (l : list A) (i : nat) (x : A) : list A :=
  take i l ++ x :: drop i l.

(** [k = l.indexOf(x); if (k > -1) l.splice(k, 1)]. *)
Definition removeFirst `{EqDecision A} (l : list A) (x : A) : list A :=
  match indexOf l x with
  | Some k => splice1 l k
  | None => l
  end.

(** [l.splice(l.indexOf(x), 1)] without the guard: [splice(-1, 1)] removes
    the last element. *)
Definition spliceIndexOf `{EqDecision A} (l : list A) (x : A) : list A :=
  match indexOf l x with
  | Some k => splice1 l k
  | None => removelast l
  end.

(** ** three.js [Vector3] *)

Module Vector3.

#[local] Open Scope Q_scope.

Record t := mk { x : Q; y : Q; z : Q }.

Definition subVectors (a b : t) : t := mk (x a - x b) (y a - y b) (z a - z b).
Definition addVectors (a b : t) : t := mk (x a + x b) (y a + y b) (z a + z b).
Definition multiplyScalar (a : t) (s : Q) : t := mk (x a * s) (y a * s) (z a * s).
Definition divideScalar (a : t) (s : Q) : t := multiplyScalar a (1 / s).
Definition dot (a b : t) : Q := x a * x b + y a * y b + z a * z b.
Definition cross (a b : t) : t :=
  mk (y a * z b - z a * y b) (z a * x b - x a * z b) (x a * y b - y a * x b).
Definition lengthSq (a : t) : Q := x a * x a + y a * y a + z a * z a.
Definition distanceToSquared (a b : t) : Q :=
  let dx := x a - x b in let dy := y a - y b in let dz := z a - z b in
  dx * dx + dy * dy + dz * dz.

Section WithSqrt.
Context `{Sqrt}.
Definition length (a : t) : Q := Math_sqrt (lengthSq a).
Definition distanceTo (a b : t) : Q := Math_sqrt (distanceToSquared a b).
(** [divideScalar( this.length() || 1 )] *)
Definition normalize (a : t) : t :=
  let l := length a in
  divideScalar a (if Qeq_bool l 0 then 1 else l).
End WithSqrt.

Definition zero : t := mk 0 0 0.

End Vector3.

(** ** Mesh graph objects (GeometryModifier.js) *)

(** Object identities of vertices and faces. *)
Abbreviation vid := nat.
Abbreviation fid := nat.

Record Vertex := mkVertex {
  position : Vector3.t;
  index : nat;
  faces : list fid;
  neighbors : list vid;
  collapseCost : Q;
  collapseNeighbor : option vid;
  minCost : Q;
  totalCost : Q
}.

Record Triangle := mkTriangle {
  a : nat; b : nat; c : nat;
  v1 : vid; v2 : vid; v3 : vid;
  normal : Vector3.t;
  center : Vector3.t;
  hash : string;
  degree : nat
}.

Definition set_index (V : Vertex) (i : nat) : Vertex :=
  mkVertex (position V) i (faces V) (neighbors V) (collapseCost V)
    (collapseNeighbor V) (minCost V) (totalCost V).
Definition set_faces (V : Vertex) (l : list fid) : Vertex :=
  mkVertex (position V) (index V) l (neighbors V) (collapseCost V)
    (collapseNeighbor V) (minCost V) (totalCost V).
Definition set_neighbors (V : Vertex) (l : list vid) : Vertex :=
  mkVertex (position V) (index V) (faces V) l (collapseCost V)
    (collapseNeighbor V) (minCost V) (totalCost V).
Definition set_collapseCost (V : Vertex) (q : Q) : Vertex :=
  mkVertex (position V) (index V) (faces V) (neighbors V) q
    (collapseNeighbor V) (minCost V) (totalCost V).
Definition set_collapseNeighbor (V : Vertex) (n : option vid) : Vertex :=
  mkVertex (position V) (index V) (faces V) (neighbors V) (collapseCost V)
    n (minCost V) (totalCost V).
Definition set_minCost (V : Vertex) (q : Q) : Vertex :=
  mkVertex (position V) (index V) (faces V) (neighbors V) (collapseCost V)
    (collapseNeighbor V) q (totalCost V).
Definition set_totalCost (V : Vertex) (q : Q) : Vertex :=
  mkVertex (position V) (index V) (faces V) (neighbors V) (collapseCost V)
    (collapseNeighbor V) (minCost V) q.

Definition set_v1 (F : Triangle) (v : vid) : Triangle :=
  mkTriangle (a F) (b F) (c F) v (v2 F) (v3 F) (normal F) (center F) (hash F) (degree F).
Definition set_v2 (F : Triangle) (v : vid) : Triangle :=
  mkTriangle (a F) (b F) (c F) (v1 F) v (v3 F) (normal F) (center F) (hash F) (degree F).
Definition set_v3 (F : Triangle) (v : vid) : Triangle :=
  mkTriangle (a F) (b F) (c F) (v1 F) (v2 F) v (normal F) (center F) (hash F) (degree F).
Definition set_normal (F : Triangle) (n : Vector3.t) : Triangle :=
  mkTriangle (a F) (b F) (c F) (v1 F) (v2 F) (v3 F) n (center F) (hash F) (degree F).
Definition set_center (F : Triangle) (n : Vector3.t) : Triangle :=
  mkTriangle (a F) (b F) (c F) (v1 F) (v2 F) (v3 F) (normal F) n (hash F) (degree F).
Definition set_hash (F : Triangle) (h : string) : Triangle :=
  mkTriangle (a F) (b F) (c F) (v1 F) (v2 F) (v3 F) (normal F) (center F) h (degree F).
Definition set_degree (F : Triangle) (d : nat) : Triangle :=
  mkTriangle (a F) (b F) (c F) (v1 F) (v2 F) (v3 F) (normal F) (center F) (hash F) d.

(** [new Vertex( v, index )] *)
Definition newVertex (v : Vector3.t) (index : nat) : Vertex :=
  mkVertex v index [] [] 0%Q None 0%Q 0%Q.

#[global] Instance Vertex_inhabited : Inhabited Vertex :=
  populate (newVertex Vector3.zero 0).
#[global] Instance Triangle_inhabited : Inhabited Triangle :=
  populate (mkTriangle 0 0 0 0 0 0 Vector3.zero Vector3.zero "" 0).

(** Messages written with [console.log] by [collapse]. *)
Inductive LogEntry :=
  | NoVerticesFound
  | ExceedsAvailable (count : Q).

(** The mesh graph: the three arrays of [VerticesAndFaces], and the
    objects they refer to. *)
Record VerticesAndFaces := mkVF {
  vertexHeap : gmap nat Vertex;
  faceHeap : gmap nat Triangle;
  arrFaces : list fid;
  arrVertices : list vid;
  arrVerticesByCost : list nat;
  console : list LogEntry
}.

Definition vget (s : VerticesAndFaces) (v : vid) : Vertex := vertexHeap s !!! v.
Definition fget (s : VerticesAndFaces) (f : fid) : Triangle := faceHeap s !!! f.
Definition vset (s : VerticesAndFaces) (v : vid) (V : Vertex) : VerticesAndFaces :=
  mkVF (<[v := V]> (vertexHeap s)) (faceHeap s) (arrFaces s) (arrVertices s)
    (arrVerticesByCost s) (console s).
Definition fset (s : VerticesAndFaces) (f : fid) (F : Triangle) : VerticesAndFaces :=
  mkVF (vertexHeap s) (<[f := F]> (faceHeap s)) (arrFaces s) (arrVertices s)
    (arrVerticesByCost s) (console s).
Definition set_arrFaces (s : VerticesAndFaces) (l : list fid) : VerticesAndFaces :=
  mkVF (vertexHeap s) (faceHeap s) l (arrVertices s) (arrVerticesByCost s) (console s).
Definition set_arrVertices (s : VerticesAndFaces) (l : list vid) : VerticesAndFaces :=
  mkVF (vertexHeap s) (faceHeap s) (arrFaces s) l (arrVerticesByCost s) (console s).
Definition set_arrVerticesByCost (s : VerticesAndFaces) (l : list nat) : VerticesAndFaces :=
  mkVF (vertexHeap s) (faceHeap s) (arrFaces s) (arrVertices s) l (console s).
Definition console_log (s : VerticesAndFaces) (e : LogEntry) : VerticesAndFaces :=
  mkVF (vertexHeap s) (faceHeap s) (arrFaces s) (arrVertices s)
    (arrVerticesByCost s) (console s ++ [e]).

(** [verticesCount] and [facesCount] *)
Definition verticesCount (s : VerticesAndFaces) : nat := length (arrVertices s).
Definition facesCount (s : VerticesAndFaces) : nat := length (arrFaces s).

(** *** Triangle methods *)

(** [face.hasVertex( v )] *)
Definition hasVertex (F : Triangle) (v : vid) : bool :=
  bool_decide (v = v1 F) || bool_decide (v = v2 F) || bool_decide (v = v3 F).

(** [indexes.sort( ( a, b ) => a - b )] on three numbers. *)
Definition sort3 (i j k : nat) : list nat :=
  merge_sort Nat.le [i; j; k].

(** The string written by [computeHash] for three vertex indices. *)
Definition hashOf (i j k : nat) : string :=
  match sort3 i j k with
  | [p; q; r] => pretty p +:+ "," +:+ pretty q +:+ "," +:+ pretty r
  | _ => ""
  end.

(** [face.computeHash()] *)
Definition computeHash (s : VerticesAndFaces) (f : fid) : VerticesAndFaces :=
  let F := fget s f in
  fset s f (set_hash F (hashOf (index (vget s (v1 F))) (index (vget s (v2 F)))
                               (index (vget s (v3 F))))).

Section Geometry.
Context `{Sqrt}.

(** The value [computeNormal] stores for the corner positions. *)
Definition normalOf (vA vB vC : Vector3.t) : Vector3.t :=
  let _cb := Vector3.subVectors vC vB in
  let _ab := Vector3.subVectors vA vB in
  Vector3.normalize (Vector3.cross _cb _ab).

(** The value [computeCenter] stores. *)
Definition centerOf (vA vB vC : Vector3.t) : Vector3.t :=
  Vector3.divideScalar (Vector3.addVectors (Vector3.addVectors vA vB) vC) 3.

(** [face.computeNormal()] *)
Definition computeNormal (s : VerticesAndFaces) (f : fid) : VerticesAndFaces :=
  let F := fget s f in
  fset s f (set_normal F (normalOf (position (vget s (v1 F)))
              (position (vget s (v2 F))) (position (vget s (v3 F))))).

(** [face.computeCenter()] *)
Definition computeCenter (s : VerticesAndFaces) (f : fid) : VerticesAndFaces :=
  let F := fget s f in
  fset s f (set_center F (centerOf (position (vget s (v1 F)))
              (position (vget s (v2 F))) (position (vget s (v3 F))))).

End Geometry.

(** *** Vertex methods *)

(** [this.addUniqueNeighbor( vertex )] *)
Definition addUniqueNeighbor (s : VerticesAndFaces) (this vertex : vid) : VerticesAndFaces :=
  let T := vget s this in
  match indexOf (neighbors T) vertex with
  | None => vset s this (set_neighbors T (neighbors T ++ [vertex]))
  | Some _ => s
  end.

(** [this.removeIfNonNeighbor( n )] *)
Definition removeIfNonNeighbor (s : VerticesAndFaces) (this n : vid) : VerticesAndFaces :=
  let T := vget s this in
  match indexOf (neighbors T) n with
  | None => s
  | Some offset =>
      if existsb (fun f => hasVertex (fget s f) n) (faces T) then s
      else vset s this (set_neighbors T (splice1 (neighbors T) offset))
  end.

(** [vertex.faces.push( f )] *)
Definition pushFace (s : VerticesAndFaces) (vertex : vid) (f : fid) : VerticesAndFaces :=
  let T := vget s vertex in vset s vertex (set_faces T (faces T ++ [f])).

Section Decimation.
Context `{Sqrt}.
#[local] Open Scope Q_scope.

(** [new Triangle( v1, v2, v3, a, b, c )], allocated at identity [f]. *)
Definition newTriangle (s : VerticesAndFaces) (f : fid)
    (v1 v2 v3 : vid) (a b c : nat) : VerticesAndFaces :=
  let s := fset s f (mkTriangle a b c v1 v2 v3 Vector3.zero Vector3.zero "" 0) in
  let s := computeNormal s f in
  let s := computeCenter s f in
  let s := pushFace s v1 f in
  let s := addUniqueNeighbor s v1 v2 in
  let s := addUniqueNeighbor s v1 v3 in
  let s := pushFace s v2 f in
  let s := addUniqueNeighbor s v2 v1 in
  let s := addUniqueNeighbor s v2 v3 in
  let s := pushFace s v3 f in
  let s := addUniqueNeighbor s v3 v1 in
  let s := addUniqueNeighbor s v3 v2 in
  s.

(** [computeEdgeCollapseCost( u, v )] *)
Definition sideFacesOf (s : VerticesAndFaces) (u v : vid) : list fid :=
  List.filter (fun f => hasVertex (fget s f) v) (faces (vget s u)).

Definition minCurvatureOf (s : VerticesAndFaces) (w1 w2 face : fid) : Q :=
  let dotProd :=
    Math_max (Vector3.dot (normal (fget s face)) (normal (fget s w1)))
             (Vector3.dot (normal (fget s face)) (normal (fget s w2))) in
  Math_min 1 ((1 - dotProd) / 2).

Definition curvatureOf (s : VerticesAndFaces) (u v : vid) : Q :=
  match sideFacesOf s u v with
  | [w1; w2] =>
      fold_left (fun curvature face => Math_max curvature (minCurvatureOf s w1 w2 face))
                (faces (vget s u)) 0
  | _ => 1
  end.

Definition computeEdgeCollapseCost (s : VerticesAndFaces) (u v : vid) : Q :=
  let edgelength := Vector3.distanceTo (position (vget s v)) (position (vget s u)) in
  edgelength * curvatureOf s u v.

(** One turn of the loop of [computeEdgeCostAtVertex] over the
    neighbours of [v]; [V] is the vertex object being written to. *)
Definition costLoopBody (s : VerticesAndFaces) (v : vid) (V : Vertex) (neighbor : vid) : Vertex :=
  let collapseCost := computeEdgeCollapseCost s v neighbor in
  match collapseNeighbor V with
  | None =>
      set_totalCost (set_minCost (set_collapseNeighbor V (Some neighbor)) collapseCost)
                    collapseCost
  | Some _ =>
      let V := set_totalCost V (totalCost V + collapseCost) in
      if Qltb collapseCost (minCost V)
      then set_minCost (set_collapseNeighbor V (Some neighbor)) collapseCost
      else V
  end.

(** [computeEdgeCostAtVertex( v )]: the updated graph and the returned
    cost.  The fields written ([collapseNeighbor], [minCost],
    [totalCost], [collapseCost]) are not read by
    [computeEdgeCollapseCost], so the costs are taken in the graph as
    it is on entry. *)
Definition computeEdgeCostAtVertex (s : VerticesAndFaces) (v : vid) : VerticesAndFaces * Q :=
  let V := vget s v in
  match neighbors V with
  | [] =>
      (vset s v (set_collapseCost (set_collapseNeighbor V None) (- (1 # 100))),
       - (1 # 100))
  | _ =>
      let costCount := length (neighbors V) in
      let V := fold_left (costLoopBody s v) (neighbors V) (set_collapseNeighbor V None) in
      let cost := totalCost V / inject_Z (Z.of_nat costCount) in
      (vset s v (set_collapseCost V cost), cost)
  end.

(** *** [VerticesAndFaces] methods *)

(** The binary search shared by [addVertex] and [collapse]:
    [low = 0; high = length - 1; while ( low < high ) ...].  For an
    empty array JavaScript has [high = -1] and the loop body never
    runs, as here with [high = 0].  [None]: the loop read the cost of
    an undefined vertex (a [TypeError]). *)
Fixpoint costSearch (fuel : nat) (s : VerticesAndFaces) (cost : Q) (low high : nat)
    : option nat :=
  if (low <? high)%nat then
    match fuel with
    | O => None
    | S fuel =>
        let mid := ((low + high) / 2)%nat in
        e ← arrVerticesByCost s !! mid;
        u ← arrVertices s !! e;
        if Qltb (collapseCost (vget s u)) cost
        then costSearch fuel s cost (mid + 1)%nat high
        else costSearch fuel s cost low mid
    end
  else Some low.

Definition costPosition (s : VerticesAndFaces) (cost : Q) : option nat :=
  let n := length (arrVerticesByCost s) in
  costSearch n s cost 0 (n - 1).

(** [addVertex( vertex )] for the object [vertex]. *)
Definition addVertex (s : VerticesAndFaces) (vertex : vid) : option VerticesAndFaces :=
  let i := length (arrVertices s) in
  let s := vset s vertex (set_index (vget s vertex) i) in
  let s := set_arrVertices s (arrVertices s ++ [vertex]) in
  let cost := collapseCost (vget s vertex) in
  low ← costPosition s cost;
  Some (set_arrVerticesByCost s (spliceIn (arrVerticesByCost s) low i)).

(** First loop of [removeVertex]: [while ( neighbors.length )].  Every
    turn pops one neighbour, so [length neighbors] turns are enough. *)
Fixpoint purgeNeighbors (fuel : nat) (s : VerticesAndFaces) (vertex : vid) : VerticesAndFaces :=
  match fuel with
  | O => s
  | S fuel =>
      let V := vget s vertex in
      match last (neighbors V) with
      | None => s
      | Some n =>
          let s := vset s vertex (set_neighbors V (removelast (neighbors V))) in
          let N := vget s n in
          let s := vset s n (set_neighbors N (removeFirst (neighbors N) vertex)) in
          purgeNeighbors fuel s vertex
      end
  end.

(** [for ( let i = index; i < vertices_count; i++ ) arrVertices[ i ].index = i] *)
Fixpoint reindexFrom (s : VerticesAndFaces) (i : nat) (l : list vid) : VerticesAndFaces :=
  match l with
  | [] => s
  | v :: l => reindexFrom (vset s v (set_index (vget s v) i)) (S i) l
  end.

(** [removeVertex( vertex )] *)
Definition removeVertex (s : VerticesAndFaces) (vertex : vid) : VerticesAndFaces :=
  let s := purgeNeighbors (length (neighbors (vget s vertex))) s vertex in
  let index := index (vget s vertex) in
  let s := set_arrVertices s (splice1 (arrVertices s) index) in
  let s := reindexFrom s index (drop index (arrVertices s)) in
  let byCost := removeFirst (arrVerticesByCost s) index in
  set_arrVerticesByCost s
    (List.map (fun e => if (index <? e)%nat then (e - 1)%nat else e) byCost).

(** [removeNonNeighbors( s, t )], local to [removeFace]; both arguments
    are objects, so the test [s && t] always passes. *)
Definition removeNonNeighbors (s : VerticesAndFaces) (x t : vid) : VerticesAndFaces :=
  removeIfNonNeighbor (removeIfNonNeighbor s x t) t x.

(** [removeFace( f )] *)
Definition removeFace (s : VerticesAndFaces) (f : fid) : VerticesAndFaces :=
  let s := set_arrFaces s (removeFirst (arrFaces s) f) in
  let F := fget s f in
  let a := v1 F in let b := v2 F in let c := v3 F in
  let s := fold_left
    (fun s vertex => vset s vertex
       (set_faces (vget s vertex) (removeFirst (faces (vget s vertex)) f)))
    [a; b; c] s in
  let s := removeNonNeighbors s a b in
  let s := removeNonNeighbors s b c in
  let s := removeNonNeighbors s c a in
  s.

(** [computeFaceHashes()] *)
Definition computeFaceHashes (s : VerticesAndFaces) : VerticesAndFaces :=
  fold_left computeHash (arrFaces s) s.

(** Second half of [populateFromGeometry]: the welded positions and
    the triangle corner indices returned by [indexAndMergeVertices] are
    the inputs.  Vertex [i] is allocated at identity [i], the [k]-th
    triangle at identity [k]. *)
Fixpoint addVertices (s : VerticesAndFaces) (i : nat) (positions : list Vector3.t)
    : VerticesAndFaces :=
  match positions with
  | [] => s
  | p :: positions =>
      let s := vset s i (newVertex p i) in
      addVertices (set_arrVertices s (arrVertices s ++ [i])) (S i) positions
  end.

(** [None]: a corner index is undefined or out of range, and the
    [Triangle] constructor throws. *)
Fixpoint addFaces (s : VerticesAndFaces) (f : fid) (indices : list nat)
    : option VerticesAndFaces :=
  match indices with
  | [] => Some s
  | a :: b :: c :: indices =>
      va ← arrVertices s !! a;
      vb ← arrVertices s !! b;
      vc ← arrVertices s !! c;
      let s := newTriangle s f va vb vc a b c in
      addFaces (set_arrFaces s (arrFaces s ++ [f])) (S f) indices
  | _ => None
  end.

(** [arrVerticesByCost.sort( ... )]: a stable sort by the cost of the
    vertex at each index. *)
Fixpoint insertByCost (cost : nat -> Q) (i : nat) (l : list nat) : list nat :=
  match l with
  | [] => [i]
  | j :: l' => if Qltb (cost j) (cost i) then j :: insertByCost cost i l' else i :: l
  end.

Definition sortByCost (cost : nat -> Q) (l : list nat) : list nat :=
  foldr (insertByCost cost) [] l.

Definition costAtIndex (s : VerticesAndFaces) (i : nat) : Q :=
  match arrVertices s !! i with
  | Some v => collapseCost (vget s v)
  | None => 0
  end.

Definition emptyGraph : VerticesAndFaces := mkVF ∅ ∅ [] [] [] [].

Definition populateFromIndexed (positions : list Vector3.t) (indices : list nat)
    : option VerticesAndFaces :=
  let vertices_count := length positions in
  let s := addVertices emptyGraph 0 positions in
  s ← addFaces s 0 indices;
  let s := fold_left (fun s v => fst (computeEdgeCostAtVertex s v)) (arrVertices s) s in
  let s := set_arrVerticesByCost s (sortByCost (costAtIndex s) (seq 0 vertices_count)) in
  Some (computeFaceHashes s).

(** *** [collapse( count )] *)

(** "Delete faces on edge uv": [i] is one more than the loop index. *)
Fixpoint deleteEdgeFaces (s : VerticesAndFaces) (u v : vid) (i : nat) : VerticesAndFaces :=
  match i with
  | O => s
  | S i =>
      let s :=
        match faces (vget s u) !! i with
        | Some f => if hasVertex (fget s f) v then removeFace s f else s
        | None => s
        end in
      deleteEdgeFaces s u v i
  end.

(** The body of "Update remaining triangles to have v instead of u" for
    the face at position [i] of [u.faces]. *)
Definition moveFace (s : VerticesAndFaces) (u v : vid) (i : nat) : option VerticesAndFaces :=
  face ← faces (vget s u) !! i;
  let s := vset s u (set_faces (vget s u) (splice1 (faces (vget s u)) i)) in
  let s := pushFace s v face in
  let F := fget s face in
  let s :=
    if decide (u = v1 F) then fset s face (set_v1 F v)
    else if decide (u = v2 F) then fset s face (set_v2 F v)
    else if decide (u = v3 F) then fset s face (set_v3 F v)
    else s in
  let F := fget s face in
  let s := removeIfNonNeighbor s u (v1 F) in
  let s := removeIfNonNeighbor s (v1 F) u in
  let s := removeIfNonNeighbor s u (v2 F) in
  let s := removeIfNonNeighbor s (v2 F) u in
  let s := removeIfNonNeighbor s u (v3 F) in
  let s := removeIfNonNeighbor s (v3 F) u in
  let s := addUniqueNeighbor s (v1 F) (v2 F) in
  let s := addUniqueNeighbor s (v1 F) (v3 F) in
  let s := addUniqueNeighbor s (v2 F) (v1 F) in
  let s := addUniqueNeighbor s (v2 F) (v3 F) in
  let s := addUniqueNeighbor s (v3 F) (v1 F) in
  let s := addUniqueNeighbor s (v3 F) (v2 F) in
  let s := computeNormal s face in
  let s := computeCenter s face in
  Some s.

Fixpoint moveFaces (s : VerticesAndFaces) (u v : vid) (i : nat) : option VerticesAndFaces :=
  match i with
  | O => Some s
  | S i => s ← moveFace s u v i; moveFaces s u v i
  end.

(** The body of "Recompute the edge collapse cost of vertices that were
    neighbors of u". *)
Definition recost (s : VerticesAndFaces) (tmpVertex : vid) : option VerticesAndFaces :=
  let '(s, cost) := computeEdgeCostAtVertex s tmpVertex in
  let tmpIndex := index (vget s tmpVertex) in
  let s := set_arrVerticesByCost s (spliceIndexOf (arrVerticesByCost s) tmpIndex) in
  low ← costPosition s cost;
  Some (set_arrVerticesByCost s (spliceIn (arrVerticesByCost s) low tmpIndex)).

Fixpoint recostAll (s : VerticesAndFaces) (tmpVertices : list vid) : option VerticesAndFaces :=
  match tmpVertices with
  | [] => Some s
  | tmpVertex :: tmpVertices => s ← recost s tmpVertex; recostAll s tmpVertices
  end.

(** One turn of the main loop of [collapse].  [None]: the turn throws
    ([u] is undefined). *)
Definition collapseStep (s : VerticesAndFaces) : option VerticesAndFaces :=
  e ← arrVerticesByCost s !! 0%nat;
  u ← arrVertices s !! e;
  match collapseNeighbor (vget s u) with
  | None => Some (removeVertex s u)
  | Some v =>
      let tmpVertices := neighbors (vget s u) in
      let s := deleteEdgeFaces s u v (length (faces (vget s u))) in
      s ← moveFaces s u v (length (faces (vget s u)));
      let s := removeVertex s u in
      recostAll s tmpVertices
  end.

Fixpoint collapseLoop (turns : nat) (s : VerticesAndFaces) : option VerticesAndFaces :=
  match turns with
  | O => Some s
  | S turns => s ← collapseStep s; collapseLoop turns s
  end.

(** The number of turns of [for ( let i = 0; i < count; i++ )]. *)
Definition turnsOf (count : Q) : nat := Z.to_nat (Qceiling count).

(** [collapse( count )].  The last statement, [this.computeFaceHashes],
    names the method without calling it. *)
Definition collapse (count : Q) (s : VerticesAndFaces) : option VerticesAndFaces :=
  let vertices_count := length (arrVertices s) in
  let s :=
    if (vertices_count =? 0)%nat || (length (arrFaces s) =? 0)%nat
    then console_log s NoVerticesFound else s in
  let '(count, s) :=
    if Qltb (inject_Z (Z.of_nat vertices_count)) count
    then let count := inject_Z (Z.of_nat vertices_count) / 2 in
         (count, console_log s (ExceedsAvailable count))
    else (count, s) in
  collapseLoop (turnsOf count) s.

End Decimation.

(** ** Building the geometry, [modify] and the pre-processor
    (GeometryModifier.js, PreProcessorProcess.js) *)

(** [position.push( vertex.x, vertex.y, vertex.z )] *)
Definition coordinates (p : Vector3.t) : list Q := [Vector3.x p; Vector3.y p; Vector3.z p].

(** [index.push( face.v1.index, face.v2.index, face.v3.index )] *)
Definition cornerIndices (s : VerticesAndFaces) (f : fid) : list nat :=
  let face := fget s f in
  [index (vget s (v1 face)); index (vget s (v2 face)); index (vget s (v3 face))].

(** [buildGeometry()]: the messages logged and the [position] and
    [index] arrays handed to the new [BufferGeometry]. *)
Definition buildGeometry (s : VerticesAndFaces) : list string * list Q * list nat :=
  let log :=
    if (length (arrVertices s) =? 0)%nat || (length (arrFaces s) =? 0)%nat
    then ["Vertices not found to build geometry."] else [] in
  let position := flat_map (fun v => coordinates (position (vget s v))) (arrVertices s) in
  let index := flat_map (cornerIndices s) (arrFaces s) in
  (log, position, index).

(** [GeometryModifier.modify( geometry, count )] from the welded
    positions and the corner indices on. *)
Definition modifyIndexed `{Sqrt} (positions : list Vector3.t) (indices : list nat) (count : Q)
    : option (list string * list Q * list nat) :=
  s ← populateFromIndexed positions indices;
  s ← collapse count s;
  Some (buildGeometry s).

(** The reduction step of [PreProcessorProcess.startProcess]:
    [if ( reductionFactor > 0 )
       modifier.collapse( Math.floor( modifier.verticesCount * reductionFactor ) )]. *)
Definition reduceGeometry `{Sqrt} (reductionFactor : Q) (s : VerticesAndFaces)
    : option VerticesAndFaces :=
  if Qltb 0 reductionFactor
  then collapse
         (inject_Z (Qfloor (inject_Z (Z.of_nat (verticesCount s)) * reductionFactor))) s
  else Some s.

(** ** Welding the vertices (GeometryModifier.js, [indexAndMergeVertices]) *)

(** [~ ~ v], that is [ToInt32( v )]: [v] truncated towards zero and
    wrapped into the signed 32-bit integers. *)
Definition toInt32 (v : Q) : Z :=
  let t := Z.quot (Qnum v) (Z.pos (Qden v)) in
  ((t + 2 ^ 31) mod 2 ^ 32 - 2 ^ 31)%Z.

(** [getHash( x, y, z )]: the three truncated coordinates, each followed
    by a comma. *)
Definition getHash (x y z : Q) : string :=
  pretty (toInt32 (x * 10000)) +:+ "," +:+
  pretty (toInt32 (y * 10000)) +:+ "," +:+
  pretty (toInt32 (z * 10000)) +:+ ",".

(** The variables of the loop: the object [hashToIndex], [nextIndex] and
    the two arrays. *)
Record Weld := mkWeld {
  hashToIndex : gmap string nat;
  nextIndex : nat;
  positionsArray : list Q;
  newIndices : list nat
}.

(** One turn of the loop, for the vertex [index] of the position
    attribute [positions], which holds one vector for every three
    numbers of its array.  [None]: [index] is outside the attribute,
    where the source reads [undefined] and goes on with coordinates that
    are not numbers. *)
Definition weldStep (positions : list Vector3.t) (w : Weld) (index : nat) : option Weld :=
  p ← positions !! index;
  let hash := getHash (Vector3.x p) (Vector3.y p) (Vector3.z p) in
  match hashToIndex w !! hash with
  | Some found =>
      Some (mkWeld (hashToIndex w) (nextIndex w) (positionsArray w) (newIndices w ++ [found]))
  | None =>
      Some (mkWeld (<[hash := nextIndex w]> (hashToIndex w))
                   (S (nextIndex w))
                   (positionsArray w ++ [Vector3.x p; Vector3.y p; Vector3.z p])
                   (newIndices w ++ [nextIndex w]))
  end.

Fixpoint weldLoop (positions : list Vector3.t) (w : Weld) (order : list nat) : option Weld :=
  match order with
  | [] => Some w
  | index :: order => w ← weldStep positions w index; weldLoop positions w order
  end.

(** The vertices the loop visits: those of the index buffer, or every
    vertex of the attribute in turn when the geometry has no index. *)
Definition weldOrder (positions : list Vector3.t) (indices : option (list nat)) : list nat :=
  match indices with
  | Some indices => indices
  | None => seq 0 (length positions)
  end.

(** [indexAndMergeVertices( geometry )] for the position attribute and
    the index of the geometry, [None] for a geometry without index.  The
    result is the arrays of the two attributes returned. *)
Definition indexAndMergeVertices (positions : list Vector3.t) (indices : option (list nat))
    : option (list Q * list nat) :=
  w ← weldLoop positions (mkWeld ∅ 0 [] []) (weldOrder positions indices);
  Some (positionsArray w, newIndices w).

(** [new Vector3().fromBufferAttribute( positions, i )] for every [i]
    below [positions.count]. *)
Fixpoint vectorsOf (array : list Q) : list Vector3.t :=
  match array with
  | x :: y :: z :: array => Vector3.mk x y z :: vectorsOf array
  | _ => []
  end.

(** [populateFromGeometry( geometry )] *)
Definition populateFromGeometry `{Sqrt} (positions : list Vector3.t)
    (indices : option (list nat)) : option VerticesAndFaces :=
  '(positionsArray, newIndices) ← indexAndMergeVertices positions indices;
  populateFromIndexed (vectorsOf positionsArray) newIndices.

(** ** Path search (SearchProcess.js) *)

(** The fields of [SearchProcess] the search strategies use;
    [shortestEdge = None] stands for [Infinity]. *)
Record SearchProcess := mkSP {
  previousPoint : option Vector3.t;
  previousVector : option Vector3.t;
  shortestEdge : option Q
}.

(** [resetPreviousPoint()] *)
Definition resetPreviousPoint (p : SearchProcess) : SearchProcess :=
  mkSP None None (shortestEdge p).

(** The elements of [new Set( l )] in insertion order, added to [acc]. *)
Definition setAddAll (acc l : list fid) : list fid :=
  fold_left (fun acc x => if decide (x ∈ acc) then acc else acc ++ [x]) l acc.

(** The getter [face.neighbors]. *)
Definition faceNeighbors (g : VerticesAndFaces) (face : fid) : list fid :=
  let F := fget g face in
  let neighborSet :=
    setAddAll [] (faces (vget g (v1 F)) ++ faces (vget g (v2 F)) ++ faces (vget g (v3 F))) in
  List.filter (fun f => negb (bool_decide (f = face))) neighborSet.

(** [face.degree++] *)
Definition incrDegree (g : VerticesAndFaces) (face : fid) : VerticesAndFaces :=
  let F := fget g face in fset g face (set_degree F (S (degree F))).

Section Search.
Context `{Sqrt}.
#[local] Open Scope Q_scope.

(** [getNextPoint( face )] *)
Definition getNextPoint (g : VerticesAndFaces) (p : SearchProcess) (face : fid)
    : SearchProcess * Vector3.t :=
  let F := fget g face in
  match previousPoint p with
  | None =>
      let point := center F in
      (mkSP (Some point) (previousVector p) (shortestEdge p), point)
  | Some prevPoint =>
      match previousVector p with
      | None =>
          let point := center F in
          (mkSP (Some point) (Some (Vector3.subVectors point prevPoint)) (shortestEdge p),
           point)
      | Some prevVector =>
          let a := position (vget g (v1 F)) in
          let b := position (vget g (v2 F)) in
          let c := position (vget g (v3 F)) in
          let k_a := Vector3.dot (Vector3.subVectors a prevPoint) prevVector in
          let k_b := Vector3.dot (Vector3.subVectors b prevPoint) prevVector in
          let k_c := Vector3.dot (Vector3.subVectors c prevPoint) prevVector in
          let newPoint :=
            if Qltb 0 (Math_min (Math_min k_a k_b) k_c) then
              let sum := k_a + k_b + k_c in
              let k_a := k_a / sum in
              let k_b := k_b / sum in
              let k_c := k_c / sum in
              Vector3.addVectors
                (Vector3.addVectors (Vector3.multiplyScalar a k_a)
                                    (Vector3.multiplyScalar b k_b))
                (Vector3.multiplyScalar c k_c)
            else if Qltb k_b k_a && Qltb k_c k_a then
              Vector3.multiplyScalar (Vector3.addVectors a (center F)) (1 # 2)
            else if Qltb k_c k_b then
              Vector3.multiplyScalar (Vector3.addVectors b (center F)) (1 # 2)
            else
              Vector3.multiplyScalar (Vector3.addVectors c (center F)) (1 # 2) in
          let previousVector := Vector3.subVectors newPoint prevPoint in
          let distance := Vector3.length previousVector in
          let shortest :=
            match shortestEdge p with
            | None => Some distance
            | Some e => if Qltb distance e then Some distance else Some e
            end in
          (mkSP (Some newPoint) (Some previousVector) shortest, newPoint)
      end
  end.

(** The two selection loops of [getNearestNeighbor].  In the second
    one [cost] is declared inside the loop body, so every candidate is
    compared with [1]. *)
Definition bestByNormal (g : VerticesAndFaces) (face : fid) (neighbors : list fid)
    : option fid :=
  snd (fold_left
    (fun '(cost, bestNeighbor) neighbor =>
       if (degree (fget g neighbor) <? 1)%nat then
         let neighborCost := Vector3.dot (normal (fget g face)) (normal (fget g neighbor)) in
         if Qltb cost neighborCost then (neighborCost, Some neighbor)
         else (cost, bestNeighbor)
       else (cost, bestNeighbor))
    neighbors (0, None)).

Definition bestByDirection (g : VerticesAndFaces) (face : fid) (prevVector : Vector3.t)
    (neighbors : list fid) : option fid :=
  let faceCenter := center (fget g face) in
  let prevVector := Vector3.normalize prevVector in
  fold_left
    (fun bestNeighbor neighbor =>
       let cost := 1 in
       if (degree (fget g neighbor) <? 1)%nat then
         let vector :=
           Vector3.normalize (Vector3.subVectors (center (fget g neighbor)) faceCenter) in
         let neighborCost := 1 - Vector3.dot prevVector vector in
         if Qltb neighborCost cost then Some neighbor else bestNeighbor
       else bestNeighbor)
    neighbors None.

(** [getNearestNeighbor( face )] *)
Definition getNearestNeighbor (g : VerticesAndFaces) (p : SearchProcess) (face : fid)
    : VerticesAndFaces * option fid :=
  let neighbors := faceNeighbors g face in
  match neighbors with
  | [] => (g, None)
  | _ =>
      let bestNeighbor :=
        match previousVector p with
        | None => bestByNormal g face neighbors
        | Some prevVector => bestByDirection g face prevVector neighbors
        end in
      match bestNeighbor with
      | Some best => (incrDegree g best, Some best)
      | None => (g, None)
      end
  end.

(** [sequentialWalk( data )] *)
Record WalkState := mkWalk {
  w_process : SearchProcess;
  w_paths : list (list Vector3.t);
  w_path : list Vector3.t;
  w_prevFace : option fid
}.

Definition walkStep (g : VerticesAndFaces) (w : WalkState) (face : fid) : WalkState :=
  match w_prevFace w with
  | None =>
      let '(p, point) := getNextPoint g (w_process w) face in
      mkWalk p (w_paths w) (w_path w ++ [point]) (Some face)
  | Some prevFace =>
      let prevFaceHash := hash (fget g prevFace) in
      if existsb (fun neighbor => String.eqb (hash (fget g neighbor)) prevFaceHash)
                 (faceNeighbors g face)
      then
        let '(p, point) := getNextPoint g (w_process w) face in
        mkWalk p (w_paths w) (w_path w ++ [point]) (Some face)
      else
        let paths :=
          if (1 <? length (w_path w))%nat then w_paths w ++ [w_path w] else w_paths w in
        let p := resetPreviousPoint (w_process w) in
        let '(p, point) := getNextPoint g p face in
        let p := mkSP (Some point) (previousVector p) (shortestEdge p) in
        mkWalk p paths [point] (Some face)
  end.

Definition sequentialWalk (g : VerticesAndFaces) (p : SearchProcess)
    : SearchProcess * list (list Vector3.t) :=
  let w := fold_left (walkStep g)
             (take (facesCount g) (arrFaces g))
             (mkWalk (resetPreviousPoint p) [] [] None) in
  let paths :=
    if (1 <? length (w_path w))%nat then w_paths w ++ [w_path w] else w_paths w in
  (w_process w, paths).

(** [nearestNeighborSearch( data )] *)
Record NNState := mkNN {
  n_graph : VerticesAndFaces;
  n_process : SearchProcess;
  n_selectedCount : nat;
  n_path : list Vector3.t
}.

(** The two inner loops [while ( currentFace !== null )]; [forward]
    tells [push] from [unshift].  [None]: out of fuel. *)
Fixpoint growPath (fuel : nat) (forward : bool) (n : NNState) (currentFace : option fid)
    : option NNState :=
  match currentFace with
  | None => Some n
  | Some face =>
      match fuel with
      | O => None
      | S fuel =>
          let g := incrDegree (n_graph n) face in
          let selectedCount := S (n_selectedCount n) in
          let '(p, point) := getNextPoint g (n_process n) face in
          let path := if forward then n_path n ++ [point] else point :: n_path n in
          let '(g, next) := getNearestNeighbor g p face in
          growPath fuel forward (mkNN g p selectedCount path) next
      end
  end.

(** [getStartFace()] *)
Definition getStartFace (g : VerticesAndFaces) : option fid :=
  List.find (fun face => (degree (fget g face) =? 0)%nat) (arrFaces g).

(** The outer loop
    [while ( selectedCount < facesCount && currentFace !== null )]. *)
Fixpoint nnLoop (fuel : nat) (facesCount : nat) (g : VerticesAndFaces) (p : SearchProcess)
    (selectedCount : nat) (paths : list (list Vector3.t)) (currentFace : option fid)
    : option (VerticesAndFaces * SearchProcess * list (list Vector3.t)) :=
  match currentFace with
  | Some startFace =>
      if (selectedCount <? facesCount)%nat then
        match fuel with
        | O => None
        | S fuel =>
            let p := resetPreviousPoint p in
            n ← growPath (S fuel) true (mkNN g p selectedCount []) (Some startFace);
            let p := resetPreviousPoint (n_process n) in
            let p := fst (getNextPoint (n_graph n) p startFace) in
            let '(g, next) := getNearestNeighbor (n_graph n) p startFace in
            n ← growPath (S fuel) false (mkNN g p (n_selectedCount n) (n_path n)) next;
            let paths := if (1 <? length (n_path n))%nat then paths ++ [n_path n] else paths in
            nnLoop fuel facesCount (n_graph n) (n_process n) (n_selectedCount n) paths
                   (getStartFace (n_graph n))
        end
      else Some (g, p, paths)
  | None => Some (g, p, paths)
  end.

Definition nearestNeighborSearch (fuel : nat) (g : VerticesAndFaces) (p : SearchProcess)
    : option (VerticesAndFaces * SearchProcess * list (list Vector3.t)) :=
  let facesCount := length (arrFaces g) in
  if (facesCount <? 2)%nat then Some (g, p, [])
  else nnLoop fuel facesCount g p 0 [] (arrFaces g !! 0%nat).

(** *** Wrapping path search *)

(** [getUnconnectedNeighbors( searchNeighbors )] *)
Definition getUnconnectedNeighbors (g : VerticesAndFaces) (searchNeighbors : list fid)
    : list fid :=
  fold_left
    (fun neighbors face =>
       setAddAll neighbors
         (List.filter (fun candidate => (degree (fget g candidate) =? 0)%nat)
                      (faceNeighbors g face)))
    searchNeighbors [].

(** The scan of [removeNearestNeighbor]: the running
    [( distanceSqrd, nearest, index )], with [None] for the initial
    [( Infinity, null, -1 )]; [i] is the position of the head of
    [neighbors]. *)
Fixpoint nearestScan (g : VerticesAndFaces) (validArray : list fid) (facePoint : Vector3.t)
    (neighbors : list fid) (i : nat) (best : option (Q * fid * nat))
    : option (Q * fid * nat) :=
  match neighbors with
  | [] => best
  | neighbor :: neighbors =>
      let best :=
        match indexOf validArray neighbor with
        | None => best
        | Some _ =>
            let neighborDistanceSqrd :=
              Vector3.distanceToSquared facePoint (center (fget g neighbor)) in
            match best with
            | None => Some (neighborDistanceSqrd, neighbor, i)
            | Some (distanceSqrd, _, _) =>
                if Qltb neighborDistanceSqrd distanceSqrd
                then Some (neighborDistanceSqrd, neighbor, i)
                else best
            end
        end in
      nearestScan g validArray facePoint neighbors (S i) best
  end.

(** [removeNearestNeighbor( neighbors, face )]: the array after the
    call, and the face returned. *)
Definition removeNearestNeighbor (g : VerticesAndFaces) (neighbors : list fid) (face : fid)
    : list fid * option fid :=
  match nearestScan g (faceNeighbors g face) (center (fget g face)) neighbors 0 None with
  | Some (_, nearest, index) => (splice1 neighbors index, Some nearest)
  | None => (neighbors, None)
  end.

(** [differenceArray( A, B )]: the array [A] after the call. *)
Definition differenceArray (A B : list fid) : list fid :=
  fold_left removeFirst B A.

Record WrapState := mkWrap {
  wr_graph : VerticesAndFaces;
  wr_path : list fid;
  wr_currentFace : fid;
  wr_activeNeighbors : list fid
}.

(** The inner loop [while ( currentNeighbors.length > 0 )]. *)
Fixpoint wrapInner (fuel : nat) (w : WrapState) (currentNeighbors : list fid)
    : option WrapState :=
  match currentNeighbors with
  | [] => Some w
  | _ =>
      match fuel with
      | O => None
      | S fuel =>
          match removeNearestNeighbor (wr_graph w) currentNeighbors (wr_currentFace w) with
          | (currentNeighbors, Some tmpFace) =>
              wrapInner fuel
                (mkWrap (incrDegree (wr_graph w) tmpFace) (wr_path w ++ [tmpFace])
                        tmpFace (wr_activeNeighbors w))
                currentNeighbors
          | (currentNeighbors, None) =>
              wrapInner fuel
                (mkWrap (wr_graph w) (wr_path w) (wr_currentFace w)
                        (differenceArray (wr_activeNeighbors w) currentNeighbors))
                []
          end
      end
  end.

(** The outer loop [while ( activeNeighbors.length > 0 )]. *)
Fixpoint wrapOuter (fuel : nat) (w : WrapState) : option WrapState :=
  match wr_activeNeighbors w with
  | [] => Some w
  | activeNeighbors =>
      match fuel with
      | O => None
      | S fuel =>
          let currentNeighbors := getUnconnectedNeighbors (wr_graph w) activeNeighbors in
          w ← wrapInner (S (length currentNeighbors))
                (mkWrap (wr_graph w) (wr_path w) (wr_currentFace w) currentNeighbors)
                currentNeighbors;
          wrapOuter fuel w
      end
  end.

(** [findPathFromFace( startFace )]: the graph after the call and the
    path of faces. *)
Definition findPathFromFace (fuel : nat) (g : VerticesAndFaces) (startFace : fid)
    : option (VerticesAndFaces * list fid) :=
  w ← wrapOuter fuel (mkWrap (incrDegree g startFace) [startFace] startFace [startFace]);
  Some (wr_graph w, wr_path w).

(** [getNextFace()], local to [WrappingPathSearch]: [start] is
    [previousIndex + 1]; the result is the new [previousIndex] and the
    face. *)
Fixpoint getNextFaceFrom (g : VerticesAndFaces) (i : nat) (l : list fid)
    : option (nat * fid) :=
  match l with
  | [] => None
  | face :: l =>
      if (degree (fget g face) =? 0)%nat then Some (i, face)
      else getNextFaceFrom g (S i) l
  end.

Definition getNextFace (g : VerticesAndFaces) (start : nat) : option (nat * fid) :=
  getNextFaceFrom g start (drop start (arrFaces g)).

(** [for ( ... ) pointPath.push( this.getNextPoint( facePath[ i ] ) )] *)
Definition pointsOf (g : VerticesAndFaces) (p : SearchProcess) (facePath : list fid)
    : SearchProcess * list Vector3.t :=
  fold_left
    (fun '(p, pointPath) face =>
       let '(p, point) := getNextPoint g p face in (p, pointPath ++ [point]))
    facePath (p, []).

(** The loop [while ( nextFace )] of [WrappingPathSearch]. *)
Fixpoint wrappingLoop (fuel : nat) (g : VerticesAndFaces) (p : SearchProcess)
    (start : nat) (pointPaths : list (list Vector3.t))
    : option (VerticesAndFaces * SearchProcess * list (list Vector3.t)) :=
  match getNextFace g start with
  | None => Some (g, p, pointPaths)
  | Some (previousIndex, nextFace) =>
      match fuel with
      | O => None
      | S fuel =>
          '(g, facePath) ← findPathFromFace (S fuel) g nextFace;
          let p := resetPreviousPoint p in
          let '(p, pointPath) := pointsOf g p facePath in
          wrappingLoop fuel g p (S previousIndex) (pointPaths ++ [pointPath])
      end
  end.

Definition WrappingPathSearch (fuel : nat) (g : VerticesAndFaces) (p : SearchProcess)
    : option (VerticesAndFaces * SearchProcess * list (list Vector3.t)) :=
  wrappingLoop fuel g p 0 [].

End Search.

(** *** The reset of a dirty search (SearchProcess.startProcess) *)

(** The loop [faces[ j ].degree = 0] that [SearchProcess.startProcess]
    runs over the faces of a geometry when the process is dirty. *)
Definition resetDegrees (g : VerticesAndFaces) : VerticesAndFaces :=
  fold_left (fun g f => fset g f (set_degree (fget g f) 0)) (arrFaces g) g.

(** ** Greedy search: [Edge] and [EdgeCollection] (SearchProcess.js) *)

(** [s.startsWith( t )] and [s.endsWith( t )] *)
Definition startsWith (s t : string) : bool := String.prefix t s.
Definition endsWith (s t : string) : bool := String.prefix (String.rev t) (String.rev s).

(** [hash1.localeCompare( hash2 ) === -1].  Face hashes are made of
    digits and commas, on which the locale order is the order of the
    character codes. *)
Definition localeLess (hash1 hash2 : string) : bool := String.ltb hash1 hash2.

Module Edge.

Record t := mk {
  face1 : fid;
  face2 : fid;
  cost : Q;
  hash : string
}.

End Edge.

(** [getHashFromFaces( face1, face2 )], also the hash the [Edge]
    constructor computes. *)
Definition getHashFromFaces (g : VerticesAndFaces) (face1 face2 : fid) : string :=
  let hash1 := hash (fget g face1) in
  let hash2 := hash (fget g face2) in
  if localeLess hash1 hash2 then hash1 +:+ "-" +:+ hash2 else hash2 +:+ "-" +:+ hash1.

(** [new Edge( face1, face2 )] *)
Definition newEdge (g : VerticesAndFaces) (face1 face2 : fid) : Edge.t :=
  Edge.mk face1 face2
    (1 - Vector3.dot (normal (fget g face1)) (normal (fget g face2)))%Q
    (getHashFromFaces g face1 face2).

(** [face.equals( other )] *)
Definition faceEquals (g : VerticesAndFaces) (face other : fid) : bool :=
  String.eqb (hash (fget g face)) (hash (fget g other)).

(** [edge.isValid()], [edge.isIsolated()], [edge.incrementFaceDegrees()] *)
Definition isValid (g : VerticesAndFaces) (e : Edge.t) : bool :=
  (degree (fget g (Edge.face1 e)) <? 2)%nat && (degree (fget g (Edge.face2 e)) <? 2)%nat.
Definition isIsolated (g : VerticesAndFaces) (e : Edge.t) : bool :=
  (degree (fget g (Edge.face1 e)) =? 0)%nat && (degree (fget g (Edge.face2 e)) =? 0)%nat.
Definition incrementFaceDegrees (g : VerticesAndFaces) (e : Edge.t) : VerticesAndFaces :=
  incrDegree (incrDegree g (Edge.face1 e)) (Edge.face2 e).

Record EdgeCollection := mkEC {
  lutEdges : gmap string Edge.t;
  arrEdgesByCost : list string
}.

Definition emptyEdges : EdgeCollection := mkEC ∅ [].

(** The binary search of [EdgeCollection.add]; [None]: the loop read
    the cost of an undefined edge. *)
Fixpoint edgeSearch (fuel : nat) (c : EdgeCollection) (cost : Q) (low high : nat)
    : option nat :=
  if (low <? high)%nat then
    match fuel with
    | O => None
    | S fuel =>
        let mid := ((low + high) / 2)%nat in
        h ← arrEdgesByCost c !! mid;
        e ← lutEdges c !! h;
        if Qltb (Edge.cost e) cost
        then edgeSearch fuel c cost (mid + 1)%nat high
        else edgeSearch fuel c cost low mid
    end
  else Some low.

(** [add( edge )] *)
Definition addEdge (c : EdgeCollection) (edge : Edge.t) : option EdgeCollection :=
  let hash := Edge.hash edge in
  match lutEdges c !! hash with
  | Some _ => Some c
  | None =>
      let lut := <[hash := edge]> (lutEdges c) in
      let n := length (arrEdgesByCost c) in
      low ← edgeSearch n (mkEC lut (arrEdgesByCost c)) (Edge.cost edge) 0 (n - 1);
      Some (mkEC lut (spliceIn (arrEdgesByCost c) low hash))
  end.

(** [popLowestCostEdge()]: the collection after the call and the edge,
    [None] for [null]. *)
Definition popLowestCostEdge (c : EdgeCollection) : EdgeCollection * option Edge.t :=
  match arrEdgesByCost c with
  | [] => (c, None)
  | edgeHash :: rest =>
      match lutEdges c !! edgeHash with
      | None => (mkEC (lutEdges c) rest, None)
      | Some edge => (mkEC (delete edgeHash (lutEdges c)) rest, Some edge)
      end
  end.

(** The sort of [populateFromFaces], stable, by the cost of the edge a
    hash stands for. *)
Fixpoint insertHashByCost (cost : string -> Q) (h : string) (l : list string) : list string :=
  match l with
  | [] => [h]
  | k :: l' => if Qltb (cost k) (cost h) then k :: insertHashByCost cost h l' else h :: l
  end.

(** [populateFromFaces( arrFaces )] *)
Definition populateFromFaces (g : VerticesAndFaces) (arrFaces : list fid) : EdgeCollection :=
  let c :=
    fold_left
      (fun c face =>
         fold_left
           (fun c neighbor =>
              let hash := getHashFromFaces g face neighbor in
              match lutEdges c !! hash with
              | Some _ => c
              | None =>
                  mkEC (<[hash := newEdge g face neighbor]> (lutEdges c))
                       (arrEdgesByCost c ++ [hash])
              end)
           (faceNeighbors g face) c)
      arrFaces emptyEdges in
  let cost h := match lutEdges c !! h with Some e => Edge.cost e | None => 0%Q end in
  mkEC (lutEdges c) (foldr (insertHashByCost cost) [] (arrEdgesByCost c)).

(** [getMatchingEdge( edgeToExclude, faceToMatch )] *)
Definition getMatchingEdge (g : VerticesAndFaces) (c : EdgeCollection)
    (edgeToExclude : option Edge.t) (faceToMatch : fid) : option Edge.t :=
  let hashToMatch := hash (fget g faceToMatch) in
  let hashToExclude :=
    match edgeToExclude with Some e => Edge.hash e | None => "" end in
  let foundHash :=
    List.find
      (fun candidateHash =>
         (startsWith candidateHash hashToMatch || endsWith candidateHash hashToMatch)
         && negb (String.eqb candidateHash hashToExclude))
      (arrEdgesByCost c) in
  match foundHash with
  | Some h => if String.eqb h "" then None else lutEdges c !! h
  | None => None
  end.

(** [addIfNonLooping( target )] on the collection of selected edges: the
    [do ... while] walk along the chain from [target.face2].  The result
    is the collection and the graph after the call; [None]: out of fuel,
    or [add] throws. *)
Fixpoint chainWalk (fuel : nat) (g : VerticesAndFaces) (c : EdgeCollection)
    (target chainedEdge : Edge.t) (chainFace : fid)
    : option (EdgeCollection * VerticesAndFaces) :=
  match fuel with
  | O => None
  | S fuel =>
      let testFace := Edge.face1 target in
      match getMatchingEdge g c (Some chainedEdge) chainFace with
      | None =>
          c ← addEdge c target; Some (c, incrementFaceDegrees g target)
      | Some chainedEdge =>
          let chainFace :=
            if faceEquals g (Edge.face1 chainedEdge) chainFace
            then Edge.face2 chainedEdge else Edge.face1 chainedEdge in
          if (degree (fget g chainFace) =? 1)%nat && negb (faceEquals g chainFace testFace)
          then c ← addEdge c target; Some (c, incrementFaceDegrees g target)
          else if negb (faceEquals g chainFace testFace)
          then chainWalk fuel g c target chainedEdge chainFace
          else Some (c, g)
      end
  end.

Definition addIfNonLooping (fuel : nat) (g : VerticesAndFaces) (c : EdgeCollection)
    (target : Edge.t) : option (EdgeCollection * VerticesAndFaces) :=
  chainWalk fuel g c target target (Edge.face2 target).

(** The selection loop of [greedySearch]:
    [while ( edges.count > 0 )].  [None]: a turn throws or runs out of
    fuel. *)
Fixpoint selectEdges (fuel : nat) (g : VerticesAndFaces) (edges selectedEdges : EdgeCollection)
    : option (EdgeCollection * VerticesAndFaces) :=
  match arrEdgesByCost edges with
  | [] => Some (selectedEdges, g)
  | _ =>
      match fuel with
      | O => None
      | S fuel =>
          let '(edges, popped) := popLowestCostEdge edges in
          target ← popped;
          if isValid g target then
            if isIsolated g target then
              selectedEdges ← addEdge selectedEdges target;
              selectEdges fuel (incrementFaceDegrees g target) edges selectedEdges
            else
              '(selectedEdges, g) ← addIfNonLooping (S fuel) g selectedEdges target;
              selectEdges fuel g edges selectedEdges
          else selectEdges fuel g edges selectedEdges
      end
  end.

(** [greedySearch( data )] up to the end of the selection loop. *)
Definition greedySelection (fuel : nat) (g : VerticesAndFaces)
    : option (EdgeCollection * VerticesAndFaces) :=
  let edges := populateFromFaces g (arrFaces g) in
  if (length (arrEdgesByCost edges) <? 2)%nat then Some (emptyEdges, g)
  else selectEdges fuel g edges emptyEdges.

(** ** Curve Builder: the sampling interval
    (CurveIntrapolationProcess.startProcess) *)

(** [pointInterval] as first computed from [params.shortestEdge]. *)
Definition initialInterval (shortestEdge : Q) : Q :=
  Math_min (12 # 10000) (Math_max (1 # 1000) (shortestEdge / 2)).

(** [pointInterval] after the cap on the number of samples. *)
Definition pointInterval (shortestEdge totalLength pointCount : Q) : Q :=
  let pointInterval := initialInterval shortestEdge in
  if Qltb 2 pointCount && Qltb (3 * pointCount) (totalLength / pointInterval)
  then (totalLength / (3 * pointCount))%Q
  else pointInterval.

(** ** Curve Builder: removing excess points and sorting the paths
    (CurveIntrapolationProcess.startProcess) *)

(** The inner loop of the removal, [for ( j = pathLength - 2; j >= 0; j-- )],
    with [j] turns left, the next one at index [j - 1].  [None]: the
    loop reads a point outside the path. *)
Fixpoint thinFrom (intervalSqrd : Q) (j : nat) (path : list Vector3.t)
    (prevPoint : Vector3.t) (lengthSqrd : Q) (pointsRemoved : nat)
    : option (list Vector3.t * nat) :=
  match j with
  | O => Some (path, pointsRemoved)
  | S j =>
      point ← path !! j;
      let lengthSqrd := (lengthSqrd + Vector3.distanceToSquared point prevPoint)%Q in
      if Qltb lengthSqrd intervalSqrd
      then thinFrom intervalSqrd j (delete j path) point lengthSqrd (S pointsRemoved)
      else thinFrom intervalSqrd j path point 0 pointsRemoved
  end.

(** The body of the outer loop up to the end of the inner loop.  On an
    empty path [prevPoint] is [undefined] and the inner loop has no
    turn. *)
Definition thinPath (intervalSqrd : Q) (path : list Vector3.t) (pointsRemoved : nat)
    : option (list Vector3.t * nat) :=
  match last path with
  | None => Some (path, pointsRemoved)
  | Some prevPoint =>
      thinFrom intervalSqrd (length path - 1) path prevPoint 0 pointsRemoved
  end.

(** The outer loop, [for ( i = paths.length - 1; i >= 0; i-- )], with [i]
    turns left.  The paths are arrays of their own, thinned in place. *)
Fixpoint removeExcess (intervalSqrd : Q) (i : nat) (paths : list (list Vector3.t))
    (pointsRemoved : nat) : option (list (list Vector3.t) * nat) :=
  match i with
  | O => Some (paths, pointsRemoved)
  | S i =>
      path ← paths !! i;
      '(path, pointsRemoved) ← thinPath intervalSqrd path pointsRemoved;
      if (length path <? 2)%nat
      then removeExcess intervalSqrd i (delete i paths) (pointsRemoved + length path)
      else removeExcess intervalSqrd i (<[i := path]> paths) pointsRemoved
  end.

(** [if ( pointInterval > params.shortestEdge ) { ... }]: the paths
    after the removal and the number logged, if any.  A shortest edge
    of [Infinity] behaves as any number not below the interval. *)
Definition removeExcessPoints (pointInterval shortestEdge : Q) (paths : list (list Vector3.t))
    : option (list (list Vector3.t) * option nat) :=
  if Qltb shortestEdge pointInterval
  then '(paths, pointsRemoved) ←
         removeExcess (pointInterval * pointInterval) (length paths) paths 0;
       Some (paths, Some pointsRemoved)
  else Some (paths, None).

(** The inner loop of the sort over the paths [tests] from index [j] on;
    [bestPath = None] stands for [-1] and [bestDistanceSqrd = None] for
    [Infinity].  [None]: [endPoint] or the first point of a path is
    [undefined], and [distanceToSquared] throws. *)
Fixpoint findNearest (endPoint : option Vector3.t) (tests : list (list Vector3.t)) (j : nat)
    (bestPath : option nat) (bestDistanceSqrd : option Q) : option (option nat) :=
  match tests with
  | [] => Some bestPath
  | testPath :: tests =>
      endPoint' ← endPoint;
      first ← head testPath;
      let distanceSqrd := Vector3.distanceToSquared endPoint' first in
      if match bestDistanceSqrd with
         | None => true
         | Some best => Qltb distanceSqrd best
         end
      then findNearest endPoint tests (S j) (Some j) (Some distanceSqrd)
      else findNearest endPoint tests (S j) bestPath bestDistanceSqrd
  end.

(** The exchange of [paths[ bestPath ]] and [paths[ i + 1 ]]; both are
    inside the array whenever the loop gets here. *)
Definition swapPaths (paths : list (list Vector3.t)) (bestPath next : nat)
    : option (list (list Vector3.t)) :=
  tempPath ← paths !! bestPath;
  other ← paths !! next;
  Some (<[next := tempPath]> (<[bestPath := other]> paths)).

(** The outer loop of the sort from index [i] on, with [turns] turns
    left. *)
Fixpoint sortFrom (turns i : nat) (paths : list (list Vector3.t))
    : option (list (list Vector3.t)) :=
  match turns with
  | O => Some paths
  | S turns =>
      path ← paths !! i;
      bestPath ← findNearest (last path) (drop (S i) paths) (S i) None None;
      paths ← match bestPath with
              | Some bestPath =>
                  if negb (bestPath =? S i)%nat then swapPaths paths bestPath (S i)
                  else Some paths
              | None => Some paths
              end;
      sortFrom turns (S i) paths
  end.

Definition sortPaths (paths : list (list Vector3.t)) : option (list (list Vector3.t)) :=
  sortFrom (length paths) 0 paths.

(** The number of points of the paths. *)
Definition pointTotal (paths : list (list Vector3.t)) : nat :=
  sum_list_with length paths.

(** ** Properties used in the statements *)

(** A face has three mutually distinct vertex references. *)
Definition distinctVertices (F : Triangle) : Prop :=
  v1 F ≠ v2 F ∧ v2 F ≠ v3 F ∧ v1 F ≠ v3 F.

(** The hash [computeHash] would write for face [f] in graph [s]. *)
Definition currentHash (s : VerticesAndFaces) (f : fid) : string :=
  let F := fget s f in
  hashOf (index (vget s (v1 F))) (index (vget s (v2 F))) (index (vget s (v3 F))).

(** The stored collapse costs along [arrVerticesByCost]. *)
Definition costsInOrder (s : VerticesAndFaces) : list Q :=
  List.map (fun i => Qred (costAtIndex s i)) (arrVerticesByCost s).

Section CostStatements.
#[local] Open Scope Q_scope.

(** The term of [f] in the curvature, as the specification writes it. *)
Definition specMinCurvature (s : VerticesAndFaces) (w1 w2 f : nat) : Q :=
  Qmin 1 ((1 - Qmax (Vector3.dot (normal (fget s f)) (normal (fget s w1)))
                    (Vector3.dot (normal (fget s f)) (normal (fget s w2)))) / 2).

(** The sum of the costs of the edges from [v] to the vertices of [l]. *)
Definition sumOfCosts (cost : nat -> Q) (l : list nat) : Q :=
  fold_right (fun n acc => cost n + acc) 0 l.

(** [n] is the first element of [l] whose cost is minimal. *)
Definition firstMinimum (cost : nat -> Q) (l : list nat) (n : nat) : Prop :=
  exists i, l !! i = Some n /\
    (forall m, m ∈ l -> cost n <= cost m) /\
    (forall j m, (j < i)%nat -> l !! j = Some m -> cost n < cost m).

End CostStatements.

(** ** The invariant of the mesh graph *)

(** The vertices of a face, as a list. *)
Definition verticesOf (F : Triangle) : list nat := [v1 F; v2 F; v3 F].

(** Two graphs with the same three arrays. *)
Definition sameArrays (s s' : VerticesAndFaces) : Prop :=
  arrFaces s' = arrFaces s /\ arrVertices s' = arrVertices s /\
  arrVerticesByCost s' = arrVerticesByCost s.

(** The fields of the vertices that the adjacency updates leave alone. *)
Definition sameKeys (s s' : VerticesAndFaces) : Prop :=
  forall y, index (vget s' y) = index (vget s y) /\
            collapseNeighbor (vget s' y) = collapseNeighbor (vget s y) /\
            collapseCost (vget s' y) = collapseCost (vget s y) /\
            position (vget s' y) = position (vget s y).

(** [addUniqueNeighbor] and [removeIfNonNeighbor] on lists. *)
Definition addUnique (l : list nat) (t : nat) : list nat :=
  if decide (t ∈ l) then l else l ++ [t].

(** Whether some face of [x] still holds [t]. *)
Definition stillJoined (s : VerticesAndFaces) (x t : nat) : bool :=
  existsb (fun f => hasVertex (fget s f) t) (faces (vget s x)).

(** [A] is the list of live vertices.  Neighbour lists are duplicate
    free, stay within [A], never hold their owner, and are symmetric;
    face lists are duplicate free, and every face in one has three
    distinct live vertices, its owner among them, each listing it. *)
Record Topology (A : list nat) (s : VerticesAndFaces) : Prop := mkTopology {
  topo_nb_nodup : forall v, v ∈ A -> NoDup (neighbors (vget s v));
  topo_nb : forall v w, v ∈ A -> w ∈ neighbors (vget s v) ->
    w ∈ A /\ w <> v /\ v ∈ neighbors (vget s w);
  topo_fc_nodup : forall v, v ∈ A -> NoDup (faces (vget s v));
  topo_fc : forall v f, v ∈ A -> f ∈ faces (vget s v) ->
    v ∈ verticesOf (fget s f) /\ NoDup (verticesOf (fget s f)) /\
    forall w, w ∈ verticesOf (fget s f) -> w ∈ A /\ f ∈ faces (vget s w)
}.

(** The vertices of face [f] are neighbours of one another. *)
Definition Mates (A : list nat) (s : VerticesAndFaces) (f : nat) : Prop :=
  forall v w, v ∈ A -> f ∈ faces (vget s v) -> w ∈ verticesOf (fget s f) -> w <> v ->
    w ∈ neighbors (vget s v).

(** What an update that only removes adjacency keeps. *)
Record Shrinks (A : list nat) (s s' : VerticesAndFaces) : Prop := mkShrinks {
  shr_fget : forall g, fget s' g = fget s g;
  shr_keys : sameKeys s s';
  shr_arrVertices : arrVertices s' = arrVertices s;
  shr_byCost : arrVerticesByCost s' = arrVerticesByCost s;
  shr_arrFaces : forall g, g ∈ arrFaces s' -> g ∈ arrFaces s;
  shr_faces : forall y g, y ∈ A -> g ∈ faces (vget s' y) -> g ∈ faces (vget s y);
  shr_neighbors : forall y w, w ∈ neighbors (vget s' y) -> w ∈ neighbors (vget s y)
}.

(** The hypotheses under which a face is moved: [u] and [v] are two
    live vertices and no face left in the list of [u] holds [v]. *)
Record MovePre (A : list nat) (s : VerticesAndFaces) (u v : nat) : Prop := mkMovePre {
  mp_topo : Topology A s;
  mp_u : u ∈ A;
  mp_v : v ∈ A;
  mp_ne : u <> v;
  mp_clear : forall g, g ∈ faces (vget s u) -> v ∉ verticesOf (fget s g)
}.

(** The first half of [removeFace]: the face leaves [arrFaces] and the
    face lists of its three vertices. *)
Definition dropFace (s : VerticesAndFaces) (f : nat) : VerticesAndFaces :=
  fold_left
    (fun s vertex =>
       vset s vertex (set_faces (vget s vertex) (removeFirst (faces (vget s vertex)) f)))
    (verticesOf (fget s f))
    (set_arrFaces s (removeFirst (arrFaces s) f)).

(** The six calls of [addUniqueNeighbor] made for a face. *)
Definition linkVertices (s : VerticesAndFaces) (a b c : nat) : VerticesAndFaces :=
  let s := addUniqueNeighbor s a b in
  let s := addUniqueNeighbor s a c in
  let s := addUniqueNeighbor s b a in
  let s := addUniqueNeighbor s b c in
  let s := addUniqueNeighbor s c a in
  let s := addUniqueNeighbor s c b in
  s.

(** The face with its reference to [u] replaced by [v]. *)
Definition retarget (F : Triangle) (u v : nat) : Triangle :=
  if decide (u = v1 F) then set_v1 F v
  else if decide (u = v2 F) then set_v2 F v
  else if decide (u = v3 F) then set_v3 F v
  else F.

(** The first three statements of the loop body: the face leaves the
    list of [u], joins the list of [v], and has [u] replaced by [v]. *)
Definition detachFace (s : VerticesAndFaces) (u v : nat) (i : nat) (face : nat)
    : VerticesAndFaces :=
  let s := vset s u (set_faces (vget s u) (splice1 (faces (vget s u)) i)) in
  let s := pushFace s v face in
  let F := fget s face in
  if decide (u = v1 F) then fset s face (set_v1 F v)
  else if decide (u = v2 F) then fset s face (set_v2 F v)
  else if decide (u = v3 F) then fset s face (set_v3 F v)
  else s.

(** The arrays are consistent: no vertex is listed twice, every vertex
    stores its position, and the cost array is a permutation of the
    positions. *)
Record Indexed (s : VerticesAndFaces) : Prop := mkIndexed {
  idx_nodup : NoDup (arrVertices s);
  idx_index : forall i v, arrVertices s !! i = Some v -> index (vget s v) = i;
  idx_byCost : arrVerticesByCost s ≡ₚ seq 0 (length (arrVertices s))
}.

(** The cached collapse neighbour of a vertex is one of its neighbours,
    and is [null] only for a vertex without neighbours. *)
Definition CachedNeighbor (s : VerticesAndFaces) (v : nat) : Prop :=
  match collapseNeighbor (vget s v) with
  | Some w => w ∈ neighbors (vget s v)
  | None => neighbors (vget s v) = []
  end.

Record WF (s : VerticesAndFaces) : Prop := mkWF {
  wf_indexed : Indexed s;
  wf_topo : Topology (arrVertices s) s;
  wf_mates : forall g, Mates (arrVertices s) s g;
  wf_cached : forall v, v ∈ arrVertices s -> CachedNeighbor s v;
  wf_faces : forall f, f ∈ arrFaces s -> NoDup (verticesOf (fget s f))
}.

(** The triangles of the index buffer have three different corners. *)
Fixpoint distinctCorners (indices : list nat) : bool :=
  match indices with
  | a :: b :: c :: indices =>
      bool_decide (a <> b) && bool_decide (b <> c) && bool_decide (a <> c) &&
      distinctCorners indices
  | _ => true
  end.

(** The graph while the faces are being added: [f] faces exist. *)
Record Built (A : list nat) (f : nat) (s : VerticesAndFaces) : Prop := mkBuilt {
  bl_topo : Topology A s;
  bl_mates : forall g, Mates A s g;
  bl_fresh : forall y g, y ∈ A -> g ∈ faces (vget s y) -> (g < f)%nat;
  bl_faces : forall g, (g < f)%nat -> NoDup (verticesOf (fget s g));
  bl_arrFaces : arrFaces s = seq 0 f;
  bl_arrVertices : arrVertices s = A;
  bl_index : forall i v, A !! i = Some v -> index (vget s v) = i
}.

(** ** Invariants of the arrays and of the searches *)

(** [g'] is [g] after some faces were visited: only degrees differ, and
    they have not decreased. *)
Definition Visited (g g' : VerticesAndFaces) : Prop :=
  vertexHeap g' = vertexHeap g /\ arrFaces g' = arrFaces g /\
  forall f, (degree (fget g f) <= degree (fget g' f))%nat /\
            set_degree (fget g' f) 0 = set_degree (fget g f) 0.

(** The faces some vertex lists, and with the face array every face a
    search can reach. *)
Definition listedFaces (g : VerticesAndFaces) : list fid :=
  concat (List.map (fun kv => faces kv.2) (map_to_list (vertexHeap g))).

Definition faceUniverse (g : VerticesAndFaces) : list fid :=
  arrFaces g ++ listedFaces g.

(** The number of entries of [l] that are faces of degree 0. *)
Fixpoint countUnvisited (g : VerticesAndFaces) (l : list fid) : nat :=
  match l with
  | [] => 0
  | f :: l => (if (degree (fget g f) =? 0)%nat then 1 else 0) + countUnvisited g l
  end.

Definition unvisited (g : VerticesAndFaces) : nat := countUnvisited g (faceUniverse g).

(** The bound on the fuel of the outer loop: one turn for every face of
    degree 0, and one more when the first start face is not one. *)
Definition startCost (g : VerticesAndFaces) (face : fid) : nat :=
  if (degree (fget g face) =? 0)%nat then 1%nat else 2%nat.

(** Every face array is closed under [face.neighbors]. *)
Definition closedFaces (g : VerticesAndFaces) : Prop :=
  forall f n, f ∈ arrFaces g -> n ∈ faceNeighbors g f -> n ∈ arrFaces g.

(** What the counter [selectedCount] counts: with [cur] the face about
    to be selected, the faces of the array whose degree is not 0 are at
    least [selectedCount], and one more once [cur] is selected. *)
Definition counted (F : list fid) (g : VerticesAndFaces) (sc : nat) (cur : option fid) : Prop :=
  match cur with
  | Some face =>
      face ∈ F /\ (sc + 1 + countUnvisited (incrDegree g face) F <= length F)%nat
  | None => (sc + countUnvisited g F <= length F)%nat
  end.

(** [s'] has the positions of the vertices of [s], and the hashes and
    degrees of its faces. *)
Definition Untouched (s s' : VerticesAndFaces) : Prop :=
  (forall y, position (vget s' y) = position (vget s y)) /\
  (forall g, hash (fget s' g) = hash (fget s g) /\ degree (fget s' g) = degree (fget s g)).

(** The face array has no duplicates; every face of the array is listed
    by its corners, which are vertices of the vertex array; and every
    face a vertex of the array lists is in the face array. *)
Record Listed (s : VerticesAndFaces) : Prop := mkListed {
  ls_nodup : NoDup (arrFaces s);
  ls_corners : forall f w, f ∈ arrFaces s -> w ∈ verticesOf (fget s f) ->
    w ∈ arrVertices s /\ f ∈ faces (vget s w);
  ls_faces : forall v f, v ∈ arrVertices s -> f ∈ faces (vget s v) -> f ∈ arrFaces s
}.

(** The graph while the faces are added, whatever the corners:
    [f] faces exist, whose corners, in order, are [done]. *)
Record Raw (n : nat) (s0 s : VerticesAndFaces) (f : nat) (done : list nat) : Prop := mkRaw {
  raw_vertices : arrVertices s = seq 0 n;
  raw_keys : sameKeys s0 s;
  raw_faces : arrFaces s = seq 0 f;
  raw_corners : flat_map (fun g => verticesOf (fget s g)) (seq 0 f) = done;
  raw_degree : forall g, (g < f)%nat -> degree (fget s g) = 0%nat
}.

(** Every face below [f] is listed by its corners, which are vertices. *)
Definition Corner (A : list nat) (f : nat) (s : VerticesAndFaces) : Prop :=
  forall g w, (g < f)%nat -> w ∈ verticesOf (fget s g) -> w ∈ A /\ g ∈ faces (vget s w).

(** ** Hashes and welding *)

(** The character is a comma. *)
Definition isComma (c : Ascii.ascii) : bool := String.eqb (String c "") ",".

(** No character of the string is a comma. *)
Fixpoint commaFree (s : string) : bool :=
  match s with
  | EmptyString => true
  | String c s => negb (isComma c) && commaFree s
  end.

(** The hash of a point. *)
Definition pointHash (p : Vector3.t) : string :=
  getHash (Vector3.x p) (Vector3.y p) (Vector3.z p).

(** The state of the welding loop after the vertices [done]: [vs] are
    the vertices kept. *)
Record Welding (positions : list Vector3.t) (done : list nat) (w : Weld)
    (vs : list Vector3.t) : Prop := mkWelding {
  wd_array : positionsArray w = flat_map coordinates vs;
  wd_next : nextIndex w = length vs;
  wd_lut : forall h j, hashToIndex w !! h = Some j <->
             exists q, vs !! j = Some q /\ pointHash q = h;
  wd_indices : Forall2 (fun index j => exists p q,
                  positions !! index = Some p /\ vs !! j = Some q /\
                  pointHash q = pointHash p) done (newIndices w);
  wd_used : forall j, (j < length vs)%nat -> j ∈ newIndices w;
  wd_from : forall q, q ∈ vs -> q ∈ positions
}.

(** Three corners in a row never have the same hash twice. *)
Fixpoint distinctHashes (positions : list Vector3.t) (order : list nat) : bool :=
  match order with
  | a :: b :: c :: order =>
      bool_decide (pointHash <$> positions !! a <> pointHash <$> positions !! b) &&
      bool_decide (pointHash <$> positions !! b <> pointHash <$> positions !! c) &&
      bool_decide (pointHash <$> positions !! a <> pointHash <$> positions !! c) &&
      distinctHashes positions order
  | _ => true
  end.

(** The coordinates are small enough for [~ ~] not to wrap. *)
Definition inRange32 (p : Vector3.t) : Prop :=
  (Qabs (Vector3.x p) < 214748)%Q /\ (Qabs (Vector3.y p) < 214748)%Q /\
  (Qabs (Vector3.z p) < 214748)%Q.

(** ** Paths and edges *)

(** A path after the removal of excess points, against the path it was. *)
Definition thinnedFrom (new old : list Vector3.t) : Prop :=
  sublist new old /\ last new = last old /\ (2 <= length new)%nat.

(** The squared distance from the end of [a] to the start of [b]; [None]
    when one of them is empty. *)
Definition gapSqrd (a b : list Vector3.t) : option Q :=
  e ← last a; f ← head b; Some (Vector3.distanceToSquared e f).

(** From index [i] on, every path is followed by one that starts
    nearest to its end among the paths after it. *)
Definition nearestNext (i : nat) (paths : list (list Vector3.t)) : Prop :=
  forall i' j a b c da dc, (i <= i')%nat -> (S i' < j)%nat ->
    paths !! i' = Some a -> paths !! S i' = Some b -> paths !! j = Some c ->
    gapSqrd a b = Some da -> gapSqrd a c = Some dc -> (da <= dc)%Q.

(** The same as a chain: the second path starts nearest to the end of
    the first among the paths after the first, and so on. *)
Fixpoint nearestChain (paths : list (list Vector3.t)) : Prop :=
  match paths with
  | a :: (b :: rest) as tl =>
      (forall c da dc, c ∈ rest -> gapSqrd a b = Some da -> gapSqrd a c = Some dc ->
         (da <= dc)%Q) /\
      nearestChain tl
  | _ => True
  end.

(** The cost of the edge a hash of the collection stands for. *)
Definition edgeCost (c : EdgeCollection) (h : string) : Q :=
  match lutEdges c !! h with Some e => Edge.cost e | None => 0%Q end.

(** The array and the look-up table of a collection agree, and the array
    is in ascending order of cost. *)
Record EdgesSorted (c : EdgeCollection) : Prop := mkEdgesSorted {
  es_nodup : NoDup (arrEdgesByCost c);
  es_keys : forall h, h ∈ arrEdgesByCost c <-> is_Some (lutEdges c !! h);
  es_sorted : StronglySorted (fun h k => (edgeCost c h <= edgeCost c k)%Q) (arrEdgesByCost c)
}.

(** Every edge of the collection joins a face of [faces] to one of its
    neighbours, and is stored under its hash. *)
Definition EdgesOf (g : VerticesAndFaces) (faces : list fid) (c : EdgeCollection) : Prop :=
  forall h e, lutEdges c !! h = Some e ->
    exists f n, f ∈ faces /\ n ∈ faceNeighbors g f /\ e = newEdge g f n /\ h = Edge.hash e.

(** One turn of the inner loop of [populateFromFaces]. *)
Definition fillStep (g : VerticesAndFaces) (face : fid) (c : EdgeCollection) (neighbor : fid)
    : EdgeCollection :=
  let hash := getHashFromFaces g face neighbor in
  match lutEdges c !! hash with
  | Some _ => c
  | None =>
      mkEC (<[hash := newEdge g face neighbor]> (lutEdges c)) (arrEdgesByCost c ++ [hash])
  end.

(** The collection while [populateFromFaces] fills it. *)
Record Filling (g : VerticesAndFaces) (faces : list fid) (c : EdgeCollection) : Prop := mkFilling {
  fl_nodup : NoDup (arrEdgesByCost c);
  fl_keys : forall h, h ∈ arrEdgesByCost c <-> is_Some (lutEdges c !! h);
  fl_edges : EdgesOf g faces c
}.

(** ** Concrete meshes *)

(** A square root that is exact on squares of rationals, for running the
    model on meshes whose lengths are rational. *)
Definition exactSqrt : Sqrt :=
  fun q => (Z.sqrt (Qnum q * Z.pos (Qden q)) # Qden q)%Q.

Definition point (x y z : Z) : Vector3.t :=
  Vector3.mk (inject_Z x) (inject_Z y) (inject_Z z).

(** Three triangles in the plane [z = 0]: a 3x4 right triangle, and a
    3x4 rectangle cut along a diagonal, side by side.

<<
      3-----4
     /|\    |
    / |  \  |
   0--1-----2
>> *)
Definition stripPositions : list Vector3.t :=
  [point 0 0 0; point 3 0 0; point 6 0 0; point 3 4 0; point 6 4 0].
Definition stripIndices : list nat := [0; 1; 3; 1; 2; 3; 2; 4; 3]%nat.

(** A tetrahedron with three right angles at vertex 0. *)
Definition tetraPositions : list Vector3.t :=
  [point 0 0 0; point 1 0 0; point 0 1 0; point 0 0 1].
Definition tetraIndices : list nat := [0; 2; 1; 0; 1; 3; 0; 3; 2; 1; 2; 3]%nat.

(** Six triangles in the plane [z = 0], all counter-clockwise, on
    thirteen vertices: a fan of three triangles around vertex 12 (faces
    0, 1, 2), two triangles sharing vertex 2 (faces 3, 5), and a lone
    triangle (face 4). *)
Definition fanPositions : list Vector3.t :=
  [point 0 2 0; point (-2) 1 0; point 10 0 0; point 11 0 0; point 10 1 0;
   point 20 0 0; point 21 0 0; point 20 1 0; point 9 (-1) 0; point 10 (-1) 0;
   point 2 (-1) 0; point 2 1 0; point 0 0 0].
Definition fanIndices : list nat :=
  [10; 11; 12; 0; 1; 12; 11; 0; 12; 2; 3; 4; 5; 6; 7; 8; 9; 2]%nat.

(** The pairs of faces joined by the edges of a collection, in the
    order of [arrEdgesByCost]. *)
Definition edgePairs (c : EdgeCollection) : list (fid * fid) :=
  omap (fun h => (fun e => (Edge.face1 e, Edge.face2 e)) <$> lutEdges c !! h)
       (arrEdgesByCost c).

(** The graphs [populateFromGeometry] builds for the strip and for the
    tetrahedron. *)
Definition stripGraph : VerticesAndFaces :=
  default emptyGraph (@populateFromIndexed exactSqrt stripPositions stripIndices).

Definition tetraGraph : VerticesAndFaces :=
  default emptyGraph (@populateFromIndexed exactSqrt tetraPositions tetraIndices).

(** The strip after [collapse( 1 )], and a triangle with a vertex that
    no face uses. *)
Definition stripCollapsed : VerticesAndFaces :=
  default emptyGraph (@collapse exactSqrt 1 stripGraph).

Definition looseGraph : VerticesAndFaces :=
  default emptyGraph (@populateFromIndexed exactSqrt tetraPositions [0; 2; 1]%nat).

(** A triangle soup: two triangles with an edge in common, every corner
    with its own entry. *)
Definition soupPositions : list Vector3.t :=
  [point 0 0 0; point 1 0 0; point 0 1 0; point 1 0 0; point 1 1 0; point 0 1 0].

(** Three short paths. *)
Definition threePaths : list (list Vector3.t) :=
  [[point 0 0 0; point 1 0 0]; [point 5 0 0; point 6 0 0]; [point 1 1 0; point 2 1 0]].

(** The edges of the strip. *)
Definition stripEdges : EdgeCollection := populateFromFaces stripGraph (arrFaces stripGraph).

(** The strip after the greedy selection. *)
Definition stripSelected : EdgeCollection * VerticesAndFaces :=
  default (emptyEdges, emptyGraph) (@greedySelection 10 stripGraph).

(** * Part II: properties *)

(** ** Numbers *)

Lemma Qltb_lt x y : Qltb x y = true <-> (x < y)%Q.
Proof.
  unfold Qltb. rewrite negb_true_iff.
  destruct (Qle_bool y x) eqn:E.
  - apply Qle_bool_iff in E. split; [discriminate | intros Hlt; exfalso; lra].
  - split; [intros _ | reflexivity].
    destruct (Qlt_le_dec x y) as [?|Hle]; [assumption|].
    apply Qle_bool_iff in Hle. congruence.
Qed.

Lemma Qltb_ge x y : Qltb x y = false <-> (y <= x)%Q.
Proof.
  unfold Qltb. rewrite negb_false_iff. apply Qle_bool_iff.
Qed.

Lemma Math_max_spec x y :
  (x <= Math_max x y /\ y <= Math_max x y)%Q /\
  (Math_max x y = x \/ Math_max x y = y).
Proof.
  unfold Math_max. destruct (Qltb x y) eqn:E.
  - apply Qltb_lt in E. repeat split; [lra | lra | now right].
  - apply Qltb_ge in E. repeat split; [lra | lra | now left].
Qed.

Lemma Math_min_spec x y :
  (Math_min x y <= x /\ Math_min x y <= y)%Q /\
  (Math_min x y = x \/ Math_min x y = y).
Proof.
  unfold Math_min. destruct (Qltb y x) eqn:E.
  - apply Qltb_lt in E. repeat split; [lra | lra | now right].
  - apply Qltb_ge in E. repeat split; [lra | lra | now left].
Qed.

(** ** The sampling interval *)

Lemma initialInterval_bounds e :
  (1 # 1000 <= initialInterval e <= 12 # 10000)%Q.
Proof.
  unfold initialInterval.
  destruct (Math_max_spec (1 # 1000) (e / 2)) as [[H1 H2] _].
  destruct (Math_min_spec (12 # 10000) (Math_max (1 # 1000) (e / 2)))
    as [[H3 H4] [H5|H5]]; rewrite H5 in *; lra.
Qed.



(** ** Collapse costs *)

Lemma Math_max_Qmax x y : (Math_max x y == Qmax x y)%Q.
Proof.
  unfold Math_max. destruct (Qltb x y) eqn:E.
  - apply Qltb_lt in E. symmetry. apply Q.max_r. lra.
  - apply Qltb_ge in E. symmetry. apply Q.max_l. lra.
Qed.

Lemma Math_min_Qmin x y : (Math_min x y == Qmin x y)%Q.
Proof.
  unfold Math_min. destruct (Qltb y x) eqn:E.
  - apply Qltb_lt in E. symmetry. apply Q.min_r. lra.
  - apply Qltb_ge in E. symmetry. apply Q.min_l. lra.
Qed.

Lemma Qsquare_nonneg (x : Q) : (0 <= x * x)%Q.
Proof. nra. Qed.

Lemma dot_le_1 a b :
  (Vector3.lengthSq a <= 1)%Q -> (Vector3.lengthSq b <= 1)%Q -> (Vector3.dot a b <= 1)%Q.
Proof.
  destruct a as [ax ay az], b as [bx by_ bz]. unfold Vector3.lengthSq, Vector3.dot. cbn [Vector3.x Vector3.y Vector3.z].
  intros Ha Hb.
  pose proof (Qsquare_nonneg (ax - bx)).
  pose proof (Qsquare_nonneg (ay - by_)).
  pose proof (Qsquare_nonneg (az - bz)).
  nra.
Qed.

(** ** The object heaps *)

Lemma vget_vset s x V y :
  vget (vset s x V) y = if decide (x = y) then V else vget s y.
Proof. unfold vget, vset; simpl. apply lookup_total_insert. Qed.

Lemma vget_vset_eq s x V : vget (vset s x V) x = V.
Proof. rewrite vget_vset. by rewrite decide_True. Qed.

Lemma vget_vset_ne s x V y : x <> y -> vget (vset s x V) y = vget s y.
Proof. intros. rewrite vget_vset. by rewrite decide_False. Qed.

Lemma fget_fset s f F g :
  fget (fset s f F) g = if decide (f = g) then F else fget s g.
Proof. unfold fget, fset; simpl. apply lookup_total_insert. Qed.

Lemma fget_fset_eq s f F : fget (fset s f F) f = F.
Proof. rewrite fget_fset. by rewrite decide_True. Qed.

Lemma fget_fset_ne s f F g : f <> g -> fget (fset s f F) g = fget s g.
Proof. intros. rewrite fget_fset. by rewrite decide_False. Qed.

Lemma fget_vset s x V f : fget (vset s x V) f = fget s f.
Proof. reflexivity. Qed.

Lemma vget_fset s f F x : vget (fset s f F) x = vget s x.
Proof. reflexivity. Qed.

Section C4.
Context `{Sqrt}.
#[local] Open Scope Q_scope.


Lemma minCurvatureOf_spec s w1 w2 f :
  minCurvatureOf s w1 w2 f == specMinCurvature s w1 w2 f.
Proof.
  unfold minCurvatureOf, specMinCurvature.
  rewrite Math_min_Qmin, Math_max_Qmax. reflexivity.
Qed.

Lemma fold_max_ge (t : nat -> Q) l acc :
  acc <= fold_left (fun c f => Math_max c (t f)) l acc /\
  Forall (fun f => t f <= fold_left (fun c f => Math_max c (t f)) l acc) l.
Proof.
  revert acc. induction l as [|f l IH]; intros acc; simpl.
  - split; [lra | constructor].
  - destruct (IH (Math_max acc (t f))) as [H1 H2].
    destruct (Math_max_spec acc (t f)) as [[Ha Hb] _].
    split; [lra|]. constructor; [lra | exact H2].
Qed.

Lemma fold_max_attained (t : nat -> Q) l acc :
  fold_left (fun c f => Math_max c (t f)) l acc = acc \/
  Exists (fun f => fold_left (fun c f => Math_max c (t f)) l acc = t f) l.
Proof.
  revert acc. induction l as [|f l IH]; intros acc; simpl.
  - now left.
  - destruct (IH (Math_max acc (t f))) as [H1|H1].
    + rewrite H1. destruct (Math_max_spec acc (t f)) as [_ [Hm|Hm]]; rewrite Hm.
      * now left.
      * right. now constructor.
    + right. now constructor 2.
Qed.


Lemma minCurvatureOf_nonneg s w1 w2 f :
  Vector3.lengthSq (normal (fget s f)) <= 1 ->
  Vector3.lengthSq (normal (fget s w1)) <= 1 ->
  Vector3.lengthSq (normal (fget s w2)) <= 1 ->
  0 <= minCurvatureOf s w1 w2 f.
Proof.
  intros Hf H1 H2. unfold minCurvatureOf.
  pose proof (dot_le_1 _ _ Hf H1) as D1. pose proof (dot_le_1 _ _ Hf H2) as D2.
  destruct (Math_max_spec (Vector3.dot (normal (fget s f)) (normal (fget s w1)))
              (Vector3.dot (normal (fget s f)) (normal (fget s w2)))) as [_ [Hm|Hm]];
    rewrite Hm;
    match goal with |- 0 <= Math_min 1 ?q =>
      destruct (Math_min_spec 1 q) as [_ [Hn|Hn]]; rewrite Hn;
      [lra | apply Qle_shift_div_l; lra] end.
Qed.

Lemma sideFacesOf_incident s u v f :
  In f (sideFacesOf s u v) -> In f (faces (vget s u)).
Proof. unfold sideFacesOf. intros Hin. apply filter_In in Hin. tauto. Qed.

Lemma curvatureOf_boundary s u v :
  length (sideFacesOf s u v) <> 2%nat -> curvatureOf s u v = 1.
Proof.
  unfold curvatureOf. destruct (sideFacesOf s u v) as [|w1 [|w2 [|w3 l]]]; simpl; congruence.
Qed.

Lemma curvatureOf_interior s u v w1 w2 :
  sideFacesOf s u v = [w1; w2] ->
  Forall (fun f => Vector3.lengthSq (normal (fget s f)) <= 1) (faces (vget s u)) ->
  Forall (fun f => specMinCurvature s w1 w2 f <= curvatureOf s u v) (faces (vget s u)) /\
  Exists (fun f => curvatureOf s u v == specMinCurvature s w1 w2 f) (faces (vget s u)).
Proof.
  intros Hside Hn. unfold curvatureOf. rewrite Hside.
  set (t := minCurvatureOf s w1 w2).
  assert (Hw1 : In w1 (faces (vget s u)))
    by (apply (sideFacesOf_incident s u v); rewrite Hside; simpl; auto).
  assert (Hw2 : In w2 (faces (vget s u)))
    by (apply (sideFacesOf_incident s u v); rewrite Hside; simpl; auto).
  rewrite List.Forall_forall in Hn.
  assert (Hpos : forall f, In f (faces (vget s u)) -> 0 <= t f)
    by (intros f Hf; apply minCurvatureOf_nonneg; auto).
  destruct (fold_max_ge t (faces (vget s u)) 0) as [_ Hge].
  split.
  - eapply List.Forall_impl; [|exact Hge]. intros f Hf; simpl in Hf.
    rewrite <- minCurvatureOf_spec. exact Hf.
  - destruct (fold_max_attained t (faces (vget s u)) 0) as [H0|Hex].
    + apply List.Exists_exists. exists w1. split; [exact Hw1|].
      rewrite <- minCurvatureOf_spec. rewrite H0.
      rewrite List.Forall_forall in Hge. specialize (Hge w1 Hw1). rewrite H0 in Hge.
      specialize (Hpos w1 Hw1). fold t. lra.
    + eapply List.Exists_impl; [|exact Hex]. intros f Hf; simpl in Hf.
      rewrite <- minCurvatureOf_spec. rewrite Hf. reflexivity.
Qed.



Lemma sumOfCosts_snoc cost l n :
  sumOfCosts cost (l ++ [n]) == sumOfCosts cost l + cost n.
Proof.
  induction l as [|m l IH]; simpl; [ring|]. rewrite IH. ring.
Qed.

Lemma costLoopBody_next s v W m n :
  collapseNeighbor W = Some n ->
  costLoopBody s v W m =
    let c := computeEdgeCollapseCost s v m in
    let W' := set_totalCost W (totalCost W + c) in
    if Qltb c (minCost W) then set_minCost (set_collapseNeighbor W' (Some m)) c else W'.
Proof. intros Hcn. unfold costLoopBody. rewrite Hcn. reflexivity. Qed.

Lemma costLoop_spec s v l V n0 :
  let cost := computeEdgeCollapseCost s v in
  let V' := fold_left (costLoopBody s v) l (costLoopBody s v (set_collapseNeighbor V None) n0) in
  totalCost V' == sumOfCosts cost (n0 :: l) /\
  (exists n, collapseNeighbor V' = Some n /\ minCost V' = cost n /\
             firstMinimum cost (n0 :: l) n) /\
  position V' = position V /\ index V' = index V /\ faces V' = faces V /\
  neighbors V' = neighbors V.
Proof.
  intros cost. induction l as [|m l IH] using rev_ind; intros V'; subst V'.
  - simpl. unfold costLoopBody; simpl. split; [fold cost; ring|].
    split; [|done]. exists n0. split; [done|]. split; [done|].
    exists 0%nat. split; [done|]. split.
    + intros m Hm. apply list_elem_of_singleton in Hm. subst. lra.
    + intros j m Hj. lia.
  - rewrite fold_left_app. simpl.
    destruct IH as (Ht & (n & Hcn & Hmin & i & Hi & Hall & Hbefore) & Hp & Hx & Hf & Hnb).
    set (W := fold_left (costLoopBody s v) l
                (costLoopBody s v (set_collapseNeighbor V None) n0)) in *.
    rewrite (costLoopBody_next s v W m n Hcn). fold cost. cbv zeta.
    destruct (Qltb (cost m) (minCost W)) eqn:E; simpl.
    + apply Qltb_lt in E. rewrite Hmin in E.
      split; [rewrite Ht; change (n0 :: l ++ [m]) with ((n0 :: l) ++ [m]);
              rewrite sumOfCosts_snoc; simpl; ring|].
      split; [|done]. exists m. split; [done|]. split; [done|].
      exists (S (length l)). split.
      { change (n0 :: l ++ [m]) with ((n0 :: l) ++ [m]).
        rewrite lookup_app_r by (simpl; lia). simpl.
        replace (length l - length l)%nat with 0%nat by lia. done. }
      split.
      * intros k Hk. change (n0 :: l ++ [m]) with ((n0 :: l) ++ [m]) in Hk.
        apply elem_of_app in Hk as [Hk|Hk].
        -- specialize (Hall k Hk). lra.
        -- apply list_elem_of_singleton in Hk. subst. lra.
      * intros j k Hj Hk. change (n0 :: l ++ [m]) with ((n0 :: l) ++ [m]) in Hk.
        rewrite lookup_app_l in Hk by (simpl; lia).
        assert (cost n <= cost k) by (apply Hall; eapply list_elem_of_lookup_2; eauto).
        lra.
    + apply Qltb_ge in E. rewrite Hmin in E.
      split; [rewrite Ht; change (n0 :: l ++ [m]) with ((n0 :: l) ++ [m]);
              rewrite sumOfCosts_snoc; simpl; ring|].
      split; [|done]. exists n. split; [done|]. split; [done|].
      exists i. split.
      { change (n0 :: l ++ [m]) with ((n0 :: l) ++ [m]).
        rewrite lookup_app_l; [done|]. eapply lookup_lt_Some; eauto. }
      split.
      * intros k Hk. change (n0 :: l ++ [m]) with ((n0 :: l) ++ [m]) in Hk.
        apply elem_of_app in Hk as [Hk|Hk]; [auto|].
        apply list_elem_of_singleton in Hk. subst. lra.
      * intros j k Hj Hk. change (n0 :: l ++ [m]) with ((n0 :: l) ++ [m]) in Hk.
        rewrite lookup_app_l in Hk
          by (apply lookup_lt_Some in Hi; lia).
        eauto.
Qed.


Lemma computeEdgeCostAtVertex_spec s v :
  neighbors (vget s v) <> [] ->
  let cost := computeEdgeCollapseCost s v in
  let s' := fst (computeEdgeCostAtVertex s v) in
  collapseCost (vget s' v) ==
    sumOfCosts cost (neighbors (vget s v)) /
    inject_Z (Z.of_nat (length (neighbors (vget s v)))) /\
  exists n, collapseNeighbor (vget s' v) = Some n /\
            firstMinimum cost (neighbors (vget s v)) n.
Proof.
  intros Hne cost s'. subst s'. unfold computeEdgeCostAtVertex.
  destruct (neighbors (vget s v)) as [|n0 l] eqn:Hnb; [done|].
  cbn [fold_left fst].
  destruct (costLoop_spec s v l (vget s v) n0) as (Ht & (n & Hcn & _ & Hfirst) & _).
  rewrite !vget_vset_eq.
  cbn [collapseCost collapseNeighbor set_collapseCost].
  split.
  - fold cost in Ht. rewrite Ht. reflexivity.
  - exists n. split; [exact Hcn | exact Hfirst].
Qed.


End C4.

(** ** Arrays *)

Section Arrays.
Context `{EqDecision A}.
Implicit Types (l : list A) (x y : A).

Lemma indexOf_None l x : indexOf l x = None <-> x ∉ l.
Proof.
  induction l as [|y l IH]; simpl.
  - split; [intros _; apply not_elem_of_nil | done].
  - case_decide as Hd.
    + subst. split; [done|]. intros Hn. exfalso. apply Hn. left.
    + rewrite not_elem_of_cons. destruct (indexOf l x); simpl.
      * split; [done|]. intros [_ Hn]. apply IH in Hn. done.
      * split; [|done]. intros _. split; [congruence|]. by apply IH.
Qed.

Lemma indexOf_Some l x k :
  indexOf l x = Some k -> l !! k = Some x /\ forall j, (j < k)%nat -> l !! j <> Some x.
Proof.
  revert k. induction l as [|y l IH]; intros k; simpl; [done|].
  case_decide as Hd.
  - intros [= <-]. subst. split; [done|]. intros j Hj. lia.
  - destruct (indexOf l x) as [k'|] eqn:E; simpl; [|done].
    intros [= <-]. destruct (IH k' eq_refl) as [H1 H2]. split; [done|].
    intros [|j] Hj; simpl; [congruence|]. apply H2. lia.
Qed.

Lemma indexOf_elem l x : x ∈ l -> exists k, indexOf l x = Some k.
Proof.
  intros Hin. destruct (indexOf l x) as [k|] eqn:E; [eauto|].
  apply indexOf_None in E. done.
Qed.

Lemma indexOf_lt l x k : indexOf l x = Some k -> (k < length l)%nat.
Proof. intros Hk. apply indexOf_Some in Hk as [Hk _]. eapply lookup_lt_Some; eauto. Qed.

Lemma elem_of_splice1 l i y : y ∈ splice1 l i -> y ∈ l.
Proof.
  unfold splice1. revert i. induction l as [|z l IH]; intros [|i]; simpl; try done.
  - intros Hy. by right.
  - rewrite !elem_of_cons. intros [->|Hy]; [by left|]. right. eauto.
Qed.

Lemma removeFirst_notin l x : x ∉ l -> removeFirst l x = l.
Proof. intros Hn. unfold removeFirst. apply indexOf_None in Hn. by rewrite Hn. Qed.

Lemma removeFirst_cons l x y :
  removeFirst (y :: l) x = if decide (y = x) then l else y :: removeFirst l x.
Proof.
  unfold removeFirst. simpl. case_decide; [done|].
  destruct (indexOf l x); simpl; done.
Qed.

Lemma elem_of_removeFirst l x y : y ∈ removeFirst l x -> y ∈ l.
Proof.
  induction l as [|z l IH]; [done|]. rewrite removeFirst_cons.
  case_decide; [intros; by right|].
  rewrite !elem_of_cons. intros [->|Hy]; [by left|]. right. auto.
Qed.

Lemma elem_of_removeFirst_ne l x y : y ≠ x -> y ∈ l -> y ∈ removeFirst l x.
Proof.
  intros Hne. induction l as [|z l IH]; [done|]. rewrite removeFirst_cons.
  rewrite elem_of_cons. intros [->|Hy].
  - rewrite decide_False by done. left.
  - case_decide; [done|]. right. auto.
Qed.

Lemma NoDup_removeFirst l x : NoDup l -> NoDup (removeFirst l x).
Proof.
  induction 1 as [|z l Hz Hl IH]; [constructor|]. rewrite removeFirst_cons.
  case_decide; [done|]. constructor; [|done].
  intros Hin. apply Hz. by eapply elem_of_removeFirst.
Qed.

Lemma removeFirst_NoDup_notin l x : NoDup l -> x ∉ removeFirst l x.
Proof.
  induction 1 as [|z l Hz Hl IH]; [apply not_elem_of_nil|]. rewrite removeFirst_cons.
  case_decide; [by subst|]. rewrite not_elem_of_cons. split; [congruence|done].
Qed.

Lemma removeFirst_Permutation l x : x ∈ l -> l ≡ₚ x :: removeFirst l x.
Proof.
  induction l as [|z l IH]; [by intros ?%elem_of_nil|]. rewrite removeFirst_cons.
  case_decide; [by subst|].
  rewrite elem_of_cons. intros [->|Hx]; [done|].
  rewrite (IH Hx) at 1. apply Permutation_swap.
Qed.

Lemma removeFirst_lookup l x p y :
  removeFirst l x !! p = Some y -> l !! p = Some y \/ l !! S p = Some y.
Proof.
  revert p. induction l as [|z l IH]; intros p; [done|]. rewrite removeFirst_cons.
  case_decide; [intros; by right|].
  destruct p as [|p]; simpl; [by left|]. apply IH.
Qed.

Lemma removeFirst_lookup_after l x i p :
  l !! i = Some x -> (i <= p)%nat -> removeFirst l x !! p = l !! S p.
Proof.
  revert i p. induction l as [|z l IH]; intros i p; [done|]. rewrite removeFirst_cons.
  case_decide; [done|].
  destruct i as [|i]; simpl; [congruence|]. intros Hi Hp.
  destruct p as [|p]; [lia|]. simpl. eapply IH; eauto. lia.
Qed.

Lemma spliceIn_Permutation l i x : spliceIn l i x ≡ₚ x :: l.
Proof.
  unfold spliceIn. rewrite <- Permutation_middle. by rewrite take_drop.
Qed.

Lemma length_spliceIn l i x : length (spliceIn l i x) = S (length l).
Proof. by rewrite (spliceIn_Permutation l i x). Qed.

Lemma spliceIndexOf_Permutation l x : x ∈ l -> l ≡ₚ x :: spliceIndexOf l x.
Proof.
  intros Hx. pose proof (removeFirst_Permutation l x Hx) as Hp.
  unfold removeFirst in Hp. unfold spliceIndexOf.
  destruct (indexOf_elem l x Hx) as [k Hk]. by rewrite Hk in *.
Qed.

End Arrays.

(** ** Effects of the primitive operations *)

Lemma sameArrays_refl s : sameArrays s s.
Proof. by repeat split. Qed.

Lemma sameArrays_trans s1 s2 s3 : sameArrays s1 s2 -> sameArrays s2 s3 -> sameArrays s1 s3.
Proof. intros (?&?&?) (?&?&?). repeat split; congruence. Qed.

Lemma sameArrays_vset s x V : sameArrays s (vset s x V).
Proof. by repeat split. Qed.

Lemma sameArrays_fset s f F : sameArrays s (fset s f F).
Proof. by repeat split. Qed.

Lemma set_neighbors_id V : set_neighbors V (neighbors V) = V.
Proof. by destruct V. Qed.

Lemma set_faces_id V : set_faces V (faces V) = V.
Proof. by destruct V. Qed.

Lemma addUniqueNeighbor_vget s x t y :
  vget (addUniqueNeighbor s x t) y =
    if decide (x = y) then set_neighbors (vget s x) (addUnique (neighbors (vget s x)) t)
    else vget s y.
Proof.
  unfold addUniqueNeighbor, addUnique.
  destruct (indexOf (neighbors (vget s x)) t) as [k|] eqn:E.
  - assert (t ∈ neighbors (vget s x)).
    { apply indexOf_Some in E as [E _]. eapply list_elem_of_lookup_2; eauto. }
    destruct (decide (t ∈ neighbors (vget s x))); [|done].
    rewrite set_neighbors_id. by case_decide; subst.
  - apply indexOf_None in E.
    destruct (decide (t ∈ neighbors (vget s x))); [done|]. apply vget_vset.
Qed.

Lemma addUniqueNeighbor_fget s x t f : fget (addUniqueNeighbor s x t) f = fget s f.
Proof. unfold addUniqueNeighbor. by case_match. Qed.

Lemma addUniqueNeighbor_arrays s x t : sameArrays s (addUniqueNeighbor s x t).
Proof. unfold addUniqueNeighbor. case_match; by repeat split. Qed.

Lemma removeIfNonNeighbor_vget s x t y :
  vget (removeIfNonNeighbor s x t) y =
    if decide (x = y)
    then set_neighbors (vget s x)
           (if stillJoined s x t then neighbors (vget s x)
            else removeFirst (neighbors (vget s x)) t)
    else vget s y.
Proof.
  unfold removeIfNonNeighbor, stillJoined, removeFirst.
  destruct (indexOf (neighbors (vget s x)) t) as [k|] eqn:E.
  - destruct (existsb _ _).
    + rewrite set_neighbors_id. by case_decide; subst.
    + apply vget_vset.
  - destruct (existsb _ _); rewrite set_neighbors_id; by case_decide; subst.
Qed.

Lemma removeIfNonNeighbor_fget s x t f : fget (removeIfNonNeighbor s x t) f = fget s f.
Proof. unfold removeIfNonNeighbor. by repeat case_match. Qed.

Lemma removeIfNonNeighbor_arrays s x t : sameArrays s (removeIfNonNeighbor s x t).
Proof. unfold removeIfNonNeighbor. repeat case_match; by repeat split. Qed.

Lemma pushFace_vget s x f y :
  vget (pushFace s x f) y =
    if decide (x = y) then set_faces (vget s x) (faces (vget s x) ++ [f]) else vget s y.
Proof. apply vget_vset. Qed.

Lemma pushFace_fget s x f g : fget (pushFace s x f) g = fget s g.
Proof. reflexivity. Qed.

Lemma pushFace_arrays s x f : sameArrays s (pushFace s x f).
Proof. by repeat split. Qed.

Section GeometryEffects.
Context `{Sqrt}.

Lemma computeNormal_vget s f y : vget (computeNormal s f) y = vget s y.
Proof. reflexivity. Qed.

Lemma computeCenter_vget s f y : vget (computeCenter s f) y = vget s y.
Proof. reflexivity. Qed.

Lemma computeNormal_fget s f g :
  fget (computeNormal s f) g =
    if decide (f = g)
    then set_normal (fget s f)
           (normalOf (position (vget s (v1 (fget s f)))) (position (vget s (v2 (fget s f))))
                     (position (vget s (v3 (fget s f)))))
    else fget s g.
Proof. apply fget_fset. Qed.

Lemma computeCenter_fget s f g :
  fget (computeCenter s f) g =
    if decide (f = g)
    then set_center (fget s f)
           (centerOf (position (vget s (v1 (fget s f)))) (position (vget s (v2 (fget s f))))
                     (position (vget s (v3 (fget s f)))))
    else fget s g.
Proof. apply fget_fset. Qed.

Lemma computeNormal_arrays s f : sameArrays s (computeNormal s f).
Proof. by repeat split. Qed.

Lemma computeCenter_arrays s f : sameArrays s (computeCenter s f).
Proof. by repeat split. Qed.

End GeometryEffects.

Lemma hasVertex_verticesOf F v : hasVertex F v = true <-> v ∈ verticesOf F.
Proof.
  unfold hasVertex, verticesOf. rewrite !orb_true_iff, !bool_decide_eq_true.
  rewrite !elem_of_cons, elem_of_nil. tauto.
Qed.

Lemma hasVertex_false F v : hasVertex F v = false <-> v ∉ verticesOf F.
Proof.
  rewrite <- hasVertex_verticesOf. destruct (hasVertex F v); split; congruence.
Qed.

Lemma stillJoined_true s x t :
  stillJoined s x t = true <->
  exists f, f ∈ faces (vget s x) /\ t ∈ verticesOf (fget s f).
Proof.
  unfold stillJoined. rewrite existsb_exists. split.
  - intros (f & Hf & Ht). exists f. split; [by apply list_elem_of_In|].
    by apply hasVertex_verticesOf.
  - intros (f & Hf & Ht). exists f. split; [by apply list_elem_of_In|].
    by apply hasVertex_verticesOf.
Qed.

Lemma sameKeys_refl s : sameKeys s s.
Proof. by intros y. Qed.

Lemma sameKeys_trans s1 s2 s3 : sameKeys s1 s2 -> sameKeys s2 s3 -> sameKeys s1 s3.
Proof.
  intros H12 H23 y. destruct (H12 y) as (?&?&?&?), (H23 y) as (?&?&?&?).
  repeat split; congruence.
Qed.

Lemma sameKeys_set_neighbors s x l : sameKeys s (vset s x (set_neighbors (vget s x) l)).
Proof. intros y. rewrite vget_vset. by case_decide; subst. Qed.

Lemma sameKeys_set_faces s x l : sameKeys s (vset s x (set_faces (vget s x) l)).
Proof. intros y. rewrite vget_vset. by case_decide; subst. Qed.

Lemma addUniqueNeighbor_keys s x t : sameKeys s (addUniqueNeighbor s x t).
Proof. intros y. rewrite addUniqueNeighbor_vget. by case_decide; subst. Qed.

Lemma removeIfNonNeighbor_keys s x t : sameKeys s (removeIfNonNeighbor s x t).
Proof. intros y. rewrite removeIfNonNeighbor_vget. by case_decide; subst. Qed.

Lemma pushFace_keys s x f : sameKeys s (pushFace s x f).
Proof. apply sameKeys_set_faces. Qed.

(** ** The adjacency invariant *)

Lemma stillJoined_sym A s x t :
  Topology A s -> x ∈ A -> t ∈ A -> stillJoined s x t = stillJoined s t x.
Proof.
  intros HT Hx Ht.
  destruct (stillJoined s x t) eqn:E1, (stillJoined s t x) eqn:E2; try done.
  - apply stillJoined_true in E1 as (f & Hf & Htf).
    destruct (topo_fc _ _ HT x f Hx Hf) as (Hxf & _ & Hall).
    destruct (Hall t Htf) as [_ Hft].
    assert (stillJoined s t x = true) by (apply stillJoined_true; eauto). congruence.
  - apply stillJoined_true in E2 as (f & Hf & Hxf).
    destruct (topo_fc _ _ HT t f Ht Hf) as (Htf & _ & Hall).
    destruct (Hall x Hxf) as [_ Hfx].
    assert (stillJoined s x t = true) by (apply stillJoined_true; eauto). congruence.
Qed.

Lemma removeNonNeighbors_fget s x t f : fget (removeNonNeighbors s x t) f = fget s f.
Proof. unfold removeNonNeighbors. by rewrite !removeIfNonNeighbor_fget. Qed.

Lemma removeNonNeighbors_arrays s x t : sameArrays s (removeNonNeighbors s x t).
Proof.
  unfold removeNonNeighbors.
  eapply sameArrays_trans; apply removeIfNonNeighbor_arrays.
Qed.

Lemma removeNonNeighbors_keys s x t : sameKeys s (removeNonNeighbors s x t).
Proof.
  unfold removeNonNeighbors. eapply sameKeys_trans; apply removeIfNonNeighbor_keys.
Qed.

Lemma removeNonNeighbors_faces s x t y :
  faces (vget (removeNonNeighbors s x t) y) = faces (vget s y).
Proof.
  unfold removeNonNeighbors. rewrite !removeIfNonNeighbor_vget.
  repeat case_decide; subst; simpl; try done.
Qed.

Lemma stillJoined_removeIfNonNeighbor s x t a b :
  stillJoined (removeIfNonNeighbor s x t) a b = stillJoined s a b.
Proof.
  unfold stillJoined.
  replace (faces (vget (removeIfNonNeighbor s x t) a)) with (faces (vget s a))
    by (rewrite removeIfNonNeighbor_vget; by case_decide; subst).
  induction (faces (vget s a)) as [|f l IH]; simpl; [done|].
  by rewrite removeIfNonNeighbor_fget, IH.
Qed.

(** The neighbour lists after [removeNonNeighbors( x, t )]. *)
Lemma removeNonNeighbors_neighbors A s x t y :
  Topology A s -> x ∈ A -> t ∈ A ->
  neighbors (vget (removeNonNeighbors s x t) y) =
    if stillJoined s x t then neighbors (vget s y)
    else if decide (y = x) then removeFirst (neighbors (vget s x)) t
    else if decide (y = t) then removeFirst (neighbors (vget s t)) x
    else neighbors (vget s y).
Proof.
  intros HT Hx Ht. unfold removeNonNeighbors.
  rewrite removeIfNonNeighbor_vget, stillJoined_removeIfNonNeighbor.
  rewrite <- (stillJoined_sym A s x t) by done.
  rewrite !removeIfNonNeighbor_vget.
  destruct (stillJoined s x t) eqn:E.
  - repeat case_decide; subst; simpl; done.
  - destruct (decide (x = t)) as [->|Hne].
    + assert (t ∉ neighbors (vget s t)).
      { intros Hin. by destruct (topo_nb _ _ HT t t Ht Hin) as (_ & ? & _). }
      repeat case_decide; subst; simpl; rewrite ?removeFirst_notin; try done.
      by intros ?%elem_of_removeFirst.
    + repeat case_decide; subst; simpl; done.
Qed.

Lemma removeNonNeighbors_neighbors_other s x t y :
  y <> x -> y <> t ->
  neighbors (vget (removeNonNeighbors s x t) y) = neighbors (vget s y).
Proof.
  intros Hx Ht. unfold removeNonNeighbors. rewrite !removeIfNonNeighbor_vget.
  by rewrite !decide_False by congruence.
Qed.

Lemma removeNonNeighbors_Topology A s x t :
  Topology A s -> x ∈ A -> t ∈ A -> Topology A (removeNonNeighbors s x t).
Proof.
  intros HT Hx Ht.
  pose proof (removeNonNeighbors_neighbors A s x t) as HN.
  constructor.
  - intros v Hv. rewrite HN by done.
    repeat case_match; try apply NoDup_removeFirst; by apply (topo_nb_nodup _ _ HT).
  - intros v w Hv. rewrite !HN by done.
    destruct (stillJoined s x t); [by apply (topo_nb _ _ HT)|].
    pose proof (topo_nb_nodup _ _ HT x Hx) as Hdx.
    pose proof (topo_nb_nodup _ _ HT t Ht) as Hdt.
    intros Hw.
    assert (Hw' : w ∈ neighbors (vget s v))
      by (repeat case_decide; subst; eauto using elem_of_removeFirst).
    destruct (topo_nb _ _ HT v w Hv Hw') as (HwA & Hne & Hsym).
    split; [done|]. split; [done|].
    destruct (decide (v = x)) as [->|Hvx].
    + assert (w <> t) by (intros ->; by apply (removeFirst_NoDup_notin _ t Hdx)).
      destruct (decide (w = x)); [done|]. rewrite decide_False by done. done.
    + destruct (decide (v = t)) as [->|Hvt].
      * assert (w <> x) by (intros ->; by apply (removeFirst_NoDup_notin _ x Hdt)).
        rewrite decide_False by done. by rewrite decide_False by done.
      * repeat case_decide; subst; try done; by apply elem_of_removeFirst_ne.
  - intros v Hv. rewrite removeNonNeighbors_faces. by apply (topo_fc_nodup _ _ HT).
  - intros v f Hv. rewrite removeNonNeighbors_faces, removeNonNeighbors_fget.
    intros Hf. destruct (topo_fc _ _ HT v f Hv Hf) as (H1 & H2 & H3).
    split; [done|]. split; [done|]. intros w Hw. rewrite removeNonNeighbors_faces. auto.
Qed.

Lemma removeNonNeighbors_Mates A s x t f :
  Topology A s -> x ∈ A -> t ∈ A -> Mates A s f -> Mates A (removeNonNeighbors s x t) f.
Proof.
  intros HT Hx Ht HM v w Hv. rewrite removeNonNeighbors_faces, removeNonNeighbors_fget.
  intros Hf Hw Hne. specialize (HM v w Hv Hf Hw Hne).
  rewrite (removeNonNeighbors_neighbors A) by done.
  destruct (stillJoined s x t) eqn:E; [done|].
  assert (Hj : stillJoined s v w = true) by (apply stillJoined_true; eauto).
  destruct (topo_fc _ _ HT v f Hv Hf) as (_ & _ & Hall).
  destruct (Hall w Hw) as [HwA _].
  repeat case_decide; subst; try done.
  - apply elem_of_removeFirst_ne; [|done]. intros ->. congruence.
  - apply elem_of_removeFirst_ne; [|done]. intros ->.
    rewrite (stillJoined_sym A) in Hj by done. congruence.
Qed.

(** *** [removeFace] *)

Section RemoveFace.
Context `{Sqrt}.

Lemma removeFace_unfold s f :
  removeFace s f =
    let F := fget s f in
    removeNonNeighbors
      (removeNonNeighbors (removeNonNeighbors (dropFace s f) (v1 F) (v2 F)) (v2 F) (v3 F))
      (v3 F) (v1 F).
Proof. reflexivity. Qed.

Lemma dropFace_fget s f g : fget (dropFace s f) g = fget s g.
Proof. reflexivity. Qed.

Lemma dropFace_arrVertices s f : arrVertices (dropFace s f) = arrVertices s.
Proof. reflexivity. Qed.

Lemma dropFace_arrVerticesByCost s f :
  arrVerticesByCost (dropFace s f) = arrVerticesByCost s.
Proof. reflexivity. Qed.

Lemma dropFace_arrFaces s f : arrFaces (dropFace s f) = removeFirst (arrFaces s) f.
Proof. reflexivity. Qed.

Lemma dropFaces_neighbors f vs s y :
  neighbors (vget (fold_left
    (fun s vertex =>
       vset s vertex (set_faces (vget s vertex) (removeFirst (faces (vget s vertex)) f)))
    vs s) y) = neighbors (vget s y).
Proof.
  revert s. induction vs as [|x vs IH]; intros s; simpl; [done|].
  rewrite IH, vget_vset. by case_decide; subst.
Qed.

Lemma dropFaces_faces f vs s y :
  NoDup vs ->
  faces (vget (fold_left
    (fun s vertex =>
       vset s vertex (set_faces (vget s vertex) (removeFirst (faces (vget s vertex)) f)))
    vs s) y) =
  if decide (y ∈ vs) then removeFirst (faces (vget s y)) f else faces (vget s y).
Proof.
  revert s. induction vs as [|x vs IH]; intros s Hnd; cbn [fold_left].
  - by rewrite decide_False by apply not_elem_of_nil.
  - apply NoDup_cons in Hnd as [Hx Hnd]. rewrite IH by done.
    rewrite vget_vset. destruct (decide (x = y)) as [->|Hne].
    + rewrite (decide_False (P := y ∈ vs)) by done.
      rewrite decide_True by left. done.
    + destruct (decide (y ∈ vs)).
      * by rewrite decide_True by by right.
      * rewrite decide_False; [done|]. rewrite not_elem_of_cons. split; [congruence|done].
Qed.

Lemma dropFaces_keys f vs s :
  sameKeys s (fold_left
    (fun s vertex =>
       vset s vertex (set_faces (vget s vertex) (removeFirst (faces (vget s vertex)) f)))
    vs s).
Proof.
  revert s. induction vs as [|x vs IH]; intros s; simpl; [apply sameKeys_refl|].
  eapply sameKeys_trans; [|apply IH]. apply sameKeys_set_faces.
Qed.

Lemma dropFace_keys s f : sameKeys s (dropFace s f).
Proof. unfold dropFace. apply (dropFaces_keys f _ (set_arrFaces s _)). Qed.

Lemma removeFace_keys s f : sameKeys s (removeFace s f).
Proof.
  rewrite removeFace_unfold. cbv zeta.
  repeat (eapply sameKeys_trans; [|apply removeNonNeighbors_keys]). apply dropFace_keys.
Qed.

Lemma dropFace_neighbors s f y : neighbors (vget (dropFace s f) y) = neighbors (vget s y).
Proof. unfold dropFace. by rewrite dropFaces_neighbors. Qed.

Lemma dropFace_faces s f y :
  NoDup (verticesOf (fget s f)) ->
  faces (vget (dropFace s f) y) =
    if decide (y ∈ verticesOf (fget s f)) then removeFirst (faces (vget s y)) f
    else faces (vget s y).
Proof. intros Hnd. unfold dropFace. by rewrite dropFaces_faces. Qed.

Lemma dropFace_faces_alive A s f y :
  Topology A s -> NoDup (verticesOf (fget s f)) -> y ∈ A ->
  faces (vget (dropFace s f) y) = removeFirst (faces (vget s y)) f.
Proof.
  intros HT Hnd Hy. rewrite dropFace_faces by done. case_decide as Hv; [done|].
  symmetry. apply removeFirst_notin. intros Hf.
  by destruct (topo_fc _ _ HT y f Hy Hf) as (? & _).
Qed.

Lemma dropFace_Topology A s f :
  Topology A s -> NoDup (verticesOf (fget s f)) -> Topology A (dropFace s f).
Proof.
  intros HT Hnd. constructor.
  - intros v Hv. rewrite dropFace_neighbors. by apply (topo_nb_nodup _ _ HT).
  - intros v w Hv. rewrite !dropFace_neighbors. by apply (topo_nb _ _ HT).
  - intros v Hv. rewrite (dropFace_faces_alive A) by done.
    apply NoDup_removeFirst. by apply (topo_fc_nodup _ _ HT).
  - intros v g Hv. rewrite (dropFace_faces_alive A), dropFace_fget by done.
    intros Hg.
    assert (g <> f).
    { intros ->. eapply removeFirst_NoDup_notin; [|exact Hg].
      by apply (topo_fc_nodup _ _ HT). }
    apply elem_of_removeFirst in Hg.
    destruct (topo_fc _ _ HT v g Hv Hg) as (H1 & H2 & H3).
    split; [done|]. split; [done|]. intros w Hw. destruct (H3 w Hw) as [HwA Hgw].
    split; [done|]. rewrite (dropFace_faces_alive A) by done.
    by apply elem_of_removeFirst_ne.
Qed.

Lemma dropFace_Mates A s f g :
  Topology A s -> NoDup (verticesOf (fget s f)) -> Mates A s g -> Mates A (dropFace s f) g.
Proof.
  intros HT Hnd HM v w Hv. rewrite (dropFace_faces_alive A), dropFace_fget by done.
  rewrite dropFace_neighbors. intros Hg%elem_of_removeFirst. by apply HM.
Qed.

(** What [removeFace( f )] does to a graph satisfying the invariant,
    for a face [f] listed by a live vertex. *)
Lemma removeFace_spec A s f u :
  Topology A s -> (forall g, Mates A s g) -> u ∈ A -> f ∈ faces (vget s u) ->
  let s' := removeFace s f in
  Topology A s' /\ (forall g, Mates A s' g) /\
  (forall g, fget s' g = fget s g) /\
  arrVertices s' = arrVertices s /\
  arrVerticesByCost s' = arrVerticesByCost s /\
  arrFaces s' = removeFirst (arrFaces s) f /\
  (forall y, y ∈ A -> faces (vget s' y) = removeFirst (faces (vget s y)) f) /\
  (forall y w, w ∈ neighbors (vget s' y) -> w ∈ neighbors (vget s y)) /\
  (forall y, y ∉ verticesOf (fget s f) -> neighbors (vget s' y) = neighbors (vget s y)).
Proof.
  intros HT HM Hu Hf s'. subst s'. rewrite removeFace_unfold. cbv zeta.
  destruct (topo_fc _ _ HT u f Hu Hf) as (_ & Hnd & Hall).
  assert (Ha : v1 (fget s f) ∈ A) by (apply Hall; unfold verticesOf; left).
  assert (Hb : v2 (fget s f) ∈ A) by (apply Hall; unfold verticesOf; right; left).
  assert (Hc : v3 (fget s f) ∈ A) by (apply Hall; unfold verticesOf; right; right; left).
  set (a := v1 (fget s f)) in *. set (b := v2 (fget s f)) in *. set (c := v3 (fget s f)) in *.
  pose proof (dropFace_Topology A s f HT Hnd) as HT0.
  pose proof (fun g => dropFace_Mates A s f g HT Hnd (HM g)) as HM0.
  set (s0 := dropFace s f) in *.
  pose proof (removeNonNeighbors_Topology A s0 a b HT0 Ha Hb) as HT1.
  pose proof (fun g => removeNonNeighbors_Mates A s0 a b g HT0 Ha Hb (HM0 g)) as HM1.
  set (s1 := removeNonNeighbors s0 a b) in *.
  pose proof (removeNonNeighbors_Topology A s1 b c HT1 Hb Hc) as HT2.
  pose proof (fun g => removeNonNeighbors_Mates A s1 b c g HT1 Hb Hc (HM1 g)) as HM2.
  set (s2 := removeNonNeighbors s1 b c) in *.
  pose proof (removeNonNeighbors_Topology A s2 c a HT2 Hc Ha) as HT3.
  pose proof (fun g => removeNonNeighbors_Mates A s2 c a g HT2 Hc Ha (HM2 g)) as HM3.
  split; [done|]. split; [done|].
  split; [intros g; unfold s2, s1, s0; by rewrite !removeNonNeighbors_fget|].
  pose proof HT0 as HT0'. pose proof HT1 as HT1'. pose proof HT2 as HT2'.
  subst s2 s1 s0.
  destruct (removeNonNeighbors_arrays
              (removeNonNeighbors (removeNonNeighbors (dropFace s f) a b) b c) c a)
    as (E1 & E2 & E3).
  destruct (removeNonNeighbors_arrays (removeNonNeighbors (dropFace s f) a b) b c)
    as (E4 & E5 & E6).
  destruct (removeNonNeighbors_arrays (dropFace s f) a b) as (E7 & E8 & E9).
  split; [by rewrite E2, E5, E8|].
  split; [by rewrite E3, E6, E9|].
  split; [by rewrite E1, E4, E7|].
  split.
  { intros y Hy. rewrite !removeNonNeighbors_faces.
    by apply (dropFace_faces_alive A). }
  split.
  2:{ intros y Hy. unfold verticesOf in Hy. fold a b c in Hy.
      rewrite !not_elem_of_cons in Hy. destruct Hy as (? & ? & ? & _).
      rewrite !removeNonNeighbors_neighbors_other by done. apply dropFace_neighbors. }
  - intros y w.
    assert (Hsub : forall t x t', Topology A t -> x ∈ A -> t' ∈ A ->
              w ∈ neighbors (vget (removeNonNeighbors t x t') y) -> w ∈ neighbors (vget t y)).
    { intros t x t' HTt Hx Ht'. rewrite (removeNonNeighbors_neighbors A) by done.
      repeat case_match; subst; eauto using elem_of_removeFirst. }
    intros Hw. apply Hsub in Hw; [|done..]. apply Hsub in Hw; [|done..].
    apply Hsub in Hw; [|done..]. by rewrite dropFace_neighbors in Hw.
Qed.

End RemoveFace.

(** *** The two loops over the faces of [u] *)

Lemma Shrinks_refl A s : Shrinks A s s.
Proof. constructor; auto using sameKeys_refl. Qed.

Lemma Shrinks_trans A s1 s2 s3 : Shrinks A s1 s2 -> Shrinks A s2 s3 -> Shrinks A s1 s3.
Proof.
  intros [] []. constructor; eauto using sameKeys_trans; try congruence.
Qed.

Section Loops.
Context `{Sqrt}.

Lemma removeFace_Shrinks A s f u :
  Topology A s -> (forall g, Mates A s g) -> u ∈ A -> f ∈ faces (vget s u) ->
  Shrinks A s (removeFace s f).
Proof.
  intros HT HM Hu Hf.
  destruct (removeFace_spec A s f u HT HM Hu Hf)
    as (_ & _ & H1 & H2 & H3 & H4 & H5 & H6 & _).
  constructor; try done.
  - apply removeFace_keys.
  - intros g. rewrite H4. apply elem_of_removeFirst.
  - intros y g Hy. rewrite H5 by done. apply elem_of_removeFirst.
Qed.

Lemma deleteEdgeFaces_spec A u v i : forall s,
  Topology A s -> (forall g, Mates A s g) -> u ∈ A ->
  (forall p g, (i <= p)%nat -> faces (vget s u) !! p = Some g -> v ∉ verticesOf (fget s g)) ->
  let s' := deleteEdgeFaces s u v i in
  Topology A s' /\ (forall g, Mates A s' g) /\ Shrinks A s s' /\
  (forall g, g ∈ faces (vget s' u) -> v ∉ verticesOf (fget s' g)) /\
  (forall y, y <> u -> y ∉ neighbors (vget s u) ->
     neighbors (vget s' y) = neighbors (vget s y)).
Proof.
  induction i as [|i IH]; intros s HT HM Hu Hgood; simpl.
  - split; [done|]. split; [done|]. split; [apply Shrinks_refl|]. split; [|done].
    intros g Hg. apply list_elem_of_lookup in Hg as [p Hp]. eapply Hgood; [|done]. lia.
  - destruct (faces (vget s u) !! i) as [f|] eqn:Hi.
    + destruct (hasVertex (fget s f) v) eqn:Hv.
      * assert (Hf : f ∈ faces (vget s u)) by (eapply list_elem_of_lookup_2; eauto).
        destruct (removeFace_spec A s f u HT HM Hu Hf)
          as (HT' & HM' & Hfg & _ & _ & _ & Hfaces & Hsub & Hframe).
        pose proof (removeFace_Shrinks A s f u HT HM Hu Hf) as Hshr.
        destruct (IH (removeFace s f) HT' HM' Hu) as (HT2 & HM2 & Hshr2 & Hpost & Hfr2).
        { intros p g Hp. rewrite Hfaces, Hfg by done.
          rewrite (removeFirst_lookup_after _ f i p Hi Hp). intros Hg.
          eapply Hgood; [|done]. lia. }
        split; [done|]. split; [done|]. split; [eapply Shrinks_trans; eauto|].
        split; [done|]. intros y Hyu Hyn.
        rewrite Hfr2; [|done|intros Hin; apply Hyn; by apply Hsub].
        apply Hframe. intros Hy. apply Hyn. by apply (HM f u y).
      * apply IH; try done. intros p g Hp Hg.
        destruct (decide (p = i)) as [->|Hne].
        -- rewrite Hi in Hg. injection Hg as <-. by apply hasVertex_false.
        -- eapply Hgood; [|done]. lia.
    + apply IH; try done. intros p g Hp Hg.
      destruct (decide (p = i)) as [->|Hne]; [congruence|].
      eapply Hgood; [|done]. lia.
Qed.

End Loops.

(** *** Linking the three vertices of a face *)

Lemma elem_of_addUnique l t w : w ∈ addUnique l t <-> w ∈ l \/ w = t.
Proof.
  unfold addUnique. case_decide.
  - split; [by left|]. intros [?| ->]; done.
  - rewrite elem_of_app, list_elem_of_singleton. done.
Qed.

Lemma NoDup_addUnique l t : NoDup l -> NoDup (addUnique l t).
Proof.
  unfold addUnique. case_decide; [done|]. intros Hl.
  apply NoDup_app. split; [done|]. split; [|apply NoDup_singleton].
  intros x Hx ->%list_elem_of_singleton. done.
Qed.

Lemma addUniqueNeighbor_neighbors s x t y :
  neighbors (vget (addUniqueNeighbor s x t) y) =
    if decide (x = y) then addUnique (neighbors (vget s x)) t else neighbors (vget s y).
Proof. rewrite addUniqueNeighbor_vget. by case_decide. Qed.

Lemma addUniqueNeighbor_elem s x t y w :
  w ∈ neighbors (vget (addUniqueNeighbor s x t) y) <->
  w ∈ neighbors (vget s y) \/ (y = x /\ w = t).
Proof.
  rewrite addUniqueNeighbor_neighbors. case_decide; subst.
  - rewrite elem_of_addUnique. tauto.
  - split; [by left|]. intros [?|[? ?]]; [done|congruence].
Qed.

Lemma addUniqueNeighbor_nodup s x t y :
  NoDup (neighbors (vget s y)) -> NoDup (neighbors (vget (addUniqueNeighbor s x t) y)).
Proof.
  rewrite addUniqueNeighbor_neighbors. case_decide; subst; [apply NoDup_addUnique|done].
Qed.

Lemma addUniqueNeighbor_faces s x t y :
  faces (vget (addUniqueNeighbor s x t) y) = faces (vget s y).
Proof. rewrite addUniqueNeighbor_vget. by case_decide; subst. Qed.

Lemma linkVertices_fget s a b c f : fget (linkVertices s a b c) f = fget s f.
Proof. unfold linkVertices. by rewrite !addUniqueNeighbor_fget. Qed.

Lemma linkVertices_faces s a b c y :
  faces (vget (linkVertices s a b c) y) = faces (vget s y).
Proof. unfold linkVertices. by rewrite !addUniqueNeighbor_faces. Qed.

Lemma linkVertices_keys s a b c : sameKeys s (linkVertices s a b c).
Proof.
  unfold linkVertices.
  repeat (eapply sameKeys_trans; [|apply addUniqueNeighbor_keys]). apply sameKeys_refl.
Qed.

Lemma linkVertices_arrays s a b c : sameArrays s (linkVertices s a b c).
Proof.
  unfold linkVertices.
  repeat (eapply sameArrays_trans; [|apply addUniqueNeighbor_arrays]). apply sameArrays_refl.
Qed.

Lemma linkVertices_nodup s a b c y :
  NoDup (neighbors (vget s y)) -> NoDup (neighbors (vget (linkVertices s a b c) y)).
Proof. intros Hy. unfold linkVertices. by repeat apply addUniqueNeighbor_nodup. Qed.

Lemma linkVertices_elem s a b c y w :
  w ∈ neighbors (vget (linkVertices s a b c) y) <->
  w ∈ neighbors (vget s y) \/
  (y = a /\ (w = b \/ w = c)) \/ (y = b /\ (w = a \/ w = c)) \/ (y = c /\ (w = a \/ w = b)).
Proof. unfold linkVertices. rewrite !addUniqueNeighbor_elem. tauto. Qed.

(** Linking the vertices of a face that all its vertices list restores
    the invariant. *)
Lemma linkVertices_Topology A s a b c :
  Topology A s -> NoDup [a; b; c] -> a ∈ A -> b ∈ A -> c ∈ A ->
  Topology A (linkVertices s a b c).
Proof.
  intros HT Hnd Ha Hb Hc.
  apply NoDup_cons in Hnd as [H1 Hnd]. apply NoDup_cons in Hnd as [H2 _].
  rewrite !not_elem_of_cons in H1. rewrite not_elem_of_cons in H2.
  destruct H1 as (Hab & Hac & _), H2 as (Hbc & _).
  constructor.
  - intros v Hv. apply linkVertices_nodup. by apply (topo_nb_nodup _ _ HT).
  - intros v w Hv. rewrite !linkVertices_elem.
    intros [Hw|Hw].
    + destruct (topo_nb _ _ HT v w Hv Hw) as (? & ? & ?). auto.
    + split; [|split].
      * destruct Hw as [[-> [->| ->]]|[[-> [->| ->]]|[-> [->| ->]]]]; done.
      * destruct Hw as [[-> [->| ->]]|[[-> [->| ->]]|[-> [->| ->]]]]; congruence.
      * right.
        destruct Hw as [[-> [->| ->]]|[[-> [->| ->]]|[-> [->| ->]]]]; tauto.
  - intros v Hv. rewrite linkVertices_faces. by apply (topo_fc_nodup _ _ HT).
  - intros v f Hv. rewrite linkVertices_faces, linkVertices_fget. intros Hf.
    destruct (topo_fc _ _ HT v f Hv Hf) as (? & ? & Hall).
    split; [done|]. split; [done|]. intros w Hw. rewrite linkVertices_faces. auto.
Qed.

Lemma linkVertices_Mates A s a b c g :
  Mates A s g -> Mates A (linkVertices s a b c) g.
Proof.
  intros HM v w Hv. rewrite linkVertices_faces, linkVertices_fget.
  intros Hg Hw Hne. apply linkVertices_elem. left. by apply HM.
Qed.

Lemma linkVertices_Mates_new A s f :
  Topology A s ->
  Mates A (linkVertices s (v1 (fget s f)) (v2 (fget s f)) (v3 (fget s f))) f.
Proof.
  intros HT v w Hv. rewrite linkVertices_faces, linkVertices_fget.
  intros Hf Hw Hne. apply linkVertices_elem. right.
  destruct (topo_fc _ _ HT v f Hv Hf) as (Hvf & _ & _).
  unfold verticesOf in *. rewrite !elem_of_cons, elem_of_nil in Hvf, Hw.
  destruct Hvf as [->|[->|[->|[]]]], Hw as [->|[->|[->|[]]]]; tauto.
Qed.

(** *** Moving a face from [u] to [v] *)

Lemma splice1_removeFirst (l : list nat) i x :
  NoDup l -> l !! i = Some x -> splice1 l i = removeFirst l x.
Proof.
  unfold splice1. revert i. induction l as [|y l IH]; intros i Hnd Hi; [done|].
  apply NoDup_cons in Hnd as [Hy Hnd]. rewrite removeFirst_cons.
  destruct i as [|i]; simpl in *.
  - injection Hi as ->. by rewrite decide_True.
  - rewrite decide_False.
    + f_equal. by apply IH.
    + intros ->. apply Hy. eapply list_elem_of_lookup_2; eauto.
Qed.

Lemma elem_of_retarget F u v w :
  NoDup (verticesOf F) -> u ∈ verticesOf F ->
  w ∈ verticesOf (retarget F u v) <-> w = v \/ (w ∈ verticesOf F /\ w <> u).
Proof.
  unfold retarget, verticesOf. intros Hnd Hu.
  apply NoDup_cons in Hnd as [H1 Hnd]. apply NoDup_cons in Hnd as [H2 _].
  rewrite !not_elem_of_cons in H1. rewrite not_elem_of_cons in H2.
  destruct H1 as (Hab & Hac & _), H2 as (Hbc & _).
  rewrite !elem_of_cons, elem_of_nil in Hu.
  repeat case_decide; simpl; rewrite !elem_of_cons, !elem_of_nil; subst;
    naive_solver.
Qed.

Lemma NoDup_retarget F u v :
  NoDup (verticesOf F) -> v ∉ verticesOf F -> NoDup (verticesOf (retarget F u v)).
Proof.
  unfold retarget, verticesOf. intros Hnd Hv.
  apply NoDup_cons in Hnd as [H1 Hnd]. apply NoDup_cons in Hnd as [H2 _].
  rewrite !not_elem_of_cons in H1. rewrite !not_elem_of_cons in Hv.
  rewrite not_elem_of_cons in H2.
  destruct H1 as (Hab & Hac & _). destruct H2 as (Hbc & _). destruct Hv as (? & ? & ? & _).
  repeat case_decide; simpl; subst;
    repeat (apply NoDup_cons; split; [rewrite ?not_elem_of_cons; repeat split;
      try apply not_elem_of_nil; congruence|]); apply NoDup_nil; done.
Qed.

Lemma retarget_keeps F u v :
  hash (retarget F u v) = hash F /\ degree (retarget F u v) = degree F.
Proof. unfold retarget. by repeat case_decide. Qed.

Lemma detachFace_fget s u v i face g :
  fget (detachFace s u v i face) g =
    if decide (face = g) then retarget (fget s face) u v else fget s g.
Proof.
  unfold detachFace, retarget. cbv zeta. rewrite !pushFace_fget, !fget_vset.
  repeat case_decide; subst; rewrite ?fget_fset; repeat case_decide; try done.
Qed.

Lemma detachFace_vget s u v i face y :
  vget (detachFace s u v i face) y =
    vget (pushFace (vset s u (set_faces (vget s u) (splice1 (faces (vget s u)) i))) v face) y.
Proof. unfold detachFace. cbv zeta. by repeat case_decide. Qed.

Lemma detachFace_neighbors s u v i face y :
  neighbors (vget (detachFace s u v i face) y) = neighbors (vget s y).
Proof.
  rewrite detachFace_vget, pushFace_vget, !vget_vset.
  repeat case_decide; subst; simpl; try done.
Qed.

Lemma detachFace_keys s u v i face : sameKeys s (detachFace s u v i face).
Proof.
  intros y. rewrite detachFace_vget, pushFace_vget, !vget_vset.
  repeat case_decide; subst; simpl; try done.
Qed.

Lemma detachFace_arrays s u v i face : sameArrays s (detachFace s u v i face).
Proof. unfold detachFace. cbv zeta. repeat case_decide; by repeat split. Qed.

Lemma detachFace_faces s u v i face y :
  u <> v ->
  faces (vget (detachFace s u v i face) y) =
    if decide (y = u) then splice1 (faces (vget s u)) i
    else if decide (y = v) then faces (vget s v) ++ [face]
    else faces (vget s y).
Proof.
  intros Hne. rewrite detachFace_vget, pushFace_vget, !vget_vset.
  repeat case_decide; subst; simpl; try done.
Qed.

Section MoveFace.
Context `{Sqrt}.

Lemma moveFace_unfold s u v i face :
  faces (vget s u) !! i = Some face ->
  moveFace s u v i =
    Some (let s3 := detachFace s u v i face in
          let F := fget s3 face in
          let s := removeNonNeighbors s3 u (v1 F) in
          let s := removeNonNeighbors s u (v2 F) in
          let s := removeNonNeighbors s u (v3 F) in
          let s := linkVertices s (v1 F) (v2 F) (v3 F) in
          computeCenter (computeNormal s face) face).
Proof.
  intros Hi. unfold moveFace. rewrite Hi.
  unfold removeNonNeighbors, linkVertices, detachFace. reflexivity.
Qed.

Lemma detachFace_Topology A s u v i face :
  MovePre A s u v -> faces (vget s u) !! i = Some face ->
  Topology A (detachFace s u v i face).
Proof.
  intros [HT Hu Hv Hne Hclear] Hi.
  assert (Hface : face ∈ faces (vget s u)) by (eapply list_elem_of_lookup_2; eauto).
  destruct (topo_fc _ _ HT u face Hu Hface) as (HuF & HndF & HallF).
  pose proof (Hclear face Hface) as HvF.
  pose proof (topo_fc_nodup _ _ HT u Hu) as Hndu.
  assert (Hfv : face ∉ faces (vget s v)).
  { intros Hin. by destruct (topo_fc _ _ HT v face Hv Hin) as (? & _). }
  assert (Hfaces : forall y g, y ∈ A ->
            g ∈ faces (vget (detachFace s u v i face) y) <->
            (g ∈ faces (vget s y) /\ (y = u -> g <> face)) \/ (y = v /\ g = face)).
  { intros y g Hy. rewrite detachFace_faces by done.
    destruct (decide (y = u)) as [->|Hyu].
    - rewrite (splice1_removeFirst _ i face) by done. split.
      + intros Hg. left. split; [by eapply elem_of_removeFirst|].
        intros _ ->. by eapply removeFirst_NoDup_notin.
      + intros [[Hg Hgf]|[-> _]]; [|done]. apply elem_of_removeFirst_ne; auto.
    - destruct (decide (y = v)) as [->|Hyv].
      + rewrite elem_of_app, list_elem_of_singleton. split.
        * intros [Hg| ->]; [left|right]; done.
        * intros [[Hg _]|[_ ->]]; [left|right]; done.
      + split; [intros Hg; left; done|]. intros [[Hg _]|[-> _]]; done. }
  constructor.
  - intros y Hy. rewrite detachFace_neighbors. by apply (topo_nb_nodup _ _ HT).
  - intros y w Hy. rewrite !detachFace_neighbors. by apply (topo_nb _ _ HT).
  - intros y Hy. rewrite detachFace_faces by done.
    destruct (decide (y = u)) as [->|Hyu].
    + rewrite (splice1_removeFirst _ i face) by done. by apply NoDup_removeFirst.
    + destruct (decide (y = v)) as [->|Hyv]; [|by apply (topo_fc_nodup _ _ HT)].
      apply NoDup_app. split; [by apply (topo_fc_nodup _ _ HT)|].
      split; [|apply NoDup_singleton]. by intros g Hg ->%list_elem_of_singleton.
  - intros y g Hy Hg. apply Hfaces in Hg; [|done]. rewrite detachFace_fget.
    destruct (decide (face = g)) as [<-|Hgf].
    + assert (Hyin : y ∈ verticesOf (retarget (fget s face) u v)).
      { apply elem_of_retarget; [done..|].
        destruct Hg as [[Hg Hyu]|[-> _]]; [|by left]. right.
        destruct (topo_fc _ _ HT y face Hy Hg) as (? & _).
        split; [done|]. intros ->. by apply Hyu. }
      split; [done|]. split; [by apply NoDup_retarget|].
      intros w Hw. apply elem_of_retarget in Hw; [|done..].
      destruct Hw as [->|[Hw Hwu]].
      * split; [done|]. apply Hfaces; [done|]. by right.
      * destruct (HallF w Hw) as [HwA Hfw]. split; [done|].
        apply Hfaces; [done|]. left. split; [done|]. done.
    + destruct Hg as [[Hg Hyu]|[_ ->]]; [|done].
      destruct (topo_fc _ _ HT y g Hy Hg) as (H1 & H2 & H3).
      split; [done|]. split; [done|]. intros w Hw. destruct (H3 w Hw) as [HwA Hgw].
      split; [done|]. apply Hfaces; [done|]. left. split; [done|]. congruence.
Qed.

Lemma detachFace_Mates A s u v i face g :
  MovePre A s u v -> faces (vget s u) !! i = Some face ->
  g <> face -> Mates A s g -> Mates A (detachFace s u v i face) g.
Proof.
  intros [HT Hu Hv Hne Hclear] Hi Hg HM y w Hy.
  rewrite detachFace_faces, detachFace_fget, detachFace_neighbors by done.
  rewrite (decide_False (P := face = g)) by congruence.
  intros Hin Hw Hwy. apply HM; try done.
  destruct (decide (y = u)) as [->|Hyu]; [by eapply elem_of_splice1|].
  destruct (decide (y = v)) as [->|Hyv]; [|done].
  apply elem_of_app in Hin as [Hin|Hin%list_elem_of_singleton]; done.
Qed.

Lemma Topology_ext A s s' :
  (forall y, vget s' y = vget s y) ->
  (forall g, verticesOf (fget s' g) = verticesOf (fget s g)) ->
  Topology A s -> Topology A s'.
Proof.
  intros Hv Hf [H1 H2 H3 H4]. constructor; intros *; rewrite ?Hv, ?Hf; auto.
  intros Hy Hg. destruct (H4 _ _ Hy Hg) as (? & ? & Hall).
  split; [done|]. split; [done|]. intros w Hw. rewrite Hv. auto.
Qed.

Lemma Mates_ext A s s' g :
  (forall y, vget s' y = vget s y) ->
  (forall g, verticesOf (fget s' g) = verticesOf (fget s g)) ->
  Mates A s g -> Mates A s' g.
Proof. intros Hv Hf HM y w. rewrite !Hv, Hf. apply HM. Qed.

Lemma recompute_verticesOf s f g :
  verticesOf (fget (computeCenter (computeNormal s f) f) g) = verticesOf (fget s g).
Proof.
  rewrite computeCenter_fget, !computeNormal_fget.
  repeat case_decide; subst; try done.
Qed.

Lemma recompute_fget_other s f g :
  g <> f -> fget (computeCenter (computeNormal s f) f) g = fget s g.
Proof.
  intros Hne. rewrite computeCenter_fget, !computeNormal_fget.
  by rewrite !decide_False by congruence.
Qed.

Lemma recompute_keeps s f :
  hash (fget (computeCenter (computeNormal s f) f) f) = hash (fget s f) /\
  degree (fget (computeCenter (computeNormal s f) f) f) = degree (fget s f).
Proof.
  rewrite computeCenter_fget, !computeNormal_fget. by rewrite !decide_True by done.
Qed.

Lemma removeNonNeighbors_subset A s x t y w :
  Topology A s -> x ∈ A -> t ∈ A ->
  w ∈ neighbors (vget (removeNonNeighbors s x t) y) -> w ∈ neighbors (vget s y).
Proof.
  intros HT Hx Ht. rewrite (removeNonNeighbors_neighbors A) by done.
  repeat case_match; subst; eauto using elem_of_removeFirst.
Qed.

(** The three calls of [removeNonNeighbors] made for a moved face. *)
Lemma unlink_spec A s u a b c :
  Topology A s -> u ∈ A -> a ∈ A -> b ∈ A -> c ∈ A ->
  let s' := removeNonNeighbors (removeNonNeighbors (removeNonNeighbors s u a) u b) u c in
  Topology A s' /\
  (forall g, fget s' g = fget s g) /\
  (forall y, faces (vget s' y) = faces (vget s y)) /\
  (forall g, Mates A s g -> Mates A s' g) /\
  (forall y w, w ∈ neighbors (vget s' y) -> w ∈ neighbors (vget s y)) /\
  (forall y, y <> u -> y <> a -> y <> b -> y <> c ->
     neighbors (vget s' y) = neighbors (vget s y)) /\
  sameArrays s s' /\ sameKeys s s'.
Proof.
  intros HT Hu Ha Hb Hc.
  pose proof (removeNonNeighbors_Topology A s u a HT Hu Ha) as HT1.
  pose proof (removeNonNeighbors_Topology A _ u b HT1 Hu Hb) as HT2.
  pose proof (removeNonNeighbors_Topology A _ u c HT2 Hu Hc) as HT3.
  cbv zeta. split; [exact HT3|].
  split; [intros g; by rewrite !removeNonNeighbors_fget|].
  split; [intros y; by rewrite !removeNonNeighbors_faces|].
  split; [intros g HM; repeat (apply (removeNonNeighbors_Mates A); auto)|].
  split.
  { intros y w Hw.
    apply (removeNonNeighbors_subset A) in Hw; auto.
    apply (removeNonNeighbors_subset A) in Hw; auto.
    apply (removeNonNeighbors_subset A) in Hw; auto. }
  split; [intros y ? ? ? ?; by rewrite !removeNonNeighbors_neighbors_other by done|].
  split.
  - repeat (eapply sameArrays_trans; [|apply removeNonNeighbors_arrays]).
    apply sameArrays_refl.
  - repeat (eapply sameKeys_trans; [|apply removeNonNeighbors_keys]).
    apply sameKeys_refl.
Qed.

(** Linking the vertices of a face and recomputing its normal and
    centre. *)
Lemma relink_spec A s face :
  Topology A s -> NoDup (verticesOf (fget s face)) ->
  (forall w, w ∈ verticesOf (fget s face) -> w ∈ A) ->
  let F := fget s face in
  let s' := computeCenter (computeNormal (linkVertices s (v1 F) (v2 F) (v3 F)) face) face in
  Topology A s' /\
  (forall g, Mates A s g -> Mates A s' g) /\ Mates A s' face /\
  (forall g, g <> face -> fget s' g = fget s g) /\
  verticesOf (fget s' face) = verticesOf (fget s face) /\
  hash (fget s' face) = hash (fget s face) /\
  degree (fget s' face) = degree (fget s face) /\
  (forall y, faces (vget s' y) = faces (vget s y)) /\
  (forall y w, w ∈ neighbors (vget s' y) <->
     w ∈ neighbors (vget s y) \/
     (y ∈ verticesOf (fget s face) /\ w ∈ verticesOf (fget s face) /\ w <> y)) /\
  (forall y, y ∉ verticesOf (fget s face) -> neighbors (vget s' y) = neighbors (vget s y)) /\
  sameArrays s s' /\ sameKeys s s'.
Proof.
  intros HT Hnd HA F s'.
  assert (Ha : v1 F ∈ verticesOf F) by (unfold verticesOf; left).
  assert (Hb : v2 F ∈ verticesOf F) by (unfold verticesOf; right; left).
  assert (Hc : v3 F ∈ verticesOf F) by (unfold verticesOf; right; right; left).
  pose proof (linkVertices_Topology A s (v1 F) (v2 F) (v3 F) HT Hnd
                (HA _ Ha) (HA _ Hb) (HA _ Hc)) as HT1.
  assert (Hvg : forall t y, vget (computeCenter (computeNormal t face) face) y = vget t y).
  { intros t y. rewrite computeCenter_vget, computeNormal_vget. reflexivity. }
  subst s'.
  split; [eapply Topology_ext; [apply Hvg|apply recompute_verticesOf|exact HT1]|].
  split.
  { intros g HM. eapply Mates_ext; [apply Hvg|apply recompute_verticesOf|].
    by apply linkVertices_Mates. }
  split.
  { eapply Mates_ext; [apply Hvg|apply recompute_verticesOf|].
    by apply linkVertices_Mates_new. }
  split; [intros g Hg; by rewrite recompute_fget_other, linkVertices_fget|].
  split; [by rewrite recompute_verticesOf, linkVertices_fget|].
  destruct (recompute_keeps (linkVertices s (v1 F) (v2 F) (v3 F)) face) as [Hh Hd].
  split; [by rewrite Hh, linkVertices_fget|].
  split; [by rewrite Hd, linkVertices_fget|].
  split; [intros y; by rewrite Hvg, linkVertices_faces|].
  assert (Hel : forall y w,
    w ∈ neighbors (vget (computeCenter (computeNormal
          (linkVertices s (v1 F) (v2 F) (v3 F)) face) face) y) <->
    w ∈ neighbors (vget s y) \/ (y ∈ verticesOf F /\ w ∈ verticesOf F /\ w <> y)).
  { intros y w. rewrite Hvg, linkVertices_elem.
    unfold verticesOf in *. rewrite !elem_of_cons, !elem_of_nil.
    apply NoDup_cons in Hnd as [H1 Hnd]. apply NoDup_cons in Hnd as [H2 _].
    rewrite !not_elem_of_cons in H1. rewrite not_elem_of_cons in H2.
    destruct H1 as (Hab & Hac & _). destruct H2 as (Hbc & _).
    split.
    - intros [?|[[-> [->| ->]]|[[-> [->| ->]]|[-> [->| ->]]]]]; auto 10.
    - intros [?|([->|[->|[->|[]]]] & [->|[->|[->|[]]]] & Hne)]; tauto. }
  split; [exact Hel|].
  split.
  { intros y Hy. rewrite Hvg. unfold linkVertices.
    rewrite !addUniqueNeighbor_neighbors.
    rewrite !decide_False; [done|intros <-; by apply Hy..]. }
  split.
  - eapply sameArrays_trans; [|apply computeCenter_arrays].
    eapply sameArrays_trans; [|apply computeNormal_arrays].
    apply linkVertices_arrays.
  - intros y. rewrite Hvg. apply linkVertices_keys.
Qed.

(** One turn of "Update remaining triangles to have v instead of u". *)
Lemma moveFace_spec A s u v i face :
  MovePre A s u v -> (forall g, Mates A s g) -> faces (vget s u) !! i = Some face ->
  exists s',
    moveFace s u v i = Some s' /\
    MovePre A s' u v /\ (forall g, Mates A s' g) /\
    faces (vget s' u) = splice1 (faces (vget s u)) i /\
    sameArrays s s' /\ sameKeys s s' /\
    (forall g, g <> face -> fget s' g = fget s g) /\
    verticesOf (fget s' face) = verticesOf (retarget (fget s face) u v) /\
    hash (fget s' face) = hash (fget s face) /\
    degree (fget s' face) = degree (fget s face) /\
    (forall w, w ∈ neighbors (vget s' u) -> w ∈ neighbors (vget s u)) /\
    (forall y, y <> u -> y <> v -> y ∉ neighbors (vget s u) ->
       neighbors (vget s' y) = neighbors (vget s y)).
Proof.
  intros Hpre HM Hi. pose proof Hpre as [HT Hu Hv Hne Hclear].
  rewrite (moveFace_unfold s u v i face Hi). eexists. split; [reflexivity|]. cbv zeta.
  assert (Hface : face ∈ faces (vget s u)) by (eapply list_elem_of_lookup_2; eauto).
  destruct (topo_fc _ _ HT u face Hu Hface) as (HuF & HndF & HallF).
  pose proof (Hclear face Hface) as HvF.
  pose proof (topo_fc_nodup _ _ HT u Hu) as Hndu.
  (* the face is detached *)
  pose proof (detachFace_Topology A s u v i face Hpre Hi) as HT3.
  pose proof (fun g Hg => detachFace_Mates A s u v i face g Hpre Hi Hg (HM g)) as HM3.
  pose proof (detachFace_fget s u v i face) as Hfg3.
  pose proof (detachFace_faces s u v i face) as Hfc3.
  pose proof (detachFace_neighbors s u v i face) as Hnb3.
  pose proof (detachFace_arrays s u v i face) as Har3.
  pose proof (detachFace_keys s u v i face) as Hk3.
  remember (detachFace s u v i face) as s3 eqn:E3. clear E3.
  assert (HF3 : fget s3 face = retarget (fget s face) u v)
    by (rewrite Hfg3; by rewrite decide_True).
  assert (Hnd3 : NoDup (verticesOf (fget s3 face)))
    by (rewrite HF3; by apply NoDup_retarget).
  assert (HA3 : forall w, w ∈ verticesOf (fget s3 face) -> w ∈ A).
  { intros w. rewrite HF3. intros Hw. apply elem_of_retarget in Hw; [|done..].
    destruct Hw as [->|[Hw _]]; [done|]. by apply HallF. }
  assert (Hnu3 : forall w, w ∈ verticesOf (fget s3 face) -> w <> u).
  { intros w. rewrite HF3. intros Hw. apply elem_of_retarget in Hw; [|done..].
    destruct Hw as [->|[_ ?]]; [congruence|done]. }
  assert (Hin3 : forall y, y ∈ verticesOf (fget s3 face) -> y = v \/ y ∈ neighbors (vget s u)).
  { intros w. rewrite HF3. intros Hw. apply elem_of_retarget in Hw; [|done..].
    destruct Hw as [->|[Hw ?]]; [by left|]. right. by apply (HM face u w). }
  (* [u] is unlinked from its vertices *)
  assert (Ha : v1 (fget s3 face) ∈ verticesOf (fget s3 face)) by (unfold verticesOf; left).
  assert (Hb : v2 (fget s3 face) ∈ verticesOf (fget s3 face))
    by (unfold verticesOf; right; left).
  assert (Hc : v3 (fget s3 face) ∈ verticesOf (fget s3 face))
    by (unfold verticesOf; right; right; left).
  destruct (unlink_spec A s3 u _ _ _ HT3 Hu (HA3 _ Ha) (HA3 _ Hb) (HA3 _ Hc))
    as (HT6 & Hfg6 & Hfc6 & HM6 & Hsub6 & Hoth6 & Har6 & Hk6).
  remember (removeNonNeighbors (removeNonNeighbors (removeNonNeighbors s3 u
              (v1 (fget s3 face))) u (v2 (fget s3 face))) u (v3 (fget s3 face)))
    as s6 eqn:E6. clear E6.
  (* the vertices of the face are linked *)
  rewrite <- (Hfg6 face). rewrite <- (Hfg6 face) in Hnd3, HA3, Hnu3, Hin3.
  destruct (relink_spec A s6 face HT6 Hnd3 HA3)
    as (HT9 & HM9 & HM9' & Hfg9 & Hvo9 & Hh9 & Hd9 & Hfc9 & Hel9 & Hoth9 & Har9 & Hk9).
  remember (computeCenter (computeNormal (linkVertices s6 (v1 (fget s6 face))
              (v2 (fget s6 face)) (v3 (fget s6 face))) face) face) as s9 eqn:E9. clear E9.
  assert (Hfu9 : faces (vget s9 u) = splice1 (faces (vget s u)) i).
  { rewrite Hfc9, Hfc6, Hfc3 by done. by rewrite decide_True. }
  split.
  { constructor; try done. intros g. rewrite Hfu9.
    rewrite (splice1_removeFirst _ i face) by done. intros Hg.
    assert (g <> face) by (intros ->; exact (removeFirst_NoDup_notin _ face Hndu Hg)).
    rewrite Hfg9, Hfg6, Hfg3 by done. rewrite decide_False by congruence.
    apply Hclear. by eapply elem_of_removeFirst. }
  split.
  { intros g. destruct (decide (g = face)) as [->|Hg]; [done|]. auto. }
  split; [done|].
  split; [eauto using sameArrays_trans|].
  split; [eauto using sameKeys_trans|].
  split.
  { intros g Hg. rewrite Hfg9, Hfg6, Hfg3 by done. by rewrite decide_False by congruence. }
  split; [by rewrite Hvo9, Hfg6, HF3|].
  split; [rewrite Hh9, Hfg6, HF3; apply retarget_keeps|].
  split; [rewrite Hd9, Hfg6, HF3; apply retarget_keeps|].
  split.
  - intros w Hw. apply Hel9 in Hw as [Hw|(Hy & _)].
    + apply Hsub6 in Hw. by rewrite Hnb3 in Hw.
    + by apply Hnu3 in Hy.
  - intros y Hyu Hyv Hyn.
    assert (Hy6 : y ∉ verticesOf (fget s6 face)).
    { intros Hy. destruct (Hin3 y Hy); done. }
    rewrite Hoth9 by done.
    rewrite Hoth6; [apply Hnb3|done|..]; intros ->; apply Hy6; rewrite Hfg6;
      unfold verticesOf; set_solver.
Qed.

Lemma moveFaces_spec A u v i : forall s,
  MovePre A s u v -> (forall g, Mates A s g) -> i = length (faces (vget s u)) ->
  exists s',
    moveFaces s u v i = Some s' /\
    MovePre A s' u v /\ (forall g, Mates A s' g) /\
    faces (vget s' u) = [] /\
    sameArrays s s' /\ sameKeys s s' /\
    (forall g, NoDup (verticesOf (fget s g)) -> NoDup (verticesOf (fget s' g))) /\
    (forall g, hash (fget s' g) = hash (fget s g) /\ degree (fget s' g) = degree (fget s g)) /\
    (forall w, w ∈ neighbors (vget s' u) -> w ∈ neighbors (vget s u)) /\
    (forall y, y <> u -> y <> v -> y ∉ neighbors (vget s u) ->
       neighbors (vget s' y) = neighbors (vget s y)).
Proof.
  induction i as [|i IH]; intros s Hpre HM Hlen; simpl.
  - exists s. split; [done|]. split; [done|]. split; [done|].
    split; [by apply nil_length_inv|].
    split; [apply sameArrays_refl|]. split; [apply sameKeys_refl|]. done.
  - destruct (lookup_lt_is_Some_2 (faces (vget s u)) i) as [face Hi]; [lia|].
    destruct (moveFace_spec A s u v i face Hpre HM Hi)
      as (s1 & E1 & Hpre1 & HM1 & Hfu1 & Har1 & Hk1 & Hfg1 & Hvo1 & Hh1 & Hd1 & Hsub1 & Hfr1).
    rewrite E1. simpl.
    destruct (IH s1 Hpre1 HM1) as
      (s2 & E2 & Hpre2 & HM2 & Hfu2 & Har2 & Hk2 & Hnd2 & Hhd2 & Hsub2 & Hfr2).
    { rewrite Hfu1. unfold splice1. rewrite length_delete by eauto. lia. }
    exists s2. split; [done|]. split; [done|]. split; [done|]. split; [done|].
    split; [eauto using sameArrays_trans|]. split; [eauto using sameKeys_trans|].
    destruct Hpre as [HT Hu Hv Hne Hclear].
    assert (Hface : face ∈ faces (vget s u)) by (eapply list_elem_of_lookup_2; eauto).
    split.
    { intros g Hg. apply Hnd2. destruct (decide (g = face)) as [->|Hgf].
      - rewrite Hvo1. apply NoDup_retarget; auto.
      - by rewrite Hfg1. }
    split.
    { intros g. destruct (Hhd2 g) as [-> ->].
      destruct (decide (g = face)) as [->|Hgf]; [done|]. by rewrite Hfg1. }
    split; [auto|].
    intros y Hyu Hyv Hyn. rewrite Hfr2; auto.
Qed.

End MoveFace.

(** *** [removeVertex] *)

Section RemoveVertex.
Context `{Sqrt}.

Lemma purgeNeighbors_spec fuel : forall s u,
  (length (neighbors (vget s u)) <= fuel)%nat ->
  u ∉ neighbors (vget s u) -> NoDup (neighbors (vget s u)) ->
  let s' := purgeNeighbors fuel s u in
  neighbors (vget s' u) = [] /\
  (forall y, y <> u ->
     neighbors (vget s' y) =
       if decide (y ∈ neighbors (vget s u)) then removeFirst (neighbors (vget s y)) u
       else neighbors (vget s y)) /\
  (forall y, faces (vget s' y) = faces (vget s y)) /\
  sameKeys s s' /\ (forall g, fget s' g = fget s g) /\ sameArrays s s'.
Proof.
  induction fuel as [|fuel IH]; intros s u Hlen Hirr Hnd; simpl.
  - assert (Hnil : neighbors (vget s u) = []) by (apply nil_length_inv; lia).
    split; [done|]. split.
    { intros y _. rewrite Hnil. by rewrite decide_False by apply not_elem_of_nil. }
    split; [done|]. split; [apply sameKeys_refl|]. split; [done|]. apply sameArrays_refl.
  - destruct (last (neighbors (vget s u))) as [n|] eqn:Hlast.
    + apply last_Some in Hlast as [L0 HL]. rewrite HL in *. rewrite removelast_last.
      assert (Hnl : forall y, y ∈ L0 ++ [n] <-> y ∈ L0 \/ y = n)
        by (intros y; by rewrite elem_of_app, list_elem_of_singleton).
      assert (n <> u) by (intros ->; apply Hirr; apply Hnl; by right).
      apply NoDup_app in Hnd as (Hnd0 & Hdis & _).
      assert (Hn0 : n ∉ L0) by (intros Hin; apply (Hdis n Hin); by apply list_elem_of_singleton).
      set (s1 := vset s u (set_neighbors (vget s u) L0)).
      set (s2 := vset s1 n (set_neighbors (vget s1 n) (removeFirst (neighbors (vget s1 n)) u))).
      assert (Hu2 : neighbors (vget s2 u) = L0).
      { unfold s2, s1. rewrite !vget_vset. rewrite (decide_False (P := n = u)) by done.
        by rewrite decide_True. }
      destruct (IH s2 u) as (H1 & H2 & H3 & H4 & H5 & H6).
      { rewrite Hu2. rewrite length_app in Hlen. simpl in Hlen. lia. }
      { rewrite Hu2. intros Hin. apply Hirr. apply Hnl. by left. }
      { by rewrite Hu2. }
      split; [done|]. split.
      { intros y Hy. rewrite H2 by done. rewrite Hu2.
        unfold s2, s1. rewrite !vget_vset.
        destruct (decide (n = y)) as [->|Hny].
        - rewrite (decide_False (P := y ∈ L0)) by done.
          rewrite (decide_True (P := y ∈ L0 ++ [y])) by (apply Hnl; by right).
          simpl. by rewrite decide_False by done.
        - rewrite (decide_False (P := u = y)) by done.
          destruct (decide (y ∈ L0)).
          + by rewrite decide_True by (apply Hnl; by left).
          + rewrite decide_False; [done|]. rewrite Hnl. intros [?|?]; done. }
      split.
      { intros y. rewrite H3. unfold s2, s1. rewrite !vget_vset.
        destruct (decide (n = y)) as [<-|?]; simpl;
          destruct (decide (u = n)) as [<-|?]; simpl; try done;
          destruct (decide (u = y)) as [<-|?]; simpl; done. }
      split.
      { eapply sameKeys_trans; [|exact H4]. unfold s2.
        eapply sameKeys_trans; [|apply sameKeys_set_neighbors]. apply sameKeys_set_neighbors. }
      split; [intros g; by rewrite H5|].
      eapply sameArrays_trans; [|exact H6]. by repeat split.
    + apply last_None in Hlast. rewrite Hlast.
      split; [done|]. split.
      { intros y _. by rewrite decide_False by apply not_elem_of_nil. }
      split; [done|]. split; [apply sameKeys_refl|]. split; [done|]. apply sameArrays_refl.
Qed.

Lemma reindexFrom_spec l : forall s i,
  NoDup l ->
  let s' := reindexFrom s i l in
  (forall k y, l !! k = Some y -> index (vget s' y) = (i + k)%nat) /\
  (forall y, y ∉ l -> vget s' y = vget s y) /\
  (forall y, neighbors (vget s' y) = neighbors (vget s y) /\
             faces (vget s' y) = faces (vget s y) /\
             collapseNeighbor (vget s' y) = collapseNeighbor (vget s y) /\
             collapseCost (vget s' y) = collapseCost (vget s y) /\
             position (vget s' y) = position (vget s y)) /\
  (forall g, fget s' g = fget s g) /\ sameArrays s s'.
Proof.
  induction l as [|x l IH]; intros s i Hnd; simpl.
  - split; [done|]. split; [done|]. split; [done|]. split; [done|]. apply sameArrays_refl.
  - apply NoDup_cons in Hnd as [Hx Hnd].
    destruct (IH (vset s x (set_index (vget s x) i)) (S i) Hnd) as (H1 & H2 & H3 & H4 & H5).
    split.
    { intros [|k] y; simpl.
      - intros [= <-]. rewrite H2 by done. by rewrite vget_vset_eq.
      - intros Hk. rewrite (H1 k y Hk). lia. }
    split.
    { intros y Hy. apply not_elem_of_cons in Hy as [? ?].
      rewrite H2 by done. by rewrite vget_vset_ne. }
    split.
    { intros y. destruct (H3 y) as (-> & -> & -> & -> & ->).
      rewrite vget_vset. by case_decide; subst. }
    split; [intros g; by rewrite H4|].
    eapply sameArrays_trans; [|exact H5]. by repeat split.
Qed.

End RemoveVertex.

(** The sorted index array after a vertex is removed. *)
Lemma byCost_after_removal (byCost : list nat) (n idx : nat) :
  byCost ≡ₚ seq 0 n -> (idx < n)%nat ->
  List.map (fun e => if (idx <? e)%nat then (e - 1)%nat else e) (removeFirst byCost idx)
    ≡ₚ seq 0 (n - 1).
Proof.
  intros Hp Hidx.
  assert (Hin : idx ∈ byCost) by (rewrite Hp; apply elem_of_seq; lia).
  assert (Hrest : removeFirst byCost idx ≡ₚ seq 0 idx ++ seq (S idx) (n - 1 - idx)).
  { apply (Permutation_cons_inv (a := idx)).
    rewrite <- (removeFirst_Permutation byCost idx Hin), Hp.
    replace n with (idx + S (n - 1 - idx))%nat at 1 by lia.
    rewrite seq_app. simpl. by rewrite <- Permutation_middle. }
  rewrite Hrest. rewrite map_app.
  replace (n - 1)%nat with (idx + (n - 1 - idx))%nat at 2 by lia.
  rewrite seq_app. simpl. apply Permutation_app; apply reflexive_eq.
  - rewrite <- (map_id (seq 0 idx)) at 2. apply map_ext_in.
    intros e He%in_seq. destruct (Nat.ltb_spec idx e); lia.
  - rewrite <- seq_shift, map_map. rewrite <- (map_id (seq idx _)) at 2.
    apply map_ext_in. intros e He%in_seq. destruct (Nat.ltb_spec idx (S e)); lia.
Qed.

Section RemoveVertexSpec.
Context `{Sqrt}.

Lemma removeVertex_spec s u :
  Indexed s -> Topology (arrVertices s) s -> (forall g, Mates (arrVertices s) s g) ->
  u ∈ arrVertices s -> faces (vget s u) = [] ->
  let s' := removeVertex s u in
  arrVertices s' = removeFirst (arrVertices s) u /\
  length (arrVertices s') = (length (arrVertices s) - 1)%nat /\
  Indexed s' /\ Topology (arrVertices s') s' /\ (forall g, Mates (arrVertices s') s' g) /\
  (forall y, y <> u -> y ∈ arrVertices s ->
     neighbors (vget s' y) = removeFirst (neighbors (vget s y)) u) /\
  (forall y, faces (vget s' y) = faces (vget s y) /\
             collapseNeighbor (vget s' y) = collapseNeighbor (vget s y) /\
             collapseCost (vget s' y) = collapseCost (vget s y) /\
             position (vget s' y) = position (vget s y)) /\
  (forall g, fget s' g = fget s g) /\ arrFaces s' = arrFaces s.
Proof.
  intros [HndA Hidx Hperm] HT HM Hu Hfu.
  set (A := arrVertices s) in *.
  destruct (proj1 (list_elem_of_lookup A u) Hu) as [iu Hiu].
  pose proof (Hidx iu u Hiu) as Hindex.
  assert (Hirr : u ∉ neighbors (vget s u)).
  { intros Hin. by destruct (topo_nb _ _ HT u u Hu Hin) as (_ & ? & _). }
  destruct (purgeNeighbors_spec (length (neighbors (vget s u))) s u (le_n _) Hirr
              (topo_nb_nodup _ _ HT u Hu)) as (Hp1 & Hp2 & Hp3 & Hp4 & Hp5 & Hp6).
  unfold removeVertex.
  remember (purgeNeighbors (length (neighbors (vget s u))) s u) as s1 eqn:E1. clear E1.
  assert (Hi1 : index (vget s1 u) = iu) by by destruct (Hp4 u) as (-> & _).
  rewrite Hi1. destruct Hp6 as (HaF & HaV & HaC).
  cbn [arrVertices set_arrVertices]. rewrite HaV. fold A.
  assert (HA1 : splice1 A iu = removeFirst A u) by by apply splice1_removeFirst.
  set (A1 := splice1 A iu) in *.
  assert (HndA1 : NoDup A1) by (rewrite HA1; by apply NoDup_removeFirst).
  assert (Hlen1 : length A1 = (length A - 1)%nat).
  { unfold A1, splice1. rewrite length_delete by eauto. lia. }
  assert (HinA1 : forall y, y ∈ A1 <-> y ∈ A /\ y <> u).
  { intros y. rewrite HA1. split.
    - intros Hy. split; [by eapply elem_of_removeFirst|].
      intros ->. exact (removeFirst_NoDup_notin _ _ HndA Hy).
    - intros [? ?]. by apply elem_of_removeFirst_ne. }
  assert (Hnd_drop : NoDup (drop iu A1)).
  { rewrite <- (take_drop iu A1) in HndA1. by apply NoDup_app in HndA1 as (_ & _ & ?). }
  destruct (reindexFrom_spec (drop iu A1) (set_arrVertices s1 A1) iu Hnd_drop)
    as (Hr1 & Hr2 & Hr3 & Hr4 & Hr5).
  remember (reindexFrom (set_arrVertices s1 A1) iu (drop iu A1)) as s3 eqn:E3. clear E3.
  destruct Hr5 as (HbF & HbV & HbC). cbn [arrVertices arrFaces arrVerticesByCost
    set_arrVertices set_arrVerticesByCost] in *.
  assert (Hnb : forall y, y <> u -> y ∈ A ->
            neighbors (vget s3 y) = removeFirst (neighbors (vget s y)) u).
  { intros y Hy HyA. destruct (Hr3 y) as (-> & _).
    change (vget (set_arrVertices s1 A1) y) with (vget s1 y). rewrite Hp2 by done.
    case_decide as Hin; [done|]. symmetry. apply removeFirst_notin.
    intros Hin'. apply Hin. by destruct (topo_nb _ _ HT y u HyA Hin') as (_ & _ & ?). }
  assert (Hfc : forall y, faces (vget s3 y) = faces (vget s y)).
  { intros y. destruct (Hr3 y) as (_ & -> & _).
    change (vget (set_arrVertices s1 A1) y) with (vget s1 y). apply Hp3. }
  assert (Hfg : forall g, fget s3 g = fget s g).
  { intros g. rewrite Hr4. change (fget (set_arrVertices s1 A1) g) with (fget s1 g).
    apply Hp5. }
  assert (Hnouse : forall y f, y ∈ A -> f ∈ faces (vget s y) -> u ∉ verticesOf (fget s f)).
  { intros y f Hy Hf Huf. destruct (topo_fc _ _ HT y f Hy Hf) as (_ & _ & Hall).
    destruct (Hall u Huf) as [_ Hin]. rewrite Hfu in Hin. by apply elem_of_nil in Hin. }
  split; [cbn [arrVertices set_arrVerticesByCost]; by rewrite HbV|].
  split; [cbn [arrVertices set_arrVerticesByCost]; by rewrite HbV|].
  split; [|split; [|split; [|split; [|split; [|split]]]]].
  - constructor; cbn [arrVertices arrVerticesByCost set_arrVerticesByCost]; rewrite ?HbV.
    + done.
    + intros j y Hj. change (vget (set_arrVerticesByCost s3 _) y) with (vget s3 y).
      destruct (decide (j < iu)%nat) as [Hlt|Hge].
      * assert (Hy : y ∉ drop iu A1).
        { intros [k Hk]%list_elem_of_lookup. rewrite lookup_drop in Hk.
          pose proof (NoDup_lookup _ _ _ _ HndA1 Hj Hk). lia. }
        rewrite (Hr2 y Hy). change (vget (set_arrVertices s1 A1) y) with (vget s1 y).
        destruct (Hp4 y) as (-> & _). apply Hidx.
        unfold A1, splice1 in Hj. by rewrite list_lookup_delete_lt in Hj.
      * rewrite (Hr1 (j - iu)%nat y); [lia|]. rewrite lookup_drop.
        by replace (iu + (j - iu))%nat with j by lia.
    + rewrite HbC. change (arrVerticesByCost (set_arrVertices s1 A1))
        with (arrVerticesByCost s1). rewrite HaC, Hlen1.
      apply byCost_after_removal; [done|]. eapply lookup_lt_Some; eauto.
  - cbn [arrVertices set_arrVerticesByCost]. rewrite HbV.
    constructor; intros y; rewrite ?HinA1.
    + intros [HyA Hyu]. change (vget (set_arrVerticesByCost s3 _) y) with (vget s3 y).
      rewrite Hnb by done. apply NoDup_removeFirst. by apply (topo_nb_nodup _ _ HT).
    + intros w. rewrite HinA1. intros [HyA Hyu].
      change (vget (set_arrVerticesByCost s3 ?l) ?z) with (vget s3 z).
      rewrite Hnb by done. intros Hw.
      assert (w <> u).
      { intros ->. eapply removeFirst_NoDup_notin; [|exact Hw].
        by apply (topo_nb_nodup _ _ HT). }
      apply elem_of_removeFirst in Hw.
      destruct (topo_nb _ _ HT y w HyA Hw) as (HwA & Hwy & Hsym).
      rewrite HinA1. split; [done|]. split; [done|]. rewrite Hnb by done.
      by apply elem_of_removeFirst_ne.
    + intros [HyA Hyu]. change (vget (set_arrVerticesByCost s3 _) y) with (vget s3 y).
      rewrite Hfc. by apply (topo_fc_nodup _ _ HT).
    + intros f. rewrite HinA1. intros [HyA Hyu].
      change (vget (set_arrVerticesByCost s3 ?l) ?z) with (vget s3 z).
      change (fget (set_arrVerticesByCost s3 ?l) ?z) with (fget s3 z).
      rewrite Hfc, Hfg. intros Hf.
      destruct (topo_fc _ _ HT y f HyA Hf) as (H1 & H2 & Hall).
      split; [done|]. split; [done|]. intros w Hw. destruct (Hall w Hw) as [HwA Hfw].
      rewrite HinA1, Hfc. split; [|done]. split; [done|].
      intros ->. by apply (Hnouse y f).
  - intros g y w. cbn [arrVertices set_arrVerticesByCost]. rewrite HbV, HinA1.
    change (vget (set_arrVerticesByCost s3 ?l) ?z) with (vget s3 z).
    change (fget (set_arrVerticesByCost s3 ?l) ?z) with (fget s3 z).
    intros [HyA Hyu]. rewrite Hfc, Hfg, Hnb by done. intros Hg Hw Hwy.
    apply elem_of_removeFirst_ne; [|by apply (HM g)].
    intros ->. by apply (Hnouse y g).
  - intros y Hyu HyA. change (vget (set_arrVerticesByCost s3 ?l) ?z) with (vget s3 z).
    by apply Hnb.
  - intros y. change (vget (set_arrVerticesByCost s3 ?l) ?z) with (vget s3 z).
    rewrite Hfc. destruct (Hr3 y) as (_ & _ & -> & -> & ->).
    change (vget (set_arrVertices s1 A1) y) with (vget s1 y).
    destruct (Hp4 y) as (_ & -> & -> & ->). done.
  - intros g. change (fget (set_arrVerticesByCost s3 ?l) ?z) with (fget s3 z). apply Hfg.
  - cbn [arrFaces set_arrVerticesByCost]. rewrite HbF. cbn [arrFaces set_arrVertices].
    exact HaF.
Qed.

End RemoveVertexSpec.

(** ** Recomputing the cost of a vertex *)

Section Recost.
Context `{Sqrt}.

Lemma costLoopBody_fields s v V n :
  neighbors (costLoopBody s v V n) = neighbors V /\
  faces (costLoopBody s v V n) = faces V /\
  index (costLoopBody s v V n) = index V /\
  position (costLoopBody s v V n) = position V.
Proof.
  unfold costLoopBody. destruct (collapseNeighbor V); [|done].
  by destruct (Qltb _ _).
Qed.

Lemma costLoop_fields s v l : forall V,
  neighbors (fold_left (costLoopBody s v) l V) = neighbors V /\
  faces (fold_left (costLoopBody s v) l V) = faces V /\
  index (fold_left (costLoopBody s v) l V) = index V /\
  position (fold_left (costLoopBody s v) l V) = position V.
Proof.
  induction l as [|n l IH]; intros V; [done|]. simpl.
  destruct (IH (costLoopBody s v V n)) as (-> & -> & -> & ->).
  apply costLoopBody_fields.
Qed.

Lemma costLoopBody_neighbor s v V n :
  collapseNeighbor (costLoopBody s v V n) = Some n \/
  (exists w, collapseNeighbor V = Some w /\ collapseNeighbor (costLoopBody s v V n) = Some w).
Proof.
  unfold costLoopBody. destruct (collapseNeighbor V) as [w|] eqn:E; [|by left].
  destruct (Qltb _ _); [by left|]. right. exists w. by split.
Qed.

Lemma costLoop_neighbor s v l : forall V,
  (exists w, collapseNeighbor (fold_left (costLoopBody s v) l V) = Some w /\
             (w ∈ l \/ collapseNeighbor V = Some w)) \/
  (l = [] /\ collapseNeighbor (fold_left (costLoopBody s v) l V) = collapseNeighbor V).
Proof.
  induction l as [|n l IH]; intros V; [by right|]. left. simpl.
  destruct (IH (costLoopBody s v V n)) as [(w & Hw & Hin)|[-> Hnil]].
  - exists w. split; [done|]. destruct Hin as [Hin|Hin]; [left; by right|].
    destruct (costLoopBody_neighbor s v V n) as [E|(w' & E1 & E2)].
    + left. rewrite E in Hin. injection Hin as <-. by left.
    + right. congruence.
  - simpl in *. destruct (costLoopBody_neighbor s v V n) as [E|(w' & E1 & E2)].
    + exists n. split; [done|]. left. by left.
    + exists w'. split; [done|]. by right.
Qed.

Lemma computeEdgeCostAtVertex_effect s t :
  let s' := fst (computeEdgeCostAtVertex s t) in
  (forall y, y <> t -> vget s' y = vget s y) /\
  (forall y, neighbors (vget s' y) = neighbors (vget s y) /\
             faces (vget s' y) = faces (vget s y) /\
             index (vget s' y) = index (vget s y) /\
             position (vget s' y) = position (vget s y)) /\
  (forall g, fget s' g = fget s g) /\ sameArrays s s' /\
  CachedNeighbor s' t /\
  snd (computeEdgeCostAtVertex s t) = collapseCost (vget s' t).
Proof.
  unfold computeEdgeCostAtVertex, CachedNeighbor.
  destruct (neighbors (vget s t)) as [|n l] eqn:En; cbn [fst snd].
  - split; [intros y Hy; by rewrite vget_vset_ne|]. split.
    { intros y. destruct (decide (y = t)) as [->|Hy];
        [by rewrite vget_vset_eq|by rewrite vget_vset_ne]. }
    split; [intros g; apply fget_vset|]. split; [by apply sameArrays_vset|].
    rewrite vget_vset_eq. by split.
  - set (V0 := set_collapseNeighbor (vget s t) None).
    destruct (costLoop_fields s t (n :: l) V0) as (F1 & F2 & F3 & F4).
    set (V1 := fold_left (costLoopBody s t) (n :: l) V0) in *.
    split; [intros y Hy; by rewrite vget_vset_ne|]. split.
    { intros y. destruct (decide (y = t)) as [->|Hy]; [|by rewrite vget_vset_ne].
      rewrite vget_vset_eq. cbn [neighbors faces index position set_collapseCost].
      by rewrite F1, F2, F3, F4. }
    split; [intros g; apply fget_vset|]. split; [by apply sameArrays_vset|].
    rewrite vget_vset_eq. split; [|done].
    cbn [collapseNeighbor neighbors set_collapseCost]. rewrite F1.
    change (neighbors V0) with (neighbors (vget s t)). rewrite En.
    destruct (costLoop_neighbor s t (n :: l) V0) as [(w & Hw & [Hin|Hin])|[? _]]; [| |done].
    + fold V1 in Hw. by rewrite Hw.
    + done.
Qed.

(** The binary search returns: every position it reads is inside the
    arrays, and the interval halves on every turn. *)
Lemma costSearch_Some s cost : forall fuel low high,
  (high - low <= fuel)%nat ->
  (high < length (arrVerticesByCost s) \/ high <= low)%nat ->
  (forall e, e ∈ arrVerticesByCost s -> (e < length (arrVertices s))%nat) ->
  exists r, costSearch fuel s cost low high = Some r /\ (low <= r)%nat /\
            (r <= Nat.max low high)%nat.
Proof.
  induction fuel as [|fuel IH]; intros low high Hfuel Hhigh Hvalid; cbn [costSearch].
  - destruct (low <? high)%nat eqn:E; [apply Nat.ltb_lt in E; lia|].
    exists low. split; [done|]. lia.
  - destruct (low <? high)%nat eqn:E; [|exists low; split; [done|]; lia].
    apply Nat.ltb_lt in E.
    assert (Hmid : (low <= (low + high) / 2 /\ (low + high) / 2 < high)%nat).
    { split; [apply Nat.div_le_lower_bound; lia|apply Nat.Div0.div_lt_upper_bound; lia]. }
    set (mid := ((low + high) / 2)%nat) in *.
    destruct (lookup_lt_is_Some_2 (arrVerticesByCost s) mid) as [e He]; [lia|].
    rewrite He. cbn [mbind option_bind].
    destruct (lookup_lt_is_Some_2 (arrVertices s) e) as [u Hu].
    { apply Hvalid. eapply list_elem_of_lookup_2; eauto. }
    rewrite Hu. cbn [mbind option_bind]. destruct (Qltb _ _).
    + destruct (IH (mid + 1)%nat high) as (r & -> & ? & ?); [lia|lia|done|].
      exists r. split; [done|]. lia.
    + destruct (IH low mid) as (r & -> & ? & ?); [lia|lia|done|].
      exists r. split; [done|]. lia.
Qed.

Lemma recost_spec s t :
  Indexed s -> t ∈ arrVertices s ->
  exists s', recost s t = Some s' /\ Indexed s' /\
    (forall y, y <> t -> vget s' y = vget s y) /\
    (forall y, neighbors (vget s' y) = neighbors (vget s y) /\
               faces (vget s' y) = faces (vget s y) /\
               index (vget s' y) = index (vget s y) /\
               position (vget s' y) = position (vget s y)) /\
    (forall g, fget s' g = fget s g) /\
    arrVertices s' = arrVertices s /\ arrFaces s' = arrFaces s /\
    CachedNeighbor s' t.
Proof.
  intros [Hnd Hidx Hperm] Ht. unfold recost.
  destruct (computeEdgeCostAtVertex_effect s t) as (Hv & Hf & Hg & (HaF & HaV & HaC) & Hcn & _).
  destruct (computeEdgeCostAtVertex s t) as [s1 cost]. cbn [fst snd] in *.
  destruct (proj1 (list_elem_of_lookup _ _) Ht) as [i Hi].
  assert (Hindex : index (vget s1 t) = i).
  { destruct (Hf t) as (_ & _ & -> & _). by apply Hidx. }
  rewrite Hindex.
  assert (Hin : i ∈ arrVerticesByCost s1).
  { rewrite HaC, Hperm. apply elem_of_seq. apply lookup_lt_Some in Hi. lia. }
  pose proof (spliceIndexOf_Permutation _ _ Hin) as Hp.
  set (B := spliceIndexOf (arrVerticesByCost s1) i) in *.
  set (s2 := set_arrVerticesByCost s1 B).
  destruct (costSearch_Some s2 cost (length B) 0 (length B - 1)) as (low & Hlow & _ & Hle).
  { lia. } { cbn [arrVerticesByCost s2 set_arrVerticesByCost]. lia. }
  { cbn [arrVerticesByCost arrVertices s2 set_arrVerticesByCost]. intros e He.
    rewrite HaV. assert (He' : e ∈ seq 0 (length (arrVertices s))).
    { rewrite <- Hperm, <- HaC, Hp. by right. }
    apply elem_of_seq in He'. lia. }
  unfold costPosition. fold s2.
  change (arrVerticesByCost s2) with B. rewrite Hlow. subst s2.
  cbn [mbind option_bind]. eexists. split; [done|].
  split; [|split; [|split; [|split; [|split; [|split]]]]]; try done.
  - constructor; cbn [arrVertices arrVerticesByCost set_arrVerticesByCost]; rewrite ?HaV.
    + done.
    + intros j y Hj. change (index (vget s1 y) = j). destruct (Hf y) as (_ & _ & -> & _).
      by apply Hidx.
    + by rewrite spliceIn_Permutation, <- Hp, HaC.
Qed.

Lemma recostAll_spec tmp : forall s,
  Indexed s -> (forall t, t ∈ tmp -> t ∈ arrVertices s) ->
  exists s', recostAll s tmp = Some s' /\ Indexed s' /\
    (forall y, y ∉ tmp -> vget s' y = vget s y) /\
    (forall y, neighbors (vget s' y) = neighbors (vget s y) /\
               faces (vget s' y) = faces (vget s y) /\
               index (vget s' y) = index (vget s y) /\
               position (vget s' y) = position (vget s y)) /\
    (forall g, fget s' g = fget s g) /\
    arrVertices s' = arrVertices s /\ arrFaces s' = arrFaces s /\
    (forall t, t ∈ tmp -> CachedNeighbor s' t).
Proof.
  induction tmp as [|t tmp IH]; intros s HI Hin; simpl.
  - exists s. do 7 (split; [done|]). by intros t ?%elem_of_nil.
  - destruct (recost_spec s t HI) as (s1 & -> & HI1 & Hv1 & Hf1 & Hg1 & HA1 & HF1 & Hc1).
    { apply Hin. by left. }
    simpl. destruct (IH s1 HI1) as (s2 & -> & HI2 & Hv2 & Hf2 & Hg2 & HA2 & HF2 & Hc2).
    { intros y Hy. rewrite HA1. apply Hin. by right. }
    exists s2. split; [done|]. split; [done|].
    split.
    { intros y Hy. apply not_elem_of_cons in Hy as [? ?]. rewrite Hv2 by done. by apply Hv1. }
    split.
    { intros y. destruct (Hf2 y) as (-> & -> & -> & ->). apply Hf1. }
    split; [intros g; by rewrite Hg2|]. split; [congruence|]. split; [congruence|].
    intros y Hy. destruct (decide (y ∈ tmp)) as [Hy'|Hy']; [by apply Hc2|].
    apply elem_of_cons in Hy as [->|Hy]; [|done].
    unfold CachedNeighbor in *. by rewrite (Hv2 t Hy').
Qed.

End Recost.

(** ** One turn of [collapse] *)

Lemma Topology_fields A s s' :
  (forall y, neighbors (vget s' y) = neighbors (vget s y) /\
             faces (vget s' y) = faces (vget s y)) ->
  (forall g, verticesOf (fget s' g) = verticesOf (fget s g)) ->
  Topology A s -> Topology A s'.
Proof.
  intros Hv Hf [H1 H2 H3 H4]. constructor.
  - intros v Hin. destruct (Hv v) as [-> _]. auto.
  - intros v w Hin. destruct (Hv v) as [-> _]. destruct (Hv w) as [-> _]. auto.
  - intros v Hin. destruct (Hv v) as [_ ->]. auto.
  - intros v f Hin. destruct (Hv v) as [_ ->]. rewrite Hf. intros Hg.
    destruct (H4 _ _ Hin Hg) as (? & ? & Hall).
    split; [done|]. split; [done|]. intros w Hw. destruct (Hv w) as [_ ->]. auto.
Qed.

Lemma Mates_fields A s s' g :
  (forall y, neighbors (vget s' y) = neighbors (vget s y) /\
             faces (vget s' y) = faces (vget s y)) ->
  (forall g, verticesOf (fget s' g) = verticesOf (fget s g)) ->
  Mates A s g -> Mates A s' g.
Proof.
  intros Hv Hf HM y w. destruct (Hv y) as [-> ->]. rewrite Hf. apply HM.
Qed.

Lemma other_corner (l : list nat) u :
  length l = 3%nat -> NoDup l -> exists w, w ∈ l /\ w <> u.
Proof.
  destruct l as [|a [|b [|c [|]]]]; try done. intros _ Hnd.
  apply NoDup_cons in Hnd as [Ha _]. destruct (decide (a = u)) as [->|Hau].
  - exists b. split; [set_solver|]. intros ->. apply Ha. by left.
  - exists a. split; [by left|done].
Qed.

(** A vertex without neighbours has no faces. *)
Lemma isolated_no_faces A s u :
  Topology A s -> (forall g, Mates A s g) -> u ∈ A ->
  neighbors (vget s u) = [] -> faces (vget s u) = [].
Proof.
  intros HT HM Hu Hn. destruct (faces (vget s u)) as [|f l] eqn:E; [done|].
  assert (Hf : f ∈ faces (vget s u)) by (rewrite E; by left).
  destruct (topo_fc _ _ HT u f Hu Hf) as (_ & Hnd & _).
  destruct (other_corner (verticesOf (fget s f)) u eq_refl Hnd) as (w & Hw & Hwu).
  pose proof (HM f u w Hu Hf Hw Hwu) as Hin. rewrite Hn in Hin. by apply elem_of_nil in Hin.
Qed.

Lemma first_by_cost s :
  Indexed s -> (0 < length (arrVertices s))%nat ->
  exists e u, arrVerticesByCost s !! 0%nat = Some e /\ arrVertices s !! e = Some u.
Proof.
  intros [_ _ Hperm] Hlen.
  destruct (arrVerticesByCost s) as [|e l] eqn:E.
  { apply Permutation_length in Hperm. rewrite length_seq in Hperm. simpl in Hperm. lia. }
  assert (He : e ∈ seq 0 (length (arrVertices s))) by (rewrite <- Hperm; by left).
  apply elem_of_seq in He.
  destruct (lookup_lt_is_Some_2 (arrVertices s) e) as [u Hu]; [lia|].
  by exists e, u.
Qed.

Section CollapseStep.
Context `{Sqrt}.

Lemma collapseStep_isolated s u :
  WF s -> u ∈ arrVertices s -> collapseNeighbor (vget s u) = None ->
  WF (removeVertex s u) /\
  length (arrVertices (removeVertex s u)) = (length (arrVertices s) - 1)%nat /\
  (forall g, fget (removeVertex s u) g = fget s g) /\
  arrFaces (removeVertex s u) = arrFaces s.
Proof.
  intros [HI HT HM HC HF] Hu Hcn.
  assert (Hn : neighbors (vget s u) = []).
  { specialize (HC u Hu). unfold CachedNeighbor in HC. by rewrite Hcn in HC. }
  pose proof (isolated_no_faces _ _ _ HT HM Hu Hn) as Hfu.
  destruct (removeVertex_spec s u HI HT HM Hu Hfu)
    as (HA & Hlen & HI' & HT' & HM' & Hnb & Hsame & Hfg & HaF).
  split; [|by split]. constructor; try done.
  - intros y Hy. rewrite HA in Hy.
    assert (HyA : y ∈ arrVertices s) by by eapply elem_of_removeFirst.
    assert (Hyu : y <> u).
    { intros ->. exact (removeFirst_NoDup_notin _ _ (idx_nodup _ HI) Hy). }
    specialize (HC y HyA). unfold CachedNeighbor in *.
    destruct (Hsame y) as (_ & -> & _). rewrite Hnb by done.
    rewrite removeFirst_notin; [done|].
    intros Hin. destruct (topo_nb _ _ HT y u HyA Hin) as (_ & _ & Hsym).
    rewrite Hn in Hsym. by apply elem_of_nil in Hsym.
  - intros f. rewrite HaF, Hfg. apply HF.
Qed.

Lemma collapseStep_edge s u v :
  WF s -> u ∈ arrVertices s -> collapseNeighbor (vget s u) = Some v ->
  let s1 := deleteEdgeFaces s u v (length (faces (vget s u))) in
  exists s2 s4,
    moveFaces s1 u v (length (faces (vget s1 u))) = Some s2 /\
    recostAll (removeVertex s2 u) (neighbors (vget s u)) = Some s4 /\
    WF s4 /\ length (arrVertices s4) = (length (arrVertices s) - 1)%nat.
Proof.
  intros [HI HT HM HC HF] Hu Hcn s1.
  set (A := arrVertices s) in *.
  assert (Hv : v ∈ neighbors (vget s u)).
  { specialize (HC u Hu). unfold CachedNeighbor in HC. by rewrite Hcn in HC. }
  destruct (topo_nb _ _ HT u v Hu Hv) as (HvA & Hvu & Huv).
  destruct (deleteEdgeFaces_spec A u v (length (faces (vget s u))) s HT HM Hu)
    as (HT1 & HM1 & Hshr & Hclear & Hfr1).
  { intros p g Hp Hg. apply lookup_lt_Some in Hg. lia. }
  fold s1 in HT1, HM1, Hshr, Hclear, Hfr1. clearbody s1.
  destruct Hshr as [Sfg Skeys SaV SaC SaF Sfaces Snb].
  assert (Hpre : MovePre A s1 u v) by (constructor; auto).
  destruct (moveFaces_spec A u v _ s1 Hpre HM1 eq_refl)
    as (s2 & E2 & Hpre2 & HM2 & Hfu2 & (MaF & MaV & MaC) & Mkeys & Mnd & _ & Msub & Mfr).
  exists s2. destruct Hpre2 as [HT2 _ _ _ _].
  assert (HA2 : arrVertices s2 = A) by (by rewrite MaV, SaV).
  assert (HI2 : Indexed s2).
  { destruct HI as [I1 I2 I3]. constructor; rewrite ?HA2.
    - done.
    - intros i y Hi. destruct (Mkeys y) as (-> & _). destruct (Skeys y) as (-> & _). auto.
    - by rewrite MaC, SaC. }
  rewrite <- HA2 in HT2, HM2.
  assert (Hu2 : u ∈ arrVertices s2) by by rewrite HA2.
  destruct (removeVertex_spec s2 u HI2 HT2 HM2 Hu2 Hfu2)
    as (HA3 & Hlen3 & HI3 & HT3 & HM3 & Hnb3 & Hsame3 & Hfg3 & HaF3).
  remember (removeVertex s2 u) as s3 eqn:E3. clear E3.
  assert (Htmp : forall t, t ∈ neighbors (vget s u) -> t ∈ arrVertices s3).
  { intros t Ht. destruct (topo_nb _ _ HT u t Hu Ht) as (HtA & Htu & _).
    rewrite HA3, HA2. by apply elem_of_removeFirst_ne. }
  destruct (recostAll_spec (neighbors (vget s u)) s3 HI3 Htmp)
    as (s4 & E4 & HI4 & Hv4 & Hf4 & Hg4 & HA4 & HF4 & Hc4).
  exists s4. split; [done|]. split; [done|]. split; [|by rewrite HA4, Hlen3, HA2].
  assert (Hfields : forall y, neighbors (vget s4 y) = neighbors (vget s3 y) /\
                              faces (vget s4 y) = faces (vget s3 y)).
  { intros y. destruct (Hf4 y) as (-> & -> & _). done. }
  assert (Hvo : forall g, verticesOf (fget s4 g) = verticesOf (fget s3 g)).
  { intros g. by rewrite Hg4. }
  constructor.
  - done.
  - rewrite HA4. by apply (Topology_fields _ s3).
  - intros g. rewrite HA4. by apply (Mates_fields _ s3).
  - intros y Hy. destruct (decide (y ∈ neighbors (vget s u))) as [Hin|Hout]; [by apply Hc4|].
    rewrite HA4, HA3, HA2 in Hy.
    assert (HyA : y ∈ A) by by eapply elem_of_removeFirst.
    assert (Hyu : y <> u).
    { intros ->. exact (removeFirst_NoDup_notin _ _ (idx_nodup _ HI) Hy). }
    assert (Hyv : y <> v) by (intros ->; done).
    assert (Hout1 : y ∉ neighbors (vget s1 u)) by (intros Hin; by apply Hout, Snb).
    unfold CachedNeighbor. rewrite (Hv4 y Hout).
    destruct (Hsame3 y) as (_ & -> & _). rewrite Hnb3 by (by rewrite ?HA2).
    destruct (Mkeys y) as (_ & -> & _). destruct (Skeys y) as (_ & -> & _).
    rewrite (Mfr y Hyu Hyv Hout1), (Hfr1 y Hyu Hout).
    rewrite removeFirst_notin.
    + apply (HC y HyA).
    + intros Hin. apply Hout. by destruct (topo_nb _ _ HT y u HyA Hin) as (_ & _ & ?).
  - intros f Hf. rewrite Hg4, Hfg3. apply Mnd. rewrite Sfg. apply HF, SaF.
    by rewrite <- MaF, <- HaF3, <- HF4.
Qed.

Lemma collapseStep_spec s :
  WF s -> (0 < length (arrVertices s))%nat ->
  exists s', collapseStep s = Some s' /\ WF s' /\
    length (arrVertices s') = (length (arrVertices s) - 1)%nat.
Proof.
  intros HW Hlen. destruct (first_by_cost s (wf_indexed _ HW) Hlen) as (e & u & He & Hu).
  unfold collapseStep. rewrite He. cbn [mbind option_bind]. rewrite Hu. cbn [mbind option_bind].
  assert (HuA : u ∈ arrVertices s) by (eapply list_elem_of_lookup_2; eauto).
  destruct (collapseNeighbor (vget s u)) as [v|] eqn:Hcn.
  - destruct (collapseStep_edge s u v HW HuA Hcn) as (s2 & s4 & E2 & E4 & HW4 & Hl4).
    cbv zeta. rewrite E2. cbn [mbind option_bind]. rewrite E4. by exists s4.
  - destruct (collapseStep_isolated s u HW HuA Hcn) as (HW' & Hl' & _).
    eexists. by split.
Qed.

Lemma collapseLoop_spec turns : forall s,
  WF s -> (turns <= length (arrVertices s))%nat ->
  exists s', collapseLoop turns s = Some s' /\ WF s' /\
    length (arrVertices s') = (length (arrVertices s) - turns)%nat.
Proof.
  induction turns as [|turns IH]; intros s HW Hle; cbn [collapseLoop].
  - exists s. split; [done|]. split; [done|]. lia.
  - destruct (collapseStep_spec s HW) as (s1 & -> & HW1 & Hl1); [lia|].
    cbn [mbind option_bind]. destruct (IH s1 HW1) as (s2 & -> & HW2 & Hl2); [lia|].
    exists s2. split; [done|]. split; [done|]. lia.
Qed.

End CollapseStep.

(** ** [populateFromGeometry] builds a well-formed graph *)

Lemma addVertices_spec positions : forall s i,
  let s' := addVertices s i positions in
  arrVertices s' = arrVertices s ++ seq i (length positions) /\
  (forall j, (i <= j < i + length positions)%nat ->
     index (vget s' j) = j /\ neighbors (vget s' j) = [] /\ faces (vget s' j) = []) /\
  (forall j, (j < i)%nat -> vget s' j = vget s j) /\
  arrFaces s' = arrFaces s.
Proof.
  induction positions as [|p positions IH]; intros s i; cbn [addVertices length seq].
  - rewrite app_nil_r. split; [done|]. split; [intros j ?; lia|]. done.
  - destruct (IH (set_arrVertices (vset s i (newVertex p i))
                    (arrVertices (vset s i (newVertex p i)) ++ [i])) (S i))
      as (HA & Hnew & Hold & HF).
    split. { rewrite HA. cbn [arrVertices set_arrVertices vset]. by rewrite <- app_assoc. }
    split; [|split].
    + intros j Hj. destruct (decide (j = i)) as [->|Hne]; [|apply Hnew; lia].
      rewrite Hold by lia.
      change (vget (set_arrVertices ?a ?b) ?c) with (vget a c). by rewrite vget_vset_eq.
    + intros j Hj. rewrite Hold by lia.
      change (vget (set_arrVertices ?a ?b) ?c) with (vget a c). rewrite vget_vset_ne; [done|lia].
    + by rewrite HF.
Qed.

Section Populate.
Context `{Sqrt}.

Lemma newTriangle_fget s f a b c ia ib ic g :
  verticesOf (fget (newTriangle s f a b c ia ib ic) g) =
    if decide (f = g) then [a; b; c] else verticesOf (fget s g).
Proof.
  unfold newTriangle. rewrite !addUniqueNeighbor_fget, !pushFace_fget.
  rewrite !addUniqueNeighbor_fget, !pushFace_fget.
  rewrite !addUniqueNeighbor_fget, !pushFace_fget.
  rewrite recompute_verticesOf, fget_fset. by case_decide.
Qed.

Lemma pushFace_neighbors s x f y : neighbors (vget (pushFace s x f) y) = neighbors (vget s y).
Proof. rewrite pushFace_vget. by case_decide; subst. Qed.

Lemma pushFace_faces s x f y :
  faces (vget (pushFace s x f) y) =
    if decide (x = y) then faces (vget s y) ++ [f] else faces (vget s y).
Proof. rewrite pushFace_vget. by case_decide; subst. Qed.

Lemma pushFace_index s x f y : index (vget (pushFace s x f) y) = index (vget s y).
Proof. rewrite pushFace_vget. by case_decide; subst. Qed.

Lemma addUniqueNeighbor_index s x t y :
  index (vget (addUniqueNeighbor s x t) y) = index (vget s y).
Proof. rewrite addUniqueNeighbor_vget. by case_decide; subst. Qed.

Lemma newTriangle_elem s f a b c ia ib ic y w :
  w ∈ neighbors (vget (newTriangle s f a b c ia ib ic) y) <->
  w ∈ neighbors (vget s y) \/
  (y = a /\ (w = b \/ w = c)) \/ (y = b /\ (w = a \/ w = c)) \/ (y = c /\ (w = a \/ w = b)).
Proof.
  unfold newTriangle.
  rewrite !addUniqueNeighbor_elem, pushFace_neighbors.
  rewrite !addUniqueNeighbor_elem, pushFace_neighbors.
  rewrite !addUniqueNeighbor_elem, pushFace_neighbors.
  change (vget (computeCenter ?s0 ?f0) ?y0) with (vget s0 y0).
  change (vget (computeNormal ?s0 ?f0) ?y0) with (vget s0 y0).
  change (vget (fset ?s0 ?f0 ?F0) ?y0) with (vget s0 y0). tauto.
Qed.

Lemma newTriangle_nodup s f a b c ia ib ic y :
  NoDup (neighbors (vget s y)) ->
  NoDup (neighbors (vget (newTriangle s f a b c ia ib ic) y)).
Proof.
  intros Hy. unfold newTriangle.
  do 2 apply addUniqueNeighbor_nodup. rewrite pushFace_neighbors.
  do 2 apply addUniqueNeighbor_nodup. rewrite pushFace_neighbors.
  do 2 apply addUniqueNeighbor_nodup. rewrite pushFace_neighbors.
  done.
Qed.

Lemma newTriangle_faces s f a b c ia ib ic y :
  NoDup [a; b; c] ->
  faces (vget (newTriangle s f a b c ia ib ic) y) =
    if decide (y ∈ [a; b; c]) then faces (vget s y) ++ [f] else faces (vget s y).
Proof.
  intros Hnd. apply NoDup_cons in Hnd as [H1 Hnd]. apply NoDup_cons in Hnd as [H2 _].
  rewrite !not_elem_of_cons in H1. rewrite not_elem_of_cons in H2.
  destruct H1 as (Hab & Hac & _), H2 as (Hbc & _).
  unfold newTriangle.
  rewrite !addUniqueNeighbor_faces, pushFace_faces.
  rewrite !addUniqueNeighbor_faces, pushFace_faces.
  rewrite !addUniqueNeighbor_faces, pushFace_faces.
  change (vget (computeCenter ?s0 ?f0) ?y0) with (vget s0 y0).
  change (vget (computeNormal ?s0 ?f0) ?y0) with (vget s0 y0).
  change (vget (fset ?s0 ?f0 ?F0) ?y0) with (vget s0 y0).
  repeat case_decide; subst; try done; set_solver.
Qed.

Lemma newTriangle_index s f a b c ia ib ic y :
  index (vget (newTriangle s f a b c ia ib ic) y) = index (vget s y).
Proof.
  unfold newTriangle. by rewrite !addUniqueNeighbor_index, !pushFace_index,
    !addUniqueNeighbor_index, !pushFace_index, !addUniqueNeighbor_index, !pushFace_index.
Qed.

Lemma newTriangle_arrays s f a b c ia ib ic : sameArrays s (newTriangle s f a b c ia ib ic).
Proof.
  unfold newTriangle.
  repeat match goal with
  | |- sameArrays _ (addUniqueNeighbor ?s0 _ _) =>
      apply (sameArrays_trans _ s0); [|apply addUniqueNeighbor_arrays]
  | |- sameArrays _ (pushFace ?s0 _ _) =>
      apply (sameArrays_trans _ s0); [|apply pushFace_arrays]
  end.
  by repeat split.
Qed.

Lemma Built_extend A s s' f a b c :
  Built A f s -> NoDup [a; b; c] -> a ∈ A -> b ∈ A -> c ∈ A ->
  (forall y, faces (vget s' y) =
     if decide (y ∈ [a; b; c]) then faces (vget s y) ++ [f] else faces (vget s y)) ->
  (forall g, verticesOf (fget s' g) =
     if decide (f = g) then [a; b; c] else verticesOf (fget s g)) ->
  (forall y, NoDup (neighbors (vget s y)) -> NoDup (neighbors (vget s' y))) ->
  (forall y, index (vget s' y) = index (vget s y)) ->
  sameArrays s s' ->
  (forall y w, w ∈ neighbors (vget s' y) <->
     w ∈ neighbors (vget s y) \/
     (y = a /\ (w = b \/ w = c)) \/ (y = b /\ (w = a \/ w = c)) \/
     (y = c /\ (w = a \/ w = b))) ->
  Built A (S f) (set_arrFaces s' (arrFaces s' ++ [f])).
Proof.
  intros [HT HM Hfresh Hfaces HaF HaV Hidx] Hnd Ha Hb Hc Hfc Hvo Hkeep Hindex
    (HbF & HbV & _) Hel0.
  assert (Hin : forall y, y ∈ [a; b; c] -> y ∈ A).
  { intros y. rewrite !elem_of_cons, elem_of_nil. intros [->|[->|[->|[]]]]; done. }
  assert (Hel : forall y w, w ∈ neighbors (vget s' y) <->
            w ∈ neighbors (vget s y) \/ (y ∈ [a; b; c] /\ w ∈ [a; b; c] /\ w <> y)).
  { intros y w. rewrite Hel0.
    apply NoDup_cons in Hnd as [H1 Hnd']. apply NoDup_cons in Hnd' as [H2 _].
    rewrite !not_elem_of_cons in H1. rewrite not_elem_of_cons in H2.
    destruct H1 as (Hab & Hac & _), H2 as (Hbc & _).
    rewrite !elem_of_cons, !elem_of_nil. split.
    - intros [Hw|Hw]; [by left|]. right.
      destruct Hw as [[-> [->| ->]]|[[-> [->| ->]]|[-> [->| ->]]]]; split_and!; auto.
    - intros [?|(Hy & Hw & Hne)]; [by left|]. right.
      destruct Hy as [->|[->|[->|[]]]], Hw as [->|[->|[->|[]]]]; tauto. }
  assert (Hfaces' : forall y g, y ∈ A -> g ∈ faces (vget s' y) ->
            (g ∈ faces (vget s y) /\ g <> f) \/ (g = f /\ y ∈ [a; b; c])).
  { intros y g Hy. rewrite Hfc. case_decide as Hyabc.
    - rewrite elem_of_app, list_elem_of_singleton. intros [Hg | ->]; [|by right].
      left. split; [done|]. intros ->. specialize (Hfresh y f Hy Hg). lia.
    - intros Hg. left. split; [done|]. intros ->. specialize (Hfresh y f Hy Hg). lia. }
  constructor;
    change (vget (set_arrFaces ?s0 ?l0) ?y0) with (vget s0 y0);
    change (fget (set_arrFaces ?s0 ?l0) ?g0) with (fget s0 g0).
  - constructor.
    + intros v Hv. change (vget (set_arrFaces ?s0 ?l0) ?y0) with (vget s0 y0).
      apply Hkeep. by apply (topo_nb_nodup _ _ HT).
    + intros v w Hv. change (vget (set_arrFaces ?s0 ?l0) ?y0) with (vget s0 y0).
      rewrite !Hel. intros [Hw|(Hy & Hw & Hne)].
      * destruct (topo_nb _ _ HT v w Hv Hw) as (? & ? & ?). auto.
      * split; [by apply Hin|]. split; [done|]. right. split_and!; auto.
    + intros v Hv. change (vget (set_arrFaces ?s0 ?l0) ?y0) with (vget s0 y0).
      rewrite Hfc. case_decide; [|by apply (topo_fc_nodup _ _ HT)].
      apply NoDup_app. split; [by apply (topo_fc_nodup _ _ HT)|].
      split; [|apply NoDup_singleton]. intros g Hg ->%list_elem_of_singleton.
      specialize (Hfresh v f Hv Hg). lia.
    + intros v g Hv. change (vget (set_arrFaces ?s0 ?l0) ?y0) with (vget s0 y0).
      change (fget (set_arrFaces ?s0 ?l0) ?g0) with (fget s0 g0).
      intros Hg. rewrite Hvo. destruct (Hfaces' v g Hv Hg) as [[Hg' Hne] | [-> Hy]].
      * rewrite decide_False by done.
        destruct (topo_fc _ _ HT v g Hv Hg') as (? & ? & Hall).
        split; [done|]. split; [done|]. intros w Hw. destruct (Hall w Hw) as [HwA Hgw].
        split; [done|]. change (vget (set_arrFaces ?s0 ?l0) ?y0) with (vget s0 y0).
        rewrite Hfc. case_decide; [|done]. apply elem_of_app. by left.
      * rewrite decide_True by done. split; [done|]. split; [done|].
        intros w Hw. split; [by apply Hin|].
        change (vget (set_arrFaces ?s0 ?l0) ?y0) with (vget s0 y0).
        rewrite Hfc, decide_True by done. apply elem_of_app. right. by left.
  - intros g v w Hv. change (vget (set_arrFaces ?s0 ?l0) ?y0) with (vget s0 y0).
    change (fget (set_arrFaces ?s0 ?l0) ?g0) with (fget s0 g0).
    intros Hg. rewrite Hvo, Hel. destruct (Hfaces' v g Hv Hg) as [[Hg' Hne] | [-> Hy]].
    + rewrite decide_False by done. intros Hw Hwv. left. by apply (HM g).
    + rewrite decide_True by done. intros Hw Hwv. right. by split_and!.
  - intros y g Hy Hg. destruct (Hfaces' y g Hy Hg) as [[Hg' _] | [-> _]]; [|lia].
    specialize (Hfresh y g Hy Hg'). lia.
  - intros g Hg. rewrite Hvo. case_decide; [done|]. apply Hfaces. lia.
  - cbn [arrFaces set_arrFaces]. rewrite HbF, HaF. by rewrite seq_S.
  - cbn [arrVertices set_arrFaces]. by rewrite HbV.
  - intros i v Hi. rewrite Hindex. by apply Hidx.
Qed.

Lemma newTriangle_Built A s f a b c ia ib ic :
  Built A f s -> NoDup [a; b; c] -> a ∈ A -> b ∈ A -> c ∈ A ->
  Built A (S f) (set_arrFaces (newTriangle s f a b c ia ib ic)
                   (arrFaces (newTriangle s f a b c ia ib ic) ++ [f])).
Proof.
  intros HB Hnd Ha Hb Hc. apply (Built_extend A s _ f a b c HB Hnd Ha Hb Hc).
  - intros y. by apply newTriangle_faces.
  - intros g. apply newTriangle_fget.
  - intros y. apply newTriangle_nodup.
  - intros y. apply newTriangle_index.
  - apply newTriangle_arrays.
  - intros y w. apply newTriangle_elem.
Qed.

Lemma addFaces_Built A indices : forall s f s',
  NoDup A -> Built A f s -> distinctCorners indices = true ->
  addFaces s f indices = Some s' -> exists f', Built A f' s'.
Proof.
  induction indices as [indices IH] using (induction_ltof1 _ (@length nat)).
  unfold ltof in IH. intros s f s' HndA HB Hdist Hadd.
  destruct indices as [|a [|b [|c indices]]]; cbn [addFaces] in Hadd; try done.
  { injection Hadd as <-. by exists f. }
  cbn [distinctCorners] in Hdist. rewrite !andb_true_iff, !bool_decide_eq_true in Hdist.
  destruct Hdist as (((Hab & Hbc) & Hac) & Hrest).
  destruct (arrVertices s !! a) as [va|] eqn:Ea; [|done].
  destruct (arrVertices s !! b) as [vb|] eqn:Eb; [|done].
  destruct (arrVertices s !! c) as [vc|] eqn:Ec; [|done].
  cbn [mbind option_bind] in Hadd.
  rewrite (bl_arrVertices _ _ _ HB) in Ea, Eb, Ec.
  eapply (IH indices); [simpl; lia|done| |done|exact Hadd].
  apply newTriangle_Built; [done| |eapply list_elem_of_lookup_2; eauto..].
  assert (forall i j x y, A !! i = Some x -> A !! j = Some y -> i <> j -> x <> y).
  { intros i j x y Hi Hj Hij ->. apply Hij. by eapply NoDup_lookup. }
  apply NoDup_cons. split.
  { rewrite !not_elem_of_cons. split_and!; eauto. apply not_elem_of_nil. }
  apply NoDup_cons. split.
  { rewrite !not_elem_of_cons. split_and!; eauto. apply not_elem_of_nil. }
  apply NoDup_singleton.
Qed.

Lemma addVertices_Built positions :
  Built (seq 0 (length positions)) 0 (addVertices emptyGraph 0 positions).
Proof.
  destruct (addVertices_spec positions emptyGraph 0) as (HA & Hnew & _ & HF).
  remember (addVertices emptyGraph 0 positions) as s eqn:E. clear E.
  set (n := length positions) in *. simpl in HA.
  assert (Hfresh : forall y, y ∈ seq 0 n -> neighbors (vget s y) = [] /\ faces (vget s y) = []).
  { intros y Hy%elem_of_seq. destruct (Hnew y) as (_ & ? & ?); [lia|done]. }
  constructor.
  - constructor.
    + intros v Hv. destruct (Hfresh v Hv) as [-> _]. constructor.
    + intros v w Hv. destruct (Hfresh v Hv) as [-> _]. by intros ?%elem_of_nil.
    + intros v Hv. destruct (Hfresh v Hv) as [_ ->]. constructor.
    + intros v f Hv. destruct (Hfresh v Hv) as [_ ->]. by intros ?%elem_of_nil.
  - intros g v w Hv. destruct (Hfresh v Hv) as [_ ->]. by intros ?%elem_of_nil.
  - intros y g Hy. destruct (Hfresh y Hy) as [_ ->]. by intros ?%elem_of_nil.
  - intros g Hg. lia.
  - done.
  - done.
  - intros i v Hi. apply lookup_seq in Hi as [-> Hlt]. simpl.
    destruct (Hnew i) as (? & _); [lia|done].
Qed.

Lemma costFold_spec l : forall s,
  let s' := fold_left (fun s v => fst (computeEdgeCostAtVertex s v)) l s in
  (forall y, neighbors (vget s' y) = neighbors (vget s y) /\
             faces (vget s' y) = faces (vget s y) /\
             index (vget s' y) = index (vget s y) /\
             position (vget s' y) = position (vget s y)) /\
  (forall y, y ∉ l -> vget s' y = vget s y) /\
  (forall g, fget s' g = fget s g) /\ sameArrays s s' /\
  (forall t, t ∈ l -> CachedNeighbor s' t).
Proof.
  induction l as [|t l IH]; intros s; cbn [fold_left].
  - split; [done|]. split; [done|]. split; [done|]. split; [apply sameArrays_refl|].
    by intros t ?%elem_of_nil.
  - destruct (computeEdgeCostAtVertex_effect s t) as (Hv & Hf & Hg & Ha & Hc & _).
    destruct (IH (fst (computeEdgeCostAtVertex s t))) as (Hf2 & Hv2 & Hg2 & Ha2 & Hc2).
    split. { intros y. destruct (Hf2 y) as (-> & -> & -> & ->). apply Hf. }
    split. { intros y [? ?]%not_elem_of_cons. rewrite Hv2 by done. by apply Hv. }
    split. { intros g. by rewrite Hg2. }
    split; [eauto using sameArrays_trans|].
    intros y Hy. destruct (decide (y ∈ l)) as [Hin|Hout]; [by apply Hc2|].
    apply elem_of_cons in Hy as [->|Hy]; [|done].
    unfold CachedNeighbor in *. by rewrite (Hv2 t Hout).
Qed.

Lemma insertByCost_Permutation cost i l : insertByCost cost i l ≡ₚ i :: l.
Proof.
  induction l as [|j l IH]; [done|]. simpl. destruct (Qltb _ _); [|done].
  rewrite IH. apply perm_swap.
Qed.

Lemma sortByCost_Permutation cost l : sortByCost cost l ≡ₚ l.
Proof.
  induction l as [|i l IH]; [done|]. unfold sortByCost in *. simpl.
  by rewrite insertByCost_Permutation, IH.
Qed.

Lemma computeHash_verticesOf s f g :
  verticesOf (fget (computeHash s f) g) = verticesOf (fget s g).
Proof. unfold computeHash. rewrite fget_fset. by case_decide; subst. Qed.

Lemma computeFaceHashes_spec s :
  (forall y, vget (computeFaceHashes s) y = vget s y) /\
  (forall g, verticesOf (fget (computeFaceHashes s) g) = verticesOf (fget s g)) /\
  sameArrays s (computeFaceHashes s).
Proof.
  unfold computeFaceHashes. generalize (arrFaces s). intros l. revert s.
  induction l as [|f l IH]; intros s; cbn [fold_left].
  - split; [done|]. split; [done|]. apply sameArrays_refl.
  - destruct (IH (computeHash s f)) as (Hv & Hf & Ha).
    split; [intros y; by rewrite Hv|]. split.
    + intros g. by rewrite Hf, computeHash_verticesOf.
    + eapply sameArrays_trans; [|exact Ha]. by repeat split.
Qed.

(** The graph built from an index buffer whose triangles have three
    different corners is well formed. *)
Lemma populateFromIndexed_WF positions indices s :
  distinctCorners indices = true ->
  populateFromIndexed positions indices = Some s -> WF s.
Proof.
  intros Hdist. unfold populateFromIndexed.
  pose proof (addVertices_Built positions) as HB0.
  set (n := length positions) in *.
  destruct (addFaces (addVertices emptyGraph 0 positions) 0 indices) as [s1|] eqn:E1; [|done].
  cbn [mbind option_bind]. intros [= <-].
  destruct (addFaces_Built (seq 0 n) indices _ 0%nat s1 (NoDup_seq 0 n) HB0 Hdist E1)
    as (f & [HT HM Hfresh Hfaces HaF HaV Hidx]).
  clear E1 HB0.
  destruct (costFold_spec (arrVertices s1) s1) as (Hf2 & _ & Hg2 & (HbF & HbV & HbC) & Hc2).
  remember (fold_left (fun s v => fst (computeEdgeCostAtVertex s v)) (arrVertices s1) s1)
    as s2 eqn:E2. clear E2.
  destruct (computeFaceHashes_spec
              (set_arrVerticesByCost s2 (sortByCost (costAtIndex s2) (seq 0 n))))
    as (Hv3 & Hvo3 & (HcF & HcV & HcC)).
  remember (computeFaceHashes
              (set_arrVerticesByCost s2 (sortByCost (costAtIndex s2) (seq 0 n)))) as s3 eqn:E3.
  clear E3.
  change (vget (set_arrVerticesByCost ?a ?l) ?y) with (vget a y) in Hv3.
  change (fget (set_arrVerticesByCost ?a ?l) ?y) with (fget a y) in Hvo3.
  cbn [arrFaces arrVertices arrVerticesByCost set_arrVerticesByCost] in HcF, HcV, HcC.
  assert (HA3 : arrVertices s3 = seq 0 n) by (by rewrite HcV, HbV).
  assert (Hfields : forall y, neighbors (vget s3 y) = neighbors (vget s1 y) /\
                              faces (vget s3 y) = faces (vget s1 y)).
  { intros y. rewrite Hv3. destruct (Hf2 y) as (-> & -> & _). done. }
  assert (Hvo : forall g, verticesOf (fget s3 g) = verticesOf (fget s1 g)).
  { intros g. by rewrite Hvo3, Hg2. }
  constructor.
  - constructor; rewrite ?HA3.
    + apply NoDup_seq.
    + intros i v Hi. rewrite Hv3. destruct (Hf2 v) as (_ & _ & -> & _). by apply Hidx.
    + rewrite HcC, length_seq. apply sortByCost_Permutation.
  - rewrite HA3. by apply (Topology_fields _ s1).
  - intros g. rewrite HA3. by apply (Mates_fields _ s1).
  - intros v Hv. rewrite HA3, <- HaV in Hv. specialize (Hc2 v Hv).
    unfold CachedNeighbor in *. by rewrite Hv3.
  - intros g Hg. rewrite Hvo. apply Hfaces. rewrite HcF, HbF, HaF in Hg.
    apply elem_of_seq in Hg. lia.
Qed.

End Populate.

(** ** The log is only written by [collapse] itself *)

Lemma addUniqueNeighbor_console s x t : console (addUniqueNeighbor s x t) = console s.
Proof. unfold addUniqueNeighbor. by destruct (indexOf _ _). Qed.

Lemma removeIfNonNeighbor_console s x t : console (removeIfNonNeighbor s x t) = console s.
Proof. unfold removeIfNonNeighbor. destruct (indexOf _ _); [|done]. by destruct (existsb _ _). Qed.

Lemma removeNonNeighbors_console s x t : console (removeNonNeighbors s x t) = console s.
Proof. unfold removeNonNeighbors. by rewrite !removeIfNonNeighbor_console. Qed.

Lemma linkVertices_console s a b c : console (linkVertices s a b c) = console s.
Proof. unfold linkVertices. by rewrite !addUniqueNeighbor_console. Qed.

Lemma detachFace_console s u v i face : console (detachFace s u v i face) = console s.
Proof. unfold detachFace. by repeat case_decide. Qed.

Section Console.
Context `{Sqrt}.

Lemma computeNormal_console s f : console (computeNormal s f) = console s.
Proof. reflexivity. Qed.

Lemma computeCenter_console s f : console (computeCenter s f) = console s.
Proof. reflexivity. Qed.

Lemma removeFace_console s f : console (removeFace s f) = console s.
Proof. rewrite removeFace_unfold. cbv zeta. by rewrite !removeNonNeighbors_console. Qed.

Lemma deleteEdgeFaces_console u v i : forall s, console (deleteEdgeFaces s u v i) = console s.
Proof.
  induction i as [|i IH]; intros s; [done|]. cbn [deleteEdgeFaces]. rewrite IH.
  destruct (faces (vget s u) !! i); [|done].
  destruct (hasVertex _ _); [apply removeFace_console|done].
Qed.

Lemma moveFace_console s u v i s' : moveFace s u v i = Some s' -> console s' = console s.
Proof.
  destruct (faces (vget s u) !! i) as [face|] eqn:Hi.
  - rewrite (moveFace_unfold s u v i face Hi). intros Hm.
    apply (inj Some) in Hm. rewrite <- Hm. clear Hm.
    set (s3 := detachFace s u v i face). set (F := fget s3 face). cbv zeta.
    rewrite computeCenter_console, computeNormal_console, linkVertices_console.
    rewrite !removeNonNeighbors_console. apply detachFace_console.
  - unfold moveFace. by rewrite Hi.
Qed.

Lemma moveFaces_console u v i : forall s s',
  moveFaces s u v i = Some s' -> console s' = console s.
Proof.
  induction i as [|i IH]; intros s s'; cbn [moveFaces]; [by intros [= <-]|].
  destruct (moveFace s u v i) as [s1|] eqn:E1; [|done]. cbn [mbind option_bind].
  intros E2. rewrite (IH _ _ E2). by eapply moveFace_console.
Qed.

Lemma purgeNeighbors_console fuel : forall s u, console (purgeNeighbors fuel s u) = console s.
Proof.
  induction fuel as [|fuel IH]; intros s u; [done|]. cbn [purgeNeighbors].
  destruct (last _); [|done]. by rewrite IH.
Qed.

Lemma reindexFrom_console l : forall s i, console (reindexFrom s i l) = console s.
Proof. induction l as [|x l IH]; intros s i; [done|]. cbn [reindexFrom]. by rewrite IH. Qed.

Lemma removeVertex_console s u : console (removeVertex s u) = console s.
Proof.
  unfold removeVertex. cbv zeta. cbn [console set_arrVerticesByCost].
  rewrite reindexFrom_console. cbn [console set_arrVertices]. apply purgeNeighbors_console.
Qed.

Lemma computeEdgeCostAtVertex_console s t :
  console (fst (computeEdgeCostAtVertex s t)) = console s.
Proof. unfold computeEdgeCostAtVertex. by destruct (neighbors _). Qed.

Lemma recost_console s t s' : recost s t = Some s' -> console s' = console s.
Proof.
  unfold recost. pose proof (computeEdgeCostAtVertex_console s t) as Hc.
  destruct (computeEdgeCostAtVertex s t) as [s1 cost]. cbn [fst] in Hc.
  destruct (costPosition _ _); [|done]. cbn [mbind option_bind].
  intros Hm. apply (inj Some) in Hm. by rewrite <- Hm.
Qed.

Lemma recostAll_console l : forall s s', recostAll s l = Some s' -> console s' = console s.
Proof.
  induction l as [|t l IH]; intros s s'; cbn [recostAll]; [by intros [= <-]|].
  destruct (recost s t) as [s1|] eqn:E1; [|done]. cbn [mbind option_bind].
  intros E2. rewrite (IH _ _ E2). by eapply recost_console.
Qed.

Lemma collapseStep_console s s' : collapseStep s = Some s' -> console s' = console s.
Proof.
  unfold collapseStep. destruct (arrVerticesByCost s !! 0%nat) as [e|]; [|done].
  cbn [mbind option_bind]. destruct (arrVertices s !! e) as [u|]; [|done].
  cbn [mbind option_bind]. destruct (collapseNeighbor (vget s u)) as [v|].
  - cbv zeta. destruct (moveFaces _ _ _ _) as [s2|] eqn:E2; [|done].
    cbn [mbind option_bind]. intros E4. rewrite (recostAll_console _ _ _ E4).
    rewrite removeVertex_console, (moveFaces_console _ _ _ _ _ E2).
    apply deleteEdgeFaces_console.
  - intros Hm. apply (inj Some) in Hm. rewrite <- Hm. apply removeVertex_console.
Qed.

Lemma collapseLoop_console turns : forall s s',
  collapseLoop turns s = Some s' -> console s' = console s.
Proof.
  induction turns as [|turns IH]; intros s s'; cbn [collapseLoop]; [by intros [= <-]|].
  destruct (collapseStep s) as [s1|] eqn:E1; [|done]. cbn [mbind option_bind].
  intros E2. rewrite (IH _ _ E2). by eapply collapseStep_console.
Qed.

End Console.

(** ** [collapse] *)

Lemma distinctVertices_NoDup F : distinctVertices F <-> NoDup (verticesOf F).
Proof.
  unfold distinctVertices, verticesOf. split.
  - intros (H12 & H23 & H13). repeat constructor; set_solver.
  - intros Hnd. apply NoDup_cons in Hnd as [H1 Hnd]. apply NoDup_cons in Hnd as [H2 _].
    rewrite !not_elem_of_cons in H1. rewrite not_elem_of_cons in H2. tauto.
Qed.

Lemma WF_console_log s e : WF s -> WF (console_log s e).
Proof.
  intros [[I1 I2 I3] HT HM HC HF]. constructor.
  - by constructor.
  - by apply (Topology_fields _ s).
  - intros g. by apply (Mates_fields _ s).
  - exact HC.
  - exact HF.
Qed.

Lemma turnsOf_integer (k : Z) : turnsOf (inject_Z k) = Z.to_nat k.
Proof. unfold turnsOf. by rewrite Qceiling_Z. Qed.

Lemma Qceiling_half (z : Z) : Qceiling (inject_Z z / 2) = ((z + 1) / 2)%Z.
Proof.
  unfold Qceiling, Qfloor, Qdiv, Qmult, Qinv, Qopp, inject_Z. cbn.
  rewrite Z.mul_1_r. Z.div_mod_to_equations. lia.
Qed.

Lemma turnsOf_half (n : nat) :
  turnsOf (inject_Z (Z.of_nat n) / 2) = ((n + 1) / 2)%nat.
Proof.
  unfold turnsOf. rewrite Qceiling_half.
  change 2%Z with (Z.of_nat 2). change 1%Z with (Z.of_nat 1).
  by rewrite <- Nat2Z.inj_add, <- Nat2Z.inj_div, Nat2Z.id.
Qed.

Section Collapse.
Context `{Sqrt}.

(** The invariant survives a whole call, whatever the count. *)
Lemma collapse_entry s count :
  exists s0 turns, collapse count s = collapseLoop turns s0 /\
    arrVertices s0 = arrVertices s /\ arrFaces s0 = arrFaces s /\
    (WF s -> WF s0) /\
    turns = (if Qltb (inject_Z (Z.of_nat (verticesCount s))) count
             then turnsOf (inject_Z (Z.of_nat (verticesCount s)) / 2)
             else turnsOf count) /\
    (Qltb (inject_Z (Z.of_nat (verticesCount s))) count = true ->
       ExceedsAvailable (inject_Z (Z.of_nat (verticesCount s)) / 2) ∈ console s0).
Proof.
  unfold collapse, verticesCount.
  set (b := (length (arrVertices s) =? 0)%nat || (length (arrFaces s) =? 0)%nat).
  set (s1 := if b then console_log s NoVerticesFound else s).
  assert (HV : arrVertices s1 = arrVertices s) by (unfold s1; by destruct b).
  assert (HF : arrFaces s1 = arrFaces s) by (unfold s1; by destruct b).
  assert (HW : WF s -> WF s1).
  { unfold s1. destruct b; [apply WF_console_log|done]. }
  clearbody s1. clear b.
  destruct (Qltb _ _).
  - eexists _, _. split; [reflexivity|]. split; [done|]. split; [done|].
    split; [intros; by apply WF_console_log, HW|]. split; [done|].
    intros _. cbn [console console_log]. apply elem_of_app. right. by left.
  - eexists _, _. split; [reflexivity|]. split; [done|]. split; [done|].
    split; [done|]. split; [done|]. done.
Qed.



(** C8.  On a well-formed mesh graph every turn of the loop of
    [collapse] returns and leaves a well-formed graph, all of whose
    faces have three different vertices; and in a turn that collapses
    the edge [uv], the faces left in the list of [u] once the faces on
    the edge are deleted do not hold [v]. *)
Theorem C8_faces_keep_distinct_vertices s turns :
  WF s -> (turns <= verticesCount s)%nat ->
  (exists s', collapseLoop turns s = Some s' /\ WF s' /\
     forall f, f ∈ arrFaces s' -> distinctVertices (fget s' f)) /\
  (forall u v, u ∈ arrVertices s -> collapseNeighbor (vget s u) = Some v ->
     let s1 := deleteEdgeFaces s u v (length (faces (vget s u))) in
     forall g, g ∈ faces (vget s1 u) -> hasVertex (fget s1 g) v = false).
Proof.
  intros HW Hturns. split.
  - destruct (collapseLoop_spec turns s HW Hturns) as (s' & E & HW' & _).
    exists s'. split; [done|]. split; [done|].
    intros f Hf. apply distinctVertices_NoDup. by apply (wf_faces _ HW').
  - intros u v Hu Hcn s1 g Hg. apply hasVertex_false.
    destruct HW as [HI HT HM HC HF].
    destruct (deleteEdgeFaces_spec (arrVertices s) u v (length (faces (vget s u))) s HT HM Hu)
      as (_ & _ & _ & Hclear & _).
    { intros p f Hp Hf. apply lookup_lt_Some in Hf. lia. }
    by apply Hclear.
Qed.

End Collapse.

(** ** Path search *)

Lemma Visited_refl g : Visited g g.
Proof. by repeat split. Qed.

Lemma Visited_trans g1 g2 g3 : Visited g1 g2 -> Visited g2 g3 -> Visited g1 g3.
Proof.
  intros (H1 & H2 & H3) (K1 & K2 & K3). split; [congruence|]. split; [congruence|].
  intros f. destruct (H3 f) as [? E1], (K3 f) as [? E2]. split; [lia|congruence].
Qed.

Lemma incrDegree_fget g f x :
  fget (incrDegree g f) x =
    if decide (f = x) then set_degree (fget g f) (S (degree (fget g f))) else fget g x.
Proof. apply fget_fset. Qed.

Lemma incrDegree_degree g f x :
  degree (fget (incrDegree g f) x) =
    if decide (f = x) then S (degree (fget g x)) else degree (fget g x).
Proof. rewrite incrDegree_fget. by case_decide; subst. Qed.

Lemma incrDegree_Visited g f : Visited g (incrDegree g f).
Proof.
  split; [done|]. split; [done|]. intros x. rewrite incrDegree_fget.
  case_decide; subst; [|done]. split; [simpl; lia|done].
Qed.

Lemma Visited_corners g g' f :
  Visited g g' ->
  v1 (fget g' f) = v1 (fget g f) /\ v2 (fget g' f) = v2 (fget g f) /\
  v3 (fget g' f) = v3 (fget g f) /\ center (fget g' f) = center (fget g f).
Proof.
  intros (_ & _ & H3). destruct (H3 f) as [_ E].
  split; [exact (f_equal v1 E)|]. split; [exact (f_equal v2 E)|].
  split; [exact (f_equal v3 E)|exact (f_equal center E)].
Qed.

Lemma Visited_vget g g' v : Visited g g' -> vget g' v = vget g v.
Proof. intros (H1 & _). unfold vget. by rewrite H1. Qed.

Lemma Visited_faceNeighbors g g' f :
  Visited g g' -> faceNeighbors g' f = faceNeighbors g f.
Proof.
  intros HV. unfold faceNeighbors.
  destruct (Visited_corners g g' f HV) as (-> & -> & -> & _).
  by rewrite !(Visited_vget g g' _ HV).
Qed.

Lemma Visited_universe g g' : Visited g g' -> faceUniverse g' = faceUniverse g.
Proof. intros (H1 & H2 & _). unfold faceUniverse, listedFaces. by rewrite H1, H2. Qed.

Lemma elem_of_setAddAll l : forall acc x, x ∈ setAddAll acc l <-> x ∈ acc \/ x ∈ l.
Proof.
  unfold setAddAll. induction l as [|y l IH]; intros acc x; cbn [fold_left].
  - rewrite elem_of_nil. tauto.
  - rewrite IH, elem_of_cons. case_decide.
    + split; [tauto|]. intros [?|[->|?]]; auto.
    + rewrite elem_of_app, list_elem_of_singleton. tauto.
Qed.

Lemma elem_of_List_filter {A} (P : A -> bool) l x :
  x ∈ List.filter P l <-> x ∈ l /\ P x = true.
Proof. rewrite !list_elem_of_In. apply filter_In. Qed.

Lemma faces_listed g v f : f ∈ faces (vget g v) -> f ∈ listedFaces g.
Proof.
  unfold vget, listedFaces. rewrite lookup_total_alt.
  destruct (vertexHeap g !! v) as [V|] eqn:E; simpl.
  - intros Hf. apply list_elem_of_In, in_concat. exists (faces V).
    split; [|by apply list_elem_of_In]. apply in_map_iff. exists (v, V). split; [done|].
    apply list_elem_of_In. by apply elem_of_map_to_list.
  - by intros ?%elem_of_nil.
Qed.

Lemma faceNeighbors_listed g face n : n ∈ faceNeighbors g face -> n ∈ listedFaces g.
Proof.
  unfold faceNeighbors. rewrite elem_of_List_filter, elem_of_setAddAll, !elem_of_app.
  intros [[Hn|[Hn|[Hn|Hn]]] _]; [by apply elem_of_nil in Hn|by eapply faces_listed..].
Qed.

Lemma faceNeighbors_universe g face n : n ∈ faceNeighbors g face -> n ∈ faceUniverse g.
Proof. intros Hn. apply elem_of_app. right. by eapply faceNeighbors_listed. Qed.

Lemma countUnvisited_mono g g' l :
  Visited g g' -> (countUnvisited g' l <= countUnvisited g l)%nat.
Proof.
  intros (_ & _ & H3). induction l as [|f l IH]; [done|]. cbn [countUnvisited].
  destruct (H3 f) as [Hle _].
  destruct (Nat.eqb_spec (degree (fget g' f)) 0), (Nat.eqb_spec (degree (fget g f)) 0); lia.
Qed.

Lemma countUnvisited_strict g g' l f :
  Visited g g' -> f ∈ l -> degree (fget g f) = 0%nat -> (1 <= degree (fget g' f))%nat ->
  (countUnvisited g' l + 1 <= countUnvisited g l)%nat.
Proof.
  intros HV Hf H0 H1. induction l as [|x l IH]; [by apply elem_of_nil in Hf|].
  cbn [countUnvisited]. pose proof (countUnvisited_mono g g' l HV) as Hm.
  destruct HV as (_ & _ & H3). destruct (H3 x) as [Hle _].
  apply elem_of_cons in Hf as [<-|Hf].
  - rewrite H0. destruct (Nat.eqb_spec (degree (fget g' f)) 0); simpl; lia.
  - specialize (IH Hf).
    destruct (Nat.eqb_spec (degree (fget g' x)) 0), (Nat.eqb_spec (degree (fget g x)) 0); lia.
Qed.

Lemma countUnvisited_le g l : (countUnvisited g l <= length l)%nat.
Proof. induction l as [|x l IH]; [done|]. cbn [countUnvisited length]. destruct (_ =? _)%nat; lia. Qed.

Lemma countUnvisited_zero g l f :
  countUnvisited g l = 0%nat -> f ∈ l -> (1 <= degree (fget g f))%nat.
Proof.
  induction l as [|x l IH]; [by intros _ ?%elem_of_nil|]. cbn [countUnvisited].
  destruct (Nat.eqb_spec (degree (fget g x)) 0); [lia|]. intros Hz [->|Hf]%elem_of_cons.
  - lia.
  - by apply IH.
Qed.

Lemma unvisited_mono g g' : Visited g g' -> (unvisited g' <= unvisited g)%nat.
Proof. intros HV. unfold unvisited. rewrite (Visited_universe g g' HV). by apply countUnvisited_mono. Qed.

Lemma unvisited_strict g g' f :
  Visited g g' -> f ∈ faceUniverse g -> degree (fget g f) = 0%nat ->
  (1 <= degree (fget g' f))%nat -> (unvisited g' + 1 <= unvisited g)%nat.
Proof.
  intros HV Hf. unfold unvisited. rewrite (Visited_universe g g' HV).
  by apply countUnvisited_strict.
Qed.

Section NearestNeighbor.
Context `{Sqrt}.

Lemma bestByNormal_spec g face l b :
  bestByNormal g face l = Some b -> b ∈ l /\ degree (fget g b) = 0%nat.
Proof.
  unfold bestByNormal.
  assert (Hgen : forall acc,
    (forall b, snd acc = Some b -> degree (fget g b) = 0%nat /\ (b ∈ l -> b ∈ l)) ->
    forall l' pre, l = pre ++ l' ->
    (forall b, snd acc = Some b -> b ∈ pre /\ degree (fget g b) = 0%nat) ->
    forall b, snd (fold_left
      (fun '(cost, bestNeighbor) neighbor =>
         if (degree (fget g neighbor) <? 1)%nat then
           let neighborCost := Vector3.dot (normal (fget g face)) (normal (fget g neighbor)) in
           if Qltb cost neighborCost then (neighborCost, Some neighbor)
           else (cost, bestNeighbor)
         else (cost, bestNeighbor)) l' acc) = Some b ->
    b ∈ l /\ degree (fget g b) = 0%nat).
  { intros acc _ l'. revert acc. induction l' as [|n l' IH]; intros [cost best] pre Hl Hacc b'.
    - cbn [fold_left snd]. intros Hb. destruct (Hacc b' Hb) as [Hin ?].
      split; [|done]. rewrite Hl. apply elem_of_app. by left.
    - cbn [fold_left]. apply (IH _ (pre ++ [n])); [by rewrite <- app_assoc|].
      intros b0. destruct (Nat.ltb_spec (degree (fget g n)) 1).
      + cbv zeta. destruct (Qltb _ _); cbn [snd].
        * intros [= <-]. split; [apply elem_of_app; right; by left|lia].
        * intros Hb. destruct (Hacc b0 Hb). split; [apply elem_of_app; by left|done].
      + cbn [snd]. intros Hb. destruct (Hacc b0 Hb). split; [apply elem_of_app; by left|done]. }
  apply (Hgen (0%Q, None)) with (pre := []); [done|done|done].
Qed.

Lemma bestByDirection_spec g face prevVector l b :
  bestByDirection g face prevVector l = Some b -> b ∈ l /\ degree (fget g b) = 0%nat.
Proof.
  unfold bestByDirection. cbv zeta.
  assert (Hgen : forall l' pre acc, l = pre ++ l' ->
    (forall b, acc = Some b -> b ∈ pre /\ degree (fget g b) = 0%nat) ->
    forall b, fold_left
      (fun bestNeighbor neighbor =>
         if (degree (fget g neighbor) <? 1)%nat then
           if Qltb
                (1 - Vector3.dot (Vector3.normalize prevVector)
                       (Vector3.normalize
                          (Vector3.subVectors (center (fget g neighbor)) (center (fget g face)))))
                1
           then Some neighbor else bestNeighbor
         else bestNeighbor) l' acc = Some b ->
    b ∈ l /\ degree (fget g b) = 0%nat).
  { induction l' as [|n l' IH]; intros pre acc Hl Hacc b'.
    - cbn [fold_left]. intros Hb. destruct (Hacc b' Hb) as [Hin ?].
      split; [|done]. rewrite Hl. apply elem_of_app. by left.
    - cbn [fold_left]. apply (IH (pre ++ [n])); [by rewrite <- app_assoc|].
      intros b0. destruct (Nat.ltb_spec (degree (fget g n)) 1).
      + destruct (Qltb _ _).
        * intros [= <-]. split; [apply elem_of_app; right; by left|lia].
        * intros Hb. destruct (Hacc b0 Hb). split; [apply elem_of_app; by left|done].
      + intros Hb. destruct (Hacc b0 Hb). split; [apply elem_of_app; by left|done]. }
  apply (Hgen l [] None); [done|done].
Qed.

(** [getNearestNeighbor] returns a neighbour of degree 0, whose degree
    it increments, or [null] and leaves the graph alone. *)
Lemma getNearestNeighbor_spec g p face :
  match getNearestNeighbor g p face with
  | (g', Some best) =>
      g' = incrDegree g best /\ best ∈ faceNeighbors g face /\ degree (fget g best) = 0%nat
  | (g', None) => g' = g
  end.
Proof.
  unfold getNearestNeighbor. destruct (faceNeighbors g face) as [|n l] eqn:E; [done|].
  rewrite <- E. clear E.
  destruct (previousVector p) as [pv|].
  - destruct (bestByDirection g face pv (faceNeighbors g face)) as [b|] eqn:Eb; [|done].
    split; [done|]. by eapply bestByDirection_spec.
  - destruct (bestByNormal g face (faceNeighbors g face)) as [b|] eqn:Eb; [|done].
    split; [done|]. by eapply bestByNormal_spec.
Qed.

Lemma getNearestNeighbor_Visited g p face :
  Visited g (fst (getNearestNeighbor g p face)).
Proof.
  pose proof (getNearestNeighbor_spec g p face) as Hs.
  destruct (getNearestNeighbor g p face) as [g' [b|]]; cbn [fst].
  - destruct Hs as (-> & _). apply incrDegree_Visited.
  - subst. apply Visited_refl.
Qed.

(** The inner loops of [nearestNeighborSearch] return when the fuel
    exceeds the number of faces of degree 0. *)
Lemma growPath_returns fuel : forall forward n cur,
  (cur <> None -> (unvisited (n_graph n) + 1 <= fuel)%nat) ->
  exists n', growPath fuel forward n cur = Some n' /\
    Visited (n_graph n) (n_graph n') /\
    (forall face, cur = Some face -> (1 <= degree (fget (n_graph n') face))%nat).
Proof.
  induction fuel as [|fuel IH]; intros forward n cur Hfuel.
  { destruct cur as [face|]; [specialize (Hfuel ltac:(done)); lia|].
    exists n. split; [done|]. split; [apply Visited_refl|]. done. }
  destruct cur as [face|]; cbn [growPath].
  2:{ exists n. split; [done|]. split; [apply Visited_refl|]. done. }
  specialize (Hfuel ltac:(done)).
  set (g1 := incrDegree (n_graph n) face).
  destruct (getNextPoint g1 (n_process n) face) as [p point].
  pose proof (getNearestNeighbor_spec g1 p face) as Hs.
  destruct (getNearestNeighbor g1 p face) as [g2 next].
  assert (HV1 : Visited (n_graph n) g1) by apply incrDegree_Visited.
  assert (Hd1 : (1 <= degree (fget g1 face))%nat).
  { unfold g1. rewrite incrDegree_degree, decide_True by done. lia. }
  assert (HV2 : Visited g1 g2).
  { destruct next; [destruct Hs as (-> & _); apply incrDegree_Visited|subst; apply Visited_refl]. }
  destruct (IH forward
              (mkNN g2 p (S (n_selectedCount n))
                 (if forward then n_path n ++ [point] else point :: n_path n)) next)
    as (n' & E & HV3 & _).
  { intros Hnext. cbn [n_graph]. pose proof (unvisited_mono _ _ HV1).
    destruct next as [best|]; [|done]. destruct Hs as (-> & Hin & Hdeg).
    pose proof (unvisited_strict g1 (incrDegree g1 best) best
      (incrDegree_Visited _ _) (faceNeighbors_universe _ _ _ Hin) Hdeg) as Hst.
    rewrite incrDegree_degree, decide_True in Hst by done. lia. }
  exists n'. split; [done|]. cbn [n_graph] in HV3.
  split; [eauto using Visited_trans|].
  intros face' [= <-]. destruct HV3 as (_ & _ & H3), HV2 as (_ & _ & H2).
  destruct (H3 face) as [? _], (H2 face) as [? _]. lia.
Qed.

End NearestNeighbor.

Lemma getStartFace_spec g :
  match getStartFace g with
  | Some face => face ∈ arrFaces g /\ degree (fget g face) = 0%nat
  | None => forall f, f ∈ arrFaces g -> (1 <= degree (fget g f))%nat
  end.
Proof.
  unfold getStartFace.
  destruct (find _ _) as [face|] eqn:E.
  - apply find_some in E as [Hin Hdeg]. split; [by apply list_elem_of_In|].
    by apply Nat.eqb_eq in Hdeg.
  - intros f Hf%list_elem_of_In. pose proof (find_none _ _ E f Hf) as Hn.
    apply Nat.eqb_neq in Hn. lia.
Qed.

Section NearestNeighborSearch.
Context `{Sqrt}.

Lemma nnLoop_returns fuel : forall facesCount g p sc paths cur,
  (forall face, cur = Some face ->
     face ∈ arrFaces g /\ (unvisited g + startCost g face <= fuel)%nat) ->
  (forall path, path ∈ paths -> (2 <= length path)%nat) ->
  exists g' p' paths',
    nnLoop fuel facesCount g p sc paths cur = Some (g', p', paths') /\
    Visited g g' /\ forall path, path ∈ paths' -> (2 <= length path)%nat.
Proof.
  induction fuel as [|fuel IH]; intros facesCount g p sc paths cur Hcur Hpaths.
  { destruct cur as [face|]; cbn [nnLoop].
    - destruct (Hcur face eq_refl) as [_ Hle]. unfold startCost in Hle.
      destruct (_ =? _)%nat; lia.
    - exists g, p, paths. split; [done|]. split; [apply Visited_refl|done]. }
  destruct cur as [start|]; cbn [nnLoop].
  2:{ exists g, p, paths. split; [done|]. split; [apply Visited_refl|done]. }
  destruct (sc <? facesCount)%nat.
  2:{ exists g, p, paths. split; [done|]. split; [apply Visited_refl|done]. }
  destruct (Hcur start eq_refl) as [Hstart Hle].
  assert (Hle1 : (unvisited g + 1 <= S fuel)%nat).
  { unfold startCost in Hle. destruct (_ =? _)%nat; lia. }
  destruct (growPath_returns (S fuel) true (mkNN g (resetPreviousPoint p) sc []) (Some start))
    as (n1 & E1 & HV1 & Hd1); [done|].
  rewrite E1. cbn [mbind option_bind]. cbn [n_graph] in HV1.
  specialize (Hd1 start eq_refl).
  set (p2 := fst (getNextPoint (n_graph n1) (resetPreviousPoint (n_process n1)) start)).
  pose proof (getNearestNeighbor_Visited (n_graph n1) p2 start) as HV2.
  destruct (getNearestNeighbor (n_graph n1) p2 start) as [g2 next]. cbn [fst] in HV2.
  destruct (growPath_returns (S fuel) false (mkNN g2 p2 (n_selectedCount n1) (n_path n1)) next)
    as (n2 & E2 & HV3 & _).
  { intros _. cbn [n_graph]. pose proof (unvisited_mono _ _ HV1).
    pose proof (unvisited_mono _ _ HV2). lia. }
  rewrite E2. cbn [mbind option_bind]. cbn [n_graph] in HV3.
  assert (HV : Visited g (n_graph n2)) by eauto using Visited_trans.
  assert (Hd2 : (1 <= degree (fget (n_graph n2) start))%nat).
  { destruct (Visited_trans _ _ _ HV2 HV3) as (_ & _ & H3). destruct (H3 start). lia. }
  destruct (IH facesCount (n_graph n2) (n_process n2) (n_selectedCount n2)
              (if (1 <? length (n_path n2))%nat then paths ++ [n_path n2] else paths)
              (getStartFace (n_graph n2)))
    as (g' & p' & paths' & E3 & HV4 & Hp').
  - intros face Hface. pose proof (getStartFace_spec (n_graph n2)) as Hs.
    rewrite Hface in Hs. destruct Hs as [Hin Hdeg]. split; [done|].
    unfold startCost. rewrite Hdeg. cbn [Nat.eqb].
    unfold startCost in Hle. destruct (Nat.eqb_spec (degree (fget g start)) 0) as [Hz|Hz].
    + assert (Hu : start ∈ faceUniverse g) by (apply elem_of_app; by left).
      pose proof (unvisited_strict g (n_graph n2) start HV Hu Hz Hd2). lia.
    + pose proof (unvisited_mono _ _ HV). lia.
  - intros path. destruct (Nat.ltb_spec 1 (length (n_path n2))); [|by apply Hpaths].
    rewrite elem_of_app, list_elem_of_singleton. intros [?| ->]; [by apply Hpaths|lia].
  - exists g', p', paths'. split; [done|]. split; [eauto using Visited_trans|done].
Qed.

Lemma closedFaces_Visited g g' : Visited g g' -> closedFaces g -> closedFaces g'.
Proof.
  intros HV Hc f n. rewrite (Visited_faceNeighbors g g' f HV).
  destruct HV as (_ & -> & _). apply Hc.
Qed.

Lemma counted_next F g p sc face :
  arrFaces g = F -> closedFaces g -> face ∈ F ->
  (sc + countUnvisited g F <= length F)%nat ->
  counted F (fst (getNearestNeighbor g p face)) sc (snd (getNearestNeighbor g p face)).
Proof.
  intros HF Hc Hface Hsc. pose proof (getNearestNeighbor_spec g p face) as Hs.
  destruct (getNearestNeighbor g p face) as [g2 [best|]]; cbn [fst snd counted].
  - destruct Hs as (-> & Hin & Hdeg).
    assert (HbF : best ∈ F) by (rewrite <- HF; apply (Hc face); [by rewrite HF|done]).
    split; [done|].
    pose proof (countUnvisited_strict g (incrDegree g best) F best
                  (incrDegree_Visited _ _) HbF Hdeg) as Hst.
    rewrite incrDegree_degree, decide_True in Hst by done.
    pose proof (countUnvisited_mono (incrDegree g best) (incrDegree (incrDegree g best) best) F
                  (incrDegree_Visited _ _)).
    lia.
  - by subst.
Qed.

Lemma growPath_Visited fuel : forall forward n cur n',
  growPath fuel forward n cur = Some n' -> Visited (n_graph n) (n_graph n').
Proof.
  induction fuel as [|fuel IH]; intros forward n cur n'.
  { destruct cur; cbn [growPath]; [done|]. intros [= <-]. apply Visited_refl. }
  destruct cur as [face|]; cbn [growPath]; [|intros [= <-]; apply Visited_refl].
  destruct (getNextPoint _ _ _) as [p point].
  pose proof (getNearestNeighbor_Visited (incrDegree (n_graph n) face) p face) as HV2.
  destruct (getNearestNeighbor _ p face) as [g2 next]. cbn [fst] in HV2.
  intros E. apply IH in E. cbn [n_graph] in E.
  eapply Visited_trans; [apply incrDegree_Visited|]. eapply Visited_trans; eauto.
Qed.

Lemma growPath_counted fuel F : forall forward n cur n',
  arrFaces (n_graph n) = F -> closedFaces (n_graph n) ->
  counted F (n_graph n) (n_selectedCount n) cur ->
  growPath fuel forward n cur = Some n' ->
  (n_selectedCount n' + countUnvisited (n_graph n') F <= length F)%nat.
Proof.
  induction fuel as [|fuel IH]; intros forward n cur n' HF Hc Hcnt.
  { destruct cur; cbn [growPath]; [done|]. intros [= <-]. exact Hcnt. }
  destruct cur as [face|]; cbn [growPath]; [|intros [= <-]; exact Hcnt].
  destruct Hcnt as [Hface Hcnt].
  set (g1 := incrDegree (n_graph n) face) in *.
  destruct (getNextPoint g1 (n_process n) face) as [p point].
  assert (Hc1 : closedFaces g1) by (eapply closedFaces_Visited; [apply incrDegree_Visited|done]).
  pose proof (counted_next F g1 p (S (n_selectedCount n)) face HF Hc1 Hface) as Hn.
  pose proof (getNearestNeighbor_Visited g1 p face) as HV2.
  destruct (getNearestNeighbor g1 p face) as [g2 next]. cbn [fst snd] in Hn, HV2.
  intros E.
  assert (HF2 : arrFaces g2 = F) by (destruct HV2 as (_ & -> & _); exact HF).
  apply IH in E; [exact E|exact HF2| |apply Hn; lia].
  cbn [n_graph]. eapply closedFaces_Visited; eauto.
Qed.

Lemma nnLoop_covers fuel : forall g p sc paths cur g' p' paths',
  closedFaces g ->
  counted (arrFaces g) g sc cur ->
  (cur = None -> forall f, f ∈ arrFaces g -> (1 <= degree (fget g f))%nat) ->
  nnLoop fuel (length (arrFaces g)) g p sc paths cur = Some (g', p', paths') ->
  forall f, f ∈ arrFaces g -> (1 <= degree (fget g' f))%nat.
Proof.
  induction fuel as [|fuel IH]; intros g p sc paths cur g' p' paths' Hc Hcnt Hnone.
  { destruct cur as [face|]; cbn [nnLoop].
    - destruct Hcnt as [_ Hcnt]. destruct (Nat.ltb_spec sc (length (arrFaces g))); [done|lia].
    - intros [= <- _ _]. by apply Hnone. }
  destruct cur as [start|]; cbn [nnLoop]; [|intros [= <- _ _]; by apply Hnone].
  pose proof Hcnt as [Hstart Hcnt'].
  destruct (Nat.ltb_spec sc (length (arrFaces g))); [|lia].
  destruct (growPath (S fuel) true (mkNN g (resetPreviousPoint p) sc []) (Some start))
    as [n1|] eqn:E1; [|done].
  cbn [mbind option_bind].
  pose proof (growPath_counted (S fuel) (arrFaces g) true
                (mkNN g (resetPreviousPoint p) sc []) (Some start) n1 eq_refl Hc Hcnt E1) as Hc1.
  pose proof (growPath_Visited _ _ _ _ _ E1) as HV1. cbn [n_graph] in HV1.
  assert (HF1 : arrFaces (n_graph n1) = arrFaces g) by (by destruct HV1 as (_ & -> & _)).
  assert (Hcl1 : closedFaces (n_graph n1)) by (by eapply closedFaces_Visited).
  set (p2 := fst (getNextPoint (n_graph n1) (resetPreviousPoint (n_process n1)) start)).
  pose proof (counted_next (arrFaces g) (n_graph n1) p2 (n_selectedCount n1) start
                HF1 Hcl1 Hstart Hc1) as Hn.
  pose proof (getNearestNeighbor_Visited (n_graph n1) p2 start) as HV2.
  destruct (getNearestNeighbor (n_graph n1) p2 start) as [g2 next]. cbn [fst snd] in Hn, HV2.
  assert (HF2 : arrFaces g2 = arrFaces g) by (destruct HV2 as (_ & -> & _); exact HF1).
  assert (Hcl2 : closedFaces g2) by (by eapply closedFaces_Visited).
  destruct (growPath (S fuel) false (mkNN g2 p2 (n_selectedCount n1) (n_path n1)) next)
    as [n2|] eqn:E2; [|done].
  cbn [mbind option_bind].
  pose proof (growPath_counted (S fuel) (arrFaces g) false
                (mkNN g2 p2 (n_selectedCount n1) (n_path n1)) next n2 HF2 Hcl2 Hn E2) as Hc2.
  pose proof (growPath_Visited _ _ _ _ _ E2) as HV3. cbn [n_graph] in HV3.
  assert (HF3 : arrFaces (n_graph n2) = arrFaces g) by (destruct HV3 as (_ & -> & _); exact HF2).
  assert (Hcl3 : closedFaces (n_graph n2)) by (by eapply closedFaces_Visited).
  intros E3 f Hf. rewrite <- HF3 in E3, Hf.
  refine (IH _ _ _ _ _ _ _ _ Hcl3 _ _ E3 f Hf).
  - rewrite HF3. pose proof (getStartFace_spec (n_graph n2)) as Hs.
    destruct (getStartFace (n_graph n2)) as [face|]; cbn [counted]; [|done].
    destruct Hs as [Hin Hdeg]. rewrite HF3 in Hin. split; [done|].
    pose proof (countUnvisited_strict (n_graph n2) (incrDegree (n_graph n2) face) (arrFaces g) face
                  (incrDegree_Visited _ _) Hin Hdeg) as Hst.
    rewrite incrDegree_degree, decide_True in Hst by done. lia.
  - intros Hs. pose proof (getStartFace_spec (n_graph n2)) as Hs'. by rewrite Hs in Hs'.
Qed.

Lemma walk_paths g l : forall w,
  (forall path, path ∈ w_paths w -> (2 <= length path)%nat) ->
  forall path, path ∈ w_paths (fold_left (walkStep g) l w) -> (2 <= length path)%nat.
Proof.
  induction l as [|face l IH]; intros w Hw; [done|]. cbn [fold_left]. apply IH.
  unfold walkStep. destruct (w_prevFace w) as [prevFace|].
  - destruct (existsb _ _).
    + by destruct (getNextPoint g (w_process w) face).
    + destruct (getNextPoint g (resetPreviousPoint (w_process w)) face). cbn [w_paths].
      intros path. destruct (Nat.ltb_spec 1 (length (w_path w))); [|by apply Hw].
      rewrite elem_of_app, list_elem_of_singleton. intros [?| ->]; [by apply Hw|lia].
  - by destruct (getNextPoint g (w_process w) face).
Qed.

(** Every path [sequentialWalk] returns has at least two points:
    a run of a single point is dropped, for every graph. *)
Lemma sequentialWalk_paths g p path :
  path ∈ snd (sequentialWalk g p) -> (2 <= length path)%nat.
Proof.
  unfold sequentialWalk. cbn [snd].
  set (w := fold_left _ _ _).
  assert (Hw : forall path, path ∈ w_paths w -> (2 <= length path)%nat).
  { apply walk_paths. by intros q ?%elem_of_nil. }
  destruct (Nat.ltb_spec 1 (length (w_path w))); [|by apply Hw].
  rewrite elem_of_app, list_elem_of_singleton. intros [?| ->]; [by apply Hw|lia].
Qed.

(** [nearestNeighborSearch] returns on every graph, whatever the
    degrees it starts from: with enough fuel the loops end, only the
    degrees of faces have changed and none has decreased, and every
    path returned has at least two points. *)
Lemma nearestNeighborSearch_total g p :
  exists fuel0, forall fuel, (fuel0 <= fuel)%nat ->
    exists g' p' paths,
      nearestNeighborSearch fuel g p = Some (g', p', paths) /\
      Visited g g' /\
      forall path, path ∈ paths -> (2 <= length path)%nat.
Proof.
  exists (unvisited g + 2)%nat. intros fuel Hfuel. unfold nearestNeighborSearch.
  destruct (length (arrFaces g) <? 2)%nat.
  { exists g, p, []. split; [done|]. split; [apply Visited_refl|]. by intros path ?%elem_of_nil. }
  destruct (nnLoop_returns fuel (length (arrFaces g)) g p 0 [] (arrFaces g !! 0%nat))
    as (g' & p' & paths & E & HV & Hp).
  - intros face Hface. split; [by eapply list_elem_of_lookup_2|].
    unfold startCost. destruct (_ =? _)%nat; lia.
  - by intros path ?%elem_of_nil.
  - by exists g', p', paths.
Qed.

Lemma nearestNeighborSearch_covers g p :
  Forall (fun f => degree (fget g f) = 0%nat) (arrFaces g) ->
  Forall (fun f => Forall (fun n => n ∈ arrFaces g) (faceNeighbors g f)) (arrFaces g) ->
  (2 <= facesCount g)%nat ->
  exists fuel0, forall fuel, (fuel0 <= fuel)%nat ->
    exists g' p' paths,
      nearestNeighborSearch fuel g p = Some (g', p', paths) /\
      arrFaces g' = arrFaces g /\
      forall f, f ∈ arrFaces g' -> (1 <= degree (fget g' f))%nat.
Proof.
  intros Hzero Hclosed Htwo. rewrite Forall_forall in Hzero.
  assert (Hc : closedFaces g).
  { intros f n Hf Hn. rewrite Forall_forall in Hclosed. specialize (Hclosed f Hf).
    rewrite Forall_forall in Hclosed. by apply Hclosed. }
  exists (unvisited g + 2)%nat. intros fuel Hfuel.
  unfold nearestNeighborSearch. unfold facesCount in Htwo.
  destruct (Nat.ltb_spec (length (arrFaces g)) 2); [lia|].
  destruct (nnLoop_returns fuel (length (arrFaces g)) g p 0 [] (arrFaces g !! 0%nat))
    as (g' & p' & paths & E & HV & _).
  - intros face Hface. split; [by eapply list_elem_of_lookup_2|].
    unfold startCost. destruct (_ =? _)%nat; lia.
  - by intros path ?%elem_of_nil.
  - exists g', p', paths. split; [done|].
    assert (HF : arrFaces g' = arrFaces g) by (by destruct HV as (_ & -> & _)).
    split; [done|]. rewrite HF. eapply (nnLoop_covers fuel); [exact Hc| | |exact E].
    + destruct (arrFaces g !! 0%nat) as [f0|] eqn:E0; cbn [counted].
      * assert (Hf0 : f0 ∈ arrFaces g) by by eapply list_elem_of_lookup_2.
        split; [done|].
        pose proof (countUnvisited_strict g (incrDegree g f0) (arrFaces g) f0
                      (incrDegree_Visited _ _) Hf0 (Hzero f0 Hf0)) as Hst.
        rewrite incrDegree_degree, decide_True in Hst by done.
        pose proof (countUnvisited_le g (arrFaces g)). lia.
      * apply countUnvisited_le.
    + intros Hnone. apply lookup_ge_None in Hnone. lia.
Qed.

End NearestNeighborSearch.

(** *** Wrapping path search *)

Lemma countUnvisited_pos g l f :
  f ∈ l -> degree (fget g f) = 0%nat -> (1 <= countUnvisited g l)%nat.
Proof.
  intros Hf Hd. induction l as [|x l IH]; [by apply elem_of_nil in Hf|].
  cbn [countUnvisited]. apply elem_of_cons in Hf as [<-|Hf]; [rewrite Hd; simpl; lia|].
  specialize (IH Hf). lia.
Qed.

Lemma differenceArray_self (l : list fid) : differenceArray l l = [].
Proof.
  unfold differenceArray. induction l as [|x l IH]; [done|]. cbn [fold_left].
  replace (removeFirst (x :: l) x) with l; [done|].
  unfold removeFirst. cbn [indexOf]. by rewrite decide_True.
Qed.

Lemma nearestScan_spec g valid facePoint l : forall i best d n k,
  nearestScan g valid facePoint l i best = Some (d, n, k) ->
  best = Some (d, n, k) \/
  ((i <= k)%nat /\ l !! (k - i)%nat = Some n).
Proof.
  induction l as [|x l IH]; intros i best d n k; cbn [nearestScan]; [by left|].
  intros E. apply IH in E as [E|[Hk Hl]].
  - destruct (indexOf valid x); [|by left].
    destruct best as [[[db nb] kb]|].
    + destruct (Qltb _ _); [|by left]. injection E as <- <- <-. right.
      split; [lia|]. by rewrite Nat.sub_diag.
    + injection E as <- <- <-. right. split; [lia|]. by rewrite Nat.sub_diag.
  - right. split; [lia|]. replace (k - i)%nat with (S (k - S i)) by lia. done.
Qed.

Lemma removeNearestNeighbor_spec g cur face :
  match removeNearestNeighbor g cur face with
  | (cur', Some tmp) => tmp ∈ cur /\ (S (length cur') = length cur)%nat
  | (cur', None) => cur' = cur
  end.
Proof.
  unfold removeNearestNeighbor.
  destruct (nearestScan _ _ _ _ _ _) as [[[d n] k]|] eqn:E; [|done].
  apply nearestScan_spec in E as [?|[_ Hl]]; [done|]. rewrite Nat.sub_0_r in Hl.
  split; [by eapply list_elem_of_lookup_2|].
  unfold splice1. rewrite length_delete by eauto. apply lookup_lt_Some in Hl. lia.
Qed.

Section Wrapping.
Context `{Sqrt}.

Lemma wrapInner_nil fuel w : wrapInner fuel w [] = Some w.
Proof. by destruct fuel. Qed.

Lemma wrapInner_returns fuel : forall w cur,
  (length cur <= fuel)%nat ->
  exists w', wrapInner fuel w cur = Some w' /\ Visited (wr_graph w) (wr_graph w').
Proof.
  induction fuel as [|fuel IH]; intros w cur Hlen.
  { destruct cur; [|simpl in Hlen; lia]. exists w. split; [done|apply Visited_refl]. }
  destruct cur as [|x cur0]; [exists w; split; [done|apply Visited_refl]|].
  cbn [wrapInner].
  pose proof (removeNearestNeighbor_spec (wr_graph w) (x :: cur0) (wr_currentFace w)) as Hs.
  destruct (removeNearestNeighbor _ _ _) as [cur' [tmp|]].
  - destruct Hs as [_ Hl].
    destruct (IH (mkWrap (incrDegree (wr_graph w) tmp) (wr_path w ++ [tmp]) tmp
                    (wr_activeNeighbors w)) cur') as (w' & E & HV);
      [cbn [length] in Hlen, Hl; lia|].
    exists w'. split; [done|]. cbn [wr_graph] in HV.
    eapply Visited_trans; [apply incrDegree_Visited|done].
  - rewrite wrapInner_nil. eexists. split; [done|]. apply Visited_refl.
Qed.

(** A turn of the outer loop either empties [activeNeighbors] or
    visits a face of degree 0. *)
Lemma wrapInner_progress fuel w cur w' :
  wrapInner fuel w cur = Some w' -> (length cur <= fuel)%nat ->
  wr_activeNeighbors w = cur ->
  (forall f, f ∈ cur ->
     f ∈ faceUniverse (wr_graph w) /\ degree (fget (wr_graph w) f) = 0%nat) ->
  wr_activeNeighbors w' = [] \/
  (unvisited (wr_graph w') + 1 <= unvisited (wr_graph w))%nat.
Proof.
  intros E Hlen Hact Hcur.
  destruct cur as [|x cur0]. { rewrite wrapInner_nil in E. injection E as <-. by left. }
  destruct fuel as [|fuel]; [done|]. cbn [wrapInner] in E.
  pose proof (removeNearestNeighbor_spec (wr_graph w) (x :: cur0) (wr_currentFace w)) as Hs.
  destruct (removeNearestNeighbor _ _ _) as [cur' [tmp|]].
  - right. destruct Hs as [Hin Hl]. destruct (Hcur tmp Hin) as [Hu Hd].
    destruct (wrapInner_returns fuel
                (mkWrap (incrDegree (wr_graph w) tmp) (wr_path w ++ [tmp]) tmp
                   (wr_activeNeighbors w)) cur') as (w2 & E2 & HV); [cbn [length] in Hlen, Hl; lia|].
    rewrite E in E2. injection E2 as <-. cbn [wr_graph] in HV.
    pose proof (unvisited_mono _ _ HV).
    pose proof (unvisited_strict (wr_graph w) (incrDegree (wr_graph w) tmp) tmp
                  (incrDegree_Visited _ _) Hu Hd) as Hst.
    rewrite incrDegree_degree, decide_True in Hst by done. lia.
  - left. subst cur'. rewrite wrapInner_nil in E. injection E as <-.
    cbn [wr_activeNeighbors]. rewrite Hact. exact (differenceArray_self (x :: cur0)).
Qed.

Lemma getUnconnectedNeighbors_spec g active x :
  x ∈ getUnconnectedNeighbors g active ->
  x ∈ faceUniverse g /\ degree (fget g x) = 0%nat.
Proof.
  unfold getUnconnectedNeighbors.
  assert (Hgen : forall l acc,
    (forall y, y ∈ acc -> y ∈ faceUniverse g /\ degree (fget g y) = 0%nat) ->
    forall y, y ∈ fold_left
      (fun neighbors face =>
         setAddAll neighbors
           (List.filter (fun candidate => (degree (fget g candidate) =? 0)%nat)
              (faceNeighbors g face))) l acc ->
    y ∈ faceUniverse g /\ degree (fget g y) = 0%nat).
  { induction l as [|face l IH]; intros acc Hacc y; cbn [fold_left]; [apply Hacc|].
    apply IH. intros z. rewrite elem_of_setAddAll, elem_of_List_filter.
    intros [Hz|[Hz Hd]]; [by apply Hacc|].
    split; [by eapply faceNeighbors_universe|by apply Nat.eqb_eq]. }
  apply Hgen. by intros y ?%elem_of_nil.
Qed.

Lemma wrapOuter_returns fuel : forall w,
  (wr_activeNeighbors w <> [] -> (unvisited (wr_graph w) + 1 <= fuel)%nat) ->
  exists w', wrapOuter fuel w = Some w' /\ Visited (wr_graph w) (wr_graph w').
Proof.
  induction fuel as [|fuel IH]; intros w Hfuel.
  { destruct (wr_activeNeighbors w) eqn:Ea.
    - exists w. cbn [wrapOuter]. rewrite Ea. split; [done|apply Visited_refl].
    - specialize (Hfuel ltac:(done)). lia. }
  cbn [wrapOuter]. destruct (wr_activeNeighbors w) as [|a active] eqn:Ea.
  { exists w. split; [done|apply Visited_refl]. }
  specialize (Hfuel ltac:(done)).
  set (cur := getUnconnectedNeighbors (wr_graph w) (a :: active)).
  destruct (wrapInner_returns (S (length cur))
              (mkWrap (wr_graph w) (wr_path w) (wr_currentFace w) cur) cur)
    as (w1 & E1 & HV1); [lia|].
  rewrite E1. cbn [mbind option_bind]. cbn [wr_graph] in HV1.
  destruct (wrapInner_progress _ _ _ _ E1) as [Hnil|Hlt]; [lia|done| |..].
  { intros f Hf. by apply (getUnconnectedNeighbors_spec _ (a :: active)). }
  - destruct (IH w1) as (w2 & E2 & HV2); [by rewrite Hnil|].
    exists w2. split; [done|]. eauto using Visited_trans.
  - cbn [wr_graph] in Hlt. destruct (IH w1) as (w2 & E2 & HV2); [intros _; lia|].
    exists w2. split; [done|]. eauto using Visited_trans.
Qed.

Lemma findPathFromFace_returns fuel g start :
  (unvisited (incrDegree g start) + 1 <= fuel)%nat ->
  exists g' path, findPathFromFace fuel g start = Some (g', path) /\
    Visited g g' /\ (1 <= degree (fget g' start))%nat.
Proof.
  intros Hfuel. unfold findPathFromFace.
  destruct (wrapOuter_returns fuel
              (mkWrap (incrDegree g start) [start] start [start])) as (w & E & HV); [done|].
  rewrite E. cbn [mbind option_bind]. exists (wr_graph w), (wr_path w). split; [done|].
  cbn [wr_graph] in HV. split; [eapply Visited_trans; [apply incrDegree_Visited|done]|].
  destruct HV as (_ & _ & H3). destruct (H3 start) as [Hle _].
  rewrite incrDegree_degree, decide_True in Hle by done. lia.
Qed.

Lemma getNextFaceFrom_spec g l : forall i,
  match getNextFaceFrom g i l with
  | Some (k, face) =>
      (i <= k)%nat /\ l !! (k - i)%nat = Some face /\ degree (fget g face) = 0%nat /\
      forall j f, (j < k - i)%nat -> l !! j = Some f -> (1 <= degree (fget g f))%nat
  | None => forall f, f ∈ l -> (1 <= degree (fget g f))%nat
  end.
Proof.
  induction l as [|x l IH]; intros i; cbn [getNextFaceFrom]; [by intros f ?%elem_of_nil|].
  destruct (Nat.eqb_spec (degree (fget g x)) 0) as [Hz|Hz].
  - rewrite Nat.sub_diag. split; [lia|]. split; [done|]. split; [done|]. intros; lia.
  - specialize (IH (S i)). destruct (getNextFaceFrom g (S i) l) as [[k face]|].
    + destruct IH as (Hk & Hl & Hd & Hbefore). split; [lia|].
      replace (k - i)%nat with (S (k - S i)) by lia. split; [done|]. split; [done|].
      intros [|j] f Hj; cbn; [intros [= <-]; lia|]. apply Hbefore. lia.
    + intros f [->|Hf]%elem_of_cons; [lia|by apply IH].
Qed.

Lemma getNextFace_spec g start :
  match getNextFace g start with
  | Some (k, face) =>
      (start <= k)%nat /\ arrFaces g !! k = Some face /\ degree (fget g face) = 0%nat /\
      forall j f, (start <= j < k)%nat -> arrFaces g !! j = Some f ->
                  (1 <= degree (fget g f))%nat
  | None => forall j f, (start <= j)%nat -> arrFaces g !! j = Some f ->
                        (1 <= degree (fget g f))%nat
  end.
Proof.
  unfold getNextFace. pose proof (getNextFaceFrom_spec g (drop start (arrFaces g)) start) as Hs.
  destruct (getNextFaceFrom _ _ _) as [[k face]|].
  - destruct Hs as (Hk & Hl & Hd & Hbefore). rewrite lookup_drop in Hl.
    replace (start + (k - start))%nat with k in Hl by lia.
    split; [done|]. split; [done|]. split; [done|]. intros j f Hj Hf.
    apply (Hbefore (j - start)%nat); [lia|]. rewrite lookup_drop.
    by replace (start + (j - start))%nat with j by lia.
  - intros j f Hj Hf. apply Hs. apply list_elem_of_lookup. exists (j - start)%nat.
    rewrite lookup_drop. by replace (start + (j - start))%nat with j by lia.
Qed.

Lemma wrappingLoop_returns fuel : forall g p start pointPaths,
  (unvisited g <= fuel)%nat ->
  (forall j f, (j < start)%nat -> arrFaces g !! j = Some f -> (1 <= degree (fget g f))%nat) ->
  exists g' p' pointPaths',
    wrappingLoop fuel g p start pointPaths = Some (g', p', pointPaths') /\
    Visited g g' /\ forall f, f ∈ arrFaces g -> (1 <= degree (fget g' f))%nat.
Proof.
  induction fuel as [|fuel IH]; intros g p start pointPaths Hfuel Hdone.
  - cbn [wrappingLoop]. pose proof (getNextFace_spec g start) as Hs.
    destruct (getNextFace g start) as [[k face]|].
    + destruct Hs as (_ & Hl & Hd & _).
      assert (Hu : face ∈ faceUniverse g).
      { apply elem_of_app. left. by eapply list_elem_of_lookup_2. }
      pose proof (countUnvisited_pos g _ face Hu Hd). unfold unvisited in Hfuel. lia.
    + exists g, p, pointPaths. split; [done|]. split; [apply Visited_refl|].
      intros f [j Hj]%list_elem_of_lookup.
      destruct (Nat.lt_ge_cases j start); [by eapply Hdone|by eapply Hs].
  - cbn [wrappingLoop]. pose proof (getNextFace_spec g start) as Hs.
    destruct (getNextFace g start) as [[k face]|].
    2:{ exists g, p, pointPaths. split; [done|]. split; [apply Visited_refl|].
        intros f [j Hj]%list_elem_of_lookup.
        destruct (Nat.lt_ge_cases j start); [by eapply Hdone|by eapply Hs]. }
    destruct Hs as (Hk & Hl & Hd & Hbefore).
    assert (Hu : face ∈ faceUniverse g).
    { apply elem_of_app. left. by eapply list_elem_of_lookup_2. }
    pose proof (unvisited_strict g (incrDegree g face) face (incrDegree_Visited _ _) Hu Hd)
      as Hst.
    rewrite incrDegree_degree, decide_True in Hst by done. specialize (Hst ltac:(lia)).
    destruct (findPathFromFace_returns (S fuel) g face) as (g1 & path & E1 & HV1 & Hd1); [lia|].
    rewrite E1. cbn [mbind option_bind].
    destruct (pointsOf g1 (resetPreviousPoint p) path) as [p1 pointPath].
    assert (Hz1 : (unvisited g1 + 1 <= unvisited g)%nat).
    { apply (unvisited_strict g g1 face HV1 Hu Hd Hd1). }
    destruct (IH g1 p1 (S k) (pointPaths ++ [pointPath])) as (g' & p' & pp' & E2 & HV2 & Hall).
    + lia.
    + intros j f Hj. destruct HV1 as (_ & HF1 & H3). rewrite HF1. intros Hf.
      destruct (H3 f) as [Hle _].
      destruct (decide (j = k)) as [->|Hjk].
      * rewrite Hl in Hf. injection Hf as <-. done.
      * assert (1 <= degree (fget g f))%nat; [|lia].
        destruct (Nat.lt_ge_cases j start); [by eapply Hdone|].
        apply (Hbefore j f); [lia|done].
    + exists g', p', pp'. split; [done|]. split; [eauto using Visited_trans|].
      intros f Hf. apply Hall. by destruct HV1 as (_ & -> & _).
Qed.

(** [WrappingPathSearch] returns on every graph: with enough
    fuel the loops end, only degrees have changed and none has
    decreased, and no face of the array is left with degree 0. *)
Lemma WrappingPathSearch_total g p :
  exists fuel0, forall fuel, (fuel0 <= fuel)%nat ->
    exists g' p' paths,
      WrappingPathSearch fuel g p = Some (g', p', paths) /\
      Visited g g' /\
      forall f, f ∈ arrFaces g -> (1 <= degree (fget g' f))%nat.
Proof.
  exists (unvisited g). intros fuel Hfuel. unfold WrappingPathSearch.
  destruct (wrappingLoop_returns fuel g p 0 []) as (g' & p' & pp & E & HV & Hall);
    [done|intros; lia|].
  by exists g', p', pp.
Qed.

End Wrapping.

(** ** What [collapse] leaves alone *)

Lemma Untouched_refl s : Untouched s s.
Proof. by split. Qed.

Lemma Untouched_trans s1 s2 s3 : Untouched s1 s2 -> Untouched s2 s3 -> Untouched s1 s3.
Proof.
  intros [H1 H2] [K1 K2]. split.
  - intros y. by rewrite K1.
  - intros g. destruct (H2 g) as [<- <-]. apply K2.
Qed.

Lemma Untouched_keys s s' :
  sameKeys s s' -> (forall g, fget s' g = fget s g) -> Untouched s s'.
Proof.
  intros Hk Hf. split; [intros y; by destruct (Hk y) as (_ & _ & _ & ->)|].
  intros g. by rewrite Hf.
Qed.

Lemma purgeNeighbors_position fuel : forall s u y,
  position (vget (purgeNeighbors fuel s u) y) = position (vget s y).
Proof.
  induction fuel as [|fuel IH]; intros s u y; [done|]. cbn [purgeNeighbors].
  destruct (last (neighbors (vget s u))) as [n|]; [|done]. rewrite IH.
  rewrite !vget_vset. repeat case_decide; subst; try done.
  all: rewrite ?vget_vset; repeat case_decide; by subst.
Qed.

Lemma purgeNeighbors_fget fuel : forall s u g, fget (purgeNeighbors fuel s u) g = fget s g.
Proof.
  induction fuel as [|fuel IH]; intros s u g; [done|]. cbn [purgeNeighbors].
  destruct (last (neighbors (vget s u))) as [n|]; [|done]. by rewrite IH.
Qed.

Lemma reindexFrom_position l : forall s i y,
  position (vget (reindexFrom s i l) y) = position (vget s y).
Proof.
  induction l as [|x l IH]; intros s i y; [done|]. cbn [reindexFrom]. rewrite IH.
  rewrite vget_vset. by case_decide; subst.
Qed.

Lemma reindexFrom_fget l : forall s i g, fget (reindexFrom s i l) g = fget s g.
Proof. induction l as [|x l IH]; intros s i g; [done|]. cbn [reindexFrom]. by rewrite IH. Qed.

Lemma removeVertex_Untouched s u : Untouched s (removeVertex s u).
Proof.
  unfold removeVertex. cbv zeta. split.
  - intros y. change (vget (set_arrVerticesByCost ?a ?l) ?z) with (vget a z).
    rewrite reindexFrom_position. change (vget (set_arrVertices ?a ?l) ?z) with (vget a z).
    apply purgeNeighbors_position.
  - intros g. change (fget (set_arrVerticesByCost ?a ?l) ?z) with (fget a z).
    rewrite reindexFrom_fget. change (fget (set_arrVertices ?a ?l) ?z) with (fget a z).
    by rewrite purgeNeighbors_fget.
Qed.

Section Untouched.
Context `{Sqrt}.

Lemma removeFace_Untouched s f : Untouched s (removeFace s f).
Proof.
  apply Untouched_keys; [apply removeFace_keys|]. intros g.
  rewrite removeFace_unfold. cbv zeta. by rewrite !removeNonNeighbors_fget.
Qed.

Lemma deleteEdgeFaces_Untouched u v i : forall s, Untouched s (deleteEdgeFaces s u v i).
Proof.
  induction i as [|i IH]; intros s; [apply Untouched_refl|]. cbn [deleteEdgeFaces].
  eapply Untouched_trans; [|apply IH].
  destruct (faces (vget s u) !! i); [|apply Untouched_refl].
  destruct (hasVertex _ _); [apply removeFace_Untouched|apply Untouched_refl].
Qed.

Lemma moveFace_Untouched s u v i s' : moveFace s u v i = Some s' -> Untouched s s'.
Proof.
  destruct (faces (vget s u) !! i) as [face|] eqn:Hi.
  2:{ unfold moveFace. by rewrite Hi. }
  rewrite (moveFace_unfold s u v i face Hi). intros Hm.
  apply (inj Some) in Hm. rewrite <- Hm. clear Hm.
  set (s3 := detachFace s u v i face). set (F := fget s3 face). cbv zeta.
  set (s6 := linkVertices _ _ _ _).
  assert (Hk : sameKeys s s6).
  { unfold s6. eapply sameKeys_trans; [|apply linkVertices_keys].
    repeat (eapply sameKeys_trans; [|apply removeNonNeighbors_keys]).
    apply detachFace_keys. }
  assert (Hf : forall g, fget s6 g = fget s3 g).
  { intros g. unfold s6. by rewrite linkVertices_fget, !removeNonNeighbors_fget. }
  clearbody s6. split.
  - intros y. rewrite computeCenter_vget, computeNormal_vget.
    by destruct (Hk y) as (_ & _ & _ & ->).
  - intros g. destruct (decide (g = face)) as [->|Hg].
    + destruct (recompute_keeps s6 face) as [-> ->]. rewrite Hf. unfold s3.
      rewrite detachFace_fget, decide_True by done. unfold retarget.
      by repeat case_decide.
    + rewrite recompute_fget_other by done. rewrite Hf. unfold s3.
      by rewrite detachFace_fget, decide_False by done.
Qed.

Lemma moveFaces_Untouched u v i : forall s s',
  moveFaces s u v i = Some s' -> Untouched s s'.
Proof.
  induction i as [|i IH]; intros s s'; cbn [moveFaces].
  { intros Hm. apply (inj Some) in Hm. rewrite <- Hm. apply Untouched_refl. }
  destruct (moveFace s u v i) as [s1|] eqn:E1; [|done]. cbn [mbind option_bind].
  intros E2. eapply Untouched_trans; [by eapply moveFace_Untouched|by apply IH].
Qed.

Lemma recost_Untouched s t s' : recost s t = Some s' -> Untouched s s'.
Proof.
  unfold recost.
  destruct (computeEdgeCostAtVertex_effect s t) as (_ & Hf & Hg & _).
  destruct (computeEdgeCostAtVertex s t) as [s1 cost]. cbn [fst] in Hf, Hg.
  destruct (costPosition _ _); [|done]. cbn [mbind option_bind].
  intros Hm. apply (inj Some) in Hm. rewrite <- Hm. split.
  - intros y. change (position (vget s1 y) = position (vget s y)).
    by destruct (Hf y) as (_ & _ & _ & ->).
  - intros g. change (hash (fget s1 g) = hash (fget s g) /\
                      degree (fget s1 g) = degree (fget s g)). by rewrite Hg.
Qed.

Lemma recostAll_Untouched l : forall s s', recostAll s l = Some s' -> Untouched s s'.
Proof.
  induction l as [|t l IH]; intros s s'; cbn [recostAll].
  { intros Hm. apply (inj Some) in Hm. rewrite <- Hm. apply Untouched_refl. }
  destruct (recost s t) as [s1|] eqn:E1; [|done]. cbn [mbind option_bind].
  intros E2. eapply Untouched_trans; [by eapply recost_Untouched|by apply IH].
Qed.

Lemma collapseStep_Untouched s s' : collapseStep s = Some s' -> Untouched s s'.
Proof.
  unfold collapseStep. destruct (arrVerticesByCost s !! 0%nat) as [e|]; [|done].
  cbn [mbind option_bind]. destruct (arrVertices s !! e) as [u|]; [|done].
  cbn [mbind option_bind]. destruct (collapseNeighbor (vget s u)) as [v|].
  - cbv zeta. destruct (moveFaces _ _ _ _) as [s2|] eqn:E2; [|done].
    cbn [mbind option_bind]. intros E4.
    eapply Untouched_trans; [apply deleteEdgeFaces_Untouched|].
    eapply Untouched_trans; [by eapply moveFaces_Untouched|].
    eapply Untouched_trans; [apply removeVertex_Untouched|by eapply recostAll_Untouched].
  - intros Hm. apply (inj Some) in Hm. rewrite <- Hm. apply removeVertex_Untouched.
Qed.

Lemma collapseLoop_Untouched turns : forall s s',
  collapseLoop turns s = Some s' -> Untouched s s'.
Proof.
  induction turns as [|turns IH]; intros s s'; cbn [collapseLoop].
  { intros Hm. apply (inj Some) in Hm. rewrite <- Hm. apply Untouched_refl. }
  destruct (collapseStep s) as [s1|] eqn:E1; [|done]. cbn [mbind option_bind].
  intros E2. eapply Untouched_trans; [by eapply collapseStep_Untouched|by apply IH].
Qed.

Lemma collapse_Untouched count s s' : collapse count s = Some s' -> Untouched s s'.
Proof.
  unfold collapse.
  set (b := (length (arrVertices s) =? 0)%nat || (length (arrFaces s) =? 0)%nat).
  set (s1 := if b then console_log s NoVerticesFound else s).
  assert (H1 : Untouched s s1) by (unfold s1; destruct b; by split).
  clearbody s1. clear b. destruct (Qltb _ _); intros E.
  - apply collapseLoop_Untouched in E. eapply Untouched_trans; [exact H1|].
    eapply Untouched_trans; [|exact E]. by split.
  - apply collapseLoop_Untouched in E. eapply Untouched_trans; eauto.
Qed.

End Untouched.

(** ** The face array and the face lists of the vertices *)

Lemma Listed_fields s s' :
  arrFaces s' = arrFaces s -> arrVertices s' = arrVertices s ->
  (forall y, faces (vget s' y) = faces (vget s y)) ->
  (forall g, verticesOf (fget s' g) = verticesOf (fget s g)) ->
  Listed s -> Listed s'.
Proof.
  intros HF HV Hfc Hvo [L1 L2 L3]. constructor.
  - by rewrite HF.
  - intros f w. rewrite HF, HV, Hvo, Hfc. apply L2.
  - intros v f. rewrite HF, HV, Hfc. apply L3.
Qed.

Section Listed.
Context `{Sqrt}.

Lemma removeFace_Listed s f u :
  Topology (arrVertices s) s -> (forall g, Mates (arrVertices s) s g) ->
  u ∈ arrVertices s -> f ∈ faces (vget s u) ->
  Listed s -> Listed (removeFace s f).
Proof.
  intros HT HM Hu Hf [L1 L2 L3].
  destruct (removeFace_spec (arrVertices s) s f u HT HM Hu Hf)
    as (_ & _ & Hfg & HaV & _ & HaF & Hfaces & _).
  constructor.
  - rewrite HaF. by apply NoDup_removeFirst.
  - intros g w. rewrite HaF, HaV, Hfg. intros Hg Hw.
    assert (Hgf : g <> f).
    { intros ->. exact (removeFirst_NoDup_notin _ _ L1 Hg). }
    apply elem_of_removeFirst in Hg. destruct (L2 g w Hg Hw) as [HwA Hgw].
    split; [done|]. rewrite Hfaces by done. by apply elem_of_removeFirst_ne.
  - intros v g. rewrite HaF, HaV. intros Hv. rewrite Hfaces by done. intros Hg.
    assert (Hgf : g <> f).
    { intros ->. exact (removeFirst_NoDup_notin _ _ (topo_fc_nodup _ _ HT v Hv) Hg). }
    apply elem_of_removeFirst in Hg. apply elem_of_removeFirst_ne; [done|]. by eapply L3.
Qed.

Lemma deleteEdgeFaces_Listed u v i : forall s,
  Topology (arrVertices s) s -> (forall g, Mates (arrVertices s) s g) ->
  u ∈ arrVertices s -> Listed s -> Listed (deleteEdgeFaces s u v i).
Proof.
  induction i as [|i IH]; intros s HT HM Hu HL; [done|]. cbn [deleteEdgeFaces].
  destruct (faces (vget s u) !! i) as [f|] eqn:Hi; [|by apply IH].
  destruct (hasVertex (fget s f) v); [|by apply IH].
  assert (Hf : f ∈ faces (vget s u)) by (eapply list_elem_of_lookup_2; eauto).
  destruct (removeFace_spec (arrVertices s) s f u HT HM Hu Hf)
    as (HT' & HM' & _ & HaV & _).
  apply IH; rewrite ?HaV; try done. by eapply removeFace_Listed.
Qed.

Lemma moveFace_faces s u v i face s' y :
  u <> v -> faces (vget s u) !! i = Some face -> moveFace s u v i = Some s' ->
  faces (vget s' y) =
    if decide (y = u) then splice1 (faces (vget s u)) i
    else if decide (y = v) then faces (vget s v) ++ [face]
    else faces (vget s y).
Proof.
  intros Hne Hi. rewrite (moveFace_unfold s u v i face Hi). intros Hm.
  apply (inj Some) in Hm. rewrite <- Hm. clear Hm. cbv zeta.
  rewrite computeCenter_vget, computeNormal_vget, linkVertices_faces.
  rewrite !removeNonNeighbors_faces. by apply detachFace_faces.
Qed.

Lemma moveFace_Listed A s u v i face s' :
  A = arrVertices s -> MovePre A s u v -> (forall g, Mates A s g) ->
  faces (vget s u) !! i = Some face -> moveFace s u v i = Some s' ->
  Listed s -> Listed s'.
Proof.
  intros -> Hpre HM Hi E [L1 L2 L3].
  pose proof Hpre as [HT Hu Hv Hne Hclear].
  destruct (moveFace_spec _ s u v i face Hpre HM Hi)
    as (s1 & E1 & _ & _ & _ & (HaF & HaV & _) & _ & Hfg & Hvo & _).
  rewrite E in E1. injection E1 as <-.
  pose proof (fun y => moveFace_faces s u v i face s' y Hne Hi E) as Hfc.
  assert (Hface : face ∈ faces (vget s u)) by (eapply list_elem_of_lookup_2; eauto).
  destruct (topo_fc _ _ HT u face Hu Hface) as (HuF & HndF & HallF).
  pose proof (topo_fc_nodup _ _ HT u Hu) as Hndu.
  assert (Hkeep : forall g w, g ∈ faces (vget s w) -> (w = u -> g <> face) ->
                    g ∈ faces (vget s' w)).
  { intros g w Hg Hgu. rewrite Hfc. destruct (decide (w = u)) as [->|Hwu].
    - rewrite (splice1_removeFirst _ _ _ Hndu Hi). apply elem_of_removeFirst_ne; auto.
    - case_decide; subst; [apply elem_of_app; by left|done]. }
  constructor.
  - by rewrite HaF.
  - intros g w. rewrite HaF, HaV. intros Hg. destruct (decide (g = face)) as [->|Hgf].
    + rewrite Hvo, (elem_of_retarget _ _ _ _ HndF HuF). intros [->|[Hw Hwu]].
      * split; [done|]. rewrite Hfc, decide_False, decide_True by done.
        apply elem_of_app. right. by left.
      * destruct (HallF w Hw) as [HwA Hfw]. split; [done|]. by apply Hkeep.
    + rewrite Hfg by done. intros Hw. destruct (L2 g w Hg Hw) as [HwA Hgw].
      split; [done|]. by apply Hkeep.
  - intros w g. rewrite HaF, HaV, Hfc. intros Hw.
    destruct (decide (w = u)) as [->|Hwu].
    + intros Hg%elem_of_splice1. by eapply L3.
    + case_decide; subst.
      * rewrite elem_of_app, list_elem_of_singleton. intros [Hg| ->]; [by eapply L3|].
        by eapply (L3 u).
      * by apply L3.
Qed.

Lemma moveFaces_Listed A u v i : forall s s',
  A = arrVertices s -> MovePre A s u v -> (forall g, Mates A s g) ->
  i = length (faces (vget s u)) -> moveFaces s u v i = Some s' ->
  Listed s -> Listed s'.
Proof.
  induction i as [|i IH]; intros s s' HA Hpre HM Hlen; cbn [moveFaces].
  { intros Hm. apply (inj Some) in Hm. by rewrite <- Hm. }
  destruct (lookup_lt_is_Some_2 (faces (vget s u)) i) as [face Hi]; [lia|].
  destruct (moveFace_spec A s u v i face Hpre HM Hi)
    as (s1 & E1 & Hpre1 & HM1 & Hfu1 & (_ & HaV & _) & _).
  rewrite E1. cbn [mbind option_bind]. intros E2 HL.
  apply (IH s1 s'); try done.
  - by rewrite HaV.
  - rewrite Hfu1. unfold splice1. rewrite length_delete by eauto. lia.
  - by eapply (moveFace_Listed A s u v i face s1).
Qed.

Lemma removeVertex_Listed s u :
  Indexed s -> Topology (arrVertices s) s -> (forall g, Mates (arrVertices s) s g) ->
  u ∈ arrVertices s -> faces (vget s u) = [] ->
  Listed s -> Listed (removeVertex s u).
Proof.
  intros HI HT HM Hu Hfu [L1 L2 L3].
  destruct (removeVertex_spec s u HI HT HM Hu Hfu)
    as (HA & _ & _ & _ & _ & _ & Hsame & Hfg & HaF).
  assert (Hfc : forall y, faces (vget (removeVertex s u) y) = faces (vget s y))
    by (intros y; by destruct (Hsame y) as (-> & _)).
  constructor.
  - by rewrite HaF.
  - intros f w. rewrite HaF, HA, Hfg, Hfc. intros Hf Hw.
    destruct (L2 f w Hf Hw) as [HwA Hfw]. split; [|done].
    apply elem_of_removeFirst_ne; [|done]. intros ->. rewrite Hfu in Hfw.
    by apply elem_of_nil in Hfw.
  - intros v f. rewrite HaF, HA, Hfc. intros Hv%elem_of_removeFirst. by apply L3.
Qed.

Lemma collapseStep_Listed s s' :
  WF s -> Listed s -> collapseStep s = Some s' ->
  Listed s' /\ forall f, f ∈ arrFaces s' -> f ∈ arrFaces s.
Proof.
  intros HW HL. pose proof HW as [HI HT HM HC HF].
  unfold collapseStep. destruct (arrVerticesByCost s !! 0%nat) as [e|]; [|done].
  cbn [mbind option_bind]. destruct (arrVertices s !! e) as [u|] eqn:Hu; [|done].
  cbn [mbind option_bind].
  assert (HuA : u ∈ arrVertices s) by (eapply list_elem_of_lookup_2; eauto).
  destruct (collapseNeighbor (vget s u)) as [v|] eqn:Hcn.
  - cbv zeta.
    assert (Hv : v ∈ neighbors (vget s u)).
    { specialize (HC u HuA). unfold CachedNeighbor in HC. by rewrite Hcn in HC. }
    destruct (topo_nb _ _ HT u v HuA Hv) as (HvA & Hvu & _).
    destruct (deleteEdgeFaces_spec (arrVertices s) u v (length (faces (vget s u))) s HT HM HuA)
      as (HT1 & HM1 & Hshr & Hclear & _).
    { intros p g Hp Hg. apply lookup_lt_Some in Hg. lia. }
    pose proof (deleteEdgeFaces_Listed u v (length (faces (vget s u))) s HT HM HuA HL) as HL1.
    set (s1 := deleteEdgeFaces s u v (length (faces (vget s u)))) in *. clearbody s1.
    destruct Hshr as [Sfg Skeys SaV SaC SaF Sfaces Snb].
    assert (Hpre : MovePre (arrVertices s) s1 u v) by (constructor; auto).
    destruct (moveFaces_spec (arrVertices s) u v _ s1 Hpre HM1 eq_refl)
      as (s2 & E2 & Hpre2 & HM2 & Hfu2 & (MaF & MaV & MaC) & Mkeys & _).
    rewrite E2. cbn [mbind option_bind].
    assert (HL2 : Listed s2).
    { eapply (moveFaces_Listed (arrVertices s) u v _ s1 s2); eauto. }
    destruct Hpre2 as [HT2 _ _ _ _].
    assert (HA2 : arrVertices s2 = arrVertices s) by (by rewrite MaV, SaV).
    assert (HI2 : Indexed s2).
    { destruct HI as [I1 I2 I3]. constructor; rewrite ?HA2.
      - done.
      - intros i y Hi. destruct (Mkeys y) as (-> & _). destruct (Skeys y) as (-> & _). auto.
      - by rewrite MaC, SaC. }
    rewrite <- HA2 in HT2, HM2.
    assert (Hu2 : u ∈ arrVertices s2) by by rewrite HA2.
    pose proof (removeVertex_Listed s2 u HI2 HT2 HM2 Hu2 Hfu2 HL2) as HL3.
    destruct (removeVertex_spec s2 u HI2 HT2 HM2 Hu2 Hfu2)
      as (HA3 & _ & HI3 & _ & _ & _ & _ & _ & HaF3).
    remember (removeVertex s2 u) as s3 eqn:E3. clear E3.
    assert (Htmp : forall t, t ∈ neighbors (vget s u) -> t ∈ arrVertices s3).
    { intros t Ht. destruct (topo_nb _ _ HT u t HuA Ht) as (HtA & Htu & _).
      rewrite HA3, HA2. by apply elem_of_removeFirst_ne. }
    destruct (recostAll_spec (neighbors (vget s u)) s3 HI3 Htmp)
      as (s4 & E4 & _ & _ & Hf4 & Hg4 & HA4 & HF4 & _).
    rewrite E4. intros Hm. apply (inj Some) in Hm. rewrite <- Hm. split.
    + apply (Listed_fields s3); try done.
      * intros y. by destruct (Hf4 y) as (_ & -> & _).
      * intros g. by rewrite Hg4.
    + intros f. rewrite HF4, HaF3, MaF. apply SaF.
  - intros Hm. apply (inj Some) in Hm. rewrite <- Hm.
    assert (Hn : neighbors (vget s u) = []).
    { specialize (HC u HuA). unfold CachedNeighbor in HC. by rewrite Hcn in HC. }
    pose proof (isolated_no_faces _ _ _ HT HM HuA Hn) as Hfu.
    split; [by apply removeVertex_Listed|].
    destruct (removeVertex_spec s u HI HT HM HuA Hfu) as (_ & _ & _ & _ & _ & _ & _ & _ & ->).
    done.
Qed.

Lemma collapseLoop_Listed turns : forall s s',
  WF s -> Listed s -> collapseLoop turns s = Some s' ->
  WF s' /\ Listed s' /\ forall f, f ∈ arrFaces s' -> f ∈ arrFaces s.
Proof.
  induction turns as [|turns IH]; intros s s' HW HL; cbn [collapseLoop].
  { intros Hm. apply (inj Some) in Hm. by rewrite <- Hm. }
  destruct (collapseStep s) as [s1|] eqn:E1; [|done]. cbn [mbind option_bind].
  destruct (decide (0 < length (arrVertices s))%nat) as [Hpos|Hzero].
  - destruct (collapseStep_spec s HW Hpos) as (s1' & E1' & HW1 & _).
    rewrite E1 in E1'. injection E1' as <-.
    destruct (collapseStep_Listed s s1 HW HL E1) as [HL1 Hsub1].
    intros E2. destruct (IH s1 s' HW1 HL1 E2) as (HW2 & HL2 & Hsub2).
    split; [done|]. split; [done|]. auto.
  - destruct (first_by_cost s (wf_indexed _ HW)) as (e & u & He & Hu'); [|].
    + exfalso. unfold collapseStep in E1.
      destruct (arrVerticesByCost s !! 0%nat) as [e|]; [|done]. cbn [mbind option_bind] in E1.
      destruct (arrVertices s !! e) as [u|] eqn:Hu; [|done].
      apply lookup_lt_Some in Hu. lia.
    + apply lookup_lt_Some in Hu'. lia.
Qed.

Lemma Listed_console_log s e : Listed s -> Listed (console_log s e).
Proof. intros HL. apply (Listed_fields s); [reflexivity..|exact HL]. Qed.

Lemma collapse_Listed count s s' :
  WF s -> Listed s -> collapse count s = Some s' ->
  WF s' /\ Listed s' /\ forall f, f ∈ arrFaces s' -> f ∈ arrFaces s.
Proof.
  intros HW HL. unfold collapse.
  set (b := (length (arrVertices s) =? 0)%nat || (length (arrFaces s) =? 0)%nat).
  set (s1 := if b then console_log s NoVerticesFound else s).
  assert (HW1 : WF s1) by (unfold s1; destruct b; [by apply WF_console_log|done]).
  assert (HL1 : Listed s1) by (unfold s1; destruct b; [by apply Listed_console_log|done]).
  assert (HF1 : arrFaces s1 = arrFaces s) by (unfold s1; by destruct b).
  clearbody s1. clear b. rewrite <- HF1.
  destruct (Qltb _ _); intros E.
  - eapply collapseLoop_Listed in E; [exact E| |].
    + by apply WF_console_log.
    + by apply Listed_console_log.
  - by eapply collapseLoop_Listed in E.
Qed.

End Listed.

Lemma flat_map_ext_elem {A B} (f g : A -> list B) l :
  (forall x, x ∈ l -> f x = g x) -> flat_map f l = flat_map g l.
Proof.
  induction l as [|x l IH]; intros Hfg; [done|]. cbn [flat_map].
  rewrite (Hfg x) by by left. rewrite IH; [done|]. intros y Hy. apply Hfg. by right.
Qed.

Lemma addVertices_position positions : forall s i k p,
  positions !! k = Some p ->
  position (vget (addVertices s i positions) (i + k)%nat) = p.
Proof.
  induction positions as [|q positions IH]; intros s i k p Hk; [done|].
  cbn [addVertices]. destruct k as [|k].
  - injection Hk as ->. rewrite Nat.add_0_r.
    destruct (addVertices_spec positions
                (set_arrVertices (vset s i (newVertex p i))
                   (arrVertices (vset s i (newVertex p i)) ++ [i])) (S i))
      as (_ & _ & Hold & _).
    rewrite Hold by lia. change (vget (set_arrVertices ?a ?b) ?c) with (vget a c).
    by rewrite vget_vset_eq.
  - replace (i + S k)%nat with (S i + k)%nat by lia. by apply IH.
Qed.

Section PopulateShape.
Context `{Sqrt}.

Lemma newTriangle_keys s f a b c ia ib ic : sameKeys s (newTriangle s f a b c ia ib ic).
Proof.
  unfold newTriangle.
  repeat match goal with
  | |- sameKeys _ (addUniqueNeighbor ?s0 _ _) =>
      apply (sameKeys_trans _ s0); [|apply addUniqueNeighbor_keys]
  | |- sameKeys _ (pushFace ?s0 _ _) =>
      apply (sameKeys_trans _ s0); [|apply pushFace_keys]
  end.
  by intros y.
Qed.

Lemma newTriangle_degree s f a b c ia ib ic g :
  degree (fget (newTriangle s f a b c ia ib ic) g) =
    if decide (f = g) then 0%nat else degree (fget s g).
Proof.
  unfold newTriangle. rewrite !addUniqueNeighbor_fget, !pushFace_fget.
  rewrite !addUniqueNeighbor_fget, !pushFace_fget.
  rewrite !addUniqueNeighbor_fget, !pushFace_fget.
  rewrite computeCenter_fget, !computeNormal_fget, !fget_fset.
  repeat case_decide; subst; try done.
Qed.

Lemma Raw_extend n s0 s s1 f done a b c :
  Raw n s0 s f done ->
  sameArrays s s1 -> sameKeys s s1 ->
  (forall g, verticesOf (fget s1 g) =
     if decide (f = g) then [a; b; c] else verticesOf (fget s g)) ->
  (forall g, degree (fget s1 g) = if decide (f = g) then 0%nat else degree (fget s g)) ->
  Raw n s0 (set_arrFaces s1 (arrFaces s1 ++ [f])) (S f) (done ++ [a; b; c]).
Proof.
  intros [RV RK RF RC RD] (HaF & HaV & _) Hk Hvo Hdeg. constructor.
  - cbn [arrVertices set_arrFaces]. by rewrite HaV.
  - eapply sameKeys_trans; [exact RK|]. exact Hk.
  - cbn [arrFaces set_arrFaces]. by rewrite HaF, RF, seq_S.
  - change (fget (set_arrFaces ?a0 ?l0) ?g0) with (fget a0 g0).
    rewrite seq_S, flat_map_app. cbn [flat_map Nat.add]. rewrite app_nil_r.
    rewrite Hvo, decide_True by done. f_equal. rewrite <- RC.
    apply flat_map_ext_elem. intros g Hg%elem_of_seq. rewrite Hvo.
    rewrite decide_False; [done|lia].
  - intros g Hg. change (fget (set_arrFaces ?a0 ?l0) ?g0) with (fget a0 g0).
    rewrite Hdeg. case_decide; [done|]. apply RD. lia.
Qed.

Lemma addFaces_Raw n s0 indices : forall s f done s',
  Raw n s0 s f done -> addFaces s f indices = Some s' ->
  exists f', Raw n s0 s' f' (done ++ indices) /\ Forall (fun i => (i < n)%nat) indices.
Proof.
  induction indices as [indices IH] using (induction_ltof1 _ (@length nat)).
  unfold ltof in IH. intros s f done s' HR Hadd.
  destruct indices as [|a [|b [|c indices]]]; cbn [addFaces] in Hadd; try done.
  { injection Hadd as <-. exists f. rewrite app_nil_r. by split. }
  destruct (arrVertices s !! a) as [va|] eqn:Ea; [|done].
  destruct (arrVertices s !! b) as [vb|] eqn:Eb; [|done].
  destruct (arrVertices s !! c) as [vc|] eqn:Ec; [|done].
  cbn [mbind option_bind] in Hadd. rewrite (raw_vertices _ _ _ _ _ HR) in Ea, Eb, Ec.
  apply lookup_seq in Ea as [Ea Ha], Eb as [Eb Hb], Ec as [Ec Hc].
  eapply (IH indices ltac:(simpl; lia) _ (S f) (done ++ [va; vb; vc]) s') in Hadd
    as (f' & HR' & Hall).
  2:{ apply (Raw_extend n s0 s); [exact HR|apply newTriangle_arrays|apply newTriangle_keys| |].
    + intros g. apply newTriangle_fget.
    + intros g. apply newTriangle_degree. }
  cbn [Nat.add] in Ea, Eb, Ec. subst va vb vc.
  exists f'. rewrite <- app_assoc in HR'. split; [exact HR'|].
  repeat (constructor; [done|]). exact Hall.
Qed.

(** The graph [populateFromGeometry] returns, in terms of the graph
    [s1] left by the loop that adds the faces. *)
Lemma populateFromIndexed_shape positions indices s :
  populateFromIndexed positions indices = Some s ->
  exists s1,
    addFaces (addVertices emptyGraph 0 positions) 0 indices = Some s1 /\
    arrFaces s = arrFaces s1 /\ arrVertices s = arrVertices s1 /\
    (forall y, neighbors (vget s y) = neighbors (vget s1 y) /\
               faces (vget s y) = faces (vget s1 y) /\
               index (vget s y) = index (vget s1 y) /\
               position (vget s y) = position (vget s1 y)) /\
    (forall g, verticesOf (fget s g) = verticesOf (fget s1 g) /\
               degree (fget s g) = degree (fget s1 g)) /\
    (forall g, g ∈ arrFaces s -> hash (fget s g) = currentHash s g).
Proof.
  unfold populateFromIndexed.
  destruct (addFaces (addVertices emptyGraph 0 positions) 0 indices) as [s1|] eqn:E1; [|done].
  cbn [mbind option_bind]. intros Hm. apply (inj Some) in Hm. exists s1. split; [done|].
  destruct (costFold_spec (arrVertices s1) s1) as (Hf2 & _ & Hg2 & (HbF & HbV & HbC) & _).
  remember (fold_left (fun s v => fst (computeEdgeCostAtVertex s v)) (arrVertices s1) s1)
    as s2 eqn:E2. clear E2.
  set (s3 := set_arrVerticesByCost s2 (sortByCost (costAtIndex s2) (seq 0 (length positions))))
    in *.
  assert (Hv3 : forall y, vget s3 y = vget s2 y) by done.
  assert (Hg3 : forall g, fget s3 g = fget s2 g) by done.
  assert (HF3 : arrFaces s3 = arrFaces s2) by done.
  assert (HV3 : arrVertices s3 = arrVertices s2) by done.
  clearbody s3. subst s. unfold computeFaceHashes.
  assert (Hgen : forall l s0,
    let s' := fold_left computeHash l s0 in
    (forall y, vget s' y = vget s0 y) /\
    (forall g, verticesOf (fget s' g) = verticesOf (fget s0 g) /\
               degree (fget s' g) = degree (fget s0 g)) /\
    arrFaces s' = arrFaces s0 /\ arrVertices s' = arrVertices s0 /\
    (forall g, g ∈ l -> hash (fget s' g) = currentHash s0 g) /\
    (forall g, g ∉ l -> fget s' g = fget s0 g)).
  { induction l as [|f l IH]; intros s0; cbn [fold_left].
    - split; [done|]. split; [done|]. split; [done|]. split; [done|].
      split; [by intros g ?%elem_of_nil|done].
    - destruct (IH (computeHash s0 f)) as (K1 & K2 & K3 & K4 & K5 & K6).
      assert (Hc : forall g, currentHash (computeHash s0 f) g = currentHash s0 g).
      { intros g. unfold currentHash, computeHash. rewrite !vget_fset, fget_fset.
        by case_decide; subst. }
      split; [intros y; by rewrite K1|]. split.
      { intros g. destruct (K2 g) as [-> ->]. unfold computeHash. rewrite fget_fset.
        by case_decide; subst. }
      split; [by rewrite K3|]. split; [by rewrite K4|]. split.
      + intros g Hg. destruct (decide (g ∈ l)) as [Hin|Hout]; [by rewrite K5, Hc|].
        apply elem_of_cons in Hg as [->|Hg]; [|done].
        rewrite K6 by done. unfold computeHash at 1. by rewrite fget_fset_eq.
      + intros g [Hgf Hg]%not_elem_of_cons. rewrite K6 by done.
        unfold computeHash. by rewrite fget_fset_ne. }
  destruct (Hgen (arrFaces s3) s3) as (K1 & K2 & K3 & K4 & K5 & _).
  split; [by rewrite K3, HF3|]. split; [by rewrite K4, HV3|]. split.
  { intros y. rewrite K1, Hv3. apply Hf2. }
  split.
  { intros g. destruct (K2 g) as [-> ->]. by rewrite Hg3, Hg2. }
  intros g. rewrite K3. intros Hg. rewrite (K5 g Hg).
  unfold currentHash. destruct (K2 g) as [Hvo _]. unfold verticesOf in Hvo.
  injection Hvo as -> -> ->. by rewrite !K1.
Qed.

End PopulateShape.

Lemma length_flat_map_const {A B} (f : A -> list B) (k : nat) l :
  (forall x, length (f x) = k) -> length (flat_map f l) = (k * length l)%nat.
Proof.
  intros Hk. induction l as [|x l IH]; cbn [flat_map length]; [lia|].
  rewrite length_app, Hk, IH. lia.
Qed.

Lemma Forall_flat_map {A B} (P : B -> Prop) (f : A -> list B) l :
  (forall x, x ∈ l -> Forall P (f x)) -> Forall P (flat_map f l).
Proof.
  induction l as [|x l IH]; intros Hf; cbn [flat_map]; [constructor|].
  apply Forall_app. split; [apply Hf; by left|]. apply IH. intros y Hy. apply Hf. by right.
Qed.

Lemma addVertices_Raw positions :
  Raw (length positions) (addVertices emptyGraph 0 positions)
      (addVertices emptyGraph 0 positions) 0 [].
Proof.
  destruct (addVertices_spec positions emptyGraph 0) as (HA & _ & _ & HF).
  constructor; [done|exact (sameKeys_refl _)|done|done|intros g Hg; lia].
Qed.

Lemma flat_map_positions s l : forall i,
  (forall k p, l !! k = Some p -> position (vget s (i + k)%nat) = p) ->
  flat_map (fun v => coordinates (position (vget s v))) (seq i (length l)) =
  flat_map coordinates l.
Proof.
  induction l as [|p l IH]; intros i Hl; [done|]. cbn [length seq flat_map].
  rewrite <- (Nat.add_0_r i) at 1. rewrite (Hl 0%nat p eq_refl). f_equal.
  apply IH. intros k q Hk. replace (S i + k)%nat with (i + S k)%nat by lia. by apply Hl.
Qed.

Lemma arrVertices_set_arrFaces s l : arrVertices (set_arrFaces s l) = arrVertices s.
Proof. reflexivity. Qed.

Lemma arrFaces_set_arrFaces s l : arrFaces (set_arrFaces s l) = l.
Proof. reflexivity. Qed.

Section PopulateTheorems.
Context `{Sqrt}.

Lemma addFaces_length n indices : forall s f s',
  arrVertices s = seq 0 n ->
  addFaces s f indices = Some s' -> exists k, length indices = (3 * k)%nat.
Proof.
  induction indices as [indices IH] using (induction_ltof1 _ (@length nat)).
  unfold ltof in IH. intros s f s' HV Hadd.
  destruct indices as [|a [|b [|c indices]]]; cbn [addFaces] in Hadd; try done.
  { by exists 0%nat. }
  destruct (arrVertices s !! a) as [va|]; [|done].
  destruct (arrVertices s !! b) as [vb|]; [|done].
  destruct (arrVertices s !! c) as [vc|]; [|done].
  cbn [mbind option_bind] in Hadd.
  eapply (IH indices ltac:(simpl; lia) _ (S f) s') in Hadd as [k Hk].
  - exists (S k). cbn [length]. lia.
  - rewrite arrVertices_set_arrFaces.
    by destruct (newTriangle_arrays s f va vb vc a b c) as (_ & -> & _).
Qed.

Lemma addFaces_total n indices : forall s f k,
  arrVertices s = seq 0 n -> length indices = (3 * k)%nat ->
  Forall (fun i => (i < n)%nat) indices ->
  is_Some (addFaces s f indices).
Proof.
  induction indices as [indices IH] using (induction_ltof1 _ (@length nat)).
  unfold ltof in IH. intros s f k HV Hlen Hall.
  destruct indices as [|a [|b [|c indices]]]; cbn [addFaces]; cbn [length] in Hlen;
    [done|lia|lia|].
  apply Forall_cons in Hall as [Ha Hall]. apply Forall_cons in Hall as [Hb Hall].
  apply Forall_cons in Hall as [Hc Hall].
  rewrite HV, !lookup_seq_lt by done. cbn [mbind option_bind Nat.add].
  apply (IH indices ltac:(simpl; lia) _ (S f) (k - 1)%nat); [|lia|done].
  rewrite arrVertices_set_arrFaces.
  by destruct (newTriangle_arrays s f a b c a b c) as (_ & -> & _).
Qed.

Lemma populateFromIndexed_is_Some_iff positions indices :
  is_Some (populateFromIndexed positions indices) <->
  (exists k, length indices = (3 * k)%nat) /\
  Forall (fun i => (i < length positions)%nat) indices.
Proof.
  pose proof (addVertices_Raw positions) as HR0.
  split.
  - intros [s Hs]. destruct (populateFromIndexed_shape _ _ _ Hs) as (s1 & E1 & _).
    split.
    + eapply addFaces_length; [|exact E1]. exact (raw_vertices _ _ _ _ _ HR0).
    + by destruct (addFaces_Raw _ _ _ _ _ _ _ HR0 E1) as (f' & _ & Hall).
  - intros [[k Hk] Hall]. unfold populateFromIndexed.
    destruct (addFaces_total (length positions) indices
                (addVertices emptyGraph 0 positions) 0 k) as [s1 E1]; try done.
    { exact (raw_vertices _ _ _ _ _ HR0). }
    rewrite E1. cbn [mbind option_bind]. by eexists.
Qed.

(** X3.  [buildGeometry] undoes the graph construction of
    [populateFromGeometry]: the arrays built from a freshly populated
    graph are the welded positions and the index buffer it was
    populated from. *)
Theorem populate_buildGeometry_round_trip positions indices s :
  populateFromIndexed positions indices = Some s ->
  snd (fst (buildGeometry s)) = flat_map coordinates positions /\
  snd (buildGeometry s) = indices.
Proof.
  intros Hs. destruct (populateFromIndexed_shape _ _ _ Hs)
    as (s1 & E1 & HaF & HaV & Hv & Hg & _).
  pose proof (addVertices_Raw positions) as HR0.
  destruct (addFaces_Raw _ _ _ _ _ _ _ HR0 E1) as (f' & [RV RK RF RC RD] & Hall).
  unfold buildGeometry. cbn [fst snd]. rewrite HaV, HaF, RV, RF. split.
  - apply flat_map_positions. intros k p Hp. cbn [Nat.add].
    destruct (Hv k) as (_ & _ & _ & ->). destruct (RK k) as (_ & _ & _ & ->).
    by apply (addVertices_position positions emptyGraph 0 k p).
  - cbn [app] in RC. rewrite <- RC at 1. apply flat_map_ext_elem. intros g Hg'.
    destruct (Hg g) as [Hvo _].
    assert (Hin : forall w, w ∈ verticesOf (fget s1 g) -> index (vget s w) = w).
    { intros w Hw. destruct (Hv w) as (_ & _ & -> & _). destruct (RK w) as (-> & _).
      destruct (addVertices_spec positions emptyGraph 0) as (_ & Hnew & _).
      apply Hnew. split; [lia|]. cbn [Nat.add].
      rewrite Forall_forall in Hall. apply Hall. rewrite <- RC.
      apply list_elem_of_In, in_flat_map. exists g. split; by apply list_elem_of_In. }
    unfold cornerIndices. unfold verticesOf in Hvo. injection Hvo as -> -> ->.
    unfold verticesOf in *. rewrite !Hin; [done|set_solver..].
Qed.

Lemma populate_hashes positions indices s f :
  populateFromIndexed positions indices = Some s ->
  f ∈ arrFaces s -> hash (fget s f) = currentHash s f.
Proof.
  intros Hs. destruct (populateFromIndexed_shape _ _ _ Hs) as (_ & _ & _ & _ & _ & _ & Hh).
  apply Hh.
Qed.

Lemma Corner_extend A s s1 f a b c :
  Corner A f s -> a ∈ A -> b ∈ A -> c ∈ A ->
  (forall y, faces (vget s1 y) =
     if decide (y ∈ [a; b; c]) then faces (vget s y) ++ [f] else faces (vget s y)) ->
  (forall g, verticesOf (fget s1 g) =
     if decide (f = g) then [a; b; c] else verticesOf (fget s g)) ->
  Corner A (S f) (set_arrFaces s1 (arrFaces s1 ++ [f])).
Proof.
  intros HC Ha Hb Hc Hfc Hvo g w Hg.
  change (fget (set_arrFaces ?a0 ?l0) ?g0) with (fget a0 g0).
  change (vget (set_arrFaces ?a0 ?l0) ?g0) with (vget a0 g0).
  rewrite Hvo, Hfc. destruct (decide (f = g)) as [<-|Hfg].
  - intros Hw. rewrite decide_True by done. split; [|apply elem_of_app; right; by left].
    rewrite !elem_of_cons, elem_of_nil in Hw. destruct Hw as [->|[->|[->|[]]]]; done.
  - intros Hw. destruct (HC g w) as [HwA Hgw]; [lia|done|]. split; [done|].
    case_decide; [apply elem_of_app; by left|done].
Qed.

Lemma addFaces_Corner A indices : forall s f s',
  NoDup A -> arrVertices s = A -> arrFaces s = seq 0 f -> Corner A f s ->
  distinctCorners indices = true ->
  addFaces s f indices = Some s' -> exists f', Corner A f' s' /\ arrFaces s' = seq 0 f'.
Proof.
  induction indices as [indices IH] using (induction_ltof1 _ (@length nat)).
  unfold ltof in IH. intros s f s' HndA HV HF HC Hdist Hadd.
  destruct indices as [|a [|b [|c indices]]]; cbn [addFaces] in Hadd; try done.
  { injection Hadd as <-. by exists f. }
  cbn [distinctCorners] in Hdist. rewrite !andb_true_iff, !bool_decide_eq_true in Hdist.
  destruct Hdist as (((Hab & Hbc) & Hac) & Hrest).
  destruct (arrVertices s !! a) as [va|] eqn:Ea; [|done].
  destruct (arrVertices s !! b) as [vb|] eqn:Eb; [|done].
  destruct (arrVertices s !! c) as [vc|] eqn:Ec; [|done].
  cbn [mbind option_bind] in Hadd. rewrite HV in Ea, Eb, Ec.
  assert (Hdiff : forall i j x y, A !! i = Some x -> A !! j = Some y -> i <> j -> x <> y).
  { intros i j x y Hi Hj Hij ->. apply Hij. by eapply NoDup_lookup. }
  assert (Hnd : NoDup [va; vb; vc]).
  { apply NoDup_cons. split.
    { rewrite !not_elem_of_cons. split_and!; eauto. apply not_elem_of_nil. }
    apply NoDup_cons. split.
    { rewrite !not_elem_of_cons. split_and!; eauto. apply not_elem_of_nil. }
    apply NoDup_singleton. }
  eapply (IH indices ltac:(simpl; lia) _ (S f) s' HndA) in Hadd; [exact Hadd| | | |done].
  - rewrite arrVertices_set_arrFaces.
    destruct (newTriangle_arrays s f va vb vc a b c) as (_ & -> & _). exact HV.
  - rewrite arrFaces_set_arrFaces.
    destruct (newTriangle_arrays s f va vb vc a b c) as (-> & _). by rewrite HF, seq_S.
  - apply (Corner_extend A s _ f va vb vc HC); [eapply list_elem_of_lookup_2; eauto..| |].
    + intros y. by apply newTriangle_faces.
    + intros g. apply newTriangle_fget.
Qed.

(** The graph [populateFromGeometry] builds from triangles with three
    different corners: the face array and the face lists of the
    vertices agree, and every face has degree 0. *)
Lemma populateFromIndexed_Listed positions indices s :
  distinctCorners indices = true ->
  populateFromIndexed positions indices = Some s ->
  Listed s /\ forall f, f ∈ arrFaces s -> degree (fget s f) = 0%nat.
Proof.
  intros Hdist Hs. destruct (populateFromIndexed_shape _ _ _ Hs)
    as (s1 & E1 & HaF & HaV & Hv & Hg & _).
  pose proof (addVertices_Raw positions) as HR0.
  destruct (addFaces_Raw _ _ _ _ _ _ _ HR0 E1) as (f' & [RV RK RF RC RD] & Hall).
  destruct (addFaces_Built (seq 0 (length positions)) indices _ 0%nat s1
              (NoDup_seq 0 _) (addVertices_Built positions) Hdist E1)
    as (f2 & [HT HM Hfresh Hfaces BF BV Hidx]).
  assert (f2 = f') as ->.
  { apply (f_equal length) in BF. rewrite RF, !length_seq in BF. done. }
  destruct (addFaces_Corner (seq 0 (length positions)) indices _ 0%nat s1
              (NoDup_seq 0 _) (raw_vertices _ _ _ _ _ HR0)
              (raw_faces _ _ _ _ _ HR0)) as (f3 & HC & HF3); try done.
  { intros g w Hg'. lia. }
  assert (f3 = f') as ->.
  { apply (f_equal length) in HF3. rewrite RF, !length_seq in HF3. done. }
  split; [constructor|].
  - rewrite HaF, RF. apply NoDup_seq.
  - intros f w. rewrite HaF, HaV, RF, RV. intros Hf%elem_of_seq.
    destruct (Hg f) as [-> _]. destruct (Hv w) as (_ & -> & _). apply HC. lia.
  - intros v f. rewrite HaF, HaV, RF, RV. destruct (Hv v) as (_ & -> & _).
    intros Hv' Hf. apply elem_of_seq. specialize (Hfresh v f Hv' Hf). lia.
  - intros f. rewrite HaF, RF. intros Hf%elem_of_seq. destruct (Hg f) as [_ ->].
    apply RD. lia.
Qed.

End PopulateTheorems.

Lemma distinctCorners_flat_map {A} (f : A -> list nat) l :
  (forall x, x ∈ l -> exists a b c, f x = [a; b; c] /\ NoDup [a; b; c]) ->
  distinctCorners (flat_map f l) = true.
Proof.
  induction l as [|x l IH]; intros Hf; [done|]. cbn [flat_map].
  destruct (Hf x) as (a & b & c & -> & Hnd); [by left|].
  cbn [app distinctCorners]. rewrite IH by (intros y Hy; apply Hf; by right).
  apply NoDup_cons in Hnd as [H1 Hnd]. apply NoDup_cons in Hnd as [H2 _].
  rewrite !not_elem_of_cons in H1. rewrite not_elem_of_cons in H2.
  destruct H1 as (Hab & Hac & _), H2 as (Hbc & _).
  by rewrite !bool_decide_eq_true_2.
Qed.

Lemma Indexed_index_lt s v :
  Indexed s -> v ∈ arrVertices s -> (index (vget s v) < length (arrVertices s))%nat.
Proof.
  intros [_ Hidx _] [i Hi]%list_elem_of_lookup.
  rewrite (Hidx i v Hi). by eapply lookup_lt_Some.
Qed.

Lemma Indexed_index_inj s v w :
  Indexed s -> v ∈ arrVertices s -> w ∈ arrVertices s ->
  index (vget s v) = index (vget s w) -> v = w.
Proof.
  intros [_ Hidx _] [i Hi]%list_elem_of_lookup [j Hj]%list_elem_of_lookup.
  rewrite (Hidx i v Hi), (Hidx j w Hj). intros ->. congruence.
Qed.

Lemma buildGeometry_spec s :
  WF s -> Listed s ->
  length (snd (fst (buildGeometry s))) = (3 * verticesCount s)%nat /\
  length (snd (buildGeometry s)) = (3 * facesCount s)%nat /\
  Forall (fun i => (i < verticesCount s)%nat) (snd (buildGeometry s)) /\
  distinctCorners (snd (buildGeometry s)) = true.
Proof.
  intros [HI HT HM HC HF] [L1 L2 L3]. unfold buildGeometry. cbn [fst snd].
  assert (Hcorner : forall f w, f ∈ arrFaces s -> w ∈ verticesOf (fget s f) ->
                      w ∈ arrVertices s).
  { intros f w Hf Hw. by destruct (L2 f w Hf Hw). }
  split; [by apply length_flat_map_const|]. split; [by apply length_flat_map_const|].
  split.
  - apply Forall_flat_map. intros f Hf. unfold cornerIndices.
    repeat (apply Forall_cons; split;
      [apply Indexed_index_lt; [done|]; apply (Hcorner f); [done|unfold verticesOf; set_solver]|]).
    constructor.
  - apply distinctCorners_flat_map. intros f Hf. eexists _, _, _. split; [reflexivity|].
    specialize (HF f Hf). unfold verticesOf in HF.
    assert (Hinj : forall v w, v ∈ verticesOf (fget s f) -> w ∈ verticesOf (fget s f) ->
                     index (vget s v) = index (vget s w) -> v = w).
    { intros v w Hv Hw. apply Indexed_index_inj; eauto. }
    apply NoDup_cons in HF as [H1 HF]. apply NoDup_cons in HF as [H2 _].
    rewrite !not_elem_of_cons in H1. rewrite not_elem_of_cons in H2.
    destruct H1 as (Hab & Hac & _), H2 as (Hbc & _).
    unfold verticesOf in Hinj.
    repeat constructor; rewrite ?not_elem_of_cons, ?elem_of_nil.
    + split_and!; [intros E; apply Hab|intros E; apply Hac|tauto];
        apply Hinj; [set_solver..|done].
    + split; [|tauto]. intros E. apply Hbc. apply Hinj; [set_solver..|done].
    + tauto.
Qed.

Section Compose.
Context `{Sqrt}.

Lemma collapse_returns s (count : Q) :
  WF s -> (count <= inject_Z (Z.of_nat (verticesCount s)))%Q ->
  exists s', collapse count s = Some s' /\ WF s' /\
    verticesCount s' = (verticesCount s - Z.to_nat (Qceiling count))%nat.
Proof.
  intros HW Hk.
  destruct (collapse_entry s count) as (s0 & turns & -> & HV & HF & HW0 & -> & _).
  assert (Hlt : Qltb (inject_Z (Z.of_nat (verticesCount s))) count = false)
    by by apply Qltb_ge.
  rewrite Hlt. unfold turnsOf.
  assert (Hc : (Qceiling count <= Z.of_nat (verticesCount s))%Z).
  { rewrite <- (Qceiling_Z (Z.of_nat (verticesCount s))). by apply Qceiling_resp_le. }
  destruct (collapseLoop_spec (Z.to_nat (Qceiling count)) s0 (HW0 HW)) as (s' & E & HW' & Hlen).
  { rewrite HV. unfold verticesCount in Hc. lia. }
  exists s'. split; [done|]. split; [done|]. unfold verticesCount. by rewrite Hlen, HV.
Qed.

(** X9.  [modify] on whole triangles with three different corners
    that name existing vertices, for an integer [0 <= k <= n]: it
    returns a geometry of [n - k] vertices whose index buffer is again
    made of whole triangles with three different corners that name
    existing vertices. *)
Theorem modify_returns_valid_geometry positions indices (k : Z) :
  distinctCorners indices = true ->
  (exists m, length indices = (3 * m)%nat) ->
  Forall (fun i => (i < length positions)%nat) indices ->
  (0 <= k <= Z.of_nat (length positions))%Z ->
  exists log position index,
    modifyIndexed positions indices (inject_Z k) = Some (log, position, index) /\
    length position = (3 * (length positions - Z.to_nat k))%nat /\
    (exists m, length index = (3 * m)%nat) /\
    Forall (fun i => (i < length positions - Z.to_nat k)%nat) index /\
    distinctCorners index = true.
Proof.
  intros Hdist Hlen Hall Hk. unfold modifyIndexed.
  destruct (proj2 (populateFromIndexed_is_Some_iff positions indices)) as [s Hs]; [done|].
  rewrite Hs. cbn [mbind option_bind].
  pose proof (populateFromIndexed_WF _ _ _ Hdist Hs) as HW.
  destruct (populateFromIndexed_Listed _ _ _ Hdist Hs) as [HL _].
  assert (Hn : verticesCount s = length positions).
  { destruct (populateFromIndexed_shape _ _ _ Hs) as (s1 & E1 & _ & HaV & _).
    destruct (addFaces_Raw _ _ _ _ _ _ _ (addVertices_Raw positions) E1) as (f' & HR & _).
    unfold verticesCount. by rewrite HaV, (raw_vertices _ _ _ _ _ HR), length_seq. }
  destruct (collapse_returns s (inject_Z k) HW) as (s' & E & HW' & Hcount).
  { rewrite Hn, <- Zle_Qle. lia. }
  rewrite Qceiling_Z in Hcount.
  rewrite E. cbn [mbind option_bind].
  destruct (collapse_Listed _ _ _ HW HL E) as (_ & HL' & _).
  destruct (buildGeometry_spec s' HW' HL') as (H1 & H2 & H3 & H4).
  destruct (buildGeometry s') as [[log position] index]. cbn [fst snd] in *.
  exists log, position, index. rewrite Hcount, Hn in H1, H3.
  split; [done|]. split; [done|]. split; [by eexists|]. by split.
Qed.

End Compose.

(** *** [face.neighbors] *)

Lemma NoDup_setAddAll l : forall acc, NoDup acc -> NoDup (setAddAll acc l).
Proof.
  unfold setAddAll. induction l as [|x l IH]; intros acc Hacc; [done|]. cbn [fold_left].
  apply IH. case_decide; [done|]. apply NoDup_app. split; [done|].
  split; [|apply NoDup_singleton]. intros y Hy ->%list_elem_of_singleton. done.
Qed.

Lemma faceNeighbors_elem g f n :
  n ∈ faceNeighbors g f <->
  n <> f /\ exists w, w ∈ verticesOf (fget g f) /\ n ∈ faces (vget g w).
Proof.
  unfold faceNeighbors. rewrite elem_of_List_filter, elem_of_setAddAll, !elem_of_app.
  rewrite negb_true_iff, bool_decide_eq_false, elem_of_nil. unfold verticesOf. split.
  - intros [[[]|[Hn|[Hn|Hn]]] Hne]; (split; [done|]); eexists; (split; [|exact Hn]); set_solver.
  - intros [Hne (w & Hw & Hn)]. split; [|done]. right.
    rewrite !elem_of_cons, elem_of_nil in Hw. destruct Hw as [->|[->|[->|[]]]]; tauto.
Qed.

Lemma NoDup_List_filter {A} (P : A -> bool) l : NoDup l -> NoDup (List.filter P l).
Proof.
  induction 1 as [|x l Hx Hl IH]; cbn [List.filter]; [constructor|].
  destruct (P x); [|done]. constructor; [|done]. rewrite elem_of_List_filter. tauto.
Qed.

Lemma faceNeighbors_NoDup g f : NoDup (faceNeighbors g f).
Proof. unfold faceNeighbors. apply NoDup_List_filter, NoDup_setAddAll. constructor. Qed.

Lemma Listed_closedFaces s : Listed s -> closedFaces s.
Proof.
  intros [L1 L2 L3] f n Hf [_ (w & Hw & Hn)]%faceNeighbors_elem.
  destruct (L2 f w Hf Hw) as [HwA _]. by eapply L3.
Qed.

(** X16.  In a well-formed graph whose face array and face lists agree,
    a neighbour of a face of the array is in the array and has that
    face as a neighbour. *)
Theorem faceNeighbors_symmetric s f n :
  WF s -> Listed s -> f ∈ arrFaces s ->
  n ∈ faceNeighbors s f -> n ∈ arrFaces s /\ f ∈ faceNeighbors s n.
Proof.
  intros HW HL Hf Hn. split; [by eapply (Listed_closedFaces s HL f n)|].
  apply faceNeighbors_elem in Hn as [Hne (w & Hw & Hn)].
  destruct (ls_corners _ HL f w Hf Hw) as [HwA Hfw].
  destruct (topo_fc _ _ (wf_topo _ HW) w n HwA Hn) as (Hwn & _).
  apply faceNeighbors_elem. split; [done|]. by exists w.
Qed.

(** *** [resetDegrees] *)

Lemma resetFold_fget l : forall g x,
  fget (fold_left (fun g f => fset g f (set_degree (fget g f) 0)) l g) x =
    if decide (x ∈ l) then set_degree (fget g x) 0 else fget g x.
Proof.
  induction l as [|f l IH]; intros g x; cbn [fold_left]; [done|].
  rewrite IH, fget_fset. destruct (decide (f = x)) as [->|Hfx].
  - rewrite (decide_True (P := x ∈ x :: l)) by by left. by case_decide.
  - destruct (decide (x ∈ l)) as [Hin|Hout].
    + rewrite decide_True; [done|by right].
    + rewrite decide_False; [done|]. rewrite not_elem_of_cons. split; [congruence|done].
Qed.

Lemma resetFold_frame l : forall g,
  let g' := fold_left (fun g f => fset g f (set_degree (fget g f) 0)) l g in
  vertexHeap g' = vertexHeap g /\ arrFaces g' = arrFaces g /\ arrVertices g' = arrVertices g.
Proof.
  induction l as [|f l IH]; intros g; cbn [fold_left]; [done|].
  destruct (IH (fset g f (set_degree (fget g f) 0))) as (-> & -> & ->). done.
Qed.

Lemma resetDegrees_fget g x :
  fget (resetDegrees g) x =
    if decide (x ∈ arrFaces g) then set_degree (fget g x) 0 else fget g x.
Proof. apply resetFold_fget. Qed.

Lemma resetDegrees_frame g :
  vertexHeap (resetDegrees g) = vertexHeap g /\ arrFaces (resetDegrees g) = arrFaces g /\
  arrVertices (resetDegrees g) = arrVertices g.
Proof. apply resetFold_frame. Qed.

Lemma resetDegrees_faceNeighbors g f : faceNeighbors (resetDegrees g) f = faceNeighbors g f.
Proof.
  unfold faceNeighbors. destruct (resetDegrees_frame g) as (Hv & _).
  rewrite resetDegrees_fget. unfold vget. rewrite Hv. by case_decide.
Qed.

Section More.
Context `{Sqrt}.



Lemma decimated_search_covers positions indices count s s' p :
  distinctCorners indices = true ->
  populateFromIndexed positions indices = Some s ->
  collapse count s = Some s' ->
  (2 <= facesCount s')%nat ->
  exists fuel0, forall fuel, (fuel0 <= fuel)%nat ->
    exists g' p' paths,
      nearestNeighborSearch fuel s' p = Some (g', p', paths) /\
      arrFaces g' = arrFaces s' /\
      forall f, f ∈ arrFaces g' -> (1 <= degree (fget g' f))%nat.
Proof.
  intros Hdist Hs Hc Htwo.
  pose proof (populateFromIndexed_WF _ _ _ Hdist Hs) as HW.
  destruct (populateFromIndexed_Listed _ _ _ Hdist Hs) as [HL Hdeg].
  destruct (collapse_Listed _ _ _ HW HL Hc) as (HW' & HL' & Hsub).
  destruct (collapse_Untouched _ _ _ Hc) as [_ Hkeep].
  apply nearestNeighborSearch_covers; [| |done].
  - apply Forall_forall. intros f Hf. destruct (Hkeep f) as [_ ->]. by apply Hdeg, Hsub.
  - apply Forall_forall. intros f Hf. apply Forall_forall. intros n Hn.
    by eapply (Listed_closedFaces s' HL' f n).
Qed.

End More.

Lemma last_spliceIn {A} (l : list A) low x :
  (low < length l)%nat -> last (spliceIn l low x) = last l.
Proof.
  intros Hlow. unfold spliceIn.
  destruct (drop low l) as [|y d] eqn:Ed.
  { apply (f_equal length) in Ed. rewrite length_drop in Ed. simpl in Ed. lia. }
  rewrite <- (take_drop low l) at 2. rewrite Ed.
  rewrite !last_app. cbn [last]. simpl. by destruct d.
Qed.

Lemma addVertex_spec s vertex :
  Indexed s -> vertex ∉ arrVertices s ->
  exists s', addVertex s vertex = Some s' /\ Indexed s' /\
    arrVertices s' = arrVertices s ++ [vertex] /\
    index (vget s' vertex) = length (arrVertices s) /\
    (forall y, y <> vertex -> vget s' y = vget s y) /\
    (arrVerticesByCost s <> [] -> last (arrVerticesByCost s') = last (arrVerticesByCost s)).
Proof.
  intros [Hnd Hidx Hperm] Hnew. unfold addVertex. cbv zeta.
  set (n := length (arrVertices s)).
  set (s2 := set_arrVertices (vset s vertex (set_index (vget s vertex) n))
               (arrVertices (vset s vertex (set_index (vget s vertex) n)) ++ [vertex])).
  assert (HA2 : arrVertices s2 = arrVertices s ++ [vertex]) by done.
  assert (HC2 : arrVerticesByCost s2 = arrVerticesByCost s) by done.
  assert (Hv2 : forall y, vget s2 y = if decide (vertex = y) then set_index (vget s vertex) n
                                       else vget s y).
  { intros y. unfold s2. change (vget (set_arrVertices ?a ?b) ?c) with (vget a c).
    apply vget_vset. }
  clearbody s2.
  destruct (costSearch_Some s2 (collapseCost (vget s2 vertex))
              (length (arrVerticesByCost s2)) 0 (length (arrVerticesByCost s2) - 1))
    as (low & Hlow & _ & Hle); [lia|lia| |].
  { intros e He. rewrite HC2, Hperm in He. apply elem_of_seq in He.
    rewrite HA2, length_app. simpl. fold n. lia. }
  unfold costPosition. rewrite Hlow. cbn [mbind option_bind]. eexists. split; [done|].
  split; [|split; [done|split; [|split]]].
  - constructor; cbn [arrVertices arrVerticesByCost set_arrVerticesByCost]; rewrite ?HA2.
    + apply NoDup_app. split; [done|]. split; [|apply NoDup_singleton].
      intros y Hy ->%list_elem_of_singleton. done.
    + intros i y Hi. change (vget (set_arrVerticesByCost ?a ?b) ?c) with (vget a c).
      rewrite Hv2. destruct (decide (i < n)%nat) as [Hlt|Hge].
      * rewrite lookup_app_l in Hi by done. rewrite decide_False.
        -- by apply Hidx.
        -- intros <-. apply Hnew. by eapply list_elem_of_lookup_2.
      * rewrite lookup_app_r in Hi by (fold n; lia).
        apply list_lookup_singleton_Some in Hi as [Hi <-]. rewrite decide_True by done.
        cbn [index set_index]. fold n in Hi. lia.
    + rewrite spliceIn_Permutation, HC2, Hperm, length_app. simpl. fold n.
      rewrite Nat.add_1_r, seq_S. simpl. by rewrite Permutation_cons_append.
  - change (vget (set_arrVerticesByCost ?a ?b) ?c) with (vget a c).
    rewrite Hv2, decide_True by done. done.
  - intros y Hy. change (vget (set_arrVerticesByCost ?a ?b) ?c) with (vget a c).
    rewrite Hv2, decide_False by done. done.
  - intros Hne. cbn [arrVerticesByCost set_arrVerticesByCost]. rewrite <- HC2.
    apply last_spliceIn. rewrite HC2 in *.
    destruct (arrVerticesByCost s); [done|]. simpl in *. lia.
Qed.

(** ** Face hashes *)

Lemma pretty_N_go_commaFree x s : commaFree s = true -> commaFree (pretty_N_go x s) = true.
Proof.
  revert s. induction (N.lt_wf_0 x) as [x _ IH]; intros s Hs.
  assert (x = 0 \/ 0 < x)%N as [->|Hx] by lia.
  - by rewrite pretty_N_go_0.
  - rewrite pretty_N_go_step by done. apply IH.
    { by apply N.div_lt. }
    cbn [commaFree]. rewrite Hs, andb_true_r.
    unfold pretty_N_char. by repeat case_match.
Qed.

Lemma pretty_N_commaFree (x : N) : commaFree (pretty x) = true.
Proof.
  unfold pretty, pretty_N. case_decide; [done|]. by apply pretty_N_go_commaFree.
Qed.

Lemma pretty_nat_commaFree (x : nat) : commaFree (pretty x) = true.
Proof. apply pretty_N_commaFree. Qed.

Lemma pretty_Z_commaFree (x : Z) : commaFree (pretty x) = true.
Proof.
  destruct x as [|p|p]; [done|apply pretty_N_commaFree|].
  change (pretty (Z.neg p)) with ("-" +:+ pretty (N.pos p)).
  cbn [String.append commaFree]. apply pretty_N_commaFree.
Qed.

Lemma append_comma_inj a a' r r' :
  commaFree a = true -> commaFree a' = true ->
  a +:+ "," +:+ r = a' +:+ "," +:+ r' -> a = a' /\ r = r'.
Proof.
  revert a'. induction a as [|c a IH]; intros [|c' a'] Ha Ha' Heq;
    cbn [String.append commaFree] in *.
  - by simplify_eq.
  - by simplify_eq.
  - by simplify_eq.
  - injection Heq as -> Heq.
    apply andb_true_iff in Ha as [_ Ha]. apply andb_true_iff in Ha' as [_ Ha'].
    destruct (IH a' Ha Ha' Heq) as [-> ->]. done.
Qed.

Lemma sort3_Permutation i j k : sort3 i j k ≡ₚ [i; j; k].
Proof. apply merge_sort_Permutation. Qed.

Lemma sort3_perm i j k i' j' k' :
  [i; j; k] ≡ₚ [i'; j'; k'] -> sort3 i j k = sort3 i' j' k'.
Proof.
  intros Hp. apply (Sorted_unique Nat.le); try apply Sorted_merge_sort; try apply _.
  by rewrite !sort3_Permutation.
Qed.

Lemma sort3_three i j k : exists p q r, sort3 i j k = [p; q; r].
Proof.
  pose proof (Permutation_length (sort3_Permutation i j k)) as Hl.
  destruct (sort3 i j k) as [|p [|q [|r [|]]]]; try done. by exists p, q, r.
Qed.

Lemma hashOf_eq_iff i j k i' j' k' :
  hashOf i j k = hashOf i' j' k' <-> [i; j; k] ≡ₚ [i'; j'; k'].
Proof.
  split.
  - unfold hashOf. intros Heq.
    rewrite <- (sort3_Permutation i j k), <- (sort3_Permutation i' j' k').
    destruct (sort3_three i j k) as (p & q & r & E).
    destruct (sort3_three i' j' k') as (p' & q' & r' & E').
    rewrite E, E' in Heq |- *.
    apply append_comma_inj in Heq as [Hp Heq]; try apply pretty_nat_commaFree.
    apply append_comma_inj in Heq as [Hq Hr]; try apply pretty_nat_commaFree.
    by rewrite (inj pretty _ _ Hp), (inj pretty _ _ Hq), (inj pretty _ _ Hr).
  - intros Hp. unfold hashOf. by rewrite (sort3_perm _ _ _ _ _ _ Hp).
Qed.

Section FaceEquals.
Context `{Sqrt}.

Lemma populate_corner_index positions indices s f w :
  populateFromIndexed positions indices = Some s ->
  f ∈ arrFaces s -> w ∈ verticesOf (fget s f) -> index (vget s w) = w.
Proof.
  intros Hs Hf Hw. destruct (populateFromIndexed_shape _ _ _ Hs)
    as (s1 & E1 & HaF & HaV & Hv & Hg & _).
  pose proof (addVertices_Raw positions) as HR0.
  destruct (addFaces_Raw _ _ _ _ _ _ _ HR0 E1) as (f' & [RV RK RF RC RD] & Hall).
  destruct (Hv w) as (_ & _ & -> & _). destruct (RK w) as (-> & _).
  destruct (addVertices_spec positions emptyGraph 0) as (_ & Hnew & _).
  apply Hnew. split; [lia|]. cbn [Nat.add].
  rewrite Forall_forall in Hall. apply Hall. cbn [app] in RC. rewrite <- RC.
  apply list_elem_of_In, in_flat_map. exists f. rewrite <- RF, <- HaF.
  split; [by apply list_elem_of_In|]. apply list_elem_of_In.
  by destruct (Hg f) as [<- _].
Qed.

(** X21.  After [populateFromGeometry], [face.equals( other )] holds
    exactly when the two faces have the same three vertices. *)
Theorem equals_compares_vertex_sets positions indices s f g :
  populateFromIndexed positions indices = Some s ->
  f ∈ arrFaces s -> g ∈ arrFaces s ->
  faceEquals s f g = true <-> verticesOf (fget s f) ≡ₚ verticesOf (fget s g).
Proof.
  intros Hs Hf Hg. unfold faceEquals. rewrite String.eqb_eq.
  rewrite (populate_hashes _ _ s f Hs Hf), (populate_hashes _ _ s g Hs Hg).
  unfold currentHash. rewrite hashOf_eq_iff. unfold verticesOf.
  pose proof (fun w => populate_corner_index _ _ s f w Hs Hf) as If.
  pose proof (fun w => populate_corner_index _ _ s g w Hs Hg) as Ig.
  unfold verticesOf in If, Ig.
  rewrite (If (v1 (fget s f))), (If (v2 (fget s f))), (If (v3 (fget s f))) by set_solver.
  by rewrite (Ig (v1 (fget s g))), (Ig (v2 (fget s g))), (Ig (v3 (fget s g))) by set_solver.
Qed.

End FaceEquals.

(** ** Welding *)

Lemma vectorsOf_coordinates vs : vectorsOf (flat_map coordinates vs) = vs.
Proof.
  induction vs as [|[x y z] vs IH]; [done|].
  cbn [flat_map coordinates app vectorsOf Vector3.x Vector3.y Vector3.z]. by rewrite IH.
Qed.

Lemma Welding_init positions : Welding positions [] (mkWeld ∅ 0 [] []) [].
Proof.
  split; cbn; try done.
  - intros h j. rewrite lookup_empty. split; [done|]. by intros (q & Hq & _).
  - intros j Hj. lia.
  - intros q Hq. by apply elem_of_nil in Hq.
Qed.

Lemma weldStep_Welding positions done w vs index p :
  Welding positions done w vs -> positions !! index = Some p ->
  exists w' vs',
    weldStep positions w index = Some w' /\
    Welding positions (done ++ [index]) w' vs'.
Proof.
  intros [HA HN HL HI HU HF] Hp. unfold weldStep. rewrite Hp. cbn [mbind option_bind].
  fold (pointHash p).
  destruct (hashToIndex w !! pointHash p) as [found|] eqn:E.
  - eexists _, vs. split; [done|]. split; cbn [positionsArray nextIndex hashToIndex newIndices];
      try done.
    + apply Forall2_app; [done|]. apply Forall2_cons; split; [|done].
      apply HL in E as (q & Hq & Hh). by exists p, q.
    + intros j Hj. apply elem_of_app. left. by apply HU.
  - eexists _, (vs ++ [p]). split; [done|].
    split; cbn [positionsArray nextIndex hashToIndex newIndices].
    + rewrite HA, flat_map_app. cbn [flat_map coordinates]. by rewrite app_nil_r.
    + rewrite length_app. cbn [length]. lia.
    + intros h j. rewrite lookup_insert_Some, HL. split.
      * intros [[<- <-]|[Hne (q & Hq & Hh)]].
        -- exists p. split; [|done]. rewrite HN. by apply list_lookup_middle.
        -- exists q. split; [|done]. by apply lookup_app_l_Some.
      * intros (q & Hq & Hh). apply lookup_app_Some in Hq as [Hq|[Hlen Hq]].
        -- right. split; [|by exists q]. intros <-.
           assert (hashToIndex w !! pointHash p = Some j) as Hc by (apply HL; by exists q).
           by rewrite E in Hc.
        -- left. destruct (j - length vs)%nat as [|k] eqn:Ek; [|done].
           cbn in Hq. injection Hq as <-. split; [done|]. lia.
    + apply Forall2_app.
      * eapply Forall2_impl; [exact HI|]. intros idx j (p0 & q & Hp0 & Hq & Hh).
        exists p0, q. split; [done|]. split; [by apply lookup_app_l_Some|done].
      * apply Forall2_cons; split; [|done]. exists p, p. split; [done|]. split; [|done].
        rewrite HN. by apply list_lookup_middle.
    + intros j Hj. rewrite length_app in Hj. cbn [length] in Hj. apply elem_of_app.
      destruct (decide (j < length vs)%nat) as [Hlt|Hge].
      * left. by apply HU.
      * right. apply list_elem_of_singleton. lia.
    + intros q Hq. apply elem_of_app in Hq as [Hq|Hq]; [by apply HF|].
      apply list_elem_of_singleton in Hq as ->. by eapply list_elem_of_lookup_2.
Qed.

Lemma weldLoop_Welding positions order : forall done w vs,
  Welding positions done w vs ->
  Forall (fun i => (i < length positions)%nat) order ->
  exists w' vs',
    weldLoop positions w order = Some w' /\
    Welding positions (done ++ order) w' vs'.
Proof.
  induction order as [|index order IH]; intros done w vs HW Hall; cbn [weldLoop].
  - exists w, vs. by rewrite app_nil_r.
  - apply Forall_cons in Hall as [Hi Hall].
    destruct (lookup_lt_is_Some_2 positions index Hi) as [p Hp].
    destruct (weldStep_Welding _ _ _ _ _ _ HW Hp) as (w1 & vs1 & -> & HW1).
    cbn [mbind option_bind].
    destruct (IH _ _ _ HW1 Hall) as (w' & vs' & E & HW').
    exists w', vs'. split; [done|]. by rewrite <- app_assoc in HW'.
Qed.

Lemma weldLoop_in_range positions order : forall w w',
  weldLoop positions w order = Some w' ->
  Forall (fun i => (i < length positions)%nat) order.
Proof.
  induction order as [|index order IH]; intros w w' Hw; [done|].
  cbn [weldLoop] in Hw. destruct (weldStep positions w index) as [w1|] eqn:E; [|done].
  cbn [mbind option_bind] in Hw. apply Forall_cons. split; [|by eapply IH].
  unfold weldStep in E. destruct (positions !! index) as [p|] eqn:Ep; [|done].
  by eapply lookup_lt_Some.
Qed.

Lemma Welding_NoDup positions done w vs :
  Welding positions done w vs -> NoDup (pointHash <$> vs).
Proof.
  intros HW. apply NoDup_alt. intros i j h Hi Hj.
  rewrite list_lookup_fmap in Hi, Hj.
  destruct (vs !! i) as [qi|] eqn:Ei; [|done]. destruct (vs !! j) as [qj|] eqn:Ej; [|done].
  cbn in Hi, Hj. injection Hi as Hi. injection Hj as Hj.
  assert (hashToIndex w !! h = Some i) as H1 by (apply (wd_lut _ _ _ _ HW); by exists qi).
  assert (hashToIndex w !! h = Some j) as H2 by (apply (wd_lut _ _ _ _ HW); by exists qj).
  congruence.
Qed.

Lemma indexAndMergeVertices_spec positions indices :
  Forall (fun i => (i < length positions)%nat) (weldOrder positions indices) ->
  exists vs newIndices,
    indexAndMergeVertices positions indices = Some (flat_map coordinates vs, newIndices) /\
    length newIndices = length (weldOrder positions indices) /\
    Forall (fun j => (j < length vs)%nat) newIndices /\
    (forall j, (j < length vs)%nat -> j ∈ newIndices) /\
    NoDup (pointHash <$> vs) /\
    (forall q, q ∈ vs -> q ∈ positions) /\
    Forall2 (fun index j => exists p q,
               positions !! index = Some p /\ vs !! j = Some q /\
               pointHash q = pointHash p)
            (weldOrder positions indices) newIndices.
Proof.
  intros Hr.
  destruct (weldLoop_Welding positions _ [] _ [] (Welding_init positions) Hr)
    as (w & vs & E & HW).
  exists vs, (newIndices w). unfold indexAndMergeVertices. rewrite E.
  cbn [mbind option_bind app] in *. rewrite (wd_array _ _ _ _ HW).
  split; [done|]. pose proof (wd_indices _ _ _ _ HW) as HI.
  split; [by rewrite (Forall2_length _ _ _ HI)|].
  split.
  { apply Forall_forall. intros j Hj.
    apply list_elem_of_lookup in Hj as [i Hi].
    destruct (Forall2_lookup_r _ _ _ _ _ HI Hi) as (idx & _ & p & q & _ & Hq & _).
    by eapply lookup_lt_Some. }
  split; [exact (wd_used _ _ _ _ HW)|].
  split; [by eapply Welding_NoDup|].
  split; [exact (wd_from _ _ _ _ HW)|done].
Qed.

Lemma getHash_eq_iff x y z x' y' z' :
  getHash x y z = getHash x' y' z' <->
  toInt32 (x * 10000) = toInt32 (x' * 10000) /\
  toInt32 (y * 10000) = toInt32 (y' * 10000) /\
  toInt32 (z * 10000) = toInt32 (z' * 10000).
Proof.
  unfold getHash. split.
  - intros Heq.
    apply append_comma_inj in Heq as [Hx Heq]; try apply pretty_Z_commaFree.
    apply append_comma_inj in Heq as [Hy Heq]; try apply pretty_Z_commaFree.
    assert (Hz : pretty (toInt32 (z * 10000)) +:+ "," +:+ "" =
                 pretty (toInt32 (z' * 10000)) +:+ "," +:+ "") by done.
    apply append_comma_inj in Hz as [Hz _]; try apply pretty_Z_commaFree.
    by rewrite (inj pretty _ _ Hx), (inj pretty _ _ Hy), (inj pretty _ _ Hz).
  - by intros (-> & -> & ->).
Qed.

(** Truncation towards zero moves a number by less than one. *)
Lemma trunc_close (v : Q) :
  (inject_Z (Z.quot (Qnum v) (Z.pos (Qden v))) - 1 < v)%Q /\
  (v < inject_Z (Z.quot (Qnum v) (Z.pos (Qden v))) + 1)%Q.
Proof.
  destruct v as [n d]. cbn [Qnum Qden]. unfold Qlt, Qminus, Qplus, Qopp, inject_Z.
  cbn [Qnum Qden]. change (Z.pos (1 * 1)) with 1%Z. rewrite !Z.mul_1_r.
  pose proof (Z.quot_rem' n (Z.pos d)) as Hqr.
  assert (Hd : (0 < Z.pos d)%Z) by lia.
  destruct (Z.le_gt_cases 0 n) as [Hn|Hn].
  - pose proof (Z.rem_bound_pos n (Z.pos d) Hn Hd). nia.
  - pose proof (Z.rem_bound_pos_neg n (Z.pos d) Hd ltac:(lia)). nia.
Qed.

(** Within the signed 32-bit integers [~ ~] is the truncation. *)
Lemma toInt32_small (v : Q) :
  (- inject_Z (2 ^ 31) < v < inject_Z (2 ^ 31))%Q ->
  toInt32 v = Z.quot (Qnum v) (Z.pos (Qden v)).
Proof.
  intros [Hlo Hhi]. unfold toInt32. cbv zeta.
  set (t := Z.quot (Qnum v) (Z.pos (Qden v))).
  destruct (trunc_close v) as [H1 H2]. fold t in H1, H2.
  assert (- 2 ^ 31 - 1 < t < 2 ^ 31 + 1)%Z as Ht.
  { assert (E1 : (inject_Z (- 2 ^ 31 - 1) == - inject_Z (2 ^ 31) - 1)%Q) by reflexivity.
    assert (E2 : (inject_Z (2 ^ 31 + 1) == inject_Z (2 ^ 31) + 1)%Q) by reflexivity.
    split; rewrite Zlt_Qlt; lra. }
  assert (t <> 2 ^ 31)%Z as Hne.
  { intros Heq. assert (inject_Z t <= v)%Q; [|rewrite Heq in *; lra].
    subst t. destruct v as [n d]. cbn [Qnum Qden] in *. unfold Qle, inject_Z.
    cbn [Qnum Qden]. rewrite Z.mul_1_r.
    assert (0 <= n)%Z.
    { destruct (Z.le_gt_cases 0 n) as [|Hneg]; [done|].
      pose proof (Z.quot_opp_l n (Z.pos d) ltac:(lia)) as Ho.
      pose proof (Z.quot_pos (- n) (Z.pos d) ltac:(lia) ltac:(lia)). lia. }
    pose proof (Z.mul_quot_le n (Z.pos d) ltac:(done) ltac:(lia)). lia. }
  rewrite Z.mod_small by lia. lia.
Qed.

Lemma toInt32_close (a b : Q) :
  (- inject_Z (2 ^ 31) < a < inject_Z (2 ^ 31))%Q ->
  (- inject_Z (2 ^ 31) < b < inject_Z (2 ^ 31))%Q ->
  toInt32 a = toInt32 b -> (Qabs (a - b) < 2)%Q.
Proof.
  intros Ha Hb. rewrite (toInt32_small a Ha), (toInt32_small b Hb). intros Heq.
  destruct (trunc_close a) as [A1 A2]. destruct (trunc_close b) as [B1 B2].
  rewrite Heq in A1, A2. apply Qabs_Qlt_condition. split; lra.
Qed.

Lemma weld_distinctCorners positions (vs : list Vector3.t) : forall order newIndices,
  Forall2 (fun index j => exists p q,
             positions !! index = Some p /\ vs !! j = Some q /\
             pointHash q = pointHash p) order newIndices ->
  distinctHashes positions order = true -> distinctCorners newIndices = true.
Proof.
  induction order as [order IH] using (induction_ltof1 _ (@length nat)).
  unfold ltof in IH. intros newIndices HF Hd.
  destruct HF as [|a a' order idx Ha HF]; [done|].
  destruct HF as [|b b' order idx Hb HF]; [done|].
  destruct HF as [|c c' order idx Hc HF]; [done|].
  cbn [distinctHashes distinctCorners] in *.
  rewrite !andb_true_iff, !bool_decide_eq_true in Hd.
  destruct Hd as [[[Hab Hbc] Hac] Hd].
  destruct Ha as (pa & qa & Hpa & Hqa & Hha). destruct Hb as (pb & qb & Hpb & Hqb & Hhb).
  destruct Hc as (pc & qc & Hpc & Hqc & Hhc).
  rewrite Hpa, Hpb, Hpc in *. cbn [fmap option_fmap option_map] in *.
  rewrite !andb_true_iff, !bool_decide_eq_true.
  split; [|by apply (IH order ltac:(simpl; lia))].
  repeat split; intros ->; simplify_eq; congruence.
Qed.

Section PopulateFromGeometry.
Context `{Sqrt}.

Lemma populate_position positions indices s k p :
  populateFromIndexed positions indices = Some s ->
  positions !! k = Some p -> position (vget s k) = p.
Proof.
  intros Hs Hp. destruct (populateFromIndexed_shape _ _ _ Hs)
    as (s1 & E1 & HaF & HaV & Hv & Hg & _).
  pose proof (addVertices_Raw positions) as HR0.
  destruct (addFaces_Raw _ _ _ _ _ _ _ HR0 E1) as (f' & [RV RK RF RC RD] & Hall).
  destruct (Hv k) as (_ & _ & _ & ->). destruct (RK k) as (_ & _ & _ & ->).
  by apply (addVertices_position positions emptyGraph 0 k p).
Qed.

Lemma populate_arrVertices positions indices s :
  populateFromIndexed positions indices = Some s ->
  arrVertices s = seq 0 (length positions).
Proof.
  intros Hs. destruct (populateFromIndexed_shape _ _ _ Hs)
    as (s1 & E1 & HaF & HaV & Hv & Hg & _).
  pose proof (addVertices_Raw positions) as HR0.
  destruct (addFaces_Raw _ _ _ _ _ _ _ HR0 E1) as (f' & [RV RK RF RC RD] & Hall).
  by rewrite HaV, RV.
Qed.

Lemma populateFromGeometry_is_Some_iff positions indices :
  Forall (fun i => (i < length positions)%nat) (weldOrder positions indices) ->
  is_Some (populateFromGeometry positions indices) <->
  exists k, length (weldOrder positions indices) = (3 * k)%nat.
Proof.
  intros Hr.
  destruct (indexAndMergeVertices_spec positions indices Hr)
    as (vs & newIdx & E & Hlen & Hlt & _).
  unfold populateFromGeometry. rewrite E. cbn [mbind option_bind].
  rewrite vectorsOf_coordinates, populateFromIndexed_is_Some_iff, Hlen. tauto.
Qed.


End PopulateFromGeometry.

Lemma scaled_bound (a : Q) :
  (Qabs a < 214748)%Q -> (- inject_Z (2 ^ 31) < a * 10000 < inject_Z (2 ^ 31))%Q.
Proof.
  intros Ha. apply Qabs_Qlt_condition in Ha.
  assert (E : (inject_Z (2 ^ 31) == 2147483648)%Q) by reflexivity.
  rewrite E. lra.
Qed.

Lemma pointHash_close p q :
  inRange32 p -> inRange32 q -> pointHash q = pointHash p ->
  (Qabs (Vector3.x q - Vector3.x p) < 2 / 10000)%Q /\
  (Qabs (Vector3.y q - Vector3.y p) < 2 / 10000)%Q /\
  (Qabs (Vector3.z q - Vector3.z p) < 2 / 10000)%Q.
Proof.
  intros (Px & Py & Pz) (Qx & Qy & Qz) Hh. apply getHash_eq_iff in Hh as (Hx & Hy & Hz).
  apply toInt32_close in Hx, Hy, Hz; try by apply scaled_bound.
  apply Qabs_Qlt_condition in Hx. apply Qabs_Qlt_condition in Hy.
  apply Qabs_Qlt_condition in Hz.
  assert (E : (2 / 10000 == 1 # 5000)%Q) by reflexivity.
  repeat split; apply Qabs_Qlt_condition; rewrite E; lra.
Qed.


(** ** Removing excess points *)

Lemma thinFrom_spec intervalSqrd j : forall path prevPoint lengthSqrd removed tl,
  (j <= length path)%nat -> drop j path = tl ->
  exists path',
    thinFrom intervalSqrd j path prevPoint lengthSqrd removed
      = Some (path', (removed + (length path - length path'))%nat) /\
    sublist path' path /\ drop (length path' - length tl) path' = tl /\
    (length tl <= length path' <= length path)%nat.
Proof.
  induction j as [|j IH]; intros path prevPoint lengthSqrd removed tl Hj Htl;
    cbn [thinFrom].
  - exists path. rewrite Nat.sub_diag, Nat.add_0_r. split; [done|]. split; [done|].
    rewrite drop_0 in Htl. subst tl. rewrite Nat.sub_diag. by rewrite drop_0.
  - destruct (lookup_lt_is_Some_2 path j ltac:(lia)) as [point Hpoint].
    rewrite Hpoint. cbn [mbind option_bind].
    destruct (Qltb _ intervalSqrd).
    + destruct (IH (delete j path) point
                  (lengthSqrd + Vector3.distanceToSquared point prevPoint)%Q
                  (S removed) tl) as (path' & -> & Hsub & Hdrop & Hlen).
      { rewrite length_delete by eauto. lia. }
      { rewrite <- Htl. apply list_eq. intros k. rewrite !lookup_drop.
        by rewrite list_lookup_delete_ge by lia. }
      rewrite length_delete in * by eauto.
      exists path'. split; [do 2 f_equal; lia|]. split; [|split; [done|lia]].
      etrans; [exact Hsub|]. apply sublist_delete.
    + destruct (IH path point 0%Q removed (point :: tl)) as (path' & -> & Hsub & Hdrop & Hlen).
      { lia. }
      { rewrite <- Htl. by apply drop_S. }
      cbn [length] in *. exists path'. split; [done|]. split; [done|]. split; [|lia].
      replace (length path' - length tl)%nat with (length path' - S (length tl) + 1)%nat by lia.
      by rewrite <- drop_drop, Hdrop.
Qed.

Lemma last_drop_singleton {A} (l : list A) (x : A) :
  drop (length l - 1) l = [x] -> last l = Some x.
Proof.
  intros Hd. rewrite <- (take_drop (length l - 1) l), Hd. by rewrite last_snoc.
Qed.

Lemma drop_last_singleton {A} (l : list A) (x : A) :
  last l = Some x -> drop (length l - 1) l = [x].
Proof.
  intros Hl. destruct l as [|y l _] using rev_ind; [done|].
  rewrite last_snoc in Hl. injection Hl as ->.
  rewrite length_app. cbn [length]. rewrite Nat.add_sub, drop_app_length. done.
Qed.

Lemma thinPath_spec intervalSqrd path removed :
  exists path',
    thinPath intervalSqrd path removed
      = Some (path', (removed + (length path - length path'))%nat) /\
    sublist path' path /\ last path' = last path /\
    (length path' <= length path)%nat.
Proof.
  unfold thinPath. destruct (last path) as [prevPoint|] eqn:El.
  - destruct (thinFrom_spec intervalSqrd (length path - 1) path prevPoint 0 removed
                [prevPoint]) as (path' & -> & Hsub & Hdrop & Hlen); [lia| |].
    { by apply drop_last_singleton. }
    exists path'. split; [done|]. split; [done|]. split; [|lia].
    by apply last_drop_singleton.
  - exists path. rewrite Nat.sub_diag, Nat.add_0_r. by rewrite El.
Qed.

Lemma pointTotal_app l k : pointTotal (l ++ k) = (pointTotal l + pointTotal k)%nat.
Proof. apply sum_list_with_app. Qed.

Lemma pointTotal_singleton path : pointTotal [path] = length path.
Proof. unfold pointTotal. cbn [sum_list_with]. lia. Qed.

Lemma removeExcess_spec intervalSqrd pre : forall post removed,
  exists pre' kept,
    removeExcess intervalSqrd (length pre) (pre ++ post) removed
      = Some (pre' ++ post, (removed + (pointTotal pre - pointTotal pre'))%nat) /\
    sublist kept pre /\ Forall2 thinnedFrom pre' kept /\
    (pointTotal pre' <= pointTotal pre)%nat.
Proof.
  induction pre as [|path pre IH] using rev_ind; intros post removed.
  - exists [], []. cbn. rewrite Nat.add_0_r. by repeat split.
  - rewrite length_app. cbn [length]. rewrite Nat.add_1_r. cbn [removeExcess].
    rewrite <- app_assoc. cbn [app]. rewrite list_lookup_middle by done.
    cbn [mbind option_bind].
    destruct (thinPath_spec intervalSqrd path removed) as (path' & -> & Hsub & Hlast & Hlen).
    cbn [mbind option_bind]. rewrite !pointTotal_app, !pointTotal_singleton.
    destruct (length path' <? 2)%nat eqn:E2.
    + replace (delete (length pre) (pre ++ path :: post)) with (pre ++ post).
      2:{ rewrite delete_middle. done. }
      destruct (IH post (removed + (length path - length path') + length path')%nat)
        as (pre' & kept & -> & Hk & HF & Hle).
      exists pre', kept. split; [do 2 f_equal; lia|].
      split; [by apply sublist_inserts_r|]. split; [done|lia].
    + apply Nat.ltb_ge in E2.
      replace (<[length pre:=path']> (pre ++ path :: post)) with (pre ++ path' :: post).
      2:{ by rewrite insert_app_r_alt, Nat.sub_diag by lia. }
      destruct (IH (path' :: post) (removed + (length path - length path'))%nat)
        as (pre' & kept & -> & Hk & HF & Hle).
      exists (pre' ++ [path']), (kept ++ [path]). rewrite <- app_assoc. cbn [app].
      rewrite !pointTotal_app, !pointTotal_singleton.
      split; [do 2 f_equal; lia|].
      split; [by apply sublist_app|]. split; [|lia].
      apply Forall2_app; [done|]. apply Forall2_cons; split; [|done]. done.
Qed.

(** X26.  The removal of excess points always returns.  When the
    interval is not above the shortest edge nothing changes; otherwise
    the paths left are, in order, some of the paths given, each thinned
    to a sublist with the same last point and at least two points, and
    the number logged is the number of points that are gone. *)
Theorem removeExcessPoints_thins_paths pointInterval shortestEdge paths :
  exists paths' logged,
    removeExcessPoints pointInterval shortestEdge paths = Some (paths', logged) /\
    (Qltb shortestEdge pointInterval = false -> paths' = paths /\ logged = None) /\
    (Qltb shortestEdge pointInterval = true ->
       logged = Some (pointTotal paths - pointTotal paths')%nat /\
       exists kept, sublist kept paths /\ Forall2 thinnedFrom paths' kept).
Proof.
  unfold removeExcessPoints. destruct (Qltb shortestEdge pointInterval).
  - destruct (removeExcess_spec (pointInterval * pointInterval) paths [] 0)
      as (pre' & kept & E & Hk & HF & Hle).
    rewrite !app_nil_r in E. rewrite E. cbn [mbind option_bind].
    exists pre', (Some (pointTotal paths - pointTotal pre')%nat).
    split; [done|]. split; [done|]. intros _. split; [done|]. by exists kept.
  - exists paths, None. split; [done|]. split; [done|]. done.
Qed.

(** ** Sorting the paths *)

Lemma findNearest_spec e tests : forall j bestPath bestDistanceSqrd,
  Forall (fun t => t <> []) tests ->
  exists r, findNearest (Some e) tests j bestPath bestDistanceSqrd = Some r /\
    ((r = bestPath /\
      forall t f, t ∈ tests -> head t = Some f ->
        exists best, bestDistanceSqrd = Some best /\
                     (best <= Vector3.distanceToSquared e f)%Q) \/
     (exists k t f, r = Some (j + k)%nat /\ tests !! k = Some t /\ head t = Some f /\
        (forall t' f', t' ∈ tests -> head t' = Some f' ->
           (Vector3.distanceToSquared e f <= Vector3.distanceToSquared e f')%Q) /\
        (forall best, bestDistanceSqrd = Some best ->
           (Vector3.distanceToSquared e f < best)%Q))).
Proof.
  induction tests as [|testPath tests IH]; intros j bestPath best Hne; cbn [findNearest].
  - exists bestPath. split; [done|]. left. split; [done|].
    intros t f Ht. by apply elem_of_nil in Ht.
  - apply Forall_cons in Hne as [Hne1 Hne]. cbn [mbind option_bind].
    destruct testPath as [|first testPath]; [done|]. cbn [head mbind option_bind].
    set (d := Vector3.distanceToSquared e first).
    destruct (match best with Some best0 => Qltb d best0 | None => true end) eqn:Etake.
    + destruct (IH (S j) (Some j) (Some d) Hne) as (r & -> & Hcase). eexists. split; [done|].
      right. destruct Hcase as [[-> Hall]|(k & t & f & -> & Hk & Hf & Hall & Hlt)].
      * exists 0%nat, (first :: testPath), first. rewrite Nat.add_0_r.
        split; [done|]. split; [done|]. split; [done|]. split.
        -- intros t' f' Ht' Hf'. apply elem_of_cons in Ht' as [->|Ht'].
           ++ injection Hf' as <-. apply Qle_refl.
           ++ destruct (Hall t' f' Ht' Hf') as (b & [= <-] & Hb). done.
        -- intros b ->. by apply Qltb_lt.
      * exists (S k), t, f. split; [f_equal; lia|]. split; [done|]. split; [done|].
        pose proof (Hlt d eq_refl) as Hd. split.
        -- intros t' f' Ht' Hf'. apply elem_of_cons in Ht' as [->|Ht']; [|by eapply Hall].
           injection Hf' as <-. fold d. by apply Qlt_le_weak.
        -- intros b ->. apply Qltb_lt in Etake. by etrans.
    + destruct best as [best0|]; [|done]. apply Qltb_ge in Etake.
      destruct (IH (S j) bestPath (Some best0) Hne) as (r & -> & Hcase).
      eexists. split; [done|].
      destruct Hcase as [[-> Hall]|(k & t & f & -> & Hk & Hf & Hall & Hlt)].
      * left. split; [done|]. intros t' f' Ht' Hf'. apply elem_of_cons in Ht' as [->|Ht'].
        -- injection Hf' as <-. by exists best0.
        -- by eapply Hall.
      * right. exists (S k), t, f. split; [f_equal; lia|]. split; [done|]. split; [done|].
        pose proof (Hlt best0 eq_refl) as Hd. split.
        -- intros t' f' Ht' Hf'. apply elem_of_cons in Ht' as [->|Ht']; [|by eapply Hall].
           injection Hf' as <-. fold d. apply Qlt_le_weak. by eapply Qlt_le_trans.
        -- by intros b [= <-].
Qed.

Lemma nearestChain_nearestNext paths : nearestChain paths -> nearestNext 0 paths.
Proof.
  induction paths as [|a paths IH]; intros Hc i' j x b c da dc _ Hj Hx Hb Hcj Hda Hdc; [done|].
  destruct paths as [|b0 rest]; [done|]. destruct Hc as [Hhere Hc].
  destruct i' as [|i'].
  - cbn in Hx, Hb. simplify_eq. destruct j as [|[|j]]; [lia|lia|].
    cbn in Hcj. apply (Hhere c da dc); [|done|done]. by eapply list_elem_of_lookup_2.
  - destruct j as [|j]; [lia|]. cbn in Hx, Hb, Hcj.
    apply (IH Hc i' j x b c da dc); (done || lia).
Qed.

Lemma sortFrom_spec n : forall D pre a,
  length D = n -> Forall (fun t => t <> []) (a :: D) ->
  exists D',
    sortFrom (S (length D)) (length pre) (pre ++ a :: D) = Some (pre ++ a :: D') /\
    D' ≡ₚ D /\ nearestChain (a :: D').
Proof.
  induction n as [|n IH]; intros D pre a Hlen Hne.
  - destruct D; [|done]. exists []. cbn [sortFrom length].
    rewrite list_lookup_middle by done. cbn [mbind option_bind].
    rewrite drop_ge by (rewrite length_app; cbn; lia). cbn. done.
  - cbn [sortFrom]. rewrite list_lookup_middle by done. cbn [mbind option_bind].
    replace (drop (S (length pre)) (pre ++ a :: D)) with D.
    2:{ rewrite (cons_middle a), app_assoc, drop_app_length'; [done|].
        rewrite length_app. cbn. lia. }
    apply Forall_cons in Hne as [Ha HD].
    destruct (last a) as [e|] eqn:Ee.
    2:{ apply last_None in Ee. done. }
    destruct (findNearest_spec e D (S (length pre)) None None HD) as (r & -> & Hcase).
    cbn [mbind option_bind].
    destruct Hcase as [[-> Hall]|(k & t & f & -> & Hk & Hf & Hmin & _)].
    { destruct D as [|t D]; [done|]. apply Forall_cons in HD as [Ht _].
      destruct t as [|f t]; [done|].
      destruct (Hall (f :: t) f ltac:(left) eq_refl) as (b & Hb & _). done. }
    assert (Hgap : forall c dc, c ∈ D -> gapSqrd a c = Some dc ->
              (Vector3.distanceToSquared e f <= dc)%Q).
    { intros c dc Hc Hdc. unfold gapSqrd in Hdc. rewrite Ee in Hdc. cbn in Hdc.
      destruct (head c) as [fc|] eqn:Efc; [|done]. cbn in Hdc. injection Hdc as <-.
      by eapply Hmin. }
    destruct D as [|d0 Drest]; [done|].
    assert (exists D1, match (if negb (S (length pre) + k =? S (length pre))%nat
                              then swapPaths (pre ++ a :: d0 :: Drest) (S (length pre) + k)
                                     (S (length pre))
                              else Some (pre ++ a :: d0 :: Drest)) with
                       | Some paths1 => paths1 = (pre ++ [a]) ++ t :: D1
                       | None => False
                       end /\ t :: D1 ≡ₚ d0 :: Drest) as (D1 & Hp1 & Hperm).
    { destruct k as [|k].
      - rewrite Nat.add_0_r, Nat.eqb_refl. cbn [negb]. cbn in Hk. injection Hk as ->.
        exists Drest. by rewrite <- app_assoc.
      - replace (S (length pre) + S k =? S (length pre))%nat with false
          by (symmetry; apply Nat.eqb_neq; lia).
        cbn [negb]. unfold swapPaths.
        replace ((pre ++ a :: d0 :: Drest) !! (S (length pre) + S k)%nat) with (Some t).
        2:{ rewrite (cons_middle a), app_assoc, lookup_app_r; rewrite length_app; cbn; [|lia].
            rewrite <- Hk. f_equal. lia. }
        replace ((pre ++ a :: d0 :: Drest) !! S (length pre)) with (Some d0).
        2:{ rewrite (cons_middle a), app_assoc, lookup_app_r; rewrite length_app; cbn; [|lia].
            by replace (S (length pre) - (length pre + 1))%nat with 0%nat by lia. }
        cbn [mbind option_bind]. exists (<[k := d0]> Drest). split.
        + rewrite (cons_middle a), app_assoc.
          rewrite !insert_app_r_alt by (rewrite length_app; cbn; lia).
          rewrite length_app. cbn [length].
          replace (S (length pre) + S k - (length pre + 1))%nat with (S k) by lia.
          by replace (S (length pre) - (length pre + 1))%nat with 0%nat by lia.
        + change (t :: <[k:=d0]> Drest) with (<[0%nat := t]> (<[S k := d0]> (d0 :: Drest))).
          by apply Permutation_insert_swap. }
    destruct (if negb (S (length pre) + k =? S (length pre))%nat then _ else _)
      as [paths1|]; [|done]. subst paths1. cbn [mbind option_bind].
    assert (Hlen1 : length D1 = n).
    { apply Permutation_length in Hperm. cbn [length] in *. lia. }
    destruct (IH D1 (pre ++ [a]) t Hlen1) as (D' & E & HpD & Hchain).
    { by rewrite Hperm. }
    rewrite length_app in E. cbn [length] in E. rewrite Nat.add_1_r in E.
    apply Permutation_length in Hperm as Hl. cbn [length] in Hl, Hlen.
    replace (length (d0 :: Drest)) with (S (length D1)) by (cbn [length]; lia). rewrite E.
    exists (t :: D'). rewrite <- app_assoc. split; [done|].
    split; [by rewrite HpD|]. split; [|done].
    intros c da dc Hc Hda Hdc.
    assert (da = Vector3.distanceToSquared e f) as ->.
    { unfold gapSqrd in Hda. rewrite Ee, Hf in Hda. cbn in Hda. by injection Hda. }
    apply (Hgap c dc); [|done]. rewrite <- Hperm. right. by rewrite <- HpD.
Qed.

(** X27.  The sort of the paths, when no path is empty: it returns a
    permutation of the paths that starts with the same path, in which
    every path is followed by one that starts nearest to its end among
    all the paths after it. *)
Theorem sortPaths_chains_nearest paths :
  Forall (fun t => t <> []) paths ->
  exists paths', sortPaths paths = Some paths' /\
    paths' ≡ₚ paths /\ head paths' = head paths /\ nearestNext 0 paths'.
Proof.
  intros Hne. unfold sortPaths. destruct paths as [|a D].
  - exists []. split; [done|]. split; [done|]. split; [done|].
    intros i' j a b c da dc _ _ Ha. done.
  - destruct (sortFrom_spec (length D) D [] a eq_refl Hne) as (D' & E & Hp & Hc).
    cbn [length app] in *. rewrite E. exists (a :: D'). split; [done|].
    split; [by rewrite Hp|]. split; [done|]. by apply nearestChain_nearestNext.
Qed.

(** ** The edges of the greedy search *)

Lemma insertHashByCost_Permutation cost h l : insertHashByCost cost h l ≡ₚ h :: l.
Proof.
  induction l as [|k l IH]; cbn [insertHashByCost]; [done|].
  destruct (Qltb (cost k) (cost h)); [|done]. by rewrite IH, Permutation_swap.
Qed.

Lemma insertHashByCost_sorted cost h l :
  StronglySorted (fun h k => (cost h <= cost k)%Q) l ->
  StronglySorted (fun h k => (cost h <= cost k)%Q) (insertHashByCost cost h l).
Proof.
  induction l as [|k l IH]; intros Hs; cbn [insertHashByCost].
  - by repeat constructor.
  - apply StronglySorted_inv in Hs as [Hs Hk].
    destruct (Qltb (cost k) (cost h)) eqn:E.
    + apply Qltb_lt in E. constructor; [by apply IH|].
      rewrite insertHashByCost_Permutation. constructor; [by apply Qlt_le_weak|done].
    + apply Qltb_ge in E. constructor; [by constructor|].
      constructor; [done|]. eapply Forall_impl; [exact Hk|].
      intros x Hx. cbn in Hx. by eapply Qle_trans.
Qed.

Lemma sortHashes_spec cost l :
  foldr (insertHashByCost cost) [] l ≡ₚ l /\
  StronglySorted (fun h k => (cost h <= cost k)%Q) (foldr (insertHashByCost cost) [] l).
Proof.
  induction l as [|h l [IHp IHs]]; cbn [foldr]; [split; [done|constructor]|].
  split; [by rewrite insertHashByCost_Permutation, IHp|by apply insertHashByCost_sorted].
Qed.

Lemma fillStep_Filling g faces face c neighbor :
  Filling g faces c -> face ∈ faces -> neighbor ∈ faceNeighbors g face ->
  Filling g faces (fillStep g face c neighbor) /\
  getHashFromFaces g face neighbor ∈ arrEdgesByCost (fillStep g face c neighbor) /\
  (forall h, h ∈ arrEdgesByCost c -> h ∈ arrEdgesByCost (fillStep g face c neighbor)).
Proof.
  intros [Hnd Hk He] Hf Hn. unfold fillStep.
  destruct (lutEdges c !! getHashFromFaces g face neighbor) as [e|] eqn:E.
  - split; [done|]. split; [|done]. apply Hk. by rewrite E.
  - split; [|split].
    + split; cbn [arrEdgesByCost lutEdges].
      * apply NoDup_app. split; [done|]. split; [|apply NoDup_singleton].
        intros h Hh Hh'. apply list_elem_of_singleton in Hh' as ->.
        apply Hk in Hh. rewrite E in Hh. by destruct Hh.
      * intros h. rewrite elem_of_app, list_elem_of_singleton, Hk.
        rewrite lookup_insert_is_Some. destruct (decide (getHashFromFaces g face neighbor = h)).
        -- subst. tauto.
        -- split; [intros [?|?]; [by right|done]|intros [?|[_ ?]]; [done|by left]].
      * intros h e. cbn [lutEdges]. rewrite lookup_insert_Some.
        intros [[<- <-]|[_ Hl]]; [|by apply He]. by exists face, neighbor.
    + cbn [arrEdgesByCost]. apply elem_of_app. right. by apply list_elem_of_singleton.
    + cbn [arrEdgesByCost]. intros h Hh. apply elem_of_app. by left.
Qed.

Lemma fillInner_Filling g faces face : forall others c,
  Filling g faces c -> face ∈ faces ->
  (forall n, n ∈ others -> n ∈ faceNeighbors g face) ->
  let c' := fold_left (fillStep g face) others c in
  Filling g faces c' /\
  (forall n, n ∈ others -> getHashFromFaces g face n ∈ arrEdgesByCost c') /\
  (forall h, h ∈ arrEdgesByCost c -> h ∈ arrEdgesByCost c').
Proof.
  induction others as [|n others IH]; intros c HF Hf Hn; cbn [fold_left].
  - split; [done|]. split; [|done]. intros n Hn'. by apply elem_of_nil in Hn'.
  - destruct (fillStep_Filling g faces face c n HF Hf) as (HF1 & Hin & Hmono).
    { apply Hn. by left. }
    destruct (IH _ HF1 Hf) as (HF' & Hall & Hmono').
    { intros m Hm. apply Hn. by right. }
    split; [done|]. split; [|by auto].
    intros m Hm. apply elem_of_cons in Hm as [->|Hm]; [by apply Hmono'|by apply Hall].
Qed.

Lemma fillOuter_Filling g faces : forall l c,
  Filling g faces c -> (forall f, f ∈ l -> f ∈ faces) ->
  let c' := fold_left (fun c face => fold_left (fillStep g face) (faceNeighbors g face) c) l c in
  Filling g faces c' /\
  (forall f n, f ∈ l -> n ∈ faceNeighbors g f ->
     getHashFromFaces g f n ∈ arrEdgesByCost c') /\
  (forall h, h ∈ arrEdgesByCost c -> h ∈ arrEdgesByCost c').
Proof.
  induction l as [|face l IH]; intros c HF Hl; cbn [fold_left].
  - split; [done|]. split; [|done]. intros f n Hf. by apply elem_of_nil in Hf.
  - destruct (fillInner_Filling g faces face (faceNeighbors g face) c HF) as (HF1 & Hall1 & Hm1).
    { apply Hl. by left. }
    { done. }
    destruct (IH _ HF1) as (HF' & Hall & Hmono).
    { intros f Hf. apply Hl. by right. }
    split; [done|]. split; [|by auto].
    intros f n Hf Hn. apply elem_of_cons in Hf as [->|Hf]; [|by apply Hall].
    by apply Hmono, Hall1.
Qed.

Lemma populateFromFaces_spec g faces :
  let c := populateFromFaces g faces in
  EdgesSorted c /\ EdgesOf g faces c /\
  (forall f n, f ∈ faces -> n ∈ faceNeighbors g f ->
     getHashFromFaces g f n ∈ arrEdgesByCost c).
Proof.
  assert (H0 : Filling g faces emptyEdges).
  { split; unfold EdgesOf, emptyEdges; cbn [arrEdgesByCost lutEdges]; [constructor| |].
    - intros h. rewrite lookup_empty. split; [by intros ?%elem_of_nil|by intros []].
    - intros h e. by rewrite lookup_empty. }
  destruct (fillOuter_Filling g faces faces emptyEdges H0 ltac:(done)) as ([Hnd Hk He] & Hall & _).
  unfold populateFromFaces. fold (fillStep g).
  set (c0 := fold_left _ faces emptyEdges) in *. cbv zeta.
  destruct (sortHashes_spec (fun h => match lutEdges c0 !! h with
                                      | Some e => Edge.cost e | None => 0%Q end)
              (arrEdgesByCost c0)) as [Hp Hs].
  split; [split|split]; cbn [arrEdgesByCost lutEdges].
  - by rewrite Hp.
  - intros h. by rewrite Hp.
  - exact Hs.
  - exact He.
  - intros f n Hf Hn. rewrite Hp. by apply Hall.
Qed.

Lemma StronglySorted_impl_elem {A} (R R' : relation A) l :
  (forall x y, x ∈ l -> y ∈ l -> R x y -> R' x y) ->
  StronglySorted R l -> StronglySorted R' l.
Proof.
  intros Himp Hs. induction Hs as [|k l Hs IH Hall]; constructor.
  - apply IH. intros x y Hx Hy. apply Himp; by right.
  - rewrite Forall_forall in Hall |- *. intros x Hx. apply Himp; [by left|by right|by apply Hall].
Qed.

(** X29.  [popLowestCostEdge] on a collection whose array and table
    agree and which is in ascending order of cost: it returns [null]
    only when the collection is empty; otherwise it returns the edge of
    the first hash, whose cost is the lowest of the collection, and
    leaves the other edges in order. *)
Theorem popLowestCostEdge_returns_lowest c :
  EdgesSorted c ->
  match popLowestCostEdge c with
  | (c', Some e) =>
      exists h, arrEdgesByCost c = h :: arrEdgesByCost c' /\
        lutEdges c !! h = Some e /\ lutEdges c' = delete h (lutEdges c) /\
        EdgesSorted c' /\
        (forall h' e', lutEdges c !! h' = Some e' -> (Edge.cost e <= Edge.cost e')%Q)
  | (c', None) => arrEdgesByCost c = [] /\ c' = c
  end.
Proof.
  intros [Hnd Hk Hs]. unfold popLowestCostEdge.
  destruct (arrEdgesByCost c) as [|h rest] eqn:Earr; [done|].
  destruct (proj1 (Hk h) ltac:(left)) as [e He]. rewrite He.
  apply NoDup_cons in Hnd as [Hh Hnd]. apply StronglySorted_inv in Hs as [Hs Hmin].
  exists h. split; [done|]. split; [done|]. split; [done|].
  assert (Hcost : forall k, k ∈ rest ->
            edgeCost (mkEC (delete h (lutEdges c)) rest) k = edgeCost c k).
  { intros k Hk'. unfold edgeCost. cbn [lutEdges].
    rewrite lookup_delete_ne; [done|]. by intros ->. }
  split; [split; cbn [arrEdgesByCost lutEdges]|].
  - done.
  - intros k. rewrite lookup_delete_is_Some, <- Hk. split.
    + intros Hin. split; [by intros ->|by right].
    + intros [Hne [->|Hin]%elem_of_cons]; done.
  - eapply StronglySorted_impl_elem; [|exact Hs].
    intros x y Hx Hy Hxy. cbn beta. by rewrite !Hcost.
  - intros h' e' He'. assert (Hin : h' ∈ h :: rest) by (apply Hk; by rewrite He').
    apply elem_of_cons in Hin as [->|Hin].
    + rewrite He in He'. injection He' as ->. apply Qle_refl.
    + rewrite Forall_forall in Hmin. specialize (Hmin h' Hin).
      unfold edgeCost in Hmin. by rewrite He, He' in Hmin.
Qed.

(** ** The degrees of the faces in the greedy selection *)

Lemma incrementFaceDegrees_Visited g e : Visited g (incrementFaceDegrees g e).
Proof.
  unfold incrementFaceDegrees. eapply Visited_trans; apply incrDegree_Visited.
Qed.

Lemma incrementFaceDegrees_bound g e :
  Edge.face1 e <> Edge.face2 e -> isValid g e = true ->
  (forall f, (degree (fget g f) <= 2)%nat) ->
  forall f, (degree (fget (incrementFaceDegrees g e) f) <= 2)%nat.
Proof.
  intros Hne Hv Hb f. unfold isValid in Hv. apply andb_true_iff in Hv as [H1 H2].
  apply Nat.ltb_lt in H1, H2. unfold incrementFaceDegrees.
  rewrite !incrDegree_degree. specialize (Hb f).
  repeat case_decide; subst; try lia; congruence.
Qed.

Lemma chainWalk_graph fuel g c target : forall chainedEdge chainFace c' g',
  chainWalk fuel g c target chainedEdge chainFace = Some (c', g') ->
  g' = g \/ g' = incrementFaceDegrees g target.
Proof.
  induction fuel as [|fuel IH]; intros chainedEdge chainFace c' g' Hw; [done|].
  cbn [chainWalk] in Hw.
  destruct (getMatchingEdge g c (Some chainedEdge) chainFace) as [ce|].
  - destruct (_ && _).
    + destruct (addEdge c target); [|done]. cbn in Hw. injection Hw as _ <-. by right.
    + destruct (negb _); [by eapply IH|]. injection Hw as _ <-. by left.
  - destruct (addEdge c target); [|done]. cbn in Hw. injection Hw as _ <-. by right.
Qed.

Lemma selectEdges_degrees fuel : forall g edges selectedEdges sel' g',
  (forall h e, lutEdges edges !! h = Some e -> Edge.face1 e <> Edge.face2 e) ->
  (forall f, (degree (fget g f) <= 2)%nat) ->
  selectEdges fuel g edges selectedEdges = Some (sel', g') ->
  Visited g g' /\ forall f, (degree (fget g' f) <= 2)%nat.
Proof.
  induction fuel as [|fuel IH]; intros g edges sel sel' g' Hp Hb Hs.
  - cbn [selectEdges] in Hs. destruct (arrEdgesByCost edges); [|done].
    injection Hs as _ <-. split; [apply Visited_refl|done].
  - cbn [selectEdges] in Hs. destruct (arrEdgesByCost edges) as [|h rest] eqn:Earr.
    { injection Hs as _ <-. split; [apply Visited_refl|done]. }
    unfold popLowestCostEdge in Hs. rewrite Earr in Hs.
    destruct (lutEdges edges !! h) as [target|] eqn:Et; [|done].
    cbn [mbind option_bind] in Hs.
    assert (Hp' : forall h' e, lutEdges (mkEC (delete h (lutEdges edges)) rest) !! h' = Some e ->
                    Edge.face1 e <> Edge.face2 e).
    { intros h' e. cbn [lutEdges]. rewrite lookup_delete_Some. intros [_ He]. by eapply Hp. }
    pose proof (Hp h target Et) as Hne.
    destruct (isValid g target) eqn:Ev; [|by eapply IH].
    destruct (isIsolated g target).
    + destruct (addEdge sel target) as [sel1|]; [|done]. cbn [mbind option_bind] in Hs.
      eapply IH in Hs as [HV Hb']; [| exact Hp' |by apply incrementFaceDegrees_bound].
      split; [|done]. eapply Visited_trans; [apply incrementFaceDegrees_Visited|done].
    + destruct (addIfNonLooping (S fuel) g sel target) as [[sel1 g1]|] eqn:Ea; [|done].
      cbn [mbind option_bind] in Hs. unfold addIfNonLooping in Ea.
      apply chainWalk_graph in Ea as [->| ->].
      * by eapply IH.
      * eapply IH in Hs as [HV Hb']; [| exact Hp' |by apply incrementFaceDegrees_bound].
        split; [|done]. eapply Visited_trans; [apply incrementFaceDegrees_Visited|done].
Qed.

(** X30.  The selection of the greedy search never gives a face more
    than two selected edges: when no face starts with a degree above 2
    and the selection returns, only degrees have changed, none has
    decreased and none is above 2. *)
Theorem greedySelection_degrees_at_most_two fuel g sel g' :
  (forall f, (degree (fget g f) <= 2)%nat) ->
  greedySelection fuel g = Some (sel, g') ->
  Visited g g' /\ forall f, (degree (fget g' f) <= 2)%nat.
Proof.
  intros Hb Hs. unfold greedySelection in Hs.
  destruct (_ <? 2)%nat.
  { injection Hs as _ <-. split; [apply Visited_refl|done]. }
  eapply selectEdges_degrees; [|exact Hb|exact Hs].
  intros h e He. destruct (populateFromFaces_spec g (arrFaces g)) as (_ & Ho & _).
  destruct (Ho h e He) as (f & n & _ & Hn & -> & _). cbn.
  apply faceNeighbors_elem in Hn as [Hne _]. congruence.
Qed.

Lemma fget_heap g f :
  fget g f = inhabitant \/ exists t, (f, t) ∈ map_to_list (faceHeap g) /\ fget g f = t.
Proof.
  unfold fget. rewrite lookup_total_alt. destruct (faceHeap g !! f) as [t|] eqn:E; [|by left].
  right. exists t. split; [|done]. by apply elem_of_map_to_list.
Qed.

Lemma degrees_of_heap g n :
  (degree (inhabitant : Triangle) <= n)%nat ->
  Forall (fun kv => (degree kv.2 <= n)%nat) (map_to_list (faceHeap g)) ->
  forall f, (degree (fget g f) <= n)%nat.
Proof.
  intros Hd Hall f. destruct (fget_heap g f) as [->|(t & Ht & ->)]; [done|].
  rewrite Forall_forall in Hall. exact (Hall _ Ht).
Qed.

(** ** Further properties of the code *)

Section Extras.
Context `{Sqrt}.

(** X1.  From welded positions and triangles with three different
    corners, [populateFromGeometry] builds a well-formed graph whose
    face array and face lists agree, with one vertex for every position,
    one face for every three indices, and every face of degree 0. *)
Theorem populate_builds_well_formed_graph positions indices s :
  distinctCorners indices = true ->
  populateFromIndexed positions indices = Some s ->
  WF s /\ Listed s /\ verticesCount s = length positions /\
  (3 * facesCount s)%nat = length indices /\
  Forall (fun f => degree (fget s f) = 0%nat) (arrFaces s).
Proof.
  intros Hdist Hs. split; [by eapply populateFromIndexed_WF|].
  destruct (populateFromIndexed_Listed _ _ _ Hdist Hs) as [HL Hdeg]. split; [done|].
  destruct (populateFromIndexed_shape _ _ _ Hs) as (s1 & E1 & HaF & HaV & _).
  destruct (addFaces_Raw _ _ _ _ _ _ _ (addVertices_Raw positions) E1)
    as (f' & [RV RK RF RC RD] & _).
  assert (HD : Forall (fun f => degree (fget s f) = 0%nat) (arrFaces s))
    by (by apply Forall_forall).
  unfold verticesCount, facesCount. rewrite HaV, HaF, RV, RF, !length_seq.
  split; [done|]. split; [|by rewrite <- RF, <- HaF].
  cbn [app] in RC. rewrite <- RC. symmetry.
  rewrite (length_flat_map_const _ 3) by (intros; reflexivity). by rewrite length_seq.
Qed.

(** X2.  After the welding, [populateFromGeometry] throws exactly when
    the index buffer is not made of whole triangles or names a vertex
    that does not exist. *)
Theorem populate_throws_exactly_on_bad_indices positions indices :
  populateFromIndexed positions indices = None <->
  ~ ((exists k, length indices = (3 * k)%nat) /\
     Forall (fun i => (i < length positions)%nat) indices).
Proof.
  rewrite <- populateFromIndexed_is_Some_iff, eq_None_not_Some. done.
Qed.

(** X4.  After [populateFromGeometry] the hash of every face is the
    one [computeHash] gives for the indices its vertices have. *)
Theorem populate_hashes_current positions indices s :
  populateFromIndexed positions indices = Some s ->
  Forall (fun f => hash (fget s f) = currentHash s f) (arrFaces s).
Proof. intros Hs. apply Forall_forall. intros f. exact (populate_hashes _ _ s f Hs). Qed.

(** X5.  [collapse] moves no vertex and writes no hash and no degree:
    whenever it returns, every vertex object has the position it had
    and every face object the hash and the degree it had. *)
Theorem collapse_keeps_positions_and_hashes count s s' :
  collapse count s = Some s' ->
  (forall y, position (vget s' y) = position (vget s y)) /\
  (forall g, hash (fget s' g) = hash (fget s g) /\ degree (fget s' g) = degree (fget s g)).
Proof. apply collapse_Untouched. Qed.

(** X6.  On a well-formed graph, [collapse( count )] for any number
    [count] up to the vertex count runs [ceil( count )] turns: a
    fraction is rounded up, and a count of zero or less removes
    nothing. *)
Theorem collapse_rounds_count_up s (count : Q) :
  WF s -> (count <= inject_Z (Z.of_nat (verticesCount s)))%Q ->
  exists s', collapse count s = Some s' /\ WF s' /\
    verticesCount s' = (verticesCount s - Z.to_nat (Qceiling count))%nat.
Proof. apply collapse_returns. Qed.

(** X8.  On a well-formed graph whose face array and face lists agree,
    [buildGeometry] returns three coordinates for every vertex and
    three indices for every face; every index is below the vertex
    count, and the three indices of a face differ. *)
Theorem buildGeometry_indices_valid s :
  WF s -> Listed s ->
  length (snd (fst (buildGeometry s))) = (3 * verticesCount s)%nat /\
  length (snd (buildGeometry s)) = (3 * facesCount s)%nat /\
  Forall (fun i => (i < verticesCount s)%nat) (snd (buildGeometry s)) /\
  distinctCorners (snd (buildGeometry s)) = true.
Proof. apply buildGeometry_spec. Qed.

(** X11.  Every path [sequentialWalk] returns has at least two points:
    a run of a single point is dropped, for every graph. *)
Theorem sequentialWalk_paths_have_two_points g p :
  Forall (fun path => (2 <= length path)%nat) (snd (sequentialWalk g p)).
Proof. apply Forall_forall. intros path. apply sequentialWalk_paths. Qed.

(** X12.  [nearestNeighborSearch] returns on every graph, whatever
    the degrees it starts from: with enough fuel the loops end, only
    the degrees of faces have changed and none has decreased, and
    every path returned has at least two points. *)
Theorem nearestNeighborSearch_returns g p :
  exists fuel0, forall fuel, (fuel0 <= fuel)%nat ->
    exists g' p' paths,
      nearestNeighborSearch fuel g p = Some (g', p', paths) /\
      Visited g g' /\
      Forall (fun path => (2 <= length path)%nat) paths.
Proof.
  destruct (nearestNeighborSearch_total g p) as [fuel0 Hf]. exists fuel0. intros fuel Hfuel.
  destruct (Hf fuel Hfuel) as (g' & p' & paths & E & HV & Hp).
  exists g', p', paths. split; [done|]. split; [done|]. by apply Forall_forall.
Qed.

(** X13.  When every face of the array starts with degree 0 and the
    array holds the neighbours of its faces, [nearestNeighborSearch]
    on at least two faces leaves no face of the array with degree 0. *)
Theorem nearestNeighborSearch_visits_every_face g p :
  Forall (fun f => degree (fget g f) = 0%nat) (arrFaces g) ->
  Forall (fun f => Forall (fun n => n ∈ arrFaces g) (faceNeighbors g f)) (arrFaces g) ->
  (2 <= facesCount g)%nat ->
  exists fuel0, forall fuel, (fuel0 <= fuel)%nat ->
    exists g' p' paths,
      nearestNeighborSearch fuel g p = Some (g', p', paths) /\
      arrFaces g' = arrFaces g /\
      Forall (fun f => (1 <= degree (fget g' f))%nat) (arrFaces g').
Proof.
  intros H0 Hc H2. destruct (nearestNeighborSearch_covers g p H0 Hc H2) as [fuel0 Hf].
  exists fuel0. intros fuel Hfuel. destruct (Hf fuel Hfuel) as (g' & p' & paths & E & HF & Hd).
  exists g', p', paths. split; [done|]. split; [done|]. by apply Forall_forall.
Qed.

(** X14.  [WrappingPathSearch] returns on every graph: with enough
    fuel the loops end, only degrees have changed and none has
    decreased, and no face of the array is left with degree 0. *)
Theorem WrappingPathSearch_visits_every_face g p :
  exists fuel0, forall fuel, (fuel0 <= fuel)%nat ->
    exists g' p' paths,
      WrappingPathSearch fuel g p = Some (g', p', paths) /\
      Visited g g' /\
      Forall (fun f => (1 <= degree (fget g' f))%nat) (arrFaces g).
Proof.
  destruct (WrappingPathSearch_total g p) as [fuel0 Hf]. exists fuel0. intros fuel Hfuel.
  destruct (Hf fuel Hfuel) as (g' & p' & paths & E & HV & Hd).
  exists g', p', paths. split; [done|]. split; [done|]. by apply Forall_forall.
Qed.

(** X15.  [getNearestNeighbor] returns a neighbour of the face whose
    degree was 0, and has incremented the degree of that neighbour and
    nothing else; when it returns [null] the graph is as it was. *)
Theorem getNearestNeighbor_picks_unvisited_neighbor g p face :
  match getNearestNeighbor g p face with
  | (g', Some best) =>
      g' = incrDegree g best /\ best ∈ faceNeighbors g face /\ degree (fget g best) = 0%nat
  | (g', None) => g' = g
  end.
Proof. apply getNearestNeighbor_spec. Qed.


(** X18.  [removeVertex] on a vertex of a well-formed graph that has
    no faces: the vertex leaves the vertex array, every vertex left
    stores its new position, the cost array is again a permutation of
    the positions, no vertex left lists it as a neighbour, and faces
    are untouched. *)
Theorem removeVertex_of_faceless_vertex s u :
  WF s -> u ∈ arrVertices s -> faces (vget s u) = [] ->
  arrVertices (removeVertex s u) = removeFirst (arrVertices s) u /\
  Indexed (removeVertex s u) /\
  Forall (fun y => u ∉ neighbors (vget (removeVertex s u) y)) (arrVertices (removeVertex s u)) /\
  (forall g, fget (removeVertex s u) g = fget s g) /\
  arrFaces (removeVertex s u) = arrFaces s.
Proof.
  intros [HI HT HM _ _] Hu Hfu.
  destruct (removeVertex_spec s u HI HT HM Hu Hfu) as (HA & _ & HI' & _ & _ & Hnb & _ & Hfg & HaF).
  split; [done|]. split; [done|]. split; [|by split].
  apply Forall_forall. intros y Hy. rewrite HA in Hy.
  assert (Hyu : y <> u).
  { intros ->. exact (removeFirst_NoDup_notin _ _ (idx_nodup _ HI) Hy). }
  apply elem_of_removeFirst in Hy. rewrite Hnb by done.
  apply removeFirst_NoDup_notin. by apply (topo_nb_nodup _ _ HT).
Qed.

(** X19.  [removeFace] on a face that a vertex of a well-formed graph
    lists: the face leaves the face array and the face list of every
    vertex, no two vertices become neighbours, and the graph stays
    well formed as far as adjacency goes. *)
Theorem removeFace_unlists_face s f u :
  WF s -> u ∈ arrVertices s -> f ∈ faces (vget s u) ->
  arrFaces (removeFace s f) = removeFirst (arrFaces s) f /\
  Forall (fun y => faces (vget (removeFace s f) y) = removeFirst (faces (vget s y)) f)
         (arrVertices s) /\
  (forall y w, w ∈ neighbors (vget (removeFace s f) y) -> w ∈ neighbors (vget s y)) /\
  Topology (arrVertices s) (removeFace s f) /\
  (forall g, Mates (arrVertices s) (removeFace s f) g).
Proof.
  intros [HI HT HM _ _] Hu Hf.
  destruct (removeFace_spec (arrVertices s) s f u HT HM Hu Hf)
    as (HT' & HM' & _ & _ & _ & HaF & Hfc & Hsub & _).
  split; [done|]. split; [by apply Forall_forall|]. by split.
Qed.

(** X20.  [computeHash] identifies a face by the set of the indices of
    its vertices: two triples of indices get the same hash exactly when
    one is a permutation of the other. *)
Theorem computeHash_identifies_index_sets i j k i' j' k' :
  hashOf i j k = hashOf i' j' k' <-> [i; j; k] ≡ₚ [i'; j'; k'].
Proof. apply hashOf_eq_iff. Qed.


(** X24.  For indices inside the position attribute,
    [populateFromGeometry] throws exactly when the number of corners is
    not a multiple of three. *)
Theorem populateFromGeometry_throws_on_partial_triangle positions indices :
  Forall (fun i => (i < length positions)%nat) (weldOrder positions indices) ->
  populateFromGeometry positions indices = None <->
  ~ exists k, length (weldOrder positions indices) = (3 * k)%nat.
Proof.
  intros Hr. rewrite <- populateFromGeometry_is_Some_iff by done.
  by rewrite eq_None_not_Some.
Qed.

(** X28.  [populateFromFaces] leaves a collection whose array has no
    duplicates, holds exactly the hashes of the look-up table and is in
    ascending order of cost; every edge joins a face of the array given
    to one of its neighbours, and every such pair of faces has its hash
    in the collection. *)
Theorem populateFromFaces_sorted_edges g faces :
  EdgesSorted (populateFromFaces g faces) /\
  EdgesOf g faces (populateFromFaces g faces) /\
  (forall f n, f ∈ faces -> n ∈ faceNeighbors g f ->
     getHashFromFaces g f n ∈ arrEdgesByCost (populateFromFaces g faces)).
Proof. apply populateFromFaces_spec. Qed.

End Extras.

(** ** Running the model on concrete meshes *)

Section Examples.
#[local] Existing Instance exactSqrt.

(** C5.  [collapse] ends with [this.computeFaceHashes], which names the
    method without calling it: after [collapse( 1 )] on the strip the
    surviving face still carries the hash of its old vertex indices. *)
Theorem C5_hashes_left_stale :
  exists s,
    populateFromIndexed stripPositions stripIndices ≫= collapse 1 = Some s /\
    arrFaces s = [2%nat] /\
    hash (fget s 2%nat) = "2,3,4" /\
    currentHash s 2%nat = "1,2,3".
Proof.
  eexists. split; [vm_compute; reflexivity|].
  repeat split; vm_compute; reflexivity.
Qed.

(** C3.  The binary search that re-inserts a vertex never returns the
    position past the last element: after [collapse( 2 )] on the strip
    the costs along [arrVerticesByCost] are 4, 9/2, 7/2, so the next
    vertex popped (cost 4) is not the cheapest. *)
Theorem C3_cost_order_broken :
  exists s,
    populateFromIndexed stripPositions stripIndices ≫= collapse 2 = Some s /\
    arrVerticesByCost s = [1; 0; 2]%nat /\
    costsInOrder s = [4; 9 # 2; 7 # 2]%Q.
Proof.
  eexists. split; [vm_compute; reflexivity|].
  split; vm_compute; reflexivity.
Qed.


Ltac Qle_compute := unfold Qle; vm_compute; discriminate.


Lemma stripGraph_WF : WF stripGraph.
Proof.
  apply (populateFromIndexed_WF stripPositions stripIndices); [reflexivity|].
  vm_compute. reflexivity.
Qed.

Lemma tetraGraph_WF : WF tetraGraph.
Proof.
  apply (populateFromIndexed_WF tetraPositions tetraIndices); [reflexivity|].
  vm_compute. reflexivity.
Qed.



Lemma C8_faces_keep_distinct_vertices_witness :
  (exists s', collapseLoop 2 stripGraph = Some s' /\ WF s' /\
     forall f, f ∈ arrFaces s' -> distinctVertices (fget s' f)) /\
  (forall u v, u ∈ arrVertices stripGraph -> collapseNeighbor (vget stripGraph u) = Some v ->
     let s1 := deleteEdgeFaces stripGraph u v (length (faces (vget stripGraph u))) in
     forall g, g ∈ faces (vget s1 u) -> hasVertex (fget s1 g) v = false).
Proof.
  apply (C8_faces_keep_distinct_vertices stripGraph 2 stripGraph_WF). vm_compute. lia.
Defined.

Lemma stripGraph_populated : populateFromIndexed stripPositions stripIndices = Some stripGraph.
Proof. vm_compute. reflexivity. Qed.

Lemma stripGraph_Listed : Listed stripGraph.
Proof.
  apply (populateFromIndexed_Listed stripPositions stripIndices); [reflexivity|].
  apply stripGraph_populated.
Qed.

Lemma looseGraph_WF : WF looseGraph.
Proof.
  apply (populateFromIndexed_WF tetraPositions [0; 2; 1]%nat); [reflexivity|].
  vm_compute. reflexivity.
Qed.

Lemma stripEdges_sorted : EdgesSorted stripEdges.
Proof. apply populateFromFaces_spec. Qed.

Lemma stripGraph_degrees f : (degree (fget stripGraph f) <= 2)%nat.
Proof.
  apply degrees_of_heap.
  - vm_compute. lia.
  - apply (bool_decide_unpack _). vm_compute. exact I.
Qed.

Lemma populate_builds_well_formed_graph_witness :
  WF stripGraph /\ Listed stripGraph /\ verticesCount stripGraph = length stripPositions /\
  (3 * facesCount stripGraph)%nat = length stripIndices /\
  Forall (fun f => degree (fget stripGraph f) = 0%nat) (arrFaces stripGraph).
Proof.
  apply (populate_builds_well_formed_graph stripPositions stripIndices stripGraph).
  - reflexivity.
  - vm_compute. reflexivity.
Defined.

Lemma populate_buildGeometry_round_trip_witness :
  snd (fst (buildGeometry stripGraph)) = flat_map coordinates stripPositions /\
  snd (buildGeometry stripGraph) = stripIndices.
Proof.
  apply (populate_buildGeometry_round_trip stripPositions stripIndices stripGraph).
  vm_compute. reflexivity.
Defined.

Lemma populate_hashes_current_witness :
  Forall (fun f => hash (fget stripGraph f) = currentHash stripGraph f) (arrFaces stripGraph).
Proof.
  apply (populate_hashes_current stripPositions stripIndices stripGraph).
  vm_compute. reflexivity.
Defined.

Lemma collapse_keeps_positions_and_hashes_witness :
  (forall y, position (vget stripCollapsed y) = position (vget stripGraph y)) /\
  (forall g, hash (fget stripCollapsed g) = hash (fget stripGraph g) /\
             degree (fget stripCollapsed g) = degree (fget stripGraph g)).
Proof.
  apply (collapse_keeps_positions_and_hashes 1 stripGraph stripCollapsed).
  vm_compute. reflexivity.
Defined.

Lemma collapse_rounds_count_up_witness :
  exists s', collapse (3 # 2) stripGraph = Some s' /\ WF s' /\
    verticesCount s' = (verticesCount stripGraph - Z.to_nat (Qceiling (3 # 2)))%nat.
Proof.
  apply (collapse_rounds_count_up stripGraph (3 # 2) stripGraph_WF). vm_compute. discriminate.
Defined.


Lemma buildGeometry_indices_valid_witness :
  length (snd (fst (buildGeometry stripGraph))) = (3 * verticesCount stripGraph)%nat /\
  length (snd (buildGeometry stripGraph)) = (3 * facesCount stripGraph)%nat /\
  Forall (fun i => (i < verticesCount stripGraph)%nat) (snd (buildGeometry stripGraph)) /\
  distinctCorners (snd (buildGeometry stripGraph)) = true.
Proof. apply (buildGeometry_indices_valid stripGraph stripGraph_WF stripGraph_Listed). Defined.

Lemma modify_returns_valid_geometry_witness :
  exists log position index,
    modifyIndexed stripPositions stripIndices (inject_Z 2) = Some (log, position, index) /\
    length position = (3 * (length stripPositions - Z.to_nat 2))%nat /\
    (exists m, length index = (3 * m)%nat) /\
    Forall (fun i => (i < length stripPositions - Z.to_nat 2)%nat) index /\
    distinctCorners index = true.
Proof.
  apply (modify_returns_valid_geometry stripPositions stripIndices 2).
  - reflexivity.
  - exists 3%nat. reflexivity.
  - vm_compute. repeat constructor.
  - vm_compute. split; discriminate.
Defined.


Lemma nearestNeighborSearch_visits_every_face_witness :
  exists fuel0, forall fuel, (fuel0 <= fuel)%nat ->
    exists g' p' paths,
      nearestNeighborSearch fuel stripGraph (mkSP None None None) = Some (g', p', paths) /\
      arrFaces g' = arrFaces stripGraph /\
      Forall (fun f => (1 <= degree (fget g' f))%nat) (arrFaces g').
Proof.
  apply (nearestNeighborSearch_visits_every_face stripGraph (mkSP None None None)).
  - vm_compute. repeat constructor.
  - apply (bool_decide_unpack _). vm_compute. exact I.
  - vm_compute. lia.
Defined.

Lemma faceNeighbors_symmetric_witness :
  1%nat ∈ arrFaces stripGraph /\ 0%nat ∈ faceNeighbors stripGraph 1%nat.
Proof.
  apply (faceNeighbors_symmetric stripGraph 0%nat 1%nat stripGraph_WF stripGraph_Listed).
  - apply (bool_decide_unpack _). vm_compute. exact I.
  - apply (bool_decide_unpack _). vm_compute. exact I.
Defined.


Lemma removeVertex_of_faceless_vertex_witness :
  arrVertices (removeVertex looseGraph 3) = removeFirst (arrVertices looseGraph) 3%nat /\
  Indexed (removeVertex looseGraph 3) /\
  Forall (fun y => 3%nat ∉ neighbors (vget (removeVertex looseGraph 3) y))
         (arrVertices (removeVertex looseGraph 3)) /\
  (forall g, fget (removeVertex looseGraph 3) g = fget looseGraph g) /\
  arrFaces (removeVertex looseGraph 3) = arrFaces looseGraph.
Proof.
  apply (removeVertex_of_faceless_vertex looseGraph 3%nat looseGraph_WF).
  - apply (bool_decide_unpack _). vm_compute. exact I.
  - vm_compute. reflexivity.
Defined.

Lemma removeFace_unlists_face_witness :
  arrFaces (removeFace stripGraph 0) = removeFirst (arrFaces stripGraph) 0%nat /\
  Forall (fun y => faces (vget (removeFace stripGraph 0) y)
                   = removeFirst (faces (vget stripGraph y)) 0%nat)
         (arrVertices stripGraph) /\
  (forall y w, w ∈ neighbors (vget (removeFace stripGraph 0) y) ->
               w ∈ neighbors (vget stripGraph y)) /\
  Topology (arrVertices stripGraph) (removeFace stripGraph 0) /\
  (forall g, Mates (arrVertices stripGraph) (removeFace stripGraph 0) g).
Proof.
  apply (removeFace_unlists_face stripGraph 0%nat 0%nat stripGraph_WF).
  - apply (bool_decide_unpack _). vm_compute. exact I.
  - apply (bool_decide_unpack _). vm_compute. exact I.
Defined.

Lemma equals_compares_vertex_sets_witness :
  faceEquals stripGraph 0 1 = true <->
  verticesOf (fget stripGraph 0) ≡ₚ verticesOf (fget stripGraph 1).
Proof.
  apply (equals_compares_vertex_sets stripPositions stripIndices stripGraph 0%nat 1%nat).
  - vm_compute. reflexivity.
  - apply (bool_decide_unpack _). vm_compute. exact I.
  - apply (bool_decide_unpack _). vm_compute. exact I.
Defined.



Lemma populateFromGeometry_throws_on_partial_triangle_witness :
  populateFromGeometry soupPositions None = None <->
  ~ exists k, length (weldOrder soupPositions None) = (3 * k)%nat.
Proof.
  apply (populateFromGeometry_throws_on_partial_triangle soupPositions None).
  apply (bool_decide_unpack _). vm_compute. exact I.
Defined.


Lemma sortPaths_chains_nearest_witness :
  exists paths', sortPaths threePaths = Some paths' /\
    paths' ≡ₚ threePaths /\ head paths' = head threePaths /\ nearestNext 0 paths'.
Proof.
  apply (sortPaths_chains_nearest threePaths). repeat constructor; discriminate.
Defined.

Lemma popLowestCostEdge_returns_lowest_witness :
  match popLowestCostEdge stripEdges with
  | (c', Some e) =>
      exists h, arrEdgesByCost stripEdges = h :: arrEdgesByCost c' /\
        lutEdges stripEdges !! h = Some e /\ lutEdges c' = delete h (lutEdges stripEdges) /\
        EdgesSorted c' /\
        (forall h' e', lutEdges stripEdges !! h' = Some e' -> (Edge.cost e <= Edge.cost e')%Q)
  | (c', None) => arrEdgesByCost stripEdges = [] /\ c' = stripEdges
  end.
Proof. apply (popLowestCostEdge_returns_lowest stripEdges stripEdges_sorted). Defined.

Lemma greedySelection_degrees_at_most_two_witness :
  Visited stripGraph stripSelected.2 /\
  forall f, (degree (fget stripSelected.2 f) <= 2)%nat.
Proof.
  apply (greedySelection_degrees_at_most_two 10 stripGraph stripSelected.1 stripSelected.2).
  - apply stripGraph_degrees.
  - vm_compute. reflexivity.
Defined.

End Examples.
